(** * MemorySimulator: a shallow embedding of [virtual_memory.py] and of
    the set-up code of [mygui.py]

    The simulator is a stack of four Python objects, each holding the one
    below it: [FullyAssocTLB] -> [VirtualMemory] -> [SetAssocCache] ->
    [PhysicalMemory].  Every method mutates its object in place, prints
    trace messages through an injected printer and fails by raising
    ([assert], [deque.remove], [dict] lookup, indexing).

    The embedding keeps that shape:
    - Python [int] is [Z]; [//] and [%] are [Z.div] and [Z.modulo], which
      agree with Python's floor division for a non-zero divisor.  The
      theorems about code that divides assume [wf_config], under which
      every divisor is positive;
    - a Python [float] is a double, kept as its mantissa and its
      exponent; the quotient of two [int]s, the conversion of an [int]
      and the product of two [float]s are the exact results rounded to
      the nearest double, and an [OverflowError] where Python raises one.
      The [float] argument of [randomize_page_table] is written as a
      rational and read as a Python literal is: it stands for the double
      nearest to it;
    - every method is a computation [M S A] over the state [S] of its
      object: it returns an outcome (a value or the exception raised), the
      state reached (the mutations made before a [raise] stay in place,
      as in Python) and the messages printed, oldest first;
    - an object holding another one is a record with a field for it, and
      [zoom] runs a method of the inner object on that field;
    - [dict] is [gmap], [set] is [gset], [deque] and [list] are [list]. *)

From Stdlib Require Import ZArith List Bool Lia QArith.
From stdpp Require Import base tactics option list list_numbers gmap sets strings pretty.

Local Open Scope Z_scope.

(** ** Exceptions, trace messages and the computation monad *)

Inductive error : Type :=
  | AssertionError
  | IndexError
  | KeyError
  | ValueError
  | OverflowError
  | ZeroDivisionError.

Inductive outcome (A : Type) : Type :=
  | Ok (a : A)
  | Raise (e : error).
Arguments Ok {A} a.
Arguments Raise {A} e.

(** One constructor per message the source prints (the argument is the
    number interpolated into the message). *)
Inductive event : Type :=
  | PhysRead (block : Z)            (* 读物理内存块 *)
  | PhysWrite (block : Z)           (* 写物理内存块 *)
  | CacheSetFull                    (* Cache 组已满，需要调出 *)
  | CacheBlockLoaded                (* 从内存读取一个块 *)
  | CacheWriteBack (block : Z)      (* cache 块 .. 为脏块，需要写回 *)
  | CacheNoWriteBack (block : Z)    (* cache 块 .. 非脏块，无需写回 *)
  | CacheHit                        (* cache 命中，读取 cache 块 *)
  | CacheMiss                       (* cache 不命中，需要调入 *)
  | VmFull                          (* 主存已满，需要写回一个页 *)
  | VmPageLoaded (page : Z)         (* 将虚页 .. 装入主存 *)
  | VmInvalidateCache               (* 将虚页 .. 所对应的实页的所有 cache 全部作废 *)
  | VmWriteBack (page : Z)          (* 向辅存写回虚页 .. *)
  | VmResident                      (* 虚页在主存中 *)
  | VmFault                         (* 缺页，从辅存中装入 *)
  | TlbFull                         (* TLB 已满，需要换出一行 *)
  | TlbVmSwapped                    (* 虚拟内存发生写回，将 TLB 中的对应行无效化 *)
  | TlbLoaded (page : Z)            (* 将虚页 .. 的页表行读取到 TLB *)
  | TlbDirtyPropagate               (* TLB 脏位被修改，需要写回页表 *)
  | TlbLineInvalidated (page : Z)   (* 令虚页 .. 在 TLB 中的对应行失效 *)
  | TlbHit                          (* 虚页在 TLB 中，直接访问内存 *)
  | TlbMiss.                        (* 虚页不在 TLB 中，需要查页表 *)

Definition M (S A : Type) : Type := S → outcome A * S * list event.

Definition ret {S A} (a : A) : M S A := λ s, (Ok a, s, []).

(** The messages [t1] printed so far come before those of what follows. *)
Definition log {S A} (t1 : list event) (x : outcome A * S * list event)
  : outcome A * S * list event :=
  match x with (r, s, t2) => (r, s, t1 ++ t2) end.

Definition bind {S A B} (m : M S A) (k : A → M S B) : M S B :=
  λ s, match m s with
       | (Ok a, s1, t1) => log t1 (k a s1)
       | (Raise e, s1, t1) => (Raise e, s1, t1)
       end.

Notation "'let*' x := m 'in' k" := (bind m (λ x, k))
  (at level 10, x name, m at level 100, k at level 200, only parsing).
Notation "m >> k" := (bind m (λ _, k))
  (at level 100, k at level 200, right associativity, only parsing).

Definition raise {S A} (e : error) : M S A := λ s, (Raise e, s, []).
Definition get {S} : M S S := λ s, (Ok s, s, []).
Definition modify {S} (f : S → S) : M S unit := λ s, (Ok tt, f s, []).
Definition print {S} (e : event) : M S unit := λ s, (Ok tt, s, [e]).

(** [assert b] *)
Definition assert {S} (b : bool) : M S unit :=
  if b then ret tt else raise AssertionError.

(** A value that exists or else raises [e]. *)
Definition orelse {S A} (o : option A) (e : error) : M S A :=
  match o with Some a => ret a | None => raise e end.

(** Run a method of an inner object on the field that holds it. *)
Definition zoom {S T A} (proj : T → S) (inj : S → T → T) (m : M S A) : M T A :=
  λ t, match m (proj t) with (r, s', evs) => (r, inj s' t, evs) end.

(** A value computed outside the state, or the exception it raised. *)
Definition of_outcome {S A} (r : outcome A) : M S A :=
  match r with Ok a => ret a | Raise e => raise e end.

(** [for x in l: body x] *)
Fixpoint for_each {S A} (l : list A) (body : A → M S unit) : M S unit :=
  match l with
  | [] => ret tt
  | x :: l' => body x >> for_each l' body
  end.

(** ** Python built-ins *)

(** [l[i]]: a negative index counts from the end; out of range is an
    [IndexError]. *)
Definition py_pos {A} (l : list A) (i : Z) : option nat :=
  if 0 <=? i then
    if i <? Z.of_nat (length l) then Some (Z.to_nat i) else None
  else
    if 0 <=? Z.of_nat (length l) + i then Some (Z.to_nat (Z.of_nat (length l) + i))
    else None.

Definition py_get {A} (l : list A) (i : Z) : option A :=
  p ← py_pos l i; l !! p.

(** [range(begin, end, step)] for a positive [step]. *)
Definition py_range (begin end_ step : Z) : list Z :=
  (λ k, begin + k * step) <$> seqZ 0 ((end_ - begin + step - 1) / step).

(** [deque.remove(x)]: drops the first occurrence, [None] (a
    [ValueError]) when there is none. *)
Fixpoint deque_remove {A} `{EqDecision A} (x : A) (l : list A) : option (list A) :=
  match l with
  | [] => None
  | y :: l' => if decide (x = y) then Some l' else (y ::.) <$> deque_remove x l'
  end.

(** ** Python floats

    A finite [float] is an IEEE 754 double: the number [m * 2^e] for a
    mantissa [m] of at most 53 bits and an exponent [e] from -1074 on,
    below [2^1024] in absolute value.  It is kept as the pair [(m, e)],
    and its value is the quotient of [float_num] by [float_den]. *)

Definition float : Type := (Z * Z)%type.

Definition float_num (x : float) : Z := if 0 <=? x.2 then x.1 * 2 ^ x.2 else x.1.
Definition float_den (x : float) : Z := if 0 <=? x.2 then 1 else 2 ^ (- x.2).

(** The integer nearest to [n / d] for a positive [d], the even one when
    two are as near. *)
Definition round_half_even (n d : Z) : Z :=
  let q := n / d in
  let r := n mod d in
  if 2 * r <? d then q
  else if d <? 2 * r then q + 1
  else if Z.even q then q else q + 1.

(** The integer part of the binary logarithm of [a / b], for positive
    [a] and [b]. *)
Definition log2_ratio (a b : Z) : Z :=
  let d := Z.log2 a - Z.log2 b in
  if (if 0 <=? d then b * 2 ^ d <=? a else b <=? a * 2 ^ (- d)) then d else d - 1.

(** [a / b] rounded to 53 significant bits, and to a multiple of
    [2^(-1074)] when it is too small to have that many, for [0 <= a] and
    [0 < b]. *)
Definition nearest_double (a b : Z) : float :=
  if a =? 0 then (0, 0)
  else
    let e := Z.max (log2_ratio a b - 52) (-1074) in
    (if 0 <=? e then round_half_even a (b * 2 ^ e)
     else round_half_even (a * 2 ^ (- e)) b, e).

(** The double nearest to [a / b] for a positive [b]; [None] when it is
    beyond the largest double. *)
Definition round_ratio (a b : Z) : option float :=
  let x := if a <? 0 then
             let y := nearest_double (- a) b in (- y.1, y.2)
           else nearest_double a b in
  if Z.abs (float_num x) <? 2 ^ 1024 * float_den x then Some x else None.

(** [a / b] on two [int]s. *)
Definition py_true_div (a b : Z) : outcome float :=
  if b =? 0 then Raise ZeroDivisionError
  else match (if b <? 0 then round_ratio (- a) (- b) else round_ratio a b) with
       | Some x => Ok x
       | None => Raise OverflowError
       end.

(** The conversion of the [int] operand of an operation on floats. *)
Definition py_float_of_int (n : Z) : outcome float :=
  match round_ratio n 1 with
  | Some x => Ok x
  | None => Raise OverflowError
  end.

(** The float that a literal denotes; [None] is an infinity. *)
Definition py_float (q : Q) : option float := round_ratio (Qnum q) (Z.pos (Qden q)).

(** [x * y]; [None] is an infinity. *)
Definition float_mul (x y : float) : option float :=
  round_ratio (float_num x * float_num y) (float_den x * float_den y).

(** [x <= y] *)
Definition float_leb (x y : float) : bool :=
  float_num x * float_den y <=? float_num y * float_den x.

(** [math.ceil(x)] *)
Definition math_ceil (x : float) : Z := - ((- float_num x) / float_den x).

(** [int(x)], which drops the fractional part. *)
Definition py_int (x : float) : Z := Z.quot (float_num x) (float_den x).

(** ** Configuration: the constructor arguments of the four objects *)

Record Config : Type := mkConfig {
  phys_size : Z;        (* PhysicalMemory.size *)
  block_size : Z;       (* PhysicalMemory.block_size = SetAssocCache.block_size *)
  cache_size : Z;       (* SetAssocCache.size *)
  associativity : Z;    (* SetAssocCache.associativity *)
  vm_size : Z;          (* VirtualMemory.size *)
  page_size : Z;        (* VirtualMemory.page_size *)
  tlb_size : Z          (* len(FullyAssocTLB.table) *)
}.

(** The constructors' assertions, with positive sizes. *)
Record wf_config (cfg : Config) : Prop := {
  wf_block : 0 < block_size cfg;
  wf_phys : 0 < phys_size cfg;
  wf_phys_div : phys_size cfg mod block_size cfg = 0;
  wf_assoc : 0 < associativity cfg;
  wf_cache : 0 < cache_size cfg;
  wf_cache_div : cache_size cfg mod (associativity cfg * block_size cfg) = 0;
  wf_page : 0 < page_size cfg;
  wf_vm : 0 < vm_size cfg;
  wf_vm_div : vm_size cfg mod page_size cfg = 0;
  wf_tlb : 0 <= tlb_size cfg
}.

(** ** PhysicalMemory *)

Module PhysicalMemory.
Section Methods.
Context {S : Type} (cfg : Config).

Definition read (addr : Z) : M S unit :=
  assert ((0 <=? addr) && (addr <? phys_size cfg)) >>
  print (PhysRead (addr / block_size cfg)).

Definition write (addr : Z) : M S unit :=
  assert ((0 <=? addr) && (addr <? phys_size cfg)) >>
  print (PhysWrite (addr / block_size cfg)).
End Methods.
End PhysicalMemory.

(** ** SetAssocCache *)

Module SetAssocCache.

Record Line : Type := mkLine {
  tag : Z;
  valid : bool;
  dirty : bool;
  timer : Z
}.

Definition set_tag (v : Z) (l : Line) : Line :=
  {| tag := v; valid := valid l; dirty := dirty l; timer := timer l |}.
Definition set_valid (v : bool) (l : Line) : Line :=
  {| tag := tag l; valid := v; dirty := dirty l; timer := timer l |}.
Definition set_dirty (v : bool) (l : Line) : Line :=
  {| tag := tag l; valid := valid l; dirty := v; timer := timer l |}.
Definition set_timer (v : Z) (l : Line) : Line :=
  {| tag := tag l; valid := valid l; dirty := dirty l; timer := v |}.

(** [self.data]: the sets, each a list of lines. *)
Abbreviation t := (list (list Line)).

(** [self.data[idx][way]] *)
Definition line_at (data : t) (idx : Z) (way : nat) : option Line :=
  set ← py_get data idx; set !! way.

(** An assignment to a field of [self.data[idx][way]]. *)
Definition upd_line (idx : Z) (way : nat) (f : Line → Line) (data : t) : t :=
  match py_pos data idx with
  | Some i => alter (alter f way) i data
  | None => data
  end.

(** [next((way for way in ways if p(self.data[idx][way])), None)] *)
Fixpoint next_way (p : Line → bool) (data : t) (idx : Z) (ways : list nat)
  : outcome (option nat) :=
  match ways with
  | [] => Ok None
  | w :: ws =>
      match line_at data idx w with
      | None => Raise IndexError
      | Some l => if p l then Ok (Some w) else next_way p data idx ws
      end
  end.

(** [max(ways, key=lambda way: self.data[idx][way].timer)]: the running
    maximum is replaced only by a strictly greater key. *)
Fixpoint max_loop (data : t) (idx : Z) (best : nat) (best_key : Z) (ways : list nat)
  : outcome nat :=
  match ways with
  | [] => Ok best
  | w :: ws =>
      match line_at data idx w with
      | None => Raise IndexError
      | Some l =>
          if best_key <? timer l then max_loop data idx w (timer l) ws
          else max_loop data idx best best_key ws
      end
  end.

Definition max_timer_way (data : t) (idx : Z) (ways : list nat) : outcome nat :=
  match ways with
  | [] => Raise ValueError
  | w :: ws =>
      match line_at data idx w with
      | None => Raise IndexError
      | Some l => max_loop data idx w (timer l) ws
      end
  end.

Section Methods.
Variable cfg : Config.

(** [__init__]: every line is [Line()]. *)
Definition init : t :=
  replicate (Z.to_nat (cache_size cfg / (associativity cfg * block_size cfg)))
    (replicate (Z.to_nat (associativity cfg)) (mkLine 0 false false 0)).

Definition ways : list nat := seq 0 (Z.to_nat (associativity cfg)).

Definition _get_addr_info (addr : Z) : Z * Z * Z :=
  let transp_size := cache_size cfg / associativity cfg in
  (addr / transp_size,
   (addr mod transp_size) / block_size cfg,
   (addr mod transp_size) mod block_size cfg).

Definition _get_addr (tg idx block_addr : Z) : Z :=
  tg * (cache_size cfg / associativity cfg) + idx * block_size cfg + block_addr.

Definition _swap_out (idx : Z) (way : nat) : M t unit :=
  let* data := get in
  assert ((0 <=? idx) && (idx <? Z.of_nat (length data))) >>
  assert (Z.of_nat way <? associativity cfg) >>
  let block := idx * associativity cfg + Z.of_nat way in
  let* line := orelse (line_at data idx way) IndexError in
  assert (valid line) >>
  (if dirty line then
     print (CacheWriteBack block) >>
     PhysicalMemory.write cfg (_get_addr (tag line) idx 0)
   else print (CacheNoWriteBack block)) >>
  modify (upd_line idx way (set_valid false)).

(** [math.ceil(self.physical.size / self.size)] *)
Definition tag_bound : outcome Z :=
  match py_true_div (phys_size cfg) (cache_size cfg) with
  | Ok x => Ok (math_ceil x)
  | Raise e => Raise e
  end.

(** The first assertion is [assert tag >= 0 and tag < math.ceil(...)]:
    the bound is computed only for a tag that is not negative. *)
Definition _swap_in (tg idx : Z) : M t nat :=
  let* data := get in
  (if 0 <=? tg then
     let* bound := of_outcome tag_bound in
     assert (tg <? bound)
   else raise AssertionError) >>
  assert ((0 <=? idx) && (idx <? Z.of_nat (length data))) >>
  let* free := of_outcome (next_way (λ l, negb (valid l)) data idx ways) in
  let* way :=
    match free with
    | Some way => ret way
    | None =>
        print CacheSetFull >>
        let* way := of_outcome (max_timer_way data idx ways) in
        _swap_out idx way >>
        ret way
    end in
  let* data := get in
  orelse (line_at data idx way) IndexError >>
  PhysicalMemory.read cfg (_get_addr tg idx 0) >>
  print CacheBlockLoaded >>
  modify (upd_line idx way (λ l, set_dirty false (set_valid true (set_tag tg l)))) >>
  ret way.

(** The loop [for line in self.data[idx]: line.timer += 1]. *)
Definition tick_set (idx : Z) (data : t) : t :=
  match py_pos data idx with
  | Some i => alter (fmap (λ l, set_timer (timer l + 1) l)) i data
  | None => data
  end.

(** [read] and [write] are the same text but for the one statement
    [line.dirty = True] of [write]. *)
Definition access (is_write : bool) (addr : Z) : M t unit :=
  assert ((0 <=? addr) && (addr <? phys_size cfg)) >>
  let '(tg, idx, _) := _get_addr_info addr in
  let* data := get in
  let* set := orelse (py_get data idx) IndexError in
  let* way :=
    match list_find (λ l, valid l && bool_decide (tag l = tg)) set with
    | Some (way, _) => print CacheHit >> ret way
    | None => print CacheMiss >> _swap_in tg idx
    end in
  (if is_write then modify (upd_line idx way (set_dirty true)) else ret tt) >>
  modify (upd_line idx way (set_timer 0)) >>
  let* data := get in
  orelse (py_get data idx) IndexError >>
  modify (tick_set idx).

Definition read (addr : Z) : M t unit := access false addr.
Definition write (addr : Z) : M t unit := access true addr.

(** The body of the loop of [invalidate]. *)
Definition invalidate_at (addr : Z) : M t unit :=
  let '(tg, idx, _) := _get_addr_info addr in
  let* data := get in
  let* hit := of_outcome
                (next_way (λ l, valid l && bool_decide (tag l = tg)) data idx ways) in
  match hit with
  | Some way => _swap_out idx way
  | None => ret tt
  end.

Definition invalidate (begin end_ : Z) : M t unit :=
  for_each (py_range (begin - begin mod block_size cfg) end_ (block_size cfg))
    invalidate_at.
End Methods.
End SetAssocCache.

(** ** VirtualMemory *)

Module VirtualMemory.

Record Page : Type := mkPage {
  physical : Z;
  dirty : bool
}.

Definition set_physical (v : Z) (p : Page) : Page :=
  {| physical := v; dirty := dirty p |}.
Definition set_dirty (v : bool) (p : Page) : Page :=
  {| physical := physical p; dirty := v |}.

Record t : Type := mk {
  main_mem : list (list SetAssocCache.Line);
  page_table : gmap Z Page;
  frame_set : gset Z;
  lru_queue : list Z
}.

Definition set_main_mem (v : list (list SetAssocCache.Line)) (s : t) : t :=
  {| main_mem := v; page_table := page_table s;
     frame_set := frame_set s; lru_queue := lru_queue s |}.
Definition set_page_table (v : gmap Z Page) (s : t) : t :=
  {| main_mem := main_mem s; page_table := v;
     frame_set := frame_set s; lru_queue := lru_queue s |}.
Definition set_frame_set (v : gset Z) (s : t) : t :=
  {| main_mem := main_mem s; page_table := page_table s;
     frame_set := v; lru_queue := lru_queue s |}.
Definition set_lru_queue (v : list Z) (s : t) : t :=
  {| main_mem := main_mem s; page_table := page_table s;
     frame_set := frame_set s; lru_queue := v |}.

(** [self.page_table.setdefault(page, Page())] *)
Definition setdefault (page : Z) (pt : gmap Z Page) : gmap Z Page :=
  match pt !! page with
  | Some _ => pt
  | None => <[page := mkPage 0 false]> pt
  end.

Section Methods.
Variable cfg : Config.
(** [set.pop()] removes an element of the set that the simulator does
    not choose: [pop_choice] is that choice, and the theorems hold for
    every choice that returns an element of the set ([pop_spec]). *)
Variable pop_choice : gset Z → Z.
(** [random.sample(population, k)] *)
Variable sample : list Z → nat → list Z.

Definition init : t :=
  {| main_mem := SetAssocCache.init cfg;
     page_table := ∅;
     frame_set := list_to_set (seqZ 0 (phys_size cfg / page_size cfg));
     lru_queue := [] |}.

(** The body of the loop of [randomize_page_table]. *)
Definition randomize_step (entry : Z * Z) : M t unit :=
  let '(page, frame) := entry in
  modify (λ st, set_page_table
                  (alter (set_physical frame) page (setdefault page (page_table st))) st) >>
  let* st := get in
  (if decide (frame ∈ frame_set st) then ret tt else raise KeyError) >>
  modify (λ st, set_frame_set (frame_set st ∖ {[frame]}) st) >>
  modify (λ st, set_lru_queue (lru_queue st ++ [page]) st).

(** [int(mem_usage * n)] for the float [mem_usage] and the [int] [n]:
    [n] is converted to a float, the product is rounded, and its
    fractional part is dropped; an infinite product cannot be
    converted. *)
Definition sample_size (mem_usage : float) (n : Z) : outcome Z :=
  match py_float_of_int n with
  | Raise e => Raise e
  | Ok y =>
      match float_mul mem_usage y with
      | Some z => Ok (py_int z)
      | None => Raise OverflowError
      end
  end.

(** [assert 0 <= mem_usage <= 1], which an infinity fails too. *)
Definition is_ratio (mem_usage : option float) : bool :=
  match mem_usage with
  | Some x => float_leb (0, 0) x && float_leb x (1, 0)
  | None => false
  end.

(** [random.sample] raises [ValueError] when asked for more elements
    than the population has, or for a negative number of them. *)
Definition randomize_page_table (mem_usage : Q) : M t unit :=
  assert (is_ratio (py_float mem_usage)) >>
  let* st := get in
  let population := elements (frame_set st) in
  let* k := of_outcome
              (match py_float mem_usage with
               | Some x => sample_size x (Z.of_nat (size (frame_set st)))
               | None => Raise OverflowError
               end) in
  (if (0 <=? k) && (k <=? Z.of_nat (length population)) then ret tt
   else raise ValueError) >>
  for_each (imap (λ i frame, (Z.of_nat i, frame)) (sample population (Z.to_nat k)))
    randomize_step.

Definition _swap_out (page : Z) : M t unit :=
  assert ((0 <=? page) && (page <? vm_size cfg / page_size cfg)) >>
  let* st := get in
  assert (bool_decide (is_Some (page_table st !! page))) >>
  let* line := orelse (page_table st !! page) KeyError in
  print VmInvalidateCache >>
  zoom main_mem set_main_mem
    (SetAssocCache.invalidate cfg
       (physical line * page_size cfg) ((physical line + 1) * page_size cfg)) >>
  (if dirty line then print (VmWriteBack page) else ret tt) >>
  modify (λ st, set_frame_set ({[physical line]} ∪ frame_set st) st) >>
  let* st := get in
  let* q := orelse (deque_remove page (lru_queue st)) ValueError in
  modify (set_lru_queue q) >>
  modify (λ st, set_page_table (delete page (page_table st)) st).

(** [line] is the entry that [setdefault] put in the table: the later
    [line.physical = ...] reaches the table only while the entry is
    still there, which [alter] says. *)
Definition _swap_in (page : Z) : M t (option Z) :=
  assert ((0 <=? page) && (page <? vm_size cfg / page_size cfg)) >>
  let* st := get in
  assert (negb (bool_decide (is_Some (page_table st !! page)))) >>
  modify (λ st, set_page_table
                  (alter (set_dirty false) page (setdefault page (page_table st))) st) >>
  let* st := get in
  let* swapped :=
    (if bool_decide (size (frame_set st) = 0%nat) then
       print VmFull >>
       let* victim := orelse (head (lru_queue st)) IndexError in
       _swap_out victim >>
       ret (Some victim)
     else ret None) in
  let* st := get in
  (if bool_decide (frame_set st = ∅) then raise KeyError else ret tt) >>
  let frame := pop_choice (frame_set st) in
  modify (λ st, set_frame_set (frame_set st ∖ {[frame]}) st) >>
  modify (λ st, set_page_table (alter (set_physical frame) page (page_table st)) st) >>
  modify (λ st, set_lru_queue (lru_queue st ++ [page]) st) >>
  print (VmPageLoaded page) >>
  ret swapped.

(** [read] and [write] differ in the cache method called and in the
    last statement [line.dirty = True] of [write]. *)
Definition access (is_write : bool) (addr : Z) : M t unit :=
  assert ((0 <=? addr) && (addr <? vm_size cfg)) >>
  let page := addr / page_size cfg in
  let page_addr := addr mod page_size cfg in
  let* st := get in
  (if bool_decide (is_Some (page_table st !! page)) then
     print VmResident >>
     let* q := orelse (deque_remove page (lru_queue st)) ValueError in
     modify (set_lru_queue (q ++ [page]))
   else
     print VmFault >>
     _swap_in page >>
     ret tt) >>
  let* st := get in
  let* line := orelse (page_table st !! page) KeyError in
  let phys_addr := physical line * page_size cfg + page_addr in
  zoom main_mem set_main_mem (SetAssocCache.access cfg is_write phys_addr) >>
  (if is_write then
     modify (λ st, set_page_table (alter (set_dirty true) page (page_table st)) st)
   else ret tt).

Definition read (addr : Z) : M t unit := access false addr.
Definition write (addr : Z) : M t unit := access true addr.
End Methods.
End VirtualMemory.

(** ** FullyAssocTLB *)

Module FullyAssocTLB.

Record Line : Type := mkLine {
  virtual : Z;
  physical : Z;
  valid : bool;
  dirty : bool;
  dirty_dirty : bool
}.

Definition set_valid (v : bool) (l : Line) : Line :=
  {| virtual := virtual l; physical := physical l; valid := v;
     dirty := dirty l; dirty_dirty := dirty_dirty l |}.
Definition set_flags (d dd : bool) (l : Line) : Line :=
  {| virtual := virtual l; physical := physical l; valid := valid l;
     dirty := d; dirty_dirty := dd |}.

Record t : Type := mk {
  virtual_mem : VirtualMemory.t;
  table : list Line;
  lru_queue : list nat
}.

Definition set_virtual_mem (v : VirtualMemory.t) (s : t) : t :=
  {| virtual_mem := v; table := table s; lru_queue := lru_queue s |}.
Definition set_table (v : list Line) (s : t) : t :=
  {| virtual_mem := virtual_mem s; table := v; lru_queue := lru_queue s |}.
Definition set_lru_queue (v : list nat) (s : t) : t :=
  {| virtual_mem := virtual_mem s; table := table s; lru_queue := v |}.

(** [self.virtual_mem.main_mem] *)
Definition zoom_cache {A} (m : M (list (list SetAssocCache.Line)) A) : M t A :=
  zoom virtual_mem set_virtual_mem
    (zoom VirtualMemory.main_mem VirtualMemory.set_main_mem m).

Section Methods.
Variable cfg : Config.
Variable pop_choice : gset Z → Z.

Definition init : t :=
  {| virtual_mem := VirtualMemory.init cfg;
     table := replicate (Z.to_nat (tlb_size cfg)) (mkLine 0 0 false false false);
     lru_queue := [] |}.

Definition _swap_out (idx : nat) : M t unit :=
  let* st := get in
  assert (Z.of_nat idx <? Z.of_nat (length (table st))) >>
  let* line := orelse (table st !! idx) IndexError in
  (if dirty_dirty line then
     print TlbDirtyPropagate >>
     orelse (VirtualMemory.page_table (virtual_mem st) !! virtual line) KeyError >>
     modify (λ st, set_virtual_mem
                     (VirtualMemory.set_page_table
                        (alter (VirtualMemory.set_dirty true) (virtual line)
                           (VirtualMemory.page_table (virtual_mem st)))
                        (virtual_mem st)) st)
   else ret tt) >>
  modify (λ st, set_table (alter (set_valid false) idx (table st)) st) >>
  let* st := get in
  let* q := orelse (deque_remove idx (lru_queue st)) ValueError in
  modify (set_lru_queue q) >>
  print (TlbLineInvalidated (virtual line)).

Definition _swap_in (page : Z) : M t nat :=
  assert ((0 <=? page) && (page <? vm_size cfg / page_size cfg)) >>
  let* st := get in
  let* idx :=
    match list_find (λ l, negb (valid l)) (table st) with
    | Some (idx, _) => ret idx
    | None =>
        print TlbFull >>
        let* idx := orelse (head (lru_queue st)) IndexError in
        _swap_out idx >>
        ret idx
    end in
  let* st := get in
  (if bool_decide (is_Some (VirtualMemory.page_table (virtual_mem st) !! page)) then ret tt
   else
     let* swapped := zoom virtual_mem set_virtual_mem
                       (VirtualMemory._swap_in cfg pop_choice page) in
     match swapped with
     | None => ret tt
     | Some swapped =>
         print TlbVmSwapped >>
         let* st := get in
         match list_find (λ l, bool_decide (virtual l = swapped)) (table st) with
         | Some (swapped_idx, _) => _swap_out swapped_idx
         | None => ret tt
         end
     end) >>
  let* st := get in
  let* source_line :=
    orelse (VirtualMemory.page_table (virtual_mem st) !! page) KeyError in
  orelse (table st !! idx) IndexError >>
  modify (λ st, set_table
                  (alter (λ _, {| virtual := page;
                                  physical := VirtualMemory.physical source_line;
                                  valid := true;
                                  dirty := VirtualMemory.dirty source_line;
                                  dirty_dirty := false |}) idx (table st)) st) >>
  print (TlbLoaded page) >>
  ret idx.

Definition read (addr : Z) : M t unit :=
  assert ((0 <=? addr) && (addr <? vm_size cfg)) >>
  let page := addr / page_size cfg in
  let page_addr := addr mod page_size cfg in
  let* st := get in
  match list_find (λ l, valid l && bool_decide (virtual l = page)) (table st) with
  | Some (idx, line) =>
      print TlbHit >>
      zoom_cache (SetAssocCache.read cfg (physical line * page_size cfg + page_addr))
  | None =>
      print TlbMiss >>
      zoom virtual_mem set_virtual_mem (VirtualMemory.read cfg pop_choice addr) >>
      _swap_in page >>
      ret tt
  end.

Definition write (addr : Z) : M t unit :=
  assert ((0 <=? addr) && (addr <? vm_size cfg)) >>
  let page := addr / page_size cfg in
  let page_addr := addr mod page_size cfg in
  let* st := get in
  match list_find (λ l, valid l && bool_decide (virtual l = page)) (table st) with
  | Some (idx, line) =>
      print TlbHit >>
      zoom_cache (SetAssocCache.write cfg (physical line * page_size cfg + page_addr)) >>
      (if negb (dirty line || dirty_dirty line) then
         modify (λ st, set_table (alter (set_flags true true) idx (table st)) st)
       else ret tt)
  | None =>
      print TlbMiss >>
      zoom virtual_mem set_virtual_mem (VirtualMemory.write cfg pop_choice addr) >>
      _swap_in page >>
      ret tt
  end.
End Methods.
End FullyAssocTLB.

(** ** The constructors

    The four [__init__] methods of [virtual_memory.py].  An object is a
    record of its fields; a constructor returns the object or the
    exception that its assertion raises. *)

Module Objects.

(** The three assertion messages of the constructors. *)
Inductive assertion : Type :=
  | PhysicalSizeNotBlocks   (* 内存大小必须是块大小的整数倍 *)
  | CacheSizeNotSets        (* cache 大小必须是相联度与块大小的乘积的整数倍 *)
  | VirtualSizeNotPages.    (* 虚拟内存空间大小必须是页面大小的整数倍 *)

Inductive ctor_error : Type :=
  | CtorAssertionError (msg : assertion)
  | CtorZeroDivisionError
  | CtorValueError.

(** [assert a % b == 0, msg]: the remainder raises when [b] is zero. *)
Definition assert_multiple (a b : Z) (msg : assertion) : ctor_error + unit :=
  if b =? 0 then inl CtorZeroDivisionError
  else if a mod b =? 0 then inr tt
  else inl (CtorAssertionError msg).

Record PhysicalMemoryObj : Type := mkPhysicalMemory {
  pm_size : Z;
  pm_block_size : Z
}.

Record SetAssocCacheObj : Type := mkSetAssocCache {
  sc_physical : PhysicalMemoryObj;
  sc_size : Z;
  sc_associativity : Z;
  sc_block_size : Z;
  sc_data : list (list SetAssocCache.Line)
}.

Record VirtualMemoryObj : Type := mkVirtualMemory {
  vo_main_mem : SetAssocCacheObj;
  vo_size : Z;
  vo_page_size : Z;
  vo_page_table : gmap Z VirtualMemory.Page;
  vo_frame_set : gset Z;
  vo_lru_queue : list Z
}.

Record FullyAssocTLBObj : Type := mkFullyAssocTLB {
  to_virtual_mem : VirtualMemoryObj;
  to_table : list FullyAssocTLB.Line;
  to_lru_queue : list nat
}.

Definition PhysicalMemory__init__ (size block_size : Z)
  : ctor_error + PhysicalMemoryObj :=
  match assert_multiple size block_size PhysicalSizeNotBlocks with
  | inl e => inl e
  | inr _ => inr {| pm_size := size; pm_block_size := block_size |}
  end.

Definition SetAssocCache__init__ (physical : PhysicalMemoryObj) (size associativity : Z)
  : ctor_error + SetAssocCacheObj :=
  match assert_multiple size (associativity * pm_block_size physical) CacheSizeNotSets with
  | inl e => inl e
  | inr _ =>
      inr {| sc_physical := physical;
             sc_size := size;
             sc_associativity := associativity;
             sc_block_size := pm_block_size physical;
             sc_data :=
               replicate (Z.to_nat (size / (associativity * pm_block_size physical)))
                 (replicate (Z.to_nat associativity)
                    (SetAssocCache.mkLine 0 false false 0)) |}
  end.

Definition VirtualMemory__init__ (main_mem : SetAssocCacheObj) (size page_size : Z)
  : ctor_error + VirtualMemoryObj :=
  match assert_multiple size page_size VirtualSizeNotPages with
  | inl e => inl e
  | inr _ =>
      inr {| vo_main_mem := main_mem;
             vo_size := size;
             vo_page_size := page_size;
             vo_page_table := ∅;
             vo_frame_set :=
               list_to_set (seqZ 0 (pm_size (sc_physical main_mem) / page_size));
             vo_lru_queue := [] |}
  end.

Definition FullyAssocTLB__init__ (virtual_mem : VirtualMemoryObj) (size : Z)
  : FullyAssocTLBObj :=
  {| to_virtual_mem := virtual_mem;
     to_table := replicate (Z.to_nat size) (FullyAssocTLB.mkLine 0 0 false false false);
     to_lru_queue := [] |}.

(** The sizes that the methods of a TLB object read from it and from the
    objects below it. *)
Definition config_of (tlb : FullyAssocTLBObj) : Config :=
  let vm := to_virtual_mem tlb in
  let cache := vo_main_mem vm in
  {| phys_size := pm_size (sc_physical cache);
     block_size := sc_block_size cache;
     cache_size := sc_size cache;
     associativity := sc_associativity cache;
     vm_size := vo_size vm;
     page_size := vo_page_size vm;
     tlb_size := Z.of_nat (length (to_table tlb)) |}.

(** The fields that the methods of a TLB object change. *)
Definition state_of (tlb : FullyAssocTLBObj) : FullyAssocTLB.t :=
  let vm := to_virtual_mem tlb in
  {| FullyAssocTLB.virtual_mem :=
       {| VirtualMemory.main_mem := sc_data (vo_main_mem vm);
          VirtualMemory.page_table := vo_page_table vm;
          VirtualMemory.frame_set := vo_frame_set vm;
          VirtualMemory.lru_queue := vo_lru_queue vm |};
     FullyAssocTLB.table := to_table tlb;
     FullyAssocTLB.lru_queue := to_lru_queue tlb |}.

End Objects.

(** ** [mygui.py]: the parameters and the set-up of the simulator *)

Module Gui.
Import Objects.

(** The units of [unit_table], as UTF-8 bytes. *)
Definition unit_table : list string :=
  ["字节"; "KB"; "MB"; "GB"; "TB"; "PB"; "EB"; "ZB"; "YB"]%string.

(** The loop of [show_data_size]; [None] when the fuel runs out. *)
Fixpoint show_data_size_loop (fuel : nat) (size base : Z) : option (Z * Z) :=
  match fuel with
  | O => None
  | S fuel =>
      if size mod 1024 =? 0
      then show_data_size_loop fuel (size / 1024) (base + 1)
      else Some (size, base)
  end.

(** The number and the index of the unit that [show_data_size] prints. *)
Definition show_data_size_parts (fuel : nat) (size : Z) : option (Z * Z) :=
  match show_data_size_loop fuel size 0 with
  | None => None
  | Some (size, base) =>
      Some (if 8 <? base then (Z.shiftl size ((base - 8) * 10), 8) else (size, base))
  end.

Definition show_data_size (fuel : nat) (size : Z) : option (outcome string) :=
  match show_data_size_parts fuel size with
  | None => None
  | Some (size, base) =>
      Some (match (if 0 <=? base then unit_table !! Z.to_nat base else None) with
            | Some unit => Ok (pretty size +:+ " " +:+ unit)%string
            | None => Raise KeyError
            end)
  end.

Record Parameters : Type := mkParameters {
  p_block_size : Z;
  p_physical_block_count : Z;
  p_cache_set_count : Z;
  p_associativity : Z;
  p_virtual_mem_addr_width : Z;
  p_page_size : Z;
  p_tlb_line_count : Z
}.

Definition reset_parameters : Parameters :=
  {| p_block_size := 32;
     p_physical_block_count := 2048;
     p_cache_set_count := 64;
     p_associativity := 1;
     p_virtual_mem_addr_width := 32;
     p_page_size := 2048;
     p_tlb_line_count := 32 |}.

(** [1 << n], which raises [ValueError] for a negative [n]. *)
Definition shift_one (n : Z) : ctor_error + Z :=
  if n <? 0 then inl CtorValueError else inr (Z.shiftl 1 n).

Definition initialize_sim (params : Parameters) : ctor_error + FullyAssocTLBObj :=
  match PhysicalMemory__init__
          (p_physical_block_count params * p_block_size params)
          (p_block_size params) with
  | inl e => inl e
  | inr physical_mem =>
  match SetAssocCache__init__ physical_mem
          (p_cache_set_count params * p_associativity params * p_block_size params)
          (p_associativity params) with
  | inl e => inl e
  | inr cache =>
  match shift_one (p_virtual_mem_addr_width params) with
  | inl e => inl e
  | inr size =>
  match VirtualMemory__init__ cache size (p_page_size params) with
  | inl e => inl e
  | inr virtual_mem =>
      inr (FullyAssocTLB__init__ virtual_mem (p_tlb_line_count params))
  end end end end.

(** The values that the widgets of the form offer. *)
Definition form_params (params : Parameters) : Prop :=
  p_block_size params ∈ [1; 2; 4; 8; 16; 32; 64; 128; 256; 512; 1024] ∧
  1 <= p_physical_block_count params ∧
  1 <= p_cache_set_count params ∧
  p_associativity params ∈ [1; 2; 4; 8] ∧
  13 <= p_virtual_mem_addr_width params ∧
  p_page_size params ∈ [256; 512; 1024; 2048; 4096; 8192] ∧
  1 <= p_tlb_line_count params.

(** The sizes that [initialize_sim] passes to the constructors. *)
Definition config_of_params (params : Parameters) : Config :=
  {| phys_size := p_physical_block_count params * p_block_size params;
     block_size := p_block_size params;
     cache_size := p_cache_set_count params * p_associativity params * p_block_size params;
     associativity := p_associativity params;
     vm_size := 2 ^ p_virtual_mem_addr_width params;
     page_size := p_page_size params;
     tlb_size := p_tlb_line_count params |}.

End Gui.

(** * Vocabulary of the specification *)

(** ** The cache directory *)

(** Number of sets of the cache, [len(self.data)] after [__init__]. *)
Definition nsets (cfg : Config) : Z :=
  cache_size cfg / (associativity cfg * block_size cfg).

(** The directory has the shape [__init__] gave it. *)
Definition cache_shape (cfg : Config) (data : list (list SetAssocCache.Line)) : Prop :=
  length data = Z.to_nat (nsets cfg) ∧
  ∀ set, set ∈ data → length set = Z.to_nat (associativity cfg).

(** No two valid lines of a set carry the same tag. *)
Definition tags_unique (data : list (list SetAssocCache.Line)) : Prop :=
  ∀ i set w1 w2 l1 l2,
    data !! i = Some set → set !! w1 = Some l1 → set !! w2 = Some l2 →
    SetAssocCache.valid l1 = true → SetAssocCache.valid l2 = true →
    SetAssocCache.tag l1 = SetAssocCache.tag l2 → w1 = w2.

(** Every valid line caches a block of the physical memory. *)
Definition lines_in_range (cfg : Config) (data : list (list SetAssocCache.Line)) : Prop :=
  ∀ i set w l,
    data !! i = Some set → set !! w = Some l → SetAssocCache.valid l = true →
    0 <= SetAssocCache.tag l ∧
    SetAssocCache._get_addr cfg (SetAssocCache.tag l) (Z.of_nat i) 0 < phys_size cfg.

(** A cache state that the methods can have built. *)
Definition cache_inv (cfg : Config) (data : list (list SetAssocCache.Line)) : Prop :=
  cache_shape cfg data ∧ tags_unique data ∧ lines_in_range cfg data.

(** [w] is the lowest way of [set] whose counter is the greatest. *)
Definition first_max (set : list SetAssocCache.Line) (w : nat) : Prop :=
  ∃ l, set !! w = Some l ∧
       (∀ j l', set !! j = Some l' → SetAssocCache.timer l' <= SetAssocCache.timer l) ∧
       (∀ j l', (j < w)%nat → set !! j = Some l' →
                SetAssocCache.timer l' < SetAssocCache.timer l).

(** What evicting the line [l] at way [w] of set [idx] prints. *)
Definition evict_events (cfg : Config) (idx : Z) (w : nat) (l : SetAssocCache.Line)
  : list event :=
  let block := idx * associativity cfg + Z.of_nat w in
  if SetAssocCache.dirty l then
    [CacheWriteBack block;
     PhysWrite (SetAssocCache._get_addr cfg (SetAssocCache.tag l) idx 0 / block_size cfg)]
  else [CacheNoWriteBack block].

(** The messages of an eviction from the cache. *)
Definition eviction_event (e : event) : Prop :=
  match e with
  | CacheWriteBack _ | CacheNoWriteBack _ | PhysWrite _ => True
  | _ => False
  end.

(** The three assignments that end [SetAssocCache._swap_in]. *)
Definition fill (tg : Z) (l : SetAssocCache.Line) : SetAssocCache.Line :=
  SetAssocCache.set_dirty false (SetAssocCache.set_valid true (SetAssocCache.set_tag tg l)).

(** The end of [SetAssocCache.read] and [write]: the accessed line
    [self.data[idx][w]] is marked dirty by a write, its counter is reset,
    then every counter of the set is incremented. *)
Definition touch (is_write : bool) (idx : Z) (w : nat)
    (data : list (list SetAssocCache.Line)) : list (list SetAssocCache.Line) :=
  SetAssocCache.tick_set idx
    (SetAssocCache.upd_line idx w (SetAssocCache.set_timer 0)
       (if is_write then SetAssocCache.upd_line idx w (SetAssocCache.set_dirty true) data
        else data)).

(** The tag [tg] is below the bound that [SetAssocCache._swap_in]
    computes. *)
Definition tag_below_bound (cfg : Config) (tg : Z) : Prop :=
  ∃ bound, SetAssocCache.tag_bound cfg = Ok bound ∧ tg < bound.

(** The tag of [addr] passes the assertion of [SetAssocCache._swap_in]. *)
Definition tag_ok (cfg : Config) (addr : Z) : Prop :=
  tag_below_bound cfg (SetAssocCache._get_addr_info cfg addr).1.1.

(** The exception of [SetAssocCache._swap_in] on a tag that is not
    below the bound: that of the quotient when it has none, that of the
    assertion otherwise. *)
Definition tag_error (cfg : Config) : error :=
  match SetAssocCache.tag_bound cfg with
  | Ok _ => AssertionError
  | Raise e => e
  end.

(** The counters after an access of [addr] that took [data] to [data']:
    the accessed line holds the tag of [addr], is valid and has counter 1;
    every other line of its set is as before with its counter
    incremented by one; the other sets are as before. *)
Definition lru_updated (cfg : Config) (addr : Z)
    (data data' : list (list SetAssocCache.Line)) : Prop :=
  let tg := (SetAssocCache._get_addr_info cfg addr).1.1 in
  let idx := (SetAssocCache._get_addr_info cfg addr).1.2 in
  ∃ w l',
    SetAssocCache.line_at data' idx w = Some l' ∧
    SetAssocCache.tag l' = tg ∧ SetAssocCache.valid l' = true ∧
    SetAssocCache.timer l' = 1 ∧
    (∀ w' l, w' ≠ w → SetAssocCache.line_at data idx w' = Some l →
       SetAssocCache.line_at data' idx w'
       = Some (SetAssocCache.set_timer (SetAssocCache.timer l + 1) l)) ∧
    (∀ i, i ≠ Z.to_nat idx → data' !! i = data !! i).

(** The line [l] of set [i] caches the block of one of [addrs]. *)
Definition in_blocks (cfg : Config) (addrs : list Z) (i : nat) (l : SetAssocCache.Line)
  : Prop :=
  Exists (λ a, (SetAssocCache._get_addr_info cfg a).1 = (SetAssocCache.tag l, Z.of_nat i))
    addrs.

(** What [SetAssocCache.invalidate] leaves of a line when its loop runs
    over [addrs], and of the whole directory. *)
Definition inval_line (cfg : Config) (addrs : list Z) (i : nat) (l : SetAssocCache.Line)
  : SetAssocCache.Line :=
  if bool_decide (SetAssocCache.valid l = true ∧ in_blocks cfg addrs i l)
  then SetAssocCache.set_valid false l else l.

Definition invalidate_lines (cfg : Config) (addrs : list Z)
    (data : list (list SetAssocCache.Line)) : list (list SetAssocCache.Line) :=
  imap (λ i, fmap (inval_line cfg addrs i)) data.

(** The block addresses that [SetAssocCache.invalidate] visits. *)
Definition invalidate_addrs (cfg : Config) (begin end_ : Z) : list Z :=
  py_range (begin - begin mod block_size cfg) end_ (block_size cfg).

(** A dirty valid line caches a block of [addrs], whose number is [b]. *)
Definition dirty_block_in (cfg : Config) (addrs : list Z)
    (data : list (list SetAssocCache.Line)) (b : Z) : Prop :=
  ∃ i set w l,
    data !! i = Some set ∧ set !! w = Some l ∧
    SetAssocCache.valid l = true ∧ SetAssocCache.dirty l = true ∧
    in_blocks cfg addrs i l ∧
    b = SetAssocCache._get_addr cfg (SetAssocCache.tag l) (Z.of_nat i) 0 / block_size cfg.

(** The directories that a cache can hold: the one [__init__] builds and
    those any call of [read], [write] or [invalidate] leaves, whether the
    call returns or raises. *)
Inductive cache_reachable (cfg : Config) : list (list SetAssocCache.Line) → Prop :=
  | reach_init : cache_reachable cfg (SetAssocCache.init cfg)
  | reach_read data addr r data' evs :
      cache_reachable cfg data →
      SetAssocCache.read cfg addr data = (r, data', evs) →
      cache_reachable cfg data'
  | reach_write data addr r data' evs :
      cache_reachable cfg data →
      SetAssocCache.write cfg addr data = (r, data', evs) →
      cache_reachable cfg data'
  | reach_invalidate data begin end_ r data' evs :
      cache_reachable cfg data →
      SetAssocCache.invalidate cfg begin end_ data = (r, data', evs) →
      cache_reachable cfg data'.

(** ** The page table and the frames *)

(** Number of page frames of the physical memory. *)
Definition n_frames (cfg : Config) : Z := phys_size cfg / page_size cfg.

(** The frames of the page table [pt] and the free frames [fs] partition
    the frame range: no frame is mapped twice, none is both mapped and
    free, and a number is a frame exactly when it is mapped or free. *)
Definition frames_partition (cfg : Config)
    (pt : gmap Z VirtualMemory.Page) (fs : gset Z) : Prop :=
  (∀ p1 p2 e1 e2,
     pt !! p1 = Some e1 → pt !! p2 = Some e2 →
     VirtualMemory.physical e1 = VirtualMemory.physical e2 → p1 = p2) ∧
  (∀ p e, pt !! p = Some e → VirtualMemory.physical e ∉ fs) ∧
  (∀ f, (f ∈ fs ∨ ∃ p e, pt !! p = Some e ∧ VirtualMemory.physical e = f)
        ↔ 0 <= f < n_frames cfg).

Definition frame_partition (cfg : Config) (st : VirtualMemory.t) : Prop :=
  frames_partition cfg (VirtualMemory.page_table st) (VirtualMemory.frame_set st).

(** [set.pop()] returns an element of the set. *)
Definition pop_spec (pop_choice : gset Z → Z) : Prop :=
  ∀ s, s ≠ ∅ → pop_choice s ∈ s.

(** The states that a [VirtualMemory] can be in: the one [__init__]
    builds, the one [randomize_page_table] makes of it, and those that a
    [read] or a [write] leaves, whether the call returned or raised (a
    call that raises keeps the changes it has made; a
    [randomize_page_table] that raises on the fresh instance has made
    none). *)
Inductive vm_reachable (cfg : Config) (pop_choice : gset Z → Z)
    (sample : list Z → nat → list Z) : VirtualMemory.t → Prop :=
  | vm_reach_init : vm_reachable cfg pop_choice sample (VirtualMemory.init cfg)
  | vm_reach_randomize mem_usage st' evs :
      VirtualMemory.randomize_page_table sample mem_usage (VirtualMemory.init cfg)
      = (Ok tt, st', evs) →
      vm_reachable cfg pop_choice sample st'
  | vm_reach_read st addr r st' evs :
      vm_reachable cfg pop_choice sample st →
      VirtualMemory.read cfg pop_choice addr st = (r, st', evs) →
      vm_reachable cfg pop_choice sample st'
  | vm_reach_write st addr r st' evs :
      vm_reachable cfg pop_choice sample st →
      VirtualMemory.write cfg pop_choice addr st = (r, st', evs) →
      vm_reachable cfg pop_choice sample st'.

(** The states in which an operation has just completed: the one
    [__init__] builds, the one [randomize_page_table] makes of it, and
    those that a [read] or a [write] that returned leaves, from any state
    that the [VirtualMemory] can be in. *)
Inductive vm_completed (cfg : Config) (pop_choice : gset Z → Z)
    (sample : list Z → nat → list Z) : VirtualMemory.t → Prop :=
  | vm_done_init : vm_completed cfg pop_choice sample (VirtualMemory.init cfg)
  | vm_done_randomize mem_usage st' evs :
      VirtualMemory.randomize_page_table sample mem_usage (VirtualMemory.init cfg)
      = (Ok tt, st', evs) →
      vm_completed cfg pop_choice sample st'
  | vm_done_read st addr st' evs :
      vm_reachable cfg pop_choice sample st →
      VirtualMemory.read cfg pop_choice addr st = (Ok tt, st', evs) →
      vm_completed cfg pop_choice sample st'
  | vm_done_write st addr st' evs :
      vm_reachable cfg pop_choice sample st →
      VirtualMemory.write cfg pop_choice addr st = (Ok tt, st', evs) →
      vm_completed cfg pop_choice sample st'.

(** What [VirtualMemory._swap_in(page)] does when no frame is free and
    [victim], mapped by the entry [line], heads the LRU queue:
    - the cache is invalidated over the frame of [victim], which
      completes, writes back exactly the dirty blocks of the frame and
      leaves no valid line caching an address of the frame;
    - [_swap_out(victim)] puts the frame in the free set of a state whose
      cache is the invalidated one;
    - [_swap_in] returns [victim], having given its frame to [page], and
      prints the write-back message exactly when [line] was dirty. *)
Definition eviction_effect (cfg : Config) (pop_choice : gset Z → Z)
    (page victim : Z) (line : VirtualMemory.Page) (st : VirtualMemory.t) : Prop :=
  let frame := VirtualMemory.physical line in
  let begin := frame * page_size cfg in
  let end_ := (frame + 1) * page_size cfg in
  let cache' :=
    invalidate_lines cfg (invalidate_addrs cfg begin end_) (VirtualMemory.main_mem st) in
  let st0 :=
    VirtualMemory.set_page_table
      (<[page := VirtualMemory.mkPage 0 false]> (VirtualMemory.page_table st)) st in
  ∃ evs_c evs,
    SetAssocCache.invalidate cfg begin end_ (VirtualMemory.main_mem st)
    = (Ok tt, cache', evs_c) ∧
    (∀ b, PhysWrite b ∈ evs_c
          ↔ dirty_block_in cfg (invalidate_addrs cfg begin end_)
              (VirtualMemory.main_mem st) b) ∧
    (∀ addr i set w l,
       begin <= addr < end_ →
       cache' !! i = Some set → set !! w = Some l → SetAssocCache.valid l = true →
       (SetAssocCache._get_addr_info cfg addr).1 ≠ (SetAssocCache.tag l, Z.of_nat i)) ∧
    VirtualMemory._swap_out cfg victim st0
    = (Ok tt,
       {| VirtualMemory.main_mem := cache';
          VirtualMemory.page_table := delete victim (VirtualMemory.page_table st0);
          VirtualMemory.frame_set := {[frame]} ∪ VirtualMemory.frame_set st;
          VirtualMemory.lru_queue := tail (VirtualMemory.lru_queue st) |},
       VmInvalidateCache :: evs_c
         ++ (if VirtualMemory.dirty line then [VmWriteBack victim] else [])) ∧
    VirtualMemory._swap_in cfg pop_choice page st
    = (Ok (Some victim),
       {| VirtualMemory.main_mem := cache';
          VirtualMemory.page_table :=
            <[page := VirtualMemory.mkPage frame false]>
              (delete victim (VirtualMemory.page_table st));
          VirtualMemory.frame_set := ∅;
          VirtualMemory.lru_queue := tail (VirtualMemory.lru_queue st) ++ [page] |},
       evs) ∧
    evs = VmFull :: VmInvalidateCache :: evs_c
            ++ (if VirtualMemory.dirty line then [VmWriteBack victim] else [])
            ++ [VmPageLoaded page] ∧
    (VmWriteBack victim ∈ evs ↔ VirtualMemory.dirty line = true).

(** ** The TLB *)

(** The TLB line that translates [addr], if one does: the search that
    opens [FullyAssocTLB.read] and [write]. *)
Definition tlb_lookup (cfg : Config) (addr : Z) (st : FullyAssocTLB.t)
  : option (nat * FullyAssocTLB.Line) :=
  list_find (λ l, FullyAssocTLB.valid l
                  && bool_decide (FullyAssocTLB.virtual l = addr / page_size cfg))
    (FullyAssocTLB.table st).

(** The physical address that a hit on [line] translates [addr] to. *)
Definition tlb_translate (cfg : Config) (addr : Z) (line : FullyAssocTLB.Line) : Z :=
  FullyAssocTLB.physical line * page_size cfg + addr mod page_size cfg.

(** [st] with the cache replaced by [c]. *)
Definition with_cache (c : list (list SetAssocCache.Line)) (st : FullyAssocTLB.t)
  : FullyAssocTLB.t :=
  FullyAssocTLB.set_virtual_mem
    (VirtualMemory.set_main_mem c (FullyAssocTLB.virtual_mem st)) st.

(** Every valid TLB line maps a resident page to the frame that the page
    table gives it. *)
Definition tlb_consistent (st : FullyAssocTLB.t) : Prop :=
  ∀ i l,
    FullyAssocTLB.table st !! i = Some l → FullyAssocTLB.valid l = true →
    ∃ e, VirtualMemory.page_table (FullyAssocTLB.virtual_mem st) !! FullyAssocTLB.virtual l
         = Some e ∧
         VirtualMemory.physical e = FullyAssocTLB.physical l.



(** A read that hits in the TLB changes nothing but the cache. *)
Definition read_hit_effect (cfg : Config) (pop_choice : gset Z → Z) (addr : Z)
    (st : FullyAssocTLB.t) (r : outcome unit)
    (c' : list (list SetAssocCache.Line)) (evs_c : list event) : Prop :=
  ∃ st',
    FullyAssocTLB.read cfg pop_choice addr st = (r, st', TlbHit :: evs_c) ∧
    VirtualMemory.main_mem (FullyAssocTLB.virtual_mem st') = c' ∧
    VirtualMemory.page_table (FullyAssocTLB.virtual_mem st')
    = VirtualMemory.page_table (FullyAssocTLB.virtual_mem st) ∧
    VirtualMemory.frame_set (FullyAssocTLB.virtual_mem st')
    = VirtualMemory.frame_set (FullyAssocTLB.virtual_mem st) ∧
    VirtualMemory.lru_queue (FullyAssocTLB.virtual_mem st')
    = VirtualMemory.lru_queue (FullyAssocTLB.virtual_mem st) ∧
    FullyAssocTLB.table st' = FullyAssocTLB.table st ∧
    FullyAssocTLB.lru_queue st' = FullyAssocTLB.lru_queue st.

(** Every method raises at its first assertion on an address outside
    its range, and [randomize_page_table] on a ratio outside [0, 1],
    before it changes or prints anything. *)
Definition fails_before_mutation (cfg : Config) (pop_choice : gset Z → Z)
    (sample : list Z → nat → list Z) (paddr vaddr : Z) (mem_usage : Q)
    (cache : list (list SetAssocCache.Line)) (vm : VirtualMemory.t)
    (tlb : FullyAssocTLB.t) : Prop :=
  PhysicalMemory.read cfg paddr tt = (Raise AssertionError, tt, []) ∧
  PhysicalMemory.write cfg paddr tt = (Raise AssertionError, tt, []) ∧
  SetAssocCache.read cfg paddr cache = (Raise AssertionError, cache, []) ∧
  SetAssocCache.write cfg paddr cache = (Raise AssertionError, cache, []) ∧
  VirtualMemory.read cfg pop_choice vaddr vm = (Raise AssertionError, vm, []) ∧
  VirtualMemory.write cfg pop_choice vaddr vm = (Raise AssertionError, vm, []) ∧
  FullyAssocTLB.read cfg pop_choice vaddr tlb = (Raise AssertionError, tlb, []) ∧
  FullyAssocTLB.write cfg pop_choice vaddr tlb = (Raise AssertionError, tlb, []) ∧
  VirtualMemory.randomize_page_table sample mem_usage vm = (Raise AssertionError, vm, []).

(** The state that a sequence of TLB accesses leaves, and its outcome. *)
Definition tlb_run (cfg : Config) (ops : list (M FullyAssocTLB.t unit))
  : outcome unit * FullyAssocTLB.t * list event :=
  for_each ops (λ op, op) (FullyAssocTLB.init cfg).

(** ** Configurations and states of the examples *)

(** A concrete [set.pop()]: the first element that [elements] lists. *)
Definition pop_first (s : gset Z) : Z := default 0 (head (elements s)).

(** A [random.sample] for the examples: the first [k] elements. *)
Definition sample_first (l : list Z) (k : nat) : list Z := take k l.

(** The configuration of the scenario of the specification, with one
    frame: block size 4, a direct-mapped cache of 4 sets, page size 16. *)
Definition cfgA : Config :=
  {| phys_size := 16; block_size := 4; cache_size := 16; associativity := 1;
     vm_size := 64; page_size := 16; tlb_size := 2 |}.

(** The same with a 2-way cache of 2 sets and 4 frames. *)
Definition cfgB : Config :=
  {| phys_size := 64; block_size := 4; cache_size := 16; associativity := 2;
     vm_size := 128; page_size := 16; tlb_size := 2 |}.

(** Two frames, four pages and a TLB of three lines. *)
Definition cfgC : Config :=
  {| phys_size := 32; block_size := 4; cache_size := 16; associativity := 1;
     vm_size := 64; page_size := 16; tlb_size := 3 |}.

(** A memory of [2^53 + 1] bytes, with a cache of one line of one byte:
    the quotient of the two sizes is not a double. *)
Definition cfgD : Config :=
  {| phys_size := 2 ^ 53 + 1; block_size := 1; cache_size := 1; associativity := 1;
     vm_size := 2; page_size := 1; tlb_size := 1 |}.

(** The directory of [cfgB] after [write(0)] and [read(8)]: set 0 is
    full, its way 0 is dirty and the older of the two. *)
Definition dataB : list (list SetAssocCache.Line) :=
  [[SetAssocCache.mkLine 0 true true 2; SetAssocCache.mkLine 1 true false 1];
   [SetAssocCache.mkLine 0 false false 0; SetAssocCache.mkLine 0 false false 0]].

(** [cfgA] after a write to page 0: the only frame holds page 0, dirty. *)
Definition vmA0 : VirtualMemory.t :=
  (VirtualMemory.write cfgA pop_first 0 (VirtualMemory.init cfgA)).1.2.

(** [cfgA] after a read of page 0 and a write to page 1, which evicts
    page 0 from the only frame. *)
Definition vmA : VirtualMemory.t :=
  (bind (VirtualMemory.read cfgA pop_first 0)
     (λ _, VirtualMemory.write cfgA pop_first 16) (VirtualMemory.init cfgA)).1.2.

(** [cfgA] after a read of page 0, and after reads of pages 0 and 1. *)
Definition tlbA1 : FullyAssocTLB.t :=
  (tlb_run cfgA [FullyAssocTLB.read cfgA pop_first 0]).1.2.

Definition tlbA2 : FullyAssocTLB.t :=
  (tlb_run cfgA [FullyAssocTLB.read cfgA pop_first 0;
                 FullyAssocTLB.read cfgA pop_first 16]).1.2.


(** [cfgC] after reads of pages 0, 1 and 0 again (a TLB hit). *)
Definition tlbC3 : FullyAssocTLB.t :=
  (tlb_run cfgC [FullyAssocTLB.read cfgC pop_first 0;
                 FullyAssocTLB.read cfgC pop_first 16;
                 FullyAssocTLB.read cfgC pop_first 0]).1.2.

(** On [cfgC], pages 0 and 1 are read, then page 0 again, which hits in
    the TLB and leaves page 0 at the head of the page LRU queue; the
    fault on page 2 that follows evicts page 0, the page accessed last,
    and keeps page 1. *)
Definition hit_page_evicted : Prop :=
  (tlb_run cfgC [FullyAssocTLB.read cfgC pop_first 0;
                 FullyAssocTLB.read cfgC pop_first 16]).1.1 = Ok tt ∧
  is_Some (tlb_lookup cfgC 0
             (tlb_run cfgC [FullyAssocTLB.read cfgC pop_first 0;
                            FullyAssocTLB.read cfgC pop_first 16]).1.2) ∧
  VirtualMemory.lru_queue (FullyAssocTLB.virtual_mem tlbC3) = [0; 1] ∧
  ∃ st evs,
    FullyAssocTLB.read cfgC pop_first 32 tlbC3 = (Ok tt, st, evs) ∧
    VirtualMemory.page_table (FullyAssocTLB.virtual_mem st) !! 0 = None ∧
    is_Some (VirtualMemory.page_table (FullyAssocTLB.virtual_mem st) !! 1).

(** ** Further vocabulary *)

(** Every valid line has a tag that [_swap_in] accepts. *)
Definition tags_bounded (cfg : Config) (data : list (list SetAssocCache.Line)) : Prop :=
  ∀ i set w l,
    data !! i = Some set → set !! w = Some l → SetAssocCache.valid l = true →
    tag_below_bound cfg (SetAssocCache.tag l).

(** The valid lines of a set have positive, pairwise different counters. *)
Definition counters_distinct (data : list (list SetAssocCache.Line)) : Prop :=
  ∀ i set w1 w2 l1 l2,
    data !! i = Some set → set !! w1 = Some l1 → set !! w2 = Some l2 →
    SetAssocCache.valid l1 = true → SetAssocCache.valid l2 = true →
    1 <= SetAssocCache.timer l1 ∧
    (SetAssocCache.timer l1 = SetAssocCache.timer l2 → w1 = w2).

(** The line at way [w'] of set [i] after an access that ended on way [w]
    of set [idx], where [g] is what the miss, if any, did to that line. *)
Definition touched (is_write : bool) (idx : Z) (w : nat)
    (g : SetAssocCache.Line → SetAssocCache.Line)
    (i w' : nat) (l : SetAssocCache.Line) : SetAssocCache.Line :=
  if decide (i = Z.to_nat idx) then
    if decide (w' = w) then
      SetAssocCache.set_timer 1
        (if is_write then SetAssocCache.set_dirty true (g l) else g l)
    else SetAssocCache.set_timer (SetAssocCache.timer l + 1) l
  else l.

(** The page LRU queue lists every resident page once, and no other
    page. *)
Definition lru_consistent (st : VirtualMemory.t) : Prop :=
  NoDup (VirtualMemory.lru_queue st) ∧
  ∀ p, p ∈ VirtualMemory.lru_queue st ↔ is_Some (VirtualMemory.page_table st !! p).

(** Every resident page is a page of the virtual address space. *)
Definition pages_in_range (cfg : Config) (st : VirtualMemory.t) : Prop :=
  ∀ p, is_Some (VirtualMemory.page_table st !! p) →
       0 <= p < vm_size cfg / page_size cfg.

(** Every page of the virtual address space is resident. *)
Definition all_resident (cfg : Config) (st : VirtualMemory.t) : Prop :=
  ∀ p, 0 <= p < vm_size cfg / page_size cfg →
       is_Some (VirtualMemory.page_table st !! p).

(** The states that the methods build when there is a frame: the
    resident pages are pages of the address space, or all of these are
    resident ([randomize_page_table] can seat more pages than the address
    space has). *)
Definition vm_sound (cfg : Config) (st : VirtualMemory.t) : Prop :=
  cache_inv cfg (VirtualMemory.main_mem st) ∧
  frame_partition cfg st ∧
  lru_consistent st ∧
  (pages_in_range cfg st ∨ all_resident cfg st).

(** The states that the methods build when there is no frame: no frame
    is free and none can be taken from a page. *)
Definition vm_stuck (st : VirtualMemory.t) : Prop :=
  VirtualMemory.frame_set st = ∅ ∧ VirtualMemory.lru_queue st = [].

(** The states of a [VirtualMemory] on which no access goes wrong. *)
Definition vm_inv (cfg : Config) (st : VirtualMemory.t) : Prop :=
  cache_inv cfg (VirtualMemory.main_mem st) ∧
  frame_partition cfg st ∧
  lru_consistent st ∧
  pages_in_range cfg st.

(** A sequence of accesses to a [VirtualMemory]: [(true, addr)] is
    [write(addr)] and [(false, addr)] is [read(addr)]. *)
Definition vm_run (cfg : Config) (pop_choice : gset Z → Z) (ops : list (bool * Z))
  : M VirtualMemory.t unit :=
  for_each ops (λ op, VirtualMemory.access cfg pop_choice op.1 op.2).

(** The states of a [FullyAssocTLB]: the one [__init__] builds, and
    those that a [read], a [write] or a [randomize_page_table] of its
    [VirtualMemory] leaves, whether the call returned or raised. *)
Inductive tlb_reachable (cfg : Config) (pop_choice : gset Z → Z)
    (sample : list Z → nat → list Z) : FullyAssocTLB.t → Prop :=
  | tlb_reach_init : tlb_reachable cfg pop_choice sample (FullyAssocTLB.init cfg)
  | tlb_reach_read st addr :
      tlb_reachable cfg pop_choice sample st →
      tlb_reachable cfg pop_choice sample (FullyAssocTLB.read cfg pop_choice addr st).1.2
  | tlb_reach_write st addr :
      tlb_reachable cfg pop_choice sample st →
      tlb_reachable cfg pop_choice sample (FullyAssocTLB.write cfg pop_choice addr st).1.2
  | tlb_reach_randomize st mem_usage :
      tlb_reachable cfg pop_choice sample st →
      tlb_reachable cfg pop_choice sample
        (zoom FullyAssocTLB.virtual_mem FullyAssocTLB.set_virtual_mem
           (VirtualMemory.randomize_page_table sample mem_usage) st).1.2.

(** [read(addr)] or [write(addr)] of a [FullyAssocTLB]. *)
Definition tlb_access (cfg : Config) (pop_choice : gset Z → Z) (is_write : bool)
    (addr : Z) : M FullyAssocTLB.t unit :=
  if is_write then FullyAssocTLB.write cfg pop_choice addr
  else FullyAssocTLB.read cfg pop_choice addr.

(** A sequence of accesses through the TLB, as for [vm_run]. *)
Definition tlb_ops (cfg : Config) (pop_choice : gset Z → Z) (ops : list (bool * Z))
  : M FullyAssocTLB.t unit :=
  for_each ops (λ op, tlb_access cfg pop_choice op.1 op.2).

(** The pages that a sequence of accesses touches. *)
Definition pages_of (cfg : Config) (ops : list (bool * Z)) : gset Z :=
  list_to_set ((λ op, op.2 / page_size cfg) <$> ops).

(** A valid line of the TLB holds the page [p]. *)
Definition tlb_holds (st : FullyAssocTLB.t) (p : Z) : Prop :=
  ∃ i l, FullyAssocTLB.table st !! i = Some l ∧
         FullyAssocTLB.valid l = true ∧ FullyAssocTLB.virtual l = p.

(** The pages of a sequence of accesses in the order of their last
    access, the least recently accessed first: an access moves its page
    to the end. *)
Definition touch_page (q : list Z) (p : Z) : list Z :=
  filter (λ x, x ≠ p) q ++ [p].

Definition recency (cfg : Config) (ops : list (bool * Z)) : list Z :=
  foldl touch_page [] ((λ op, op.2 / page_size cfg) <$> ops).

(** The [n] most recently accessed pages, the least recent first. *)
Definition most_recent (n : nat) (order : list Z) : list Z :=
  drop (length order - n) order.

(** The queue is the tail of the pages in order of last access, and it
    is all of them unless the memory is full. *)
Definition lru_exact (cfg : Config) (order : list Z) (st : VirtualMemory.t) : Prop :=
  NoDup order ∧
  ∃ older, order = older ++ VirtualMemory.lru_queue st ∧
           (older = [] ∨
            length (VirtualMemory.lru_queue st) = Z.to_nat (n_frames cfg)).

(** What [random.sample(population, k)] returns when [k] is at most the
    length of a population without repetition: [k] elements of the
    population, without repetition. *)
Definition sample_spec (sample : list Z → nat → list Z) : Prop :=
  ∀ l k, NoDup l → (k <= length l)%nat →
    length (sample l k) = k ∧ NoDup (sample l k) ∧ sample l k ⊆ l.

(** ** [mygui.py]: stepping through the access list *)

Module GuiRun.

(** The globals of [access]: the position in the access list, the list
    (mode ['W'] is [true], ['R'] is [false]) and the simulator. *)
Record Session : Type := mkSession {
  access_index : Z;
  access_list : list (bool * Z);
  tlb : FullyAssocTLB.t
}.

Definition set_access_index (v : Z) (s : Session) : Session :=
  {| access_index := v; access_list := access_list s; tlb := tlb s |}.
Definition set_tlb (v : FullyAssocTLB.t) (s : Session) : Session :=
  {| access_index := access_index s; access_list := access_list s; tlb := v |}.

Section Methods.
Variable cfg : Config.
Variable pop_choice : gset Z → Z.

(** [access()]: the next operation of the list, if there is one.  It
    returns whether an operation was run; the labels and the tables of
    the page are not modelled. *)
Definition access : M Session bool :=
  let* s := get in
  if Z.of_nat (length (access_list s)) <=? access_index s + 1 then ret false
  else
    modify (λ s, set_access_index (access_index s + 1) s) >>
    let* s := get in
    let* op := orelse (py_get (access_list s) (access_index s)) IndexError in
    zoom tlb set_tlb (tlb_access cfg pop_choice op.1 op.2) >>
    ret true.

(** The button that runs the rest of the list:
    [[access() for _ in range(len(access_list) - access_index - 1)]]. *)
Definition run_all : M Session unit :=
  let* s := get in
  for_each
    (replicate (Z.to_nat (Z.of_nat (length (access_list s)) - access_index s - 1)) tt)
    (λ _, access >> ret tt).

End Methods.
End GuiRun.

(** * Properties *)

(** ** Running computations *)

Lemma log_nil {S A} (x : outcome A * S * list event) : log [] x = x.
Proof. by destruct x as [[r s] t]. Qed.

Lemma log_log {S A} t1 t2 (x : outcome A * S * list event) :
  log t1 (log t2 x) = log (t1 ++ t2) x.
Proof. destruct x as [[r s] t]. simpl. by rewrite app_assoc. Qed.

Lemma log_pair {S A} t1 (r : outcome A) (s : S) t2 :
  log t1 (r, s, t2) = (r, s, t1 ++ t2).
Proof. done. Qed.

Lemma bind_run {S A B} (m : M S A) (k : A → M S B) s a s1 t1 :
  m s = (Ok a, s1, t1) → bind m k s = log t1 (k a s1).
Proof. intros H. unfold bind. by rewrite H. Qed.

Lemma bind_raise {S A B} (m : M S A) (k : A → M S B) s e s1 t1 :
  m s = (Raise e, s1, t1) → bind m k s = (Raise e, s1, t1).
Proof. intros H. unfold bind. by rewrite H. Qed.

Lemma bind_inv {S A B} (m : M S A) (k : A → M S B) s r s' t :
  bind m k s = (r, s', t) →
  (∃ e, m s = (Raise e, s', t) ∧ r = Raise e) ∨
  (∃ a s1 t1 t2, m s = (Ok a, s1, t1) ∧ k a s1 = (r, s', t2) ∧ t = t1 ++ t2).
Proof.
  unfold bind. destruct (m s) as [[[a|e] s1] t1].
  - destruct (k a s1) as [[r2 s2] t2] eqn:Hk. intros [= <- <- <-].
    right. by exists a, s1, t1, t2.
  - intros [= <- <- <-]. left. by exists e.
Qed.

Lemma bind_ret {S A B} (a : A) (k : A → M S B) s : bind (ret a) k s = k a s.
Proof. unfold bind, ret. apply log_nil. Qed.

Lemma bind_get {S B} (k : S → M S B) s : bind get k s = k s s.
Proof. unfold bind, get. apply log_nil. Qed.

Lemma bind_modify {S B} (f : S → S) (k : unit → M S B) s :
  bind (modify f) k s = k tt (f s).
Proof. unfold bind, modify. apply log_nil. Qed.

Lemma bind_print {S B} (e : event) (k : unit → M S B) s :
  bind (print e) k s = log [e] (k tt s).
Proof. done. Qed.

Lemma bind_raise_l {S A B} (e : error) (k : A → M S B) s :
  bind (raise e) k s = (Raise e, s, []).
Proof. done. Qed.

Lemma bind_assoc {S A B C} (m : M S A) (f : A → M S B) (g : B → M S C) s :
  bind (bind m f) g s = bind m (λ x, bind (f x) g) s.
Proof.
  unfold bind. destruct (m s) as [[[a|e] s1] t1]; [|done].
  destruct (f a s1) as [[[b|e] s2] t2]; simpl; [|done].
  destruct (g b s2) as [[r s3] t3]. simpl. by rewrite app_assoc.
Qed.

Lemma bind_assert_true {S B} (b : bool) (k : unit → M S B) s :
  b = true → bind (assert b) k s = k tt s.
Proof. intros ->. apply bind_ret. Qed.

Lemma bind_assert_false {S B} (b : bool) (k : unit → M S B) s :
  b = false → bind (assert b) k s = (Raise AssertionError, s, []).
Proof. by intros ->. Qed.

Lemma bind_orelse_Some {S A B} (o : option A) a e (k : A → M S B) s :
  o = Some a → bind (orelse o e) k s = k a s.
Proof. intros ->. apply bind_ret. Qed.

Lemma bind_orelse_None {S A B} (o : option A) e (k : A → M S B) s :
  o = None → bind (orelse o e) k s = (Raise e, s, []).
Proof. by intros ->. Qed.

Lemma zoom_run {S T A} (proj : T → S) (inj : S → T → T) (m : M S A) t r s' evs :
  m (proj t) = (r, s', evs) → zoom proj inj m t = (r, inj s' t, evs).
Proof. intros H. unfold zoom. by rewrite H. Qed.

Lemma of_outcome_ok {S A} (r : outcome A) (s s' : S) (a : A) evs :
  of_outcome r s = (Ok a, s', evs) → r = Ok a ∧ s' = s ∧ evs = [].
Proof. destruct r; [|done]. by intros [= <- <- <-]. Qed.

Create HintDb mrun.
#[local] Hint Rewrite @bind_ret @bind_get @bind_modify @bind_print @bind_raise_l
  @bind_assoc @log_log @log_pair @log_nil @app_nil_r : mrun.
#[local] Hint Rewrite <- @app_assoc : mrun.

Ltac mrun := repeat (progress (autorewrite with mrun; simpl)).

Lemma log_inv {S A} t1 (x : outcome A * S * list event) r s' t :
  log t1 x = (r, s', t) → ∃ t2, x = (r, s', t2) ∧ t = t1 ++ t2.
Proof. destruct x as [[r0 s0] t0]. simpl. intros [= <- <- <-]. by eexists. Qed.

Lemma bind_ok_inv {S A B} (m : M S A) (k : A → M S B) s b s' t :
  bind m k s = (Ok b, s', t) →
  ∃ a s1 t1 t2, m s = (Ok a, s1, t1) ∧ k a s1 = (Ok b, s', t2) ∧ t = t1 ++ t2.
Proof. intros H. by apply bind_inv in H as [(e & _ & ?)|?]. Qed.

Lemma zoom_inv {S T A} (proj : T → S) (inj : S → T → T) (m : M S A) t r t' evs :
  zoom proj inj m t = (r, t', evs) →
  ∃ s', m (proj t) = (r, s', evs) ∧ t' = inj s' t.
Proof.
  unfold zoom. destruct (m (proj t)) as [[r0 s0] e0]. intros [= <- <- <-]. by eexists.
Qed.

(** Inversion of a computation that returned: every assertion on the way
    held and every lookup succeeded. *)
Ltac minv H :=
  repeat
    first
    [ progress (autorewrite with mrun in H; simpl in H)
    | match type of H with
      | (Raise _, _, _) = (Ok _, _, _) => discriminate H
      | bind (assert ?b) _ _ = (Ok _, _, _) =>
          let E := fresh "Hassert" in
          destruct b eqn:E;
          [rewrite (bind_assert_true _ _ _ eq_refl) in H
          |rewrite (bind_assert_false _ _ _ eq_refl) in H; discriminate H]
      | bind (orelse ?o _) _ _ = (Ok _, _, _) =>
          let E := fresh "Hsome" in
          destruct o eqn:E;
          [rewrite (bind_orelse_Some _ _ _ _ _ eq_refl) in H
          |rewrite (bind_orelse_None _ _ _ _ eq_refl) in H; discriminate H]
      | log _ _ = (Ok _, _, _) =>
          let t := fresh "evs" in
          apply log_inv in H as (t & H & ->)
      | bind (zoom _ _ _) _ _ = (Ok _, _, _) =>
          let a := fresh "a" in let s1 := fresh "s" in
          let t1 := fresh "evs" in let t2 := fresh "evs" in
          let Hz := fresh "Hzoom" in
          apply bind_ok_inv in H as (a & s1 & t1 & t2 & Hz & H & ->);
          apply zoom_inv in Hz as (? & Hz & ->)
      | bind (if ?c then _ else _) _ _ = (Ok _, _, _) =>
          let E := fresh "Hif" in destruct c eqn:E
      | bind _ _ _ = (Ok _, _, _) =>
          let a := fresh "a" in let s1 := fresh "s" in
          let t1 := fresh "evs" in let t2 := fresh "evs" in
          let Hsub := fresh "Hsub" in
          apply bind_ok_inv in H as (a & s1 & t1 & t2 & Hsub & H & ->)
      end ].

(** Boolean range tests from linear facts. *)
Ltac zbool :=
  rewrite ?andb_true_iff, ?Z.leb_le, ?Z.ltb_lt, ?Z.eqb_eq; lia.

Lemma in_range_true (a n : Z) : 0 <= a < n → (0 <=? a) && (a <? n) = true.
Proof. intros. zbool. Qed.

Lemma in_range_false (a n : Z) : ¬ (0 <= a < n) → (0 <=? a) && (a <? n) = false.
Proof.
  intros H. destruct (0 <=? a) eqn:H0; [|done]. destruct (a <? n) eqn:H1; [|done].
  exfalso. apply H. split; [by apply Z.leb_le|by apply Z.ltb_lt].
Qed.

Lemma phys_read_run {S} (cfg : Config) (addr : Z) (s : S) :
  0 <= addr < phys_size cfg →
  PhysicalMemory.read cfg addr s = (Ok tt, s, [PhysRead (addr / block_size cfg)]).
Proof.
  intros H. unfold PhysicalMemory.read. by rewrite bind_assert_true by by apply in_range_true.
Qed.

Lemma phys_write_run {S} (cfg : Config) (addr : Z) (s : S) :
  0 <= addr < phys_size cfg →
  PhysicalMemory.write cfg addr s = (Ok tt, s, [PhysWrite (addr / block_size cfg)]).
Proof.
  intros H. unfold PhysicalMemory.write. by rewrite bind_assert_true by by apply in_range_true.
Qed.

(** ** Python built-ins *)

Lemma py_pos_in_range {A} (l : list A) (i : Z) :
  0 <= i < Z.of_nat (length l) → py_pos l i = Some (Z.to_nat i).
Proof.
  intros [H0 H1]. unfold py_pos.
  rewrite (proj2 (Z.leb_le 0 i) H0), (proj2 (Z.ltb_lt _ _) H1). done.
Qed.

Lemma py_get_in_range {A} (l : list A) (i : Z) :
  0 <= i < Z.of_nat (length l) → py_get l i = l !! Z.to_nat i.
Proof. intros H. unfold py_get. by rewrite py_pos_in_range. Qed.

Lemma py_pos_nat {A} (l : list A) (i : nat) :
  (i < length l)%nat → py_pos l (Z.of_nat i) = Some i.
Proof. intros H. rewrite py_pos_in_range by lia. by rewrite Nat2Z.id. Qed.

Lemma deque_remove_elem_of {A} `{EqDecision A} (x : A) (l : list A) :
  x ∈ l → is_Some (deque_remove x l).
Proof.
  induction l as [|y l IH]; intros Hx; [by apply elem_of_nil in Hx|].
  simpl. case_decide; [by eexists|].
  apply elem_of_cons in Hx as [?|Hx]; [done|].
  destruct (IH Hx) as [q ->]. by eexists.
Qed.

Lemma deque_remove_spec {A} `{EqDecision A} (x : A) (l q : list A) :
  deque_remove x l = Some q →
  ∃ l1 l2, l = l1 ++ x :: l2 ∧ q = l1 ++ l2 ∧ x ∉ l1.
Proof.
  revert q. induction l as [|y l IH]; intros q; simpl; [done|].
  case_decide as Hxy.
  - intros [= <-]. subst y. exists [], l. split_and!; [done..|]. apply not_elem_of_nil.
  - destruct (deque_remove x l) as [q'|] eqn:Hq; [|done]. intros [= <-].
    destruct (IH q' eq_refl) as (l1 & l2 & -> & -> & Hn).
    exists (y :: l1), l2. split_and!; [done..|].
    rewrite not_elem_of_cons. done.
Qed.

(** ** Python floats *)

Lemma round_half_even_lower (n d : Z) :
  0 < d → 2 * (n - round_half_even n d * d) <= d.
Proof.
  intros Hd. unfold round_half_even.
  pose proof (Z.div_mod n d). pose proof (Z.mod_pos_bound n d Hd).
  repeat case_match; rewrite ?Z.ltb_lt, ?Z.ltb_ge in *; nia.
Qed.

Lemma round_half_even_upper (n d : Z) :
  0 < d → 2 * (round_half_even n d * d - n) <= d.
Proof.
  intros Hd. unfold round_half_even.
  pose proof (Z.div_mod n d). pose proof (Z.mod_pos_bound n d Hd).
  repeat case_match; rewrite ?Z.ltb_lt, ?Z.ltb_ge in *; nia.
Qed.

Lemma round_half_even_le (n d y : Z) :
  0 < d → n <= y * d → round_half_even n d <= y.
Proof.
  intros Hd Hy. unfold round_half_even.
  pose proof (Z.div_mod n d). pose proof (Z.mod_pos_bound n d Hd).
  repeat case_match; rewrite ?Z.ltb_lt, ?Z.ltb_ge in *; nia.
Qed.

Lemma round_half_even_ge (n d y : Z) :
  0 < d → y * d <= n → y <= round_half_even n d.
Proof.
  intros Hd Hy. unfold round_half_even.
  pose proof (Z.div_mod n d). pose proof (Z.mod_pos_bound n d Hd).
  repeat case_match; rewrite ?Z.ltb_lt, ?Z.ltb_ge in *; nia.
Qed.

Lemma round_half_even_exact (k d : Z) : 0 < d → round_half_even (k * d) d = k.
Proof.
  intros Hd.
  pose proof (round_half_even_le (k * d) d k Hd).
  pose proof (round_half_even_ge (k * d) d k Hd). lia.
Qed.

Lemma pow2_pos (e : Z) : 0 <= e → 0 < 2 ^ e.
Proof. intros. by apply Z.pow_pos_nonneg. Qed.

Lemma pow2_ge_2 (e : Z) : 1 <= e → 2 <= 2 ^ e.
Proof.
  intros He. replace e with (1 + (e - 1)) by lia.
  rewrite Z.pow_add_r by lia. pose proof (pow2_pos (e - 1)). lia.
Qed.

Lemma log2_ratio_lower (a b : Z) :
  0 < a → 0 < b →
  (0 <= log2_ratio a b → b * 2 ^ log2_ratio a b <= a) ∧
  (log2_ratio a b < 0 → b <= a * 2 ^ (- log2_ratio a b)).
Proof.
  intros Ha Hb. unfold log2_ratio.
  pose proof (Z.log2_spec a Ha) as [Ha1 Ha2].
  pose proof (Z.log2_spec b Hb) as [Hb1 Hb2].
  pose proof (Z.log2_nonneg a) as Hla. pose proof (Z.log2_nonneg b) as Hlb.
  set (la := Z.log2 a) in *. set (lb := Z.log2 b) in *.
  rewrite <- Z.add_1_r in Ha2, Hb2.
  destruct (Z.leb_spec 0 (la - lb)) as [Hd|Hd].
  - destruct (Z.leb_spec (b * 2 ^ (la - lb)) a) as [Ht|Ht]; [split; [done|lia]|].
    split; intros HL.
    + assert (Hp : 2 ^ la = 2 ^ (lb + 1) * 2 ^ (la - lb - 1))
        by (rewrite <- Z.pow_add_r by lia; f_equal; lia).
      pose proof (pow2_pos (la - lb - 1)). nia.
    + replace (- (la - lb - 1)) with 1 by lia.
      replace la with lb in * by lia.
      rewrite Z.pow_add_r in Hb2 by lia. lia.
  - destruct (Z.leb_spec b (a * 2 ^ (- (la - lb)))) as [Ht|Ht]; [split; [lia|done]|].
    split; intros HL; [lia|].
    assert (Hp : 2 ^ (lb + 1) = 2 ^ la * 2 ^ (- (la - lb - 1)))
      by (rewrite <- Z.pow_add_r by lia; f_equal; lia).
    pose proof (pow2_pos (- (la - lb - 1))). nia.
Qed.

Lemma float_den_pos (x : float) : 0 < float_den x.
Proof. unfold float_den. case_match; [lia|]. apply pow2_pos. rewrite Z.leb_gt in *. lia. Qed.

(** The two shapes of the double nearest to a positive quotient. *)
Lemma nearest_double_cases (a b : Z) :
  0 < a → 0 < b →
  ∃ m e, nearest_double a b = (m, e) ∧
    ((0 <= e ∧ m = round_half_even a (b * 2 ^ e) ∧ b * 2 ^ e * 2 ^ 52 <= a)
     ∨ (e < 0 ∧ m = round_half_even (a * 2 ^ (- e)) b ∧
        (e = -1074 ∨ b * 2 ^ 52 <= a * 2 ^ (- e)))).
Proof.
  intros Ha Hb. unfold nearest_double.
  rewrite (proj2 (Z.eqb_neq a 0)) by lia.
  destruct (log2_ratio_lower a b Ha Hb) as [HL1 HL2].
  set (L := log2_ratio a b) in *.
  set (e := Z.max (L - 52) (-1074)).
  eexists _, e. split; [done|].
  destruct (Z.leb_spec 0 e) as [He|He].
  - left. split_and!; [done..|].
    assert (e = L - 52) as -> by lia.
    rewrite <- Z.mul_assoc, <- Z.pow_add_r by lia.
    replace (L - 52 + 52) with L by lia. apply HL1. lia.
  - right. split_and!; [done..|].
    destruct (decide (e = -1074)) as [|Hn]; [by left|right].
    assert (e = L - 52) as -> by lia.
    destruct (Z.le_gt_cases 0 L) as [HL|HL].
    + specialize (HL1 HL).
      replace (2 ^ 52) with (2 ^ L * 2 ^ (- (L - 52)))
        by (rewrite <- Z.pow_add_r by lia; f_equal; lia).
      pose proof (pow2_pos (- (L - 52))). nia.
    + specialize (HL2 HL).
      replace (2 ^ (- (L - 52))) with (2 ^ (- L) * 2 ^ 52)
        by (rewrite <- Z.pow_add_r by lia; f_equal; lia).
      nia.
Qed.

Lemma math_ceil_gt (x : float) (t : Z) :
  t * float_den x < float_num x → t < math_ceil x.
Proof.
  intros H. unfold math_ceil. pose proof (float_den_pos x) as Hd.
  pose proof (Z.mul_div_le (- float_num x) (float_den x) Hd). nia.
Qed.

Lemma math_ceil_le (x : float) (t : Z) :
  float_num x <= t * float_den x → math_ceil x <= t.
Proof.
  intros H. unfold math_ceil. pose proof (float_den_pos x) as Hd.
  assert (- t <= - float_num x / float_den x); [|lia].
  apply Z.div_le_lower_bound; lia.
Qed.

Lemma round_ratio_pos (a b : Z) :
  0 <= a →
  round_ratio a b
  = if Z.abs (float_num (nearest_double a b)) <? 2 ^ 1024 * float_den (nearest_double a b)
    then Some (nearest_double a b) else None.
Proof. intros Ha. unfold round_ratio. by rewrite (proj2 (Z.ltb_ge a 0)) by lia. Qed.

Lemma float_num_nonneg (m e : Z) : 0 <= e → float_num (m, e) = m * 2 ^ e.
Proof. intros. unfold float_num. simpl. by rewrite (proj2 (Z.leb_le 0 e)). Qed.

Lemma float_den_nonneg (m e : Z) : 0 <= e → float_den (m, e) = 1.
Proof. intros. unfold float_den. simpl. by rewrite (proj2 (Z.leb_le 0 e)). Qed.

Lemma float_num_neg (m e : Z) : e < 0 → float_num (m, e) = m.
Proof. intros. unfold float_num. simpl. by rewrite (proj2 (Z.leb_gt 0 e)). Qed.

Lemma float_den_neg (m e : Z) : e < 0 → float_den (m, e) = 2 ^ (- e).
Proof. intros. unfold float_den. simpl. by rewrite (proj2 (Z.leb_gt 0 e)). Qed.

Lemma pow2_53_1024 : 2 ^ 53 < 2 ^ 1024.
Proof. by apply Z.pow_lt_mono_r. Qed.

Lemma pow2_exp_0 (e : Z) : 0 <= e → 2 ^ e < 2 → e = 0.
Proof.
  intros He Hp. destruct (decide (e = 0)); [done|]. pose proof (pow2_ge_2 e). lia.
Qed.

(** The quotient of two sizes below [2^53] is rounded to a double above
    every integer that is below the quotient. *)
Lemma true_div_above (a b t : Z) :
  0 < a < 2 ^ 53 → 0 < b < 2 ^ 53 → 0 <= t → t * b < a →
  ∃ x, py_true_div a b = Ok x ∧ t * float_den x < float_num x.
Proof.
  intros Ha Hb Ht Hlt. unfold py_true_div.
  rewrite (proj2 (Z.eqb_neq b 0)) by lia. rewrite (proj2 (Z.ltb_ge b 0)) by lia.
  rewrite round_ratio_pos by lia.
  pose proof pow2_53_1024 as H1024.
  destruct (nearest_double_cases a b) as (m & e & -> & Hc); [lia..|].
  exists (m, e).
  destruct Hc as [(He & Hm & Hlow)|(He & Hm & Hlow)].
  - rewrite float_num_nonneg, float_den_nonneg by done.
    pose proof (pow2_pos e He) as Hp.
    assert (e = 0) as -> by (apply pow2_exp_0; [done|nia]).
    change (2 ^ 0) with 1 in *. rewrite !Z.mul_1_r in *.
    pose proof (round_half_even_lower a b) as Hr.
    assert (Hle : round_half_even a b <= a) by (apply round_half_even_le; nia).
    assert (Hge : 0 <= round_half_even a b) by (apply round_half_even_ge; lia).
    rewrite <- Hm in *.
    rewrite (proj2 (Z.ltb_lt _ _)) by lia. split; [done|]. nia.
  - rewrite float_num_neg, float_den_neg by done.
    pose proof (pow2_pos (- e)) as Hp.
    pose proof (round_half_even_lower (a * 2 ^ (- e)) b) as Hr.
    assert (Hle : round_half_even (a * 2 ^ (- e)) b <= a * 2 ^ (- e))
      by (apply round_half_even_le; nia).
    assert (Hge : 0 <= round_half_even (a * 2 ^ (- e)) b)
      by (apply round_half_even_ge; nia).
    assert (H1074 : 2 ^ 53 < 2 ^ 1074) by (by apply Z.pow_lt_mono_r).
    rewrite <- Hm in *.
    assert (HbP : b < 2 * 2 ^ (- e)).
    { destruct Hlow as [->|Hlow]; [|nia]. change (- -1074) with 1074. lia. }
    set (P := 2 ^ (- e)) in *.
    rewrite (proj2 (Z.ltb_lt _ _)) by nia. split; [done|]. nia.
Qed.

(** The quotient of two sizes is rounded to a double below every integer
    that is twice the quotient or more, less one. *)
Lemma true_div_below (a b t : Z) (x : float) :
  0 < b <= a → 2 * a <= (t + 1) * b →
  py_true_div a b = Ok x → float_num x <= t * float_den x.
Proof.
  intros Hb Ht. unfold py_true_div.
  rewrite (proj2 (Z.eqb_neq b 0)) by lia. rewrite (proj2 (Z.ltb_ge b 0)) by lia.
  rewrite round_ratio_pos by lia.
  destruct (nearest_double_cases a b) as (m & e & -> & Hc); [lia..|].
  destruct (Z.abs (float_num (m, e)) <? _); [|done]. intros [= Hx]. subst x.
  destruct Hc as [(He & Hm & Hlow)|(He & Hm & Hlow)].
  - rewrite float_num_nonneg, float_den_nonneg by done.
    pose proof (pow2_pos e He) as Hp.
    pose proof (round_half_even_upper a (b * 2 ^ e)) as Hr.
    rewrite <- Hm in *. set (P := 2 ^ e) in *.
    assert (2 * (m * P) * b <= 2 * t * b) by nia. nia.
  - rewrite float_num_neg, float_den_neg by done.
    pose proof (pow2_pos (- e)) as Hp.
    rewrite Hm. apply round_half_even_le; [lia|]. nia.
Qed.

(** [float(n)] is [n] for a natural number below [2^53]. *)
Lemma float_of_int_exact (n : Z) :
  0 <= n < 2 ^ 53 →
  ∃ x, py_float_of_int n = Ok x ∧ float_num x = n * float_den x.
Proof.
  intros Hn. unfold py_float_of_int. rewrite round_ratio_pos by lia.
  pose proof pow2_53_1024 as H1024.
  destruct (decide (n = 0)) as [->|Hn0]; [by eexists|].
  destruct (nearest_double_cases n 1) as (m & e & -> & Hc); [lia..|].
  exists (m, e).
  destruct Hc as [(He & Hm & Hlow)|(He & Hm & Hlow)].
  - rewrite float_num_nonneg, float_den_nonneg by done.
    pose proof (pow2_pos e He) as Hp.
    assert (e = 0) as -> by (apply pow2_exp_0; [done|nia]).
    change (2 ^ 0) with 1 in *.
    pose proof (round_half_even_exact n 1) as Hx. rewrite !Z.mul_1_r in *.
    rewrite Hx in Hm by lia. subst m.
    rewrite (proj2 (Z.ltb_lt _ _)) by lia. by split.
  - rewrite float_num_neg, float_den_neg by done.
    pose proof (pow2_pos (- e)) as Hp.
    pose proof (round_half_even_exact (n * 2 ^ (- e)) 1) as Hx.
    rewrite !Z.mul_1_r in *. rewrite Hx in Hm by lia. subst m.
    rewrite (proj2 (Z.ltb_lt _ _)) by nia. by split.
Qed.

(** A quotient that is at most a natural number [n] below [2^53] is
    rounded to a double whose integer part is at most [n]. *)
Lemma round_ratio_int_le (a b n : Z) :
  0 <= a → 0 < b → a <= n * b → n < 2 ^ 53 →
  ∃ z, round_ratio a b = Some z ∧ 0 <= py_int z <= n.
Proof.
  intros Ha Hb Hle Hn. rewrite round_ratio_pos by lia. unfold py_int.
  pose proof pow2_53_1024 as H1024.
  destruct (decide (a = 0)) as [->|Ha0].
  { exists (0, 0). split; [done|]. vm_compute float_num. vm_compute float_den.
    rewrite Z.quot_0_l by lia. nia. }
  destruct (nearest_double_cases a b) as (m & e & -> & Hc); [lia..|].
  exists (m, e).
  destruct Hc as [(He & Hm & Hlow)|(He & Hm & Hlow)].
  - rewrite float_num_nonneg, float_den_nonneg by done.
    pose proof (pow2_pos e He) as Hp.
    assert (e = 0) as -> by (apply pow2_exp_0; [done|nia]).
    change (2 ^ 0) with 1 in *. rewrite !Z.mul_1_r in *.
    assert (Hr : round_half_even a b <= n) by (by apply round_half_even_le).
    assert (Hge : 0 <= round_half_even a b) by (apply round_half_even_ge; lia).
    rewrite <- Hm in *.
    rewrite (proj2 (Z.ltb_lt _ _)) by lia. split; [done|]. rewrite Z.quot_1_r. lia.
  - rewrite float_num_neg, float_den_neg by done.
    pose proof (pow2_pos (- e)) as Hp.
    assert (Hr : round_half_even (a * 2 ^ (- e)) b <= n * 2 ^ (- e))
      by (apply round_half_even_le; [done|nia]).
    assert (Hge : 0 <= round_half_even (a * 2 ^ (- e)) b)
      by (apply round_half_even_ge; nia).
    rewrite <- Hm in *. set (P := 2 ^ (- e)) in *.
    rewrite (proj2 (Z.ltb_lt _ _)) by nia. split; [done|].
    rewrite Z.quot_div_nonneg by nia. split; [apply Z.div_pos; nia|].
    apply Z.div_le_upper_bound; nia.
Qed.

(** The quotient of a size below [2^1024] by a size of 2 or more is
    finite. *)
Lemma true_div_finite (a b : Z) :
  0 < a < 2 ^ 1024 → 2 <= b → ∃ x, py_true_div a b = Ok x.
Proof.
  intros Ha Hb. unfold py_true_div.
  rewrite (proj2 (Z.eqb_neq b 0)) by lia. rewrite (proj2 (Z.ltb_ge b 0)) by lia.
  rewrite round_ratio_pos by lia.
  destruct (nearest_double_cases a b) as (m & e & -> & Hc); [lia..|].
  exists (m, e).
  destruct Hc as [(He & Hm & Hlow)|(He & Hm & Hlow)].
  - rewrite float_num_nonneg, float_den_nonneg by done.
    pose proof (pow2_pos e He) as Hp.
    assert (He' : e < 1024).
    { apply (Z.pow_lt_mono_r_iff 2); [lia..|]. nia. }
    assert (Hpow : 2 ^ (1023 - e) * 2 ^ e = 2 ^ 1023)
      by (rewrite <- Z.pow_add_r by lia; f_equal; lia).
    assert (H1024 : 2 ^ 1024 = 2 * 2 ^ 1023) by (by rewrite <- Z.pow_succ_r).
    assert (Hle : round_half_even a (b * 2 ^ e) <= 2 ^ (1023 - e))
      by (apply round_half_even_le; nia).
    assert (Hge : 0 <= round_half_even a (b * 2 ^ e))
      by (apply round_half_even_ge; nia).
    rewrite <- Hm in *.
    by rewrite (proj2 (Z.ltb_lt _ _)) by nia.
  - rewrite float_num_neg, float_den_neg by done.
    pose proof (pow2_pos (- e)) as Hp.
    assert (Hle : round_half_even (a * 2 ^ (- e)) b <= a * 2 ^ (- e))
      by (apply round_half_even_le; nia).
    assert (Hge : 0 <= round_half_even (a * 2 ^ (- e)) b)
      by (apply round_half_even_ge; nia).
    rewrite <- Hm in *.
    by rewrite (proj2 (Z.ltb_lt _ _)) by nia.
Qed.

Lemma py_true_div_error (a b : Z) (e : error) :
  0 < b → py_true_div a b = Raise e → e = OverflowError.
Proof.
  intros Hb. unfold py_true_div.
  rewrite (proj2 (Z.eqb_neq b 0)) by lia. rewrite (proj2 (Z.ltb_ge b 0)) by lia.
  destruct (round_ratio a b); [done|]. by intros [= <-].
Qed.

(** ** SetAssocCache: the searches over a set *)

Section CacheSearch.
Import SetAssocCache.
Variable data : list (list Line).
Variable idx : Z.
Variable set : list Line.
Hypothesis Hidx : 0 <= idx < Z.of_nat (length data).
Hypothesis Hset : data !! Z.to_nat idx = Some set.

Lemma line_at_set (w : nat) : line_at data idx w = set !! w.
Proof. unfold line_at. rewrite py_get_in_range by done. by rewrite Hset. Qed.

Lemma next_way_suffix (p : Line → bool) (pre suf : list Line) :
  set = pre ++ suf →
  next_way p data idx (seq (length pre) (length suf))
  = Ok ((λ r, (length pre + r.1)%nat) <$> list_find (λ l, p l) suf).
Proof.
  revert pre. induction suf as [|x suf IH]; intros pre Hs; [done|].
  simpl. rewrite line_at_set, Hs.
  rewrite lookup_app_r, Nat.sub_diag by lia. simpl.
  destruct (p x) eqn:Hp.
  - rewrite decide_True by done. simpl. do 3 f_equal. lia.
  - case_decide as Hd; [by destruct Hd|].
    specialize (IH (pre ++ [x])). rewrite length_app in IH. simpl in IH.
    rewrite Nat.add_1_r in IH. rewrite IH by (by rewrite <- app_assoc).
    f_equal. destruct (list_find _ suf) as [[i y]|]; simpl; [|done].
    do 2 f_equal. lia.
Qed.

Lemma next_way_find (p : Line → bool) :
  next_way p data idx (seq 0 (length set)) = Ok (fst <$> list_find (λ l, p l) set).
Proof.
  pose proof (next_way_suffix p [] set eq_refl) as H. simpl in H. rewrite H. f_equal.
Qed.

Lemma max_loop_first_max (best : nat) (lb : Line) (pre suf : list Line) :
  set = pre ++ suf →
  (best < length pre)%nat →
  pre !! best = Some lb →
  (∀ j l', pre !! j = Some l' → timer l' <= timer lb) →
  (∀ j l', (j < best)%nat → pre !! j = Some l' → timer l' < timer lb) →
  ∃ w, max_loop data idx best (timer lb) (seq (length pre) (length suf)) = Ok w ∧
       first_max set w.
Proof.
  revert best lb pre. induction suf as [|x suf IH]; intros best lb pre Hs Hb Hlb Hmax Hfirst.
  - simpl. exists best. split; [done|]. rewrite app_nil_r in Hs. subst pre.
    exists lb. done.
  - simpl. rewrite line_at_set, Hs.
    rewrite lookup_app_r, Nat.sub_diag by lia. simpl.
    assert (Hs' : set = (pre ++ [x]) ++ suf) by (by rewrite <- app_assoc).
    assert (Hlen : length (pre ++ [x]) = S (length pre))
      by (rewrite length_app; simpl; lia).
    destruct (timer lb <? timer x) eqn:Hlt.
    + apply Z.ltb_lt in Hlt.
      destruct (IH (length pre) x (pre ++ [x]) Hs') as (w & Hw & Hfm).
      * lia.
      * rewrite lookup_app_r, Nat.sub_diag by lia. done.
      * intros j l' Hj. apply lookup_app_Some in Hj as [Hj|[Hge Hj]].
        -- specialize (Hmax _ _ Hj). lia.
        -- apply list_lookup_singleton_Some in Hj as [_ <-]. lia.
      * intros j l' Hj Hl. rewrite lookup_app_l in Hl by done.
        specialize (Hmax _ _ Hl). lia.
      * exists w. rewrite Hlen in Hw. split; [done|]. by rewrite <- Hs.
    + apply Z.ltb_ge in Hlt.
      destruct (IH best lb (pre ++ [x]) Hs') as (w & Hw & Hfm).
      * lia.
      * by rewrite lookup_app_l.
      * intros j l' Hj. apply lookup_app_Some in Hj as [Hj|[Hge Hj]].
        -- by apply (Hmax j).
        -- by apply list_lookup_singleton_Some in Hj as [_ <-].
      * intros j l' Hj Hl. apply (Hfirst j); [done|].
        rewrite lookup_app_l in Hl; [done|lia].
      * exists w. rewrite Hlen in Hw. split; [done|]. by rewrite <- Hs.
Qed.

Lemma max_timer_way_first_max :
  set ≠ [] →
  ∃ w, max_timer_way data idx (seq 0 (length set)) = Ok w ∧ first_max set w.
Proof.
  intros Hne.
  assert (∃ x suf, set = x :: suf) as (x & suf & Hs)
    by (destruct set as [|x suf]; [done|by exists x, suf]).
  destruct (max_loop_first_max 0%nat x [x] suf) as (w & Hw & Hfm); try done.
  - simpl. lia.
  - intros j l' Hj. apply list_lookup_singleton_Some in Hj as [_ <-]. lia.
  - intros j l' Hj. lia.
  - exists w. split; [|done]. rewrite Hs at 1. simpl.
    rewrite line_at_set. rewrite Hs at 1. done.
Qed.

End CacheSearch.

(** ** SetAssocCache: address arithmetic *)

Section CacheAddr.
Import SetAssocCache.
Variable cfg : Config.
Hypothesis Hwf : wf_config cfg.

Lemma cache_size_nsets :
  cache_size cfg = nsets cfg * (associativity cfg * block_size cfg).
Proof.
  destruct Hwf. unfold nsets.
  pose proof (Z.div_mod (cache_size cfg) (associativity cfg * block_size cfg)). nia.
Qed.

Lemma nsets_pos : 0 < nsets cfg.
Proof. destruct Hwf. pose proof cache_size_nsets. nia. Qed.

Lemma transp_size_eq : cache_size cfg / associativity cfg = nsets cfg * block_size cfg.
Proof.
  destruct Hwf. rewrite cache_size_nsets at 1.
  replace (nsets cfg * (associativity cfg * block_size cfg))
    with ((nsets cfg * block_size cfg) * associativity cfg) by ring.
  apply Z.div_mul. lia.
Qed.

Lemma addr_info_idx_range (addr : Z) :
  0 <= (_get_addr_info cfg addr).1.2 < nsets cfg.
Proof.
  destruct Hwf. pose proof nsets_pos.
  unfold _get_addr_info. simpl. rewrite transp_size_eq.
  assert (0 < nsets cfg * block_size cfg) by nia.
  pose proof (Z.mod_pos_bound addr (nsets cfg * block_size cfg)).
  split; [apply Z.div_pos; lia|].
  apply Z.div_lt_upper_bound; lia.
Qed.

Lemma addr_info_tag_nonneg (addr : Z) :
  0 <= addr → 0 <= (_get_addr_info cfg addr).1.1.
Proof.
  intros Ha. destruct Hwf. pose proof nsets_pos.
  unfold _get_addr_info. simpl. rewrite transp_size_eq.
  apply Z.div_pos; nia.
Qed.

Lemma addr_info_tag_neg (addr : Z) :
  addr < 0 → (_get_addr_info cfg addr).1.1 < 0.
Proof.
  intros Ha. destruct Hwf. pose proof nsets_pos.
  unfold _get_addr_info. simpl. rewrite transp_size_eq.
  apply Z.div_lt_upper_bound; nia.
Qed.

Lemma get_addr_le (addr : Z) :
  0 <= addr →
  0 <= _get_addr cfg (_get_addr_info cfg addr).1.1 (_get_addr_info cfg addr).1.2 0
    <= addr.
Proof.
  intros Ha. destruct Hwf. pose proof nsets_pos.
  unfold _get_addr, _get_addr_info. simpl. rewrite transp_size_eq.
  set (T := nsets cfg * block_size cfg).
  assert (0 < T) by (unfold T; nia).
  pose proof (Z.div_mod addr T).
  pose proof (Z.mod_pos_bound addr T).
  pose proof (Z.div_mod (addr mod T) (block_size cfg)).
  pose proof (Z.mod_pos_bound (addr mod T) (block_size cfg)).
  assert (0 <= addr / T) by (apply Z.div_pos; lia).
  assert (0 <= addr mod T / block_size cfg) by (apply Z.div_pos; lia).
  nia.
Qed.

(** A block address decomposes into the tag and set it was built from. *)
Lemma addr_info_get_addr (tg idx : Z) :
  0 <= idx < nsets cfg →
  _get_addr_info cfg (_get_addr cfg tg idx 0) = (tg, idx, 0).
Proof.
  intros Hi. destruct Hwf.
  unfold _get_addr, _get_addr_info. rewrite transp_size_eq.
  set (T := nsets cfg * block_size cfg).
  assert (0 < T) by (unfold T; nia).
  assert (0 <= idx * block_size cfg < T) by (unfold T; nia).
  replace (tg * T + idx * block_size cfg + 0) with (idx * block_size cfg + tg * T) by ring.
  rewrite Z.div_add, Z.mod_add by lia.
  rewrite Z.div_small, Z.mod_small by lia.
  rewrite Z.div_mul, Z.mod_mul by lia. done.
Qed.

(** All the addresses of a block decompose into the same tag and set. *)
Lemma addr_info_block (addr : Z) :
  (_get_addr_info cfg (addr - addr mod block_size cfg)).1
  = (_get_addr_info cfg addr).1.
Proof.
  destruct Hwf. pose proof nsets_pos.
  unfold _get_addr_info. simpl. rewrite transp_size_eq.
  set (B := block_size cfg). set (T := nsets cfg * B).
  assert (0 < T) by (unfold T, B; nia).
  pose proof (Z.div_mod addr T). pose proof (Z.mod_pos_bound addr T).
  pose proof (Z.div_mod (addr mod T) B). pose proof (Z.mod_pos_bound (addr mod T) B).
  assert (Hm : addr mod B = (addr mod T) mod B).
  { unfold T. rewrite Z.mul_comm. rewrite Z.rem_mul_r by (unfold B; lia).
    rewrite Z.mul_comm, Z.mod_add by (unfold B; lia). by rewrite Z.mod_mod by (unfold B; lia). }
  set (q := addr / T) in *. set (r := addr mod T) in *.
  assert (0 <= r / B) by (apply Z.div_pos; unfold B; lia).
  assert (r / B < nsets cfg) by (apply Z.div_lt_upper_bound; unfold B, T in *; lia).
  assert (Hd : addr - addr mod B = (r / B) * B + q * T) by (rewrite Hm; lia).
  assert (0 <= r / B * B < T) by (unfold T; nia).
  rewrite Hd. rewrite Z.div_add, Z.mod_add by lia.
  rewrite (Z.div_small (r / B * B)), (Z.mod_small (r / B * B)) by lia.
  rewrite Z.div_mul by (unfold B; lia). done.
Qed.

End CacheAddr.

(** ** SetAssocCache: what the methods compute *)

Section CacheRun.
Import SetAssocCache.
Variable cfg : Config.
Variable data : list (list Line).
Variable idx : Z.
Variable set : list Line.
Hypothesis Hidx : 0 <= idx < Z.of_nat (length data).
Hypothesis Hset : data !! Z.to_nat idx = Some set.

Lemma swap_out_run (w : nat) (l : Line) :
  set !! w = Some l →
  valid l = true →
  Z.of_nat w < associativity cfg →
  (dirty l = true → 0 <= _get_addr cfg (tag l) idx 0 < phys_size cfg) →
  _swap_out cfg idx w data
  = (Ok tt, upd_line idx w (set_valid false) data, evict_events cfg idx w l).
Proof.
  intros Hl Hv Hw Hr. unfold _swap_out, evict_events. mrun.
  rewrite bind_assert_true by by apply in_range_true.
  rewrite bind_assert_true by zbool.
  rewrite (bind_orelse_Some _ l) by by rewrite (line_at_set _ _ _ Hidx Hset).
  rewrite bind_assert_true by done.
  destruct (dirty l); mrun.
  - by rewrite (bind_run _ _ _ _ _ _ (phys_write_run cfg _ data (Hr eq_refl))).
  - done.
Qed.

Lemma upd_line_alter (w : nat) (f : Line → Line) :
  upd_line idx w f data = alter (alter f w) (Z.to_nat idx) data.
Proof. unfold upd_line. by rewrite py_pos_in_range. Qed.

Lemma tick_set_alter :
  tick_set idx data = alter (fmap (λ l, set_timer (timer l + 1) l)) (Z.to_nat idx) data.
Proof. unfold tick_set. by rewrite py_pos_in_range. Qed.

Lemma upd_line_length (w : nat) (f : Line → Line) :
  length (upd_line idx w f data) = length data.
Proof. rewrite upd_line_alter. apply length_alter. Qed.

Lemma upd_line_lookup (w : nat) (f : Line → Line) :
  upd_line idx w f data !! Z.to_nat idx = Some (alter f w set).
Proof. rewrite upd_line_alter, list_lookup_alter_eq, Hset. done. Qed.

Lemma upd_line_lookup_ne (w : nat) (f : Line → Line) (i : nat) :
  i ≠ Z.to_nat idx → upd_line idx w f data !! i = data !! i.
Proof. intros. rewrite upd_line_alter. by apply list_lookup_alter_ne. Qed.

Lemma upd_line_upd_line (w : nat) (f g : Line → Line) :
  upd_line idx w f (upd_line idx w g data) = upd_line idx w (f ∘ g) data.
Proof.
  unfold upd_line at 1. rewrite py_pos_in_range by by rewrite upd_line_length.
  rewrite !upd_line_alter. rewrite list_alter_alter_eq.
  apply list_alter_ext; [|done]. intros set' _. simpl. by rewrite list_alter_alter_eq.
Qed.

Lemma upd_line_ext (w : nat) (f g : Line → Line) :
  (∀ l, f l = g l) → upd_line idx w f data = upd_line idx w g data.
Proof.
  intros Hfg. rewrite !upd_line_alter.
  apply list_alter_ext; [|done]. intros set' _. by apply list_alter_ext.
Qed.

Lemma upd_line_id (w : nat) : upd_line idx w (λ l, l) data = data.
Proof.
  rewrite upd_line_alter. apply list_alter_id. intros set'. by apply list_alter_id.
Qed.

Lemma touch_length (is_write : bool) (w : nat) :
  length (touch is_write idx w data) = length data.
Proof.
  unfold touch, tick_set, upd_line.
  repeat (destruct (py_pos _ idx)); destruct is_write;
    rewrite ?length_alter; try done;
    destruct (py_pos data idx); by rewrite ?length_alter.
Qed.

Lemma touch_lookup (is_write : bool) (w : nat) :
  touch is_write idx w data !! Z.to_nat idx
  = Some ((λ l, set_timer (timer l + 1) l)
            <$> alter (λ l, set_timer 0 (if is_write then set_dirty true l else l)) w set).
Proof.
  unfold touch.
  assert (Hd : (if is_write then upd_line idx w (set_dirty true) data else data)
               = upd_line idx w (λ l, if is_write then set_dirty true l else l) data).
  { destruct is_write; [done|by rewrite upd_line_id]. }
  rewrite Hd, upd_line_upd_line.
  unfold tick_set. rewrite py_pos_in_range by by rewrite upd_line_length.
  rewrite list_lookup_alter_eq, upd_line_lookup. done.
Qed.

Lemma touch_lookup_ne (is_write : bool) (w : nat) (i : nat) :
  i ≠ Z.to_nat idx → touch is_write idx w data !! i = data !! i.
Proof.
  intros Hi. unfold touch.
  assert (Hd : (if is_write then upd_line idx w (set_dirty true) data else data)
               = upd_line idx w (λ l, if is_write then set_dirty true l else l) data).
  { destruct is_write; [done|by rewrite upd_line_id]. }
  rewrite Hd, upd_line_upd_line.
  unfold tick_set. rewrite py_pos_in_range by by rewrite upd_line_length.
  rewrite list_lookup_alter_ne by done. by apply upd_line_lookup_ne.
Qed.

(** The statements that end [read] and [write], from [line.dirty = True]. *)
Lemma access_tail (is_write : bool) (w : nat) :
  bind (if is_write then modify (upd_line idx w (set_dirty true)) else ret tt)
    (λ _, bind (modify (upd_line idx w (set_timer 0)))
      (λ _, bind get
        (λ data', bind (orelse (py_get data' idx) IndexError)
          (λ _, modify (tick_set idx))))) data
  = (Ok tt, touch is_write idx w data, []).
Proof.
  unfold touch.
  set (d := if is_write then upd_line idx w (set_dirty true) data else data).
  assert (Hd : length d = length data)
    by (unfold d; destruct is_write; [apply upd_line_length|done]).
  assert (Hd' : length (upd_line idx w (set_timer 0) d) = length data).
  { unfold upd_line. destruct (py_pos d idx); [by rewrite length_alter|done]. }
  assert (is_Some (py_get (upd_line idx w (set_timer 0) d) idx)) as [set' Hs'].
  { rewrite py_get_in_range by by rewrite Hd'. apply lookup_lt_is_Some_2. lia. }
  destruct is_write; mrun; fold d.
  - rewrite (bind_orelse_Some _ set') by done. by mrun.
  - rewrite (bind_orelse_Some _ set') by done. by mrun.
Qed.

End CacheRun.

Section CacheSwapIn.
Import SetAssocCache.
Variable cfg : Config.
Variable data : list (list Line).
Variable tg idx : Z.
Variable set : list Line.
Hypothesis Hidx : 0 <= idx < Z.of_nat (length data).
Hypothesis Hset : data !! Z.to_nat idx = Some set.
Hypothesis Hlen : length set = Z.to_nat (associativity cfg).
Hypothesis Htg0 : 0 <= tg.
Hypothesis Htg : tag_below_bound cfg tg.
Hypothesis Haddr : 0 <= _get_addr cfg tg idx 0 < phys_size cfg.

Lemma tag_check_ok {B} (k : unit → M t B) :
  bind (if 0 <=? tg then
          bind (of_outcome (tag_bound cfg)) (λ bound, assert (tg <? bound))
        else raise AssertionError) k data
  = k tt data.
Proof.
  destruct Htg as (bound & Hb & Hlt).
  rewrite (proj2 (Z.leb_le 0 tg)) by done. rewrite Hb. simpl. mrun.
  rewrite bind_assert_true by zbool. done.
Qed.

Lemma swap_in_free (w : nat) (l : Line) :
  list_find (λ l, negb (valid l)) set = Some (w, l) →
  _swap_in cfg tg idx data
  = (Ok w, upd_line idx w (fill tg) data,
     [PhysRead (_get_addr cfg tg idx 0 / block_size cfg); CacheBlockLoaded]).
Proof.
  intros Hf. unfold _swap_in, ways. mrun.
  rewrite tag_check_ok.
  rewrite bind_assert_true by by apply in_range_true.
  rewrite <- Hlen, (next_way_find _ _ _ Hidx Hset), Hf. simpl. mrun.
  apply list_find_Some in Hf as (Hl & _).
  rewrite (bind_orelse_Some _ l) by by rewrite (line_at_set _ _ _ Hidx Hset).
  rewrite (bind_run _ _ _ _ _ _ (phys_read_run cfg _ data Haddr)). mrun.
  done.
Qed.

Lemma swap_in_full :
  list_find (λ l, negb (valid l)) set = None →
  set ≠ [] →
  (∀ w l, set !! w = Some l → dirty l = true →
          0 <= _get_addr cfg (tag l) idx 0 < phys_size cfg) →
  ∃ w l,
    first_max set w ∧ set !! w = Some l ∧
    _swap_in cfg tg idx data
    = (Ok w, upd_line idx w (fill tg) (upd_line idx w (set_valid false) data),
       CacheSetFull :: evict_events cfg idx w l
         ++ [PhysRead (_get_addr cfg tg idx 0 / block_size cfg); CacheBlockLoaded]).
Proof.
  intros Hf Hne Hr.
  destruct (max_timer_way_first_max _ _ _ Hidx Hset Hne) as (w & Hmax & Hfm).
  pose proof Hfm as (l & Hl & _).
  exists w, l. split_and!; [done..|].
  unfold _swap_in, ways. mrun.
  rewrite tag_check_ok.
  rewrite bind_assert_true by by apply in_range_true.
  rewrite <- Hlen, (next_way_find _ _ _ Hidx Hset), Hf. simpl. mrun.
  rewrite Hmax. simpl. mrun.
  assert (Hv : valid l = true).
  { rewrite list_find_None, Forall_forall in Hf.
    specialize (Hf l (list_elem_of_lookup_2 _ _ _ Hl)).
    by destruct (valid l); [|exfalso; apply Hf]. }
  assert (Hw : Z.of_nat w < associativity cfg).
  { apply lookup_lt_Some in Hl. lia. }
  rewrite (bind_run _ _ _ _ _ _
             (swap_out_run cfg data idx set Hidx Hset w l Hl Hv Hw (Hr w l Hl))).
  mrun.
  assert (Hidx' : 0 <= idx < Z.of_nat (length (upd_line idx w (set_valid false) data)))
    by by rewrite upd_line_length.
  rewrite (bind_orelse_Some _ (set_valid false l)).
  2:{ rewrite (line_at_set _ _ _ Hidx' (upd_line_lookup _ _ _ Hidx Hset w _)).
      by rewrite list_lookup_alter_eq, Hl. }
  rewrite (bind_run _ _ _ _ _ _ (phys_read_run cfg _ _ Haddr)). mrun.
  done.
Qed.

End CacheSwapIn.

Section CacheAccess.
Import SetAssocCache.
Variable cfg : Config.
Hypothesis Hwf : wf_config cfg.
Variable data : list (list Line).
Hypothesis Hinv : cache_inv cfg data.
Variable addr : Z.
Hypothesis Haddr : 0 <= addr < phys_size cfg.

Let tg := (_get_addr_info cfg addr).1.1.
Let idx := (_get_addr_info cfg addr).1.2.

Lemma access_idx : 0 <= idx < Z.of_nat (length data).
Proof.
  destruct Hinv as ((Hlen & _) & _). rewrite Hlen.
  pose proof (addr_info_idx_range cfg Hwf addr). pose proof (nsets_pos cfg Hwf).
  unfold idx. lia.
Qed.

Lemma access_set : ∃ set, data !! Z.to_nat idx = Some set ∧
                          length set = Z.to_nat (associativity cfg).
Proof.
  pose proof access_idx as Hi.
  destruct (lookup_lt_is_Some_2 data (Z.to_nat idx)) as [set Hs]; [lia|].
  exists set. split; [done|]. destruct Hinv as ((_ & Hsh) & _).
  apply Hsh. by eapply list_elem_of_lookup_2.
Qed.

Lemma access_hit (is_write : bool) (set : list Line) (w : nat) (l : Line) :
  data !! Z.to_nat idx = Some set →
  list_find (λ l, valid l && bool_decide (tag l = tg)) set = Some (w, l) →
  access cfg is_write addr data = (Ok tt, touch is_write idx w data, [CacheHit]).
Proof.
  intros Hs Hf. pose proof access_idx as Hi.
  unfold access. rewrite bind_assert_true by by apply in_range_true.
  destruct (_get_addr_info cfg addr) as [[tg' idx'] off] eqn:Hinfo.
  simpl in tg, idx. subst tg idx. mrun.
  rewrite (bind_orelse_Some _ set) by by rewrite py_get_in_range.
  rewrite Hf. mrun.
  by rewrite (access_tail _ _ Hi).
Qed.

Lemma access_miss (is_write : bool) (set : list Line) (w : nat) data1 evs :
  data !! Z.to_nat idx = Some set →
  list_find (λ l, valid l && bool_decide (tag l = tg)) set = None →
  _swap_in cfg tg idx data = (Ok w, data1, evs) →
  length data1 = length data →
  access cfg is_write addr data = (Ok tt, touch is_write idx w data1, CacheMiss :: evs).
Proof.
  intros Hs Hf Hin Hlen. pose proof access_idx as Hi.
  unfold access. rewrite bind_assert_true by by apply in_range_true.
  destruct (_get_addr_info cfg addr) as [[tg' idx'] off] eqn:Hinfo.
  simpl in tg, idx. subst tg idx. mrun.
  rewrite (bind_orelse_Some _ set) by by rewrite py_get_in_range.
  rewrite Hf. mrun.
  rewrite (bind_run _ _ _ _ _ _ Hin). mrun.
  assert (Hi1 : 0 <= idx' < Z.of_nat (length data1)) by by rewrite Hlen.
  rewrite (access_tail _ _ Hi1). by mrun.
Qed.

Lemma access_miss_tag (is_write : bool) (set : list Line) :
  data !! Z.to_nat idx = Some set →
  list_find (λ l, valid l && bool_decide (tag l = tg)) set = None →
  ¬ tag_ok cfg addr →
  access cfg is_write addr data = (Raise (tag_error cfg), data, [CacheMiss]).
Proof.
  intros Hs Hf Hno. pose proof access_idx as Hi.
  pose proof (addr_info_tag_nonneg cfg Hwf addr (proj1 Haddr)) as Htg0.
  unfold tag_ok, tag_below_bound in Hno. unfold tag_error.
  unfold access. rewrite bind_assert_true by by apply in_range_true.
  destruct (_get_addr_info cfg addr) as [[tg' idx'] off] eqn:Hinfo.
  simpl in tg, idx, Hno, Htg0. subst tg idx. mrun.
  rewrite (bind_orelse_Some _ set) by by rewrite py_get_in_range.
  rewrite Hf. mrun. unfold _swap_in. mrun.
  rewrite (proj2 (Z.leb_le 0 tg')) by done.
  destruct (tag_bound cfg) as [bound|e]; simpl; mrun; [|done].
  rewrite bind_assert_false; [by mrun|].
  apply Z.ltb_ge. destruct (Z.le_gt_cases bound tg'); [done|].
  exfalso. apply Hno. by exists bound.
Qed.

End CacheAccess.

Section CacheAccessCases.
Import SetAssocCache.
Variable cfg : Config.
Hypothesis Hwf : wf_config cfg.
Variable data : list (list Line).
Hypothesis Hinv : cache_inv cfg data.
Variable addr : Z.
Hypothesis Haddr : 0 <= addr < phys_size cfg.

Let tg := (_get_addr_info cfg addr).1.1.
Let idx := (_get_addr_info cfg addr).1.2.

(** Every access on a valid address is a hit, a miss served by
    [_swap_in], or a miss refused by the tag assertion of [_swap_in]. *)
Lemma access_cases (is_write : bool) :
  ∃ set, data !! Z.to_nat idx = Some set ∧
  ((∃ w l, list_find (λ l, valid l && bool_decide (tag l = tg)) set = Some (w, l) ∧
           access cfg is_write addr data = (Ok tt, touch is_write idx w data, [CacheHit]))
   ∨ (list_find (λ l, valid l && bool_decide (tag l = tg)) set = None ∧
      ¬ tag_ok cfg addr ∧
      access cfg is_write addr data = (Raise (tag_error cfg), data, [CacheMiss]))
   ∨ (list_find (λ l, valid l && bool_decide (tag l = tg)) set = None ∧
      tag_ok cfg addr ∧
      ∃ w l evs, set !! w = Some l ∧
        (list_find (λ l, negb (valid l)) set = Some (w, l) ∨
         list_find (λ l, negb (valid l)) set = None ∧ first_max set w) ∧
        _swap_in cfg tg idx data
          = (Ok w, upd_line idx w (fill tg) data, evs) ∧
        access cfg is_write addr data
          = (Ok tt, touch is_write idx w (upd_line idx w (fill tg) data),
             CacheMiss :: evs))).
Proof.
  pose proof (access_idx cfg Hwf data Hinv addr) as Hi. fold idx in Hi.
  destruct (access_set cfg Hwf data Hinv addr) as (set & Hs & Hlen). fold idx in Hs.
  exists set. split; [done|].
  destruct (list_find (λ l, valid l && bool_decide (tag l = tg)) set) as [[w l]|] eqn:Hf.
  { left. exists w, l. split; [done|]. by eapply access_hit. }
  right.
  assert (Hdec : tag_ok cfg addr ∨ ¬ tag_ok cfg addr).
  { unfold tag_ok, tag_below_bound. fold tg.
    destruct (tag_bound cfg) as [bound|e].
    - destruct (Z_lt_dec tg bound); [left; by exists bound|right].
      intros (b & [= <-] & ?). lia.
    - right. by intros (b & ? & _). }
  destruct Hdec as [Htg|Hno].
  2:{ left. split_and!; [done..|]. by eapply access_miss_tag. }
  right. split_and!; [done..|].
  pose proof (addr_info_tag_nonneg cfg Hwf addr (proj1 Haddr)) as Htg0. fold tg in Htg0.
  pose proof (get_addr_le cfg Hwf addr (proj1 Haddr)) as Hga. fold tg idx in Hga.
  assert (Hga' : 0 <= _get_addr cfg tg idx 0 < phys_size cfg) by lia.
  destruct (list_find (λ l, negb (valid l)) set) as [[w l]|] eqn:Hfree.
  - pose proof (swap_in_free cfg data tg idx set Hi Hs Hlen Htg0 Htg Hga' w l Hfree) as Hin.
    exists w, l, [PhysRead (_get_addr cfg tg idx 0 / block_size cfg); CacheBlockLoaded].
    split_and!; [by apply list_find_Some in Hfree as (? & _)|by left|done|].
    eapply access_miss; [done..|]. by apply upd_line_length.
  - destruct (swap_in_full cfg data tg idx set Hi Hs Hlen Htg0 Htg Hga' Hfree)
      as (w & l & Hfm & Hl & Hin).
    + intros ->. destruct Hwf. simpl in Hlen. lia.
    + intros w l Hl Hd. destruct Hinv as (_ & _ & Hr).
      assert (Hv : valid l = true).
      { rewrite list_find_None, Forall_forall in Hfree.
        specialize (Hfree l (list_elem_of_lookup_2 _ _ _ Hl)).
        by destruct (valid l); [|exfalso; apply Hfree]. }
      destruct (Hr _ _ _ _ Hs Hl Hv) as [Ht0 Hlt].
      rewrite Z2Nat.id in Hlt by lia.
      split; [|done]. destruct Hwf. pose proof (nsets_pos cfg Hwf).
      unfold _get_addr. rewrite (transp_size_eq cfg Hwf). nia.
    + rewrite (upd_line_upd_line data idx Hi) in Hin.
      rewrite (upd_line_ext data idx Hi w _ (fill tg)) in Hin by done.
      exists w, l, (CacheSetFull :: evict_events cfg idx w l
        ++ [PhysRead (_get_addr cfg tg idx 0 / block_size cfg); CacheBlockLoaded]).
      split_and!; [done|by right|done|].
      eapply access_miss; [done..|]. by apply upd_line_length.
Qed.

End CacheAccessCases.

(** ** SetAssocCache: the LRU counters (C3) *)

Lemma lru_updated_access (cfg : Config) (is_write : bool) (addr : Z)
    (data : list (list SetAssocCache.Line)) :
  wf_config cfg → cache_inv cfg data →
  0 <= addr < phys_size cfg → tag_ok cfg addr →
  ∃ data' evs,
    SetAssocCache.access cfg is_write addr data = (Ok tt, data', evs) ∧
    lru_updated cfg addr data data'.
Proof.
  intros Hwf Hinv Haddr Hok.
  pose proof (access_idx cfg Hwf data Hinv addr) as Hi.
  destruct (access_cases cfg Hwf data Hinv addr Haddr is_write)
    as (set & Hs & [(w & l & Hf & Hacc)|[(_ & Hno & _)|(Hf & _ & w & l & evs & Hl & _ & Hin & Hacc)]]);
    [|done|]; unfold lru_updated;
    set (tg := (SetAssocCache._get_addr_info cfg addr).1.1) in *;
    set (idx := (SetAssocCache._get_addr_info cfg addr).1.2) in *.
  - (* hit *)
    eexists _, _. split; [exact Hacc|].
    apply list_find_Some in Hf as (Hl & Hp & _).
    apply andb_prop_elim in Hp as [Hv Ht]. apply bool_decide_unpack in Ht.
    assert (Hi' := Hi). rewrite <- (touch_length data idx is_write w) in Hi'.
    exists w, (SetAssocCache.set_timer 1 (if is_write then SetAssocCache.set_dirty true l else l)).
    split_and!.
    + rewrite (line_at_set _ _ _ Hi' (touch_lookup _ _ _ Hi Hs is_write w)).
      rewrite list_lookup_fmap, list_lookup_alter_eq, Hl. simpl.
      by destruct is_write.
    + by destruct is_write.
    + destruct is_write; simpl; by apply Is_true_true.
    + done.
    + intros w' l0 Hw' Hl0.
      rewrite (line_at_set _ _ _ Hi Hs) in Hl0.
      rewrite (line_at_set _ _ _ Hi' (touch_lookup _ _ _ Hi Hs is_write w)).
      by rewrite list_lookup_fmap, list_lookup_alter_ne, Hl0.
    + intros i Hne. by apply touch_lookup_ne.
  - (* miss *)
    eexists _, _. split; [exact Hacc|].
    set (data1 := SetAssocCache.upd_line idx w (fill tg) data) in *.
    assert (Hi1 : 0 <= idx < Z.of_nat (length data1))
      by (unfold data1; by rewrite upd_line_length).
    assert (Hs1 := upd_line_lookup data idx set Hi Hs w (fill tg)).
    fold data1 in Hs1.
    assert (Hi' := Hi1). rewrite <- (touch_length data1 idx is_write w) in Hi'.
    exists w, (SetAssocCache.set_timer 1
                 (if is_write then SetAssocCache.set_dirty true (fill tg l)
                  else fill tg l)).
    split_and!.
    + rewrite (line_at_set _ _ _ Hi' (touch_lookup _ _ _ Hi1 Hs1 is_write w)).
      rewrite list_lookup_fmap, !list_lookup_alter_eq, Hl. simpl.
      by destruct is_write.
    + by destruct is_write.
    + by destruct is_write.
    + done.
    + intros w' l0 Hw' Hl0.
      rewrite (line_at_set _ _ _ Hi Hs) in Hl0.
      rewrite (line_at_set _ _ _ Hi' (touch_lookup _ _ _ Hi1 Hs1 is_write w)).
      by rewrite list_lookup_fmap, !list_lookup_alter_ne, Hl0.
    + intros i Hne. rewrite (touch_lookup_ne _ _ Hi1) by done.
      by apply upd_line_lookup_ne.
Qed.

(** ** SetAssocCache: the invariant of the directory (C8) *)

Lemma cache_inv_init (cfg : Config) : cache_inv cfg (SetAssocCache.init cfg).
Proof.
  unfold SetAssocCache.init. split_and!.
  - split; [by rewrite length_replicate|].
    intros set Hs. apply elem_of_replicate in Hs as [-> _]. by rewrite length_replicate.
  - intros i set w1 w2 l1 l2 Hs H1 _ Hv _ _.
    apply lookup_replicate in Hs as [-> _]. by apply lookup_replicate in H1 as [-> _].
  - intros i set w l Hs H1 Hv.
    apply lookup_replicate in Hs as [-> _]. by apply lookup_replicate in H1 as [-> _].
Qed.

Section CacheInvTouch.
Import SetAssocCache.
Variable cfg : Config.
Variable data : list (list Line).
Hypothesis Hinv : cache_inv cfg data.
Variable tg idx : Z.
Variable set : list Line.
Hypothesis Hidx : 0 <= idx < Z.of_nat (length data).
Hypothesis Hset : data !! Z.to_nat idx = Some set.
Variable w : nat.
Variable l : Line.
Variable g : Line → Line.
Hypothesis Hl : set !! w = Some l.
Hypothesis Hgt : tag (g l) = tg.
Hypothesis Hgv : valid (g l) = true.
Hypothesis Htg : 0 <= tg.
Hypothesis Hga : _get_addr cfg tg idx 0 < phys_size cfg.
Hypothesis Hothers :
  ∀ w' l', w' ≠ w → set !! w' = Some l' → valid l' = true → tag l' ≠ tg.

Lemma touched_set (is_write : bool) (i : nat) (set' : list Line) :
  touch is_write idx w (upd_line idx w g data) !! i = Some set' →
  ∃ set0, data !! i = Some set0 ∧ length set' = length set0 ∧
    ∀ w' l', set' !! w' = Some l' →
      ∃ l0, set0 !! w' = Some l0 ∧
        ((i = Z.to_nat idx ∧ w' = w ∧ tag l' = tg ∧ valid l' = true) ∨
         ((i ≠ Z.to_nat idx ∨ w' ≠ w) ∧ tag l' = tag l0 ∧ valid l' = valid l0)).
Proof.
  intros Hs'.
  assert (Hi1 : 0 <= idx < Z.of_nat (length (upd_line idx w g data)))
    by by rewrite upd_line_length.
  destruct (decide (i = Z.to_nat idx)) as [->|Hne].
  - rewrite (touch_lookup _ _ _ Hi1 (upd_line_lookup _ _ _ Hidx Hset w g)) in Hs'.
    injection Hs' as <-. rewrite list_alter_alter_eq.
    exists set. split_and!; [done|by rewrite length_fmap, length_alter|].
    intros w' l' Hl'. rewrite list_lookup_fmap in Hl'.
    destruct (decide (w' = w)) as [->|Hw].
    + rewrite list_lookup_alter_eq, Hl in Hl'. injection Hl' as <-.
      exists l. split; [done|]. left. simpl. by destruct is_write.
    + rewrite list_lookup_alter_ne in Hl' by done.
      destruct (set !! w') as [l0|] eqn:Hl0; [|done]. injection Hl' as <-.
      exists l0. split; [done|]. right. by split_and!; [right|..].
  - rewrite (touch_lookup_ne _ _ Hi1) in Hs' by done.
    rewrite (upd_line_lookup_ne _ _ Hidx) in Hs' by done.
    exists set'. split_and!; [done..|].
    intros w' l' Hl'. exists l'. split; [done|]. right. by split_and!; [left|..].
Qed.

Lemma cache_inv_touch (is_write : bool) :
  cache_inv cfg (touch is_write idx w (upd_line idx w g data)).
Proof.
  destruct Hinv as ((Hlen & Hsh) & Huniq & Hrange).
  split_and!.
  - split; [by rewrite touch_length, upd_line_length|].
    intros set' Hin. apply list_elem_of_lookup in Hin as [i Hs'].
    destruct (touched_set is_write i set' Hs') as (set0 & Hs0 & -> & _).
    apply Hsh. by eapply list_elem_of_lookup_2.
  - intros i set' w1 w2 l1 l2 Hs' H1 H2 Hv1 Hv2 Ht.
    destruct (touched_set is_write i set' Hs') as (set0 & Hs0 & _ & Hlines).
    destruct (Hlines _ _ H1) as (a1 & Ha1 & C1).
    destruct (Hlines _ _ H2) as (a2 & Ha2 & C2).
    destruct C1 as [(-> & -> & Ht1 & _)|(N1 & Ht1 & Hv1')];
      destruct C2 as [(E2 & -> & Ht2 & _)|(N2 & Ht2 & Hv2')]; [done|..].
    + destruct N2 as [?|N2]; [done|]. exfalso.
      rewrite Hset in Hs0. injection Hs0 as <-.
      apply (Hothers w2 a2 N2 Ha2); congruence.
    + subst i. destruct N1 as [?|N1]; [done|]. exfalso.
      rewrite Hset in Hs0. injection Hs0 as <-.
      apply (Hothers w1 a1 N1 Ha1); congruence.
    + apply (Huniq i set0 w1 w2 a1 a2); congruence.
  - intros i set' w' l' Hs' Hl' Hv.
    destruct (touched_set is_write i set' Hs') as (set0 & Hs0 & _ & Hlines).
    destruct (Hlines _ _ Hl') as (a & Ha & [(-> & -> & Ht & _)|(_ & Ht & Hv')]).
    + rewrite Ht, Z2Nat.id by lia. done.
    + rewrite Ht. apply (Hrange i set0 w' a); congruence.
Qed.

End CacheInvTouch.

Lemma cache_inv_access (cfg : Config) (is_write : bool) (addr : Z)
    (data data' : list (list SetAssocCache.Line)) r evs :
  wf_config cfg → cache_inv cfg data →
  SetAssocCache.access cfg is_write addr data = (r, data', evs) →
  cache_inv cfg data'.
Proof.
  intros Hwf Hinv Hacc.
  destruct (decide (0 <= addr < phys_size cfg)) as [Haddr|Hout].
  2:{ unfold SetAssocCache.access in Hacc.
      rewrite bind_assert_false in Hacc by by apply in_range_false.
      by injection Hacc as _ <- _. }
  pose proof (access_idx cfg Hwf data Hinv addr) as Hi.
  destruct (access_cases cfg Hwf data Hinv addr Haddr is_write)
    as (set & Hs & [(w & l & Hf & Hacc')|[(_ & _ & Hacc')|(Hf & _ & w & l & evs' & Hl & _ & _ & Hacc')]]);
    rewrite Hacc' in Hacc; injection Hacc as _ <- _; [|done|].
  - apply list_find_Some in Hf as (Hl & Hp & _).
    apply andb_prop_elim in Hp as [Hv Ht]. apply bool_decide_unpack in Ht.
    apply Is_true_true in Hv.
    rewrite <- (upd_line_id data _ Hi w).
    destruct Hinv as (Hsh & Huniq & Hrange).
    destruct (Hrange _ _ _ _ Hs Hl Hv) as [Ht0 Hlt]. rewrite Z2Nat.id in Hlt by lia.
    apply (cache_inv_touch cfg data (conj Hsh (conj Huniq Hrange))
             (SetAssocCache._get_addr_info cfg addr).1.1
             (SetAssocCache._get_addr_info cfg addr).1.2 set Hi Hs w l _ Hl);
      [done|done| | |].
    + by rewrite <- Ht.
    + by rewrite <- Ht.
    + intros w' l' Hw' Hl' Hv' Ht'. apply Hw'.
      apply (Huniq _ _ _ _ _ _ Hs Hl' Hl Hv' Hv). congruence.
  - pose proof (get_addr_le cfg Hwf addr (proj1 Haddr)).
    apply (cache_inv_touch cfg data Hinv
             (SetAssocCache._get_addr_info cfg addr).1.1
             (SetAssocCache._get_addr_info cfg addr).1.2 set Hi Hs w l _ Hl);
      [done|done| | |].
    + apply (addr_info_tag_nonneg cfg Hwf addr (proj1 Haddr)).
    + lia.
    + intros w' l' Hw' Hl' Hv' Ht'.
      rewrite list_find_None, Forall_forall in Hf.
      apply (Hf l' (list_elem_of_lookup_2 _ _ _ Hl')).
      rewrite Hv'. simpl. by apply bool_decide_pack.
Qed.

(** ** SetAssocCache: [invalidate] *)

Lemma elem_of_py_range (b e step x : Z) :
  0 < step →
  x ∈ py_range b e step ↔ ∃ k, 0 <= k ∧ x = b + k * step ∧ x < e.
Proof.
  intros Hs. unfold py_range. rewrite list_elem_of_fmap.
  assert (Hk : ∀ k, k < (e - b + step - 1) / step ↔ b + k * step < e).
  { intros k. split; intros H.
    - pose proof (Z.mul_div_le (e - b + step - 1) step Hs). nia.
    - assert (k + 1 <= (e - b + step - 1) / step)
        by (apply Z.div_le_lower_bound; lia).
      lia. }
  split.
  - intros (k & -> & Hin). apply elem_of_seqZ in Hin. exists k.
    split_and!; [lia|done|]. apply Hk. lia.
  - intros (k & Hk0 & -> & Hlt). exists k. split; [done|].
    apply elem_of_seqZ. apply Hk in Hlt. lia.
Qed.

Section CacheInvalidate.
Import SetAssocCache.
Variable cfg : Config.
Hypothesis Hwf : wf_config cfg.

Lemma in_blocks_one (a : Z) (i : nat) (l : Line) :
  in_blocks cfg [a] i l ↔ (_get_addr_info cfg a).1 = (tag l, Z.of_nat i).
Proof.
  unfold in_blocks. rewrite Exists_cons, Exists_nil. tauto.
Qed.

Lemma in_blocks_cons (a : Z) (addrs : list Z) (i : nat) (l : Line) :
  in_blocks cfg (a :: addrs) i l ↔ in_blocks cfg [a] i l ∨ in_blocks cfg addrs i l.
Proof.
  unfold in_blocks. rewrite !Exists_cons, Exists_nil. tauto.
Qed.

Lemma inval_line_tag addrs i l : tag (inval_line cfg addrs i l) = tag l.
Proof. unfold inval_line. by case_bool_decide. Qed.

Lemma inval_line_dirty addrs i l : dirty (inval_line cfg addrs i l) = dirty l.
Proof. unfold inval_line. by case_bool_decide. Qed.

Lemma inval_line_valid addrs i l :
  valid (inval_line cfg addrs i l) = true ↔ valid l = true ∧ ¬ in_blocks cfg addrs i l.
Proof.
  unfold inval_line. case_bool_decide as H; simpl; [|tauto].
  split; [done|]. tauto.
Qed.

Lemma inval_line_cons a addrs i l :
  inval_line cfg addrs i (inval_line cfg [a] i l) = inval_line cfg (a :: addrs) i l.
Proof.
  pose proof (in_blocks_cons a addrs i l) as Hc.
  unfold inval_line at 2.
  destruct (bool_decide_reflect (valid l = true ∧ in_blocks cfg [a] i l)) as [H1|H1].
  - unfold inval_line. rewrite bool_decide_false by (simpl; by intros [? _]).
    by rewrite bool_decide_true by tauto.
  - unfold inval_line.
    destruct (bool_decide_reflect (valid l = true ∧ in_blocks cfg addrs i l)) as [H2|H2].
    + by rewrite bool_decide_true by tauto.
    + by rewrite bool_decide_false by tauto.
Qed.

Lemma invalidate_lines_lookup addrs (data : list (list Line)) (i : nat) :
  invalidate_lines cfg addrs data !! i = fmap (inval_line cfg addrs i) <$> data !! i.
Proof. unfold invalidate_lines. by rewrite list_lookup_imap. Qed.

Lemma invalidate_lines_nil (data : list (list Line)) :
  invalidate_lines cfg [] data = data.
Proof.
  apply list_eq. intros i. rewrite invalidate_lines_lookup.
  destruct (data !! i) as [set|]; [|done]. simpl. f_equal.
  apply list_eq. intros w. rewrite list_lookup_fmap.
  destruct (set !! w) as [l|]; [|done]. simpl. f_equal.
  unfold inval_line. rewrite bool_decide_false; [done|].
  intros [_ H]. by apply Exists_nil in H.
Qed.

Lemma invalidate_lines_cons a addrs (data : list (list Line)) :
  invalidate_lines cfg addrs (invalidate_lines cfg [a] data)
  = invalidate_lines cfg (a :: addrs) data.
Proof.
  apply list_eq. intros i. rewrite !invalidate_lines_lookup.
  destruct (data !! i) as [set|]; [|done]. simpl. f_equal.
  apply list_eq. intros w. rewrite !list_lookup_fmap.
  destruct (set !! w) as [l|]; [|done]. simpl. f_equal.
  apply inval_line_cons.
Qed.

Lemma cache_inv_invalidate_lines addrs (data : list (list Line)) :
  cache_inv cfg data → cache_inv cfg (invalidate_lines cfg addrs data).
Proof.
  intros ((Hlen & Hsh) & Huniq & Hrange). split_and!.
  - split; [by unfold invalidate_lines; rewrite length_imap|].
    intros set' Hin. apply list_elem_of_lookup in Hin as [i Hs'].
    rewrite invalidate_lines_lookup in Hs'.
    destruct (data !! i) as [set|] eqn:Hs; [|done]. injection Hs' as <-.
    rewrite length_fmap. apply Hsh. by eapply list_elem_of_lookup_2.
  - intros i set' w1 w2 l1 l2 Hs' H1 H2 Hv1 Hv2 Ht.
    rewrite invalidate_lines_lookup in Hs'.
    destruct (data !! i) as [set|] eqn:Hs; [|done]. injection Hs' as <-.
    rewrite list_lookup_fmap in H1, H2.
    destruct (set !! w1) as [a1|] eqn:Ha1; [|done]. injection H1 as <-.
    destruct (set !! w2) as [a2|] eqn:Ha2; [|done]. injection H2 as <-.
    apply inval_line_valid in Hv1 as [Hv1 _]. apply inval_line_valid in Hv2 as [Hv2 _].
    rewrite !inval_line_tag in Ht. by apply (Huniq i set w1 w2 a1 a2).
  - intros i set' w l' Hs' Hl' Hv.
    rewrite invalidate_lines_lookup in Hs'.
    destruct (data !! i) as [set|] eqn:Hs; [|done]. injection Hs' as <-.
    rewrite list_lookup_fmap in Hl'.
    destruct (set !! w) as [a|] eqn:Ha; [|done]. injection Hl' as <-.
    apply inval_line_valid in Hv as [Hv _]. rewrite inval_line_tag.
    by apply (Hrange i set w a).
Qed.

Lemma inval_line_one a i l :
  inval_line cfg [a] i l
  = if bool_decide (valid l = true ∧ (_get_addr_info cfg a).1 = (tag l, Z.of_nat i))
    then set_valid false l else l.
Proof.
  unfold inval_line. pose proof (in_blocks_one a i l).
  destruct (bool_decide_reflect (valid l = true ∧ in_blocks cfg [a] i l)).
  - by rewrite bool_decide_true by tauto.
  - by rewrite bool_decide_false by tauto.
Qed.

Lemma invalidate_at_run (a : Z) (data : list (list Line)) :
  cache_inv cfg data →
  ∃ evs,
    invalidate_at cfg a data = (Ok tt, invalidate_lines cfg [a] data, evs) ∧
    (∀ b, PhysWrite b ∈ evs ↔ dirty_block_in cfg [a] data b) ∧
    Forall eviction_event evs.
Proof.
  intros Hinv. pose proof Hinv as ((Hlen & Hsh) & Huniq & Hrange).
  unfold invalidate_at.
  pose proof (addr_info_idx_range cfg Hwf a) as Hir.
  destruct (_get_addr_info cfg a) as [[tg idx] off] eqn:Hinfo. simpl in Hir.
  assert (Hi : 0 <= idx < Z.of_nat (length data)) by (rewrite Hlen; lia).
  destruct (lookup_lt_is_Some_2 data (Z.to_nat idx)) as [set Hs]; [lia|].
  assert (Hsl : length set = Z.to_nat (associativity cfg))
    by (apply Hsh; by eapply list_elem_of_lookup_2).
  assert (Hone : ∀ i l, inval_line cfg [a] i l
            = if bool_decide (valid l = true ∧ (tg, idx) = (tag l, Z.of_nat i))
              then set_valid false l else l).
  { intros i l. by rewrite inval_line_one, Hinfo. }
  assert (Hblk : ∀ i l, in_blocks cfg [a] i l ↔ (tg, idx) = (tag l, Z.of_nat i)).
  { intros i l. by rewrite in_blocks_one, Hinfo. }
  assert (Hother : ∀ i (set' : list Line), i ≠ Z.to_nat idx →
            inval_line cfg [a] i <$> set' = set').
  { intros i set' Hne. apply list_eq. intros w'. rewrite list_lookup_fmap.
    destruct (set' !! w') as [l'|]; [|done]. simpl. f_equal.
    rewrite Hone, bool_decide_false; [done|]. intros [_ [= _ E]]. lia. }
  mrun. unfold ways. rewrite <- Hsl, (next_way_find _ _ _ Hi Hs).
  destruct (list_find _ set) as [[w l]|] eqn:Hf; simpl; mrun.
  - apply list_find_Some in Hf as (Hl & Hp & _).
    apply andb_prop_elim in Hp as [Hv Ht]. apply bool_decide_unpack in Ht.
    apply Is_true_true in Hv.
    assert (Hw : Z.of_nat w < associativity cfg) by (apply lookup_lt_Some in Hl; lia).
    assert (Hr : dirty l = true → 0 <= _get_addr cfg (tag l) idx 0 < phys_size cfg).
    { intros _. destruct (Hrange _ _ _ _ Hs Hl Hv) as [Ht0 Hlt].
      rewrite Z2Nat.id in Hlt by lia. split; [|done].
      destruct Hwf. pose proof (nsets_pos cfg Hwf).
      unfold _get_addr. rewrite (transp_size_eq cfg Hwf). nia. }
    exists (evict_events cfg idx w l). split_and!.
    3:{ unfold evict_events. destruct (dirty l); by repeat constructor. }
    + rewrite (swap_out_run cfg data idx set Hi Hs w l Hl Hv Hw Hr). do 2 f_equal.
      apply list_eq. intros i. rewrite invalidate_lines_lookup.
      destruct (decide (i = Z.to_nat idx)) as [->|Hne].
      * rewrite (upd_line_lookup _ _ _ Hi Hs), Hs. simpl. f_equal.
        apply list_eq. intros w'. rewrite list_lookup_fmap.
        destruct (decide (w' = w)) as [->|Hw'].
        -- rewrite list_lookup_alter_eq, Hl. simpl. f_equal.
           rewrite Hone, bool_decide_true; [done|].
           split; [done|]. rewrite Z2Nat.id by lia. congruence.
        -- rewrite list_lookup_alter_ne by done.
           destruct (set !! w') as [l'|] eqn:Hl'; [|done]. simpl. f_equal.
           rewrite Hone, bool_decide_false; [done|]. intros [Hv' [= E _]].
           apply Hw'. apply (Huniq _ _ _ _ _ _ Hs Hl' Hl Hv' Hv). congruence.
      * rewrite (upd_line_lookup_ne _ _ Hi) by done.
        destruct (data !! i) as [set'|]; [|done]. simpl. by rewrite Hother.
    + intros b. unfold evict_events, dirty_block_in. split.
      * intros Hb. destruct (dirty l) eqn:Hd.
        -- apply elem_of_cons in Hb as [?|Hb]; [done|].
           apply list_elem_of_singleton in Hb as [= ->].
           exists (Z.to_nat idx), set, w, l. split_and!; [done..| |].
           ++ apply Hblk. rewrite Z2Nat.id by lia. congruence.
           ++ by rewrite Z2Nat.id by lia.
        -- by apply list_elem_of_singleton in Hb.
      * intros (i & set' & w' & l' & Hs' & Hl' & Hv' & Hd' & Hb & ->).
        apply Hblk in Hb as [= E1 E2].
        assert (i = Z.to_nat idx) as -> by lia.
        rewrite Hs in Hs'. injection Hs' as <-.
        assert (w' = w) as -> by (apply (Huniq _ _ _ _ _ _ Hs Hl' Hl Hv' Hv); congruence).
        rewrite Hl in Hl'. injection Hl' as <-. rewrite Hd'.
        rewrite Z2Nat.id by lia. apply elem_of_cons. right. by apply list_elem_of_singleton.
  - exists []. rewrite list_find_None, Forall_forall in Hf. split_and!; [| |done].
    + unfold ret. do 2 f_equal. apply list_eq. intros i. rewrite invalidate_lines_lookup.
      destruct (decide (i = Z.to_nat idx)) as [->|Hne].
      * rewrite Hs. simpl. f_equal.
        apply list_eq. intros w'. rewrite list_lookup_fmap.
        destruct (set !! w') as [l'|] eqn:Hl'; [|done]. simpl. f_equal.
        rewrite Hone, bool_decide_false; [done|]. intros [Hv' [= E _]].
        apply (Hf l' (list_elem_of_lookup_2 _ _ _ Hl')).
        rewrite Hv'. simpl. by apply bool_decide_pack.
      * destruct (data !! i) as [set'|]; [|done]. simpl. by rewrite Hother.
    + intros b. split; [by intros ?%elem_of_nil|].
      intros (i & set' & w' & l' & Hs' & Hl' & Hv' & Hd' & Hb & ->).
      apply Hblk in Hb as [= E1 E2].
      assert (i = Z.to_nat idx) as -> by lia.
      rewrite Hs in Hs'. injection Hs' as <-. exfalso.
      apply (Hf l' (list_elem_of_lookup_2 _ _ _ Hl')).
      rewrite Hv'. simpl. by apply bool_decide_pack.
Qed.

Lemma invalidate_loop (addrs : list Z) (data : list (list Line)) :
  cache_inv cfg data →
  ∃ evs,
    for_each addrs (invalidate_at cfg) data
    = (Ok tt, invalidate_lines cfg addrs data, evs) ∧
    (∀ b, PhysWrite b ∈ evs ↔ dirty_block_in cfg addrs data b) ∧
    Forall eviction_event evs.
Proof.
  revert data. induction addrs as [|a addrs IH]; intros data Hinv.
  - exists []. split_and!; [by rewrite invalidate_lines_nil| |done].
    intros b. split; [by intros ?%elem_of_nil|].
    intros (i & set' & w' & l' & _ & _ & _ & _ & Hb & _). by apply Exists_nil in Hb.
  - destruct (invalidate_at_run a data Hinv) as (evs1 & Hstep & Hev1 & Hk1).
    destruct (IH _ (cache_inv_invalidate_lines [a] data Hinv))
      as (evs2 & Hrest & Hev2 & Hk2).
    exists (evs1 ++ evs2). split_and!; [| |by apply Forall_app].
    + simpl. rewrite (bind_run _ _ _ _ _ _ Hstep), Hrest. simpl.
      by rewrite invalidate_lines_cons.
    + intros b. rewrite elem_of_app, Hev1, Hev2. unfold dirty_block_in. split.
      * intros [(i & set & w & l & Hs & Hl & Hv & Hd & Hb & ->)
               |(i & set1 & w & l1 & Hs1 & Hl1 & Hv1 & Hd1 & Hb & ->)].
        -- exists i, set, w, l. split_and!; [done..| |done].
           apply in_blocks_cons. by left.
        -- rewrite invalidate_lines_lookup in Hs1.
           destruct (data !! i) as [set|] eqn:Hs; [|done]. injection Hs1 as <-.
           rewrite list_lookup_fmap in Hl1.
           destruct (set !! w) as [l|] eqn:Hl; [|done]. injection Hl1 as <-.
           apply inval_line_valid in Hv1 as [Hv Hnb].
           rewrite inval_line_dirty in Hd1. rewrite inval_line_tag.
           assert (inval_line cfg [a] i l = l) as E
               by (unfold inval_line; rewrite bool_decide_false; [done|tauto]).
           rewrite E in Hb.
           exists i, set, w, l. split_and!; [done..| |done].
           apply in_blocks_cons. by right.
      * intros (i & set & w & l & Hs & Hl & Hv & Hd & Hb & ->).
        destruct (decide ((_get_addr_info cfg a).1 = (tag l, Z.of_nat i))) as [Ha|Ha].
        -- left. exists i, set, w, l. split_and!; [done..| |done]. by apply in_blocks_one.
        -- right. rewrite <- in_blocks_one in Ha.
           assert (inval_line cfg [a] i l = l) as E
               by (unfold inval_line; rewrite bool_decide_false; [done|tauto]).
           exists i, (inval_line cfg [a] i <$> set), w, l. split_and!; [| |done..| |done].
           ++ by rewrite invalidate_lines_lookup, Hs.
           ++ rewrite list_lookup_fmap, Hl. simpl. by rewrite E.
           ++ apply in_blocks_cons in Hb as [?|?]; [done|done].
Qed.

(** [invalidate] always completes on a well-formed directory: it clears
    the valid bit of the lines that cache a block of the range and
    leaves everything else as it was; a block is written back exactly
    when its line was dirty. *)
Lemma invalidate_run (begin end_ : Z) (data : list (list Line)) :
  cache_inv cfg data →
  ∃ evs,
    invalidate cfg begin end_ data
    = (Ok tt, invalidate_lines cfg (invalidate_addrs cfg begin end_) data, evs) ∧
    (∀ b, PhysWrite b ∈ evs
          ↔ dirty_block_in cfg (invalidate_addrs cfg begin end_) data b) ∧
    Forall eviction_event evs.
Proof. intros Hinv. by apply invalidate_loop. Qed.

End CacheInvalidate.

(** ** The claims about SetAssocCache *)

Lemma wf_cfgA : wf_config cfgA.
Proof. by split. Qed.

Lemma wf_cfgB : wf_config cfgB.
Proof. by split. Qed.

Lemma cache_inv_dataB : cache_inv cfgB dataB.
Proof.
  assert (H1 : SetAssocCache.access cfgB true 0 (SetAssocCache.init cfgB)
               = (Ok tt,
                  [[SetAssocCache.mkLine 0 true true 1; SetAssocCache.mkLine 0 false false 1];
                   [SetAssocCache.mkLine 0 false false 0; SetAssocCache.mkLine 0 false false 0]],
                  [CacheMiss; PhysRead 0; CacheBlockLoaded]))
    by (vm_compute; reflexivity).
  assert (H2 : SetAssocCache.access cfgB false 8
                 [[SetAssocCache.mkLine 0 true true 1; SetAssocCache.mkLine 0 false false 1];
                  [SetAssocCache.mkLine 0 false false 0; SetAssocCache.mkLine 0 false false 0]]
               = (Ok tt, dataB, [CacheMiss; PhysRead 2; CacheBlockLoaded]))
    by (vm_compute; reflexivity).
  eapply cache_inv_access; [apply wf_cfgB| |exact H2].
  eapply cache_inv_access; [apply wf_cfgB| |exact H1].
  apply cache_inv_init.
Qed.

(** C3 (as amended): after a read or a write of a valid address whose tag
    the cache accepts, the accessed line (hit or newly swapped in) has
    LRU counter 1: it is reset to 0 and then incremented with the rest of
    its set.  Every other line of the set, valid or not, is unchanged but
    for its counter, incremented by exactly 1, and the other sets are
    unchanged. *)
Theorem C3_cache_lru_counter (cfg : Config) (addr : Z)
    (data : list (list SetAssocCache.Line)) :
  wf_config cfg → cache_inv cfg data →
  0 <= addr < phys_size cfg → tag_ok cfg addr →
  (∃ data' evs, SetAssocCache.read cfg addr data = (Ok tt, data', evs) ∧
                lru_updated cfg addr data data') ∧
  (∃ data' evs, SetAssocCache.write cfg addr data = (Ok tt, data', evs) ∧
                lru_updated cfg addr data data').
Proof.
  intros Hwf Hinv Haddr Hok. split; by apply lru_updated_access.
Qed.

Lemma C3_cache_lru_counter_witness :
  (∃ data' evs, SetAssocCache.read cfgB 16 dataB = (Ok tt, data', evs) ∧
                lru_updated cfgB 16 dataB data') ∧
  (∃ data' evs, SetAssocCache.write cfgB 16 dataB = (Ok tt, data', evs) ∧
                lru_updated cfgB 16 dataB data').
Proof.
  apply (C3_cache_lru_counter cfgB 16 dataB).
  - apply wf_cfgB.
  - apply cache_inv_dataB.
  - simpl. lia.
  - exists 4. split; vm_compute; reflexivity.
Defined.

(** C3 as stated fails: reading address 0 of the freshly built cache of
    [cfgA] completes and leaves the accessed line (set 0, way 0) valid,
    with the tag of the address and counter 1; no valid line of the set
    has counter 0. *)
Lemma C3_counterexample :
  ∃ data' evs,
    SetAssocCache.read cfgA 0 (SetAssocCache.init cfgA) = (Ok tt, data', evs) ∧
    SetAssocCache.line_at data' 0 0 = Some (SetAssocCache.mkLine 0 true false 1) ∧
    ∀ w l', SetAssocCache.line_at data' 0 w = Some l' →
            SetAssocCache.valid l' = true → SetAssocCache.timer l' ≠ 0.
Proof.
  eexists _, _. split_and!; [vm_compute; reflexivity..|].
  intros w l' Hl _ Ht.
  destruct w as [|w]; vm_compute in Hl; [|done].
  injection Hl as <-. done.
Qed.

(** With more than one way the tag of an address reaches beyond the
    bound that [_swap_in] asserts: on [cfgB] the read of the valid
    address 63 is a miss that raises at that assertion, the directory
    unchanged.  This is why [tag_ok] is a hypothesis above. *)
Example tag_assertion_refuses :
  0 <= 63 < phys_size cfgB ∧ ¬ tag_ok cfgB 63 ∧
  SetAssocCache.read cfgB 63 (SetAssocCache.init cfgB)
  = (Raise AssertionError, SetAssocCache.init cfgB, [CacheMiss]).
Proof.
  split_and!; [done|done| |by vm_compute].
  intros (bound & Hb & Hlt). vm_compute in Hb. injection Hb as <-. by vm_compute in Hlt.
Qed.

(** The bound of the tags is the ceiling of a float quotient, which is
    rounded: on [cfgD], a direct-mapped cache, the quotient of
    [2^53 + 1] by 1 is the double [2^53], and the read of the last byte
    of the memory, whose tag is [2^53], is refused. *)
Example rounded_bound_refuses :
  wf_config cfgD ∧ 0 <= 2 ^ 53 < phys_size cfgD ∧
  SetAssocCache.tag_bound cfgD = Ok (2 ^ 53) ∧
  ¬ tag_ok cfgD (2 ^ 53) ∧
  SetAssocCache.read cfgD (2 ^ 53) (SetAssocCache.init cfgD)
  = (Raise AssertionError, SetAssocCache.init cfgD, [CacheMiss]).
Proof.
  split_and!; [by split|done|done|by vm_compute| |by vm_compute].
  intros (bound & Hb & Hlt). vm_compute in Hb. injection Hb as <-. by vm_compute in Hlt.
Qed.



Lemma cache_reachable_inv (cfg : Config) (data : list (list SetAssocCache.Line)) :
  wf_config cfg → cache_reachable cfg data → cache_inv cfg data.
Proof.
  intros Hwf Hreach.
  induction Hreach as [|data addr r data' evs _ IH Hop|data addr r data' evs _ IH Hop
                       |data b e r data' evs _ IH Hop].
  - apply cache_inv_init.
  - by eapply cache_inv_access.
  - by eapply cache_inv_access.
  - destruct (invalidate_run cfg Hwf b e data IH) as (evs' & Hrun & _ & _).
    rewrite Hrun in Hop. injection Hop as _ <- _.
    by apply cache_inv_invalidate_lines.
Qed.

(** C8: in the directory that [__init__] builds, and in every directory
    that a call of [read], [write] or [invalidate] leaves, no two valid
    lines of a set have the same tag. *)
Theorem C8_cache_tags_unique (cfg : Config) (data : list (list SetAssocCache.Line)) :
  wf_config cfg → cache_reachable cfg data → tags_unique data.
Proof.
  intros Hwf Hreach. by destruct (cache_reachable_inv cfg data Hwf Hreach) as (_ & ? & _).
Qed.

Lemma C8_cache_tags_unique_witness : tags_unique dataB.
Proof.
  apply (C8_cache_tags_unique cfgB dataB).
  - apply wf_cfgB.
  - eapply (reach_read cfgB _ 8).
    + eapply (reach_write cfgB _ 0); [apply reach_init|].
      vm_compute. reflexivity.
    + vm_compute. reflexivity.
Defined.

(** ** VirtualMemory: what a call that returned has done *)

Section VmInversion.
Import VirtualMemory.
Variable cfg : Config.
Variable pop_choice : gset Z → Z.

Lemma vm_swap_out_inv (page : Z) (st st' : t) (evs : list event) :
  _swap_out cfg page st = (Ok tt, st', evs) →
  ∃ line q c' evs_c,
    page_table st !! page = Some line ∧
    deque_remove page (lru_queue st) = Some q ∧
    SetAssocCache.invalidate cfg (physical line * page_size cfg)
      ((physical line + 1) * page_size cfg) (main_mem st) = (Ok tt, c', evs_c) ∧
    st' = {| main_mem := c'; page_table := delete page (page_table st);
             frame_set := {[physical line]} ∪ frame_set st; lru_queue := q |} ∧
    evs = VmInvalidateCache :: evs_c ++ (if dirty line then [VmWriteBack page] else []).
Proof.
  intros H. unfold _swap_out in H. minv H.
  - unfold modify in H. injection H as <- <-.
    destruct a. eexists p, _, _, _. split_and!; [done..|].
    rewrite Hif. by simpl.
  - unfold modify in H. injection H as <- <-.
    destruct a. eexists p, _, _, _. split_and!; [done..|].
    rewrite Hif. simpl. by rewrite app_nil_r.
Qed.

Lemma vm_swap_in_inv (page : Z) (st st' : t) (r : option Z) (evs : list event) :
  _swap_in cfg pop_choice page st = (Ok r, st', evs) →
  page_table st !! page = None ∧
  ((frame_set st ≠ ∅ ∧ r = None ∧
    st' = {| main_mem := main_mem st;
             page_table := <[page := mkPage (pop_choice (frame_set st)) false]> (page_table st);
             frame_set := frame_set st ∖ {[pop_choice (frame_set st)]};
             lru_queue := lru_queue st ++ [page] |}) ∨
   (frame_set st = ∅ ∧
    ∃ victim st1 evs1,
      r = Some victim ∧ head (lru_queue st) = Some victim ∧
      _swap_out cfg victim
        (set_page_table (<[page := mkPage 0 false]> (page_table st)) st)
      = (Ok tt, st1, evs1) ∧
      frame_set st1 ≠ ∅ ∧
      st' = {| main_mem := main_mem st1;
               page_table := alter (set_physical (pop_choice (frame_set st1))) page
                               (page_table st1);
               frame_set := frame_set st1 ∖ {[pop_choice (frame_set st1)]};
               lru_queue := lru_queue st1 ++ [page] |})).
Proof.
  intros H. unfold _swap_in in H. minv H.
  all: apply negb_true_iff, bool_decide_eq_false in Hassert0;
    rewrite <- eq_None_not_Some in Hassert0;
    unfold setdefault in *; rewrite Hassert0 in *;
    rewrite alter_insert_eq in *; simpl in *.
  - apply bool_decide_eq_true in Hif. apply size_empty_iff, leibniz_equiv in Hif.
    apply bool_decide_eq_false in Hif0.
    unfold ret in H. injection H as <- <-. destruct a.
    split; [done|]. right. split; [done|].
    by eexists z, s, _.
  - apply bool_decide_eq_false in Hif. apply bool_decide_eq_false in Hif0.
    unfold ret in H. injection H as <- <-.
    split; [done|]. left. split_and!; [done..|].
    unfold set_lru_queue, set_page_table, set_frame_set. simpl.
    by rewrite alter_insert_eq.
Qed.

(** A [randomize_page_table] that returned has run its loop over the
    frames drawn, numbered from 0. *)
Lemma randomize_inv (sample : list Z → nat → list Z) (mem_usage : Q)
    (st st' : t) (evs : list event) :
  randomize_page_table sample mem_usage st = (Ok tt, st', evs) →
  ∃ x k,
    py_float mem_usage = Some x ∧ is_ratio (Some x) = true ∧
    sample_size x (Z.of_nat (size (frame_set st))) = Ok k ∧
    0 <= k <= Z.of_nat (size (frame_set st)) ∧
    for_each (imap (λ i frame, (Z.of_nat i, frame))
                (sample (elements (frame_set st)) (Z.to_nat k)))
      randomize_step st = (Ok tt, st', evs).
Proof.
  intros H. unfold randomize_page_table in H. minv H.
  destruct (py_float mem_usage) as [x|]; [|done].
  apply of_outcome_ok in Hsub as (Hk & -> & ->).
  exists x, a. split_and!; [done..| | |done];
    apply andb_true_iff in Hif as [?%Z.leb_le ?%Z.leb_le]; [done|].
  assert (length (elements (frame_set st)) = size (frame_set st)) by done. lia.
Qed.

End VmInversion.

(** ** VirtualMemory: the partition of the frames (C5) *)

Section FramePartition.
Import VirtualMemory.
Variable cfg : Config.

Lemma partition_alloc (pt : gmap Z Page) (fs : gset Z) (page f : Z) (d : bool) :
  frames_partition cfg pt fs →
  pt !! page = None → f ∈ fs →
  frames_partition cfg (<[page := mkPage f d]> pt) (fs ∖ {[f]}).
Proof.
  intros (Hinj & Hdisj & Hall) Hfresh Hf. split_and!.
  - intros p1 p2 e1 e2 H1 H2 He.
    destruct (decide (page = p1)) as [<-|N1]; destruct (decide (page = p2)) as [<-|N2];
      [done|..].
    + rewrite lookup_insert_eq in H1. injection H1 as <-.
      rewrite lookup_insert_ne in H2 by done. simpl in He.
      exfalso. apply (Hdisj p2 e2 H2). by rewrite <- He.
    + rewrite lookup_insert_eq in H2. injection H2 as <-.
      rewrite lookup_insert_ne in H1 by done. simpl in He.
      exfalso. apply (Hdisj p1 e1 H1). by rewrite He.
    + rewrite lookup_insert_ne in H1, H2 by done. by eapply Hinj.
  - intros p e H. destruct (decide (page = p)) as [<-|N].
    + rewrite lookup_insert_eq in H. injection H as <-. simpl. set_solver.
    + rewrite lookup_insert_ne in H by done. specialize (Hdisj p e H). set_solver.
  - intros f'. rewrite <- Hall. split.
    + intros [Hin|(p & e & H & <-)].
      * left. set_solver.
      * destruct (decide (page = p)) as [<-|N].
        -- rewrite lookup_insert_eq in H. injection H as <-. by left.
        -- rewrite lookup_insert_ne in H by done. right. by exists p, e.
    + intros [Hin|(p & e & H & <-)].
      * destruct (decide (f' = f)) as [->|Hne].
        -- right. exists page, (mkPage f d). by rewrite lookup_insert_eq.
        -- left. set_solver.
      * right. exists p, e. split; [|done].
        rewrite lookup_insert_ne; [done|]. intros ->. by rewrite Hfresh in H.
Qed.

Lemma partition_free (pt : gmap Z Page) (fs : gset Z) (victim : Z) (line : Page) :
  frames_partition cfg pt fs →
  pt !! victim = Some line →
  frames_partition cfg (delete victim pt) ({[physical line]} ∪ fs).
Proof.
  intros (Hinj & Hdisj & Hall) Hv. split_and!.
  - intros p1 p2 e1 e2 H1 H2 He.
    apply lookup_delete_Some in H1 as [_ H1]. apply lookup_delete_Some in H2 as [_ H2].
    by eapply Hinj.
  - intros p e H. apply lookup_delete_Some in H as [Hne H].
    specialize (Hdisj p e H).
    assert (physical e ≠ physical line) by (intros He; apply Hne; by eapply Hinj).
    set_solver.
  - intros f'. rewrite <- Hall. split.
    + intros [Hin|(p & e & H & <-)].
      * apply elem_of_union in Hin as [Hin|Hin]; [|by left].
        apply elem_of_singleton in Hin as ->. right. by exists victim, line.
      * apply lookup_delete_Some in H as [_ H]. right. by exists p, e.
    + intros [Hin|(p & e & H & <-)].
      * left. set_solver.
      * destruct (decide (p = victim)) as [->|Hne].
        -- simplify_eq. left. set_solver.
        -- right. exists p, e. by rewrite lookup_delete_ne.
Qed.

End FramePartition.

Section FramePartitionOps.
Import VirtualMemory.
Variable cfg : Config.
Variable pop_choice : gset Z → Z.
Hypothesis Hpop : pop_spec pop_choice.

Lemma partition_swap_in (page : Z) (st st' : t) (r : option Z) (evs : list event) :
  frame_partition cfg st →
  _swap_in cfg pop_choice page st = (Ok r, st', evs) →
  frame_partition cfg st'.
Proof.
  intros Hpart H. unfold frame_partition in *.
  apply vm_swap_in_inv in H
    as (Hfresh & [(Hne & -> & ->)|(Hfull & victim & st1 & evs1 & -> & Hhd & Hout & Hne1 & ->)]);
    simpl.
  - apply partition_alloc; [done..|]. by apply Hpop.
  - apply vm_swap_out_inv in Hout as (line & q & c' & evs_c & Hl & _ & _ & -> & _).
    simpl in *. rewrite Hfull in *.
    assert (Hf : pop_choice ({[physical line]} ∪ ∅) = physical line).
    { specialize (Hpop _ Hne1). set_solver. }
    rewrite Hf.
    destruct (decide (victim = page)) as [->|Hvp].
    + rewrite lookup_insert_eq in Hl. injection Hl as <-. simpl.
      rewrite delete_insert_eq. rewrite delete_id by done.
      replace (({[0]} ∪ ∅) ∖ {[0]} : gset Z) with (∅ : gset Z) by set_solver.
      rewrite alter_id' by done. exact Hpart.
    + rewrite lookup_insert_ne in Hl by done.
      rewrite delete_insert_ne by done. rewrite alter_insert_eq. simpl.
      apply partition_alloc; [|apply lookup_delete_None; tauto|set_solver].
      by apply partition_free.
Qed.

End FramePartitionOps.

Section FramePartitionReach.
Import VirtualMemory.
Variable cfg : Config.
Variable pop_choice : gset Z → Z.
Variable sample : list Z → nat → list Z.
Hypothesis Hpop : pop_spec pop_choice.

Lemma partition_same_frames (pt pt' : gmap Z Page) (fs : gset Z) :
  (∀ p, physical <$> pt' !! p = physical <$> pt !! p) →
  frames_partition cfg pt fs → frames_partition cfg pt' fs.
Proof.
  intros Hsame (Hinj & Hdisj & Hall).
  assert (Hto : ∀ p e', pt' !! p = Some e' →
            ∃ e, pt !! p = Some e ∧ physical e = physical e').
  { intros p e' H. specialize (Hsame p). rewrite H in Hsame. simpl in Hsame.
    destruct (pt !! p) as [e|]; [|done]. injection Hsame as Hs. by exists e. }
  assert (Hfrom : ∀ p e, pt !! p = Some e →
            ∃ e', pt' !! p = Some e' ∧ physical e' = physical e).
  { intros p e H. specialize (Hsame p). rewrite H in Hsame. simpl in Hsame.
    destruct (pt' !! p) as [e'|]; [|done]. injection Hsame as Hs. by exists e'. }
  split_and!.
  - intros p1 p2 e1 e2 H1 H2 He.
    destruct (Hto _ _ H1) as (a1 & Ha1 & E1). destruct (Hto _ _ H2) as (a2 & Ha2 & E2).
    apply (Hinj p1 p2 a1 a2); congruence.
  - intros p e H. destruct (Hto _ _ H) as (a & Ha & <-). by apply (Hdisj p a).
  - intros f. rewrite <- Hall. split.
    + intros [?|(p & e & H & <-)]; [by left|].
      destruct (Hto _ _ H) as (a & Ha & E). right. by exists p, a.
    + intros [?|(p & e & H & <-)]; [by left|].
      destruct (Hfrom _ _ H) as (a & Ha & E). right. by exists p, a.
Qed.

Lemma partition_access (is_write : bool) (addr : Z) (st st' : t) (evs : list event) :
  frame_partition cfg st →
  access cfg pop_choice is_write addr st = (Ok tt, st', evs) →
  frame_partition cfg st'.
Proof.
  intros Hpart H. unfold access in H. minv H.
  - (* resident *)
    destruct is_write; minv H; unfold modify, ret in H; injection H as <- <-;
      unfold frame_partition in *; simpl; [|done].
    eapply partition_same_frames; [|exact Hpart].
    intros q. rewrite lookup_alter. case_decide as Hq; [|done].
    rewrite Hq. by destruct (page_table st !! q).
  - (* fault *)
    pose proof (partition_swap_in cfg pop_choice Hpop _ _ _ _ _ Hpart Hsub) as Hpart1.
    destruct is_write; minv H; unfold modify, ret in H; injection H as <- <-;
      unfold frame_partition in *; simpl; [|done].
    eapply partition_same_frames; [|exact Hpart1].
    intros q. rewrite lookup_alter. case_decide as Hq; [|done].
    rewrite Hq. by destruct (page_table s !! q).
Qed.

Lemma partition_init : frame_partition cfg (init cfg).
Proof.
  unfold frame_partition, init. simpl. split_and!.
  - intros p1 p2 e1 e2 H. by rewrite lookup_empty in H.
  - intros p e H. by rewrite lookup_empty in H.
  - intros f. rewrite elem_of_list_to_set, elem_of_seqZ. unfold n_frames. split.
    + intros [?|(p & e & H & _)]; [lia|]. by rewrite lookup_empty in H.
    + intros ?. left. lia.
Qed.

Lemma partition_randomize_steps (l : list (Z * Z)) (st st' : t) (evs : list event) :
  frame_partition cfg st →
  NoDup l.*1 →
  (∀ p, p ∈ l.*1 → page_table st !! p = None) →
  for_each l randomize_step st = (Ok tt, st', evs) →
  frame_partition cfg st'.
Proof.
  revert st evs. induction l as [|[page frame] l IH]; intros st evs Hpart Hnd Hfresh H.
  - unfold for_each, ret in H. by injection H as <- _.
  - simpl in H. apply bind_ok_inv in H as ([] & st1 & t1 & t2 & Hstep & H & ->).
    simpl in Hnd. apply NoDup_cons in Hnd as [Hnotin Hnd].
    unfold randomize_step in Hstep. minv Hstep.
    unfold modify in Hstep. injection Hstep as <- _.
    assert (Hp : page_table st !! page = None) by (apply Hfresh; simpl; set_solver).
    apply (IH _ _) in H; [done| |done|].
    + unfold frame_partition in *. simpl. unfold setdefault. rewrite Hp.
      rewrite alter_insert_eq. simpl. by apply partition_alloc.
    + intros p Hin. simpl. unfold setdefault. rewrite Hp.
      rewrite alter_insert_eq. rewrite lookup_insert_ne by (by intros ->).
      apply Hfresh. simpl. set_solver.
Qed.

Lemma partition_randomize (mem_usage : Q) (st' : t) (evs : list event) :
  randomize_page_table sample mem_usage (init cfg) = (Ok tt, st', evs) →
  frame_partition cfg st'.
Proof.
  intros H. apply randomize_inv in H as (mu & k & _ & _ & _ & _ & H).
  eapply partition_randomize_steps; [apply partition_init| | |exact H].
  - apply NoDup_alt. intros i j x Hi Hj.
    rewrite list_lookup_fmap, list_lookup_imap in Hi, Hj.
    destruct (_ !! i); [|done]. destruct (_ !! j); [|done].
    simpl in *. simplify_eq. lia.
  - intros p _. apply lookup_empty.
Qed.

End FramePartitionReach.

Lemma pop_first_spec : pop_spec pop_first.
Proof.
  intros s Hne. unfold pop_first.
  destruct (elements s) as [|x l] eqn:E.
  - by apply elements_empty_inv, leibniz_equiv in E.
  - simpl. apply elem_of_elements. rewrite E. by left.
Qed.

Lemma run_pairing {S A} (m : M S A) (s : S) : m s = ((m s).1.1, (m s).1.2, (m s).2).
Proof. by destruct (m s) as [[r s'] t]. Qed.

(** ** VirtualMemory: the eviction of a page (C6) *)

Section PageEviction.
Import VirtualMemory.
Variable cfg : Config.
Hypothesis Hwf : wf_config cfg.

(** After [invalidate(begin, end)] no valid line caches an address of
    the range. *)
Lemma invalidate_lines_clears (begin end_ addr : Z)
    (data : list (list SetAssocCache.Line)) i set w l :
  begin <= addr < end_ →
  invalidate_lines cfg (invalidate_addrs cfg begin end_) data !! i = Some set →
  set !! w = Some l →
  SetAssocCache.valid l = true →
  (SetAssocCache._get_addr_info cfg addr).1 ≠ (SetAssocCache.tag l, Z.of_nat i).
Proof.
  intros Ha Hs Hl Hv Heq.
  rewrite invalidate_lines_lookup in Hs.
  destruct (data !! i) as [set0|] eqn:Hs0; [|done]. injection Hs as <-.
  rewrite list_lookup_fmap in Hl.
  destruct (set0 !! w) as [l0|] eqn:Hl0; [|done]. injection Hl as <-.
  apply inval_line_valid in Hv as [Hv Hnb]. rewrite inval_line_tag in Heq.
  apply Hnb. unfold in_blocks. apply Exists_exists.
  exists (addr - addr mod block_size cfg). split.
  - pose proof (wf_block cfg Hwf) as Hb.
    unfold invalidate_addrs. apply elem_of_py_range; [done|].
    exists (addr / block_size cfg - begin / block_size cfg).
    pose proof (Z.div_mod addr (block_size cfg)).
    pose proof (Z.div_mod begin (block_size cfg)).
    pose proof (Z.mod_pos_bound addr (block_size cfg) Hb).
    pose proof (Z.div_le_mono begin addr (block_size cfg) Hb).
    split_and!; [lia|nia|lia].
  - by rewrite (addr_info_block cfg Hwf).
Qed.

Lemma vm_swap_out_run (victim : Z) (st : t) (line : Page) (q : list Z) :
  0 <= victim < vm_size cfg / page_size cfg →
  page_table st !! victim = Some line →
  deque_remove victim (lru_queue st) = Some q →
  cache_inv cfg (main_mem st) →
  let addrs := invalidate_addrs cfg (physical line * page_size cfg)
                 ((physical line + 1) * page_size cfg) in
  ∃ evs_c,
    SetAssocCache.invalidate cfg (physical line * page_size cfg)
      ((physical line + 1) * page_size cfg) (main_mem st)
    = (Ok tt, invalidate_lines cfg addrs (main_mem st), evs_c) ∧
    (∀ b, PhysWrite b ∈ evs_c ↔ dirty_block_in cfg addrs (main_mem st) b) ∧
    Forall eviction_event evs_c ∧
    _swap_out cfg victim st
    = (Ok tt,
       {| main_mem := invalidate_lines cfg addrs (main_mem st);
          page_table := delete victim (page_table st);
          frame_set := {[physical line]} ∪ frame_set st;
          lru_queue := q |},
       VmInvalidateCache :: evs_c
         ++ (if dirty line then [VmWriteBack victim] else [])).
Proof.
  intros Hv Hl Hq Hinv addrs.
  destruct (invalidate_run cfg Hwf (physical line * page_size cfg)
              ((physical line + 1) * page_size cfg) (main_mem st) Hinv)
    as (evs_c & Hrun & Hev & Hkind).
  exists evs_c. split_and!; [done..|].
  unfold _swap_out.
  rewrite bind_assert_true by by apply in_range_true. mrun.
  rewrite bind_assert_true by (rewrite Hl; by apply bool_decide_eq_true).
  rewrite (bind_orelse_Some _ line) by done. mrun.
  rewrite (bind_run _ _ _ _ _ _ (zoom_run _ _ _ _ _ _ _ Hrun)). mrun.
  destruct (dirty line); mrun.
  - rewrite (bind_orelse_Some _ q) by done. by mrun.
  - rewrite (bind_orelse_Some _ q) by done. by mrun.
Qed.

End PageEviction.


(** C6: when [VirtualMemory._swap_in] finds no free frame, the page it
    evicts is the head of the page LRU queue; the cache is invalidated
    over the whole frame of that page, with a write-back of each dirty
    block, in the state from which the frame is then released, so that
    no valid line caches an address of the frame when it is reassigned;
    and the secondary-storage write-back message is printed exactly when
    the entry of the evicted page was dirty. *)
Theorem C6_page_eviction (cfg : Config) (pop_choice : gset Z → Z)
    (page victim : Z) (rest : list Z) (line : VirtualMemory.Page)
    (st : VirtualMemory.t) :
  wf_config cfg → pop_spec pop_choice →
  cache_inv cfg (VirtualMemory.main_mem st) →
  0 <= page < vm_size cfg / page_size cfg →
  VirtualMemory.page_table st !! page = None →
  VirtualMemory.frame_set st = ∅ →
  VirtualMemory.lru_queue st = victim :: rest →
  0 <= victim < vm_size cfg / page_size cfg →
  VirtualMemory.page_table st !! victim = Some line →
  eviction_effect cfg pop_choice page victim line st.
Proof.
  intros Hwf Hpop Hinv Hpage Hfresh Hfull Hlru Hvictim Hline.
  assert (Hne : victim ≠ page) by (intros ->; congruence).
  set (st0 := VirtualMemory.set_page_table
                (<[page := VirtualMemory.mkPage 0 false]> (VirtualMemory.page_table st)) st).
  destruct (vm_swap_out_run cfg Hwf victim st0 line rest) as (evs_c & Hrun & Hev & Hkind & Hout).
  { done. }
  { simpl. by rewrite lookup_insert_ne. }
  { simpl. rewrite Hlru. simpl. by rewrite decide_True. }
  { done. }
  simpl in Hrun, Hev, Hout.
  unfold eviction_effect. cbv zeta. fold st0.
  eexists evs_c, _. split_and!; [exact Hrun|exact Hev| | | |reflexivity|].
  - intros addr i set w l Ha Hs Hl Hv.
    by eapply (invalidate_lines_clears cfg Hwf).
  - rewrite Hlru. exact Hout.
  - unfold VirtualMemory._swap_in.
    rewrite bind_assert_true by by apply in_range_true. mrun.
    rewrite bind_assert_true
      by (rewrite Hfresh; apply negb_true_iff; by apply bool_decide_eq_false; intros [? ?]).
    mrun. unfold VirtualMemory.setdefault. rewrite Hfresh, alter_insert_eq. simpl.
    fold st0. rewrite Hfull.
    rewrite bool_decide_true by apply size_empty. mrun.
    rewrite (bind_orelse_Some _ victim) by by rewrite Hlru.
    mrun. rewrite (bind_run _ _ _ _ _ _ Hout). mrun.
    rewrite Hfull.
    assert (Hf : pop_choice ({[VirtualMemory.physical line]} ∪ ∅)
                 = VirtualMemory.physical line).
    { assert (({[VirtualMemory.physical line]} ∪ ∅ : gset Z) ≠ ∅) as Hn by set_solver.
      specialize (Hpop _ Hn). set_solver. }
    rewrite bool_decide_false by set_solver. mrun. rewrite Hf.
    unfold VirtualMemory.set_lru_queue, VirtualMemory.set_page_table,
      VirtualMemory.set_frame_set. simpl.
    rewrite Hlru. simpl.
    rewrite delete_insert_ne by done. rewrite alter_insert_eq. simpl.
    replace (({[VirtualMemory.physical line]} ∪ ∅) ∖ {[VirtualMemory.physical line]} : gset Z)
      with (∅ : gset Z) by set_solver.
    reflexivity.
  - split.
    + intros Hin. destruct (VirtualMemory.dirty line); [done|]. exfalso.
      rewrite !elem_of_cons, !elem_of_app, elem_of_nil, list_elem_of_singleton in Hin.
      destruct Hin as [?|[?|[Hin|[[]|?]]]]; try done.
      rewrite Forall_forall in Hkind. by apply (Hkind _ Hin).
    + intros ->. rewrite !elem_of_cons, !elem_of_app, list_elem_of_singleton.
      right. right. right. left. done.
Qed.

Lemma cache_inv_vmA0 : cache_inv cfgA (VirtualMemory.main_mem vmA0).
Proof.
  eapply (cache_inv_access cfgA true 0 (SetAssocCache.init cfgA));
    [apply wf_cfgA|apply cache_inv_init|].
  vm_compute. reflexivity.
Qed.

Lemma C6_page_eviction_witness :
  eviction_effect cfgA pop_first 1 0 (VirtualMemory.mkPage 0 true) vmA0.
Proof.
  apply (C6_page_eviction cfgA pop_first 1 0 [] (VirtualMemory.mkPage 0 true) vmA0).
  - apply wf_cfgA.
  - apply pop_first_spec.
  - apply cache_inv_vmA0.
  - vm_compute. by split.
  - vm_compute. reflexivity.
  - vm_compute. reflexivity.
  - vm_compute. reflexivity.
  - vm_compute. by split.
  - vm_compute. reflexivity.
Defined.

(** ** FullyAssocTLB: hits *)

Section TlbHit.
Import FullyAssocTLB.
Variable cfg : Config.
Variable pop_choice : gset Z → Z.
Variable addr : Z.
Variable st : t.
Variable idx : nat.
Variable line : Line.
Hypothesis Haddr : 0 <= addr < vm_size cfg.
Hypothesis Hhit : tlb_lookup cfg addr st = Some (idx, line).

Lemma tlb_read_hit r c' evs_c :
  SetAssocCache.read cfg (tlb_translate cfg addr line)
    (VirtualMemory.main_mem (virtual_mem st)) = (r, c', evs_c) →
  read cfg pop_choice addr st = (r, with_cache c' st, TlbHit :: evs_c).
Proof.
  intros Hc. unfold read.
  rewrite bind_assert_true by by apply in_range_true. mrun.
  unfold tlb_lookup in Hhit. rewrite Hhit. mrun.
  unfold zoom_cache, zoom. unfold tlb_translate in Hc. rewrite Hc. done.
Qed.

Lemma tlb_write_hit r c' evs_c :
  SetAssocCache.write cfg (tlb_translate cfg addr line)
    (VirtualMemory.main_mem (virtual_mem st)) = (r, c', evs_c) →
  write cfg pop_choice addr st
  = (r,
     match r with
     | Ok _ =>
         if dirty line || dirty_dirty line then with_cache c' st
         else set_table (alter (set_flags true true) idx (table st)) (with_cache c' st)
     | Raise _ => with_cache c' st
     end,
     TlbHit :: evs_c).
Proof.
  intros Hc. unfold write.
  rewrite bind_assert_true by by apply in_range_true. mrun.
  unfold tlb_lookup in Hhit. rewrite Hhit. mrun.
  unfold tlb_translate in Hc. unfold zoom_cache.
  destruct r as [[]|e].
  - rewrite (bind_run _ _ _ _ _ _ (zoom_run _ _ _ _ _ _ _ (zoom_run _ _ _ _ _ _ _ Hc))).
    destruct (dirty line || dirty_dirty line); simpl; by mrun.
  - rewrite (bind_raise _ _ _ _ _ _ (zoom_run _ _ _ _ _ _ _ (zoom_run _ _ _ _ _ _ _ Hc))).
    by mrun.
Qed.

End TlbHit.


(** ** The claims about FullyAssocTLB *)



(** C10: a read that hits in the TLB leaves the page table, the free
    frames, the page LRU queue, the TLB lines and the TLB LRU queue
    unchanged: only the cache changes.  The page hit is therefore not
    moved in the page LRU queue, and a later fault can evict it although
    it was accessed last. *)
Theorem C10_tlb_hit_frame (cfg : Config) (pop_choice : gset Z → Z) (addr : Z)
    (st : FullyAssocTLB.t) (idx : nat) (line : FullyAssocTLB.Line)
    (r : outcome unit) (c' : list (list SetAssocCache.Line)) (evs_c : list event) :
  wf_config cfg →
  0 <= addr < vm_size cfg →
  tlb_lookup cfg addr st = Some (idx, line) →
  SetAssocCache.read cfg (tlb_translate cfg addr line)
    (VirtualMemory.main_mem (FullyAssocTLB.virtual_mem st)) = (r, c', evs_c) →
  read_hit_effect cfg pop_choice addr st r c' evs_c ∧ hit_page_evicted.
Proof.
  intros _ Haddr Hhit Hc. split.
  - eexists. split; [by apply (tlb_read_hit cfg pop_choice addr st idx line)|].
    by split_and!.
  - unfold hit_page_evicted. split_and!.
    + vm_compute. reflexivity.
    + vm_compute. by eexists.
    + vm_compute. reflexivity.
    + eexists _, _. split_and!.
      * vm_compute. reflexivity.
      * vm_compute. reflexivity.
      * vm_compute. by eexists.
Qed.

Lemma C10_tlb_hit_frame_witness :
  read_hit_effect cfgA pop_first 4 tlbA1 (Ok tt)
    (SetAssocCache.read cfgA 4
       (VirtualMemory.main_mem (FullyAssocTLB.virtual_mem tlbA1))).1.2
    [CacheMiss; PhysRead 1; CacheBlockLoaded]
  ∧ hit_page_evicted.
Proof.
  apply (C10_tlb_hit_frame cfgA pop_first 4 tlbA1 0
           (FullyAssocTLB.mkLine 0 0 true false false)).
  - apply wf_cfgA.
  - simpl. lia.
  - vm_compute. reflexivity.
  - vm_compute. reflexivity.
Defined.

(** C9 fails on the code: the methods undo nothing, and a call can raise
    after it has changed the state.  On [cfgA], whose TLB has two lines,
    pages 0 and 1 are read; the read of address 32 (page 2, a valid
    address) finds no free line and raises [IndexError] in
    [FullyAssocTLB._swap_in], after [VirtualMemory.read] has evicted page
    1 and loaded page 2: the page table and the LRU queue of the pages
    are not those before the call. *)
Theorem C9_failure_leaves_mutations :
  (tlb_run cfgA [FullyAssocTLB.read cfgA pop_first 0;
                 FullyAssocTLB.read cfgA pop_first 16]).1.1 = Ok tt ∧
  0 <= 32 < vm_size cfgA ∧
  ∃ st' evs,
    FullyAssocTLB.read cfgA pop_first 32 tlbA2 = (Raise IndexError, st', evs) ∧
    evs = [TlbMiss; VmFault; VmFull; VmInvalidateCache; CacheNoWriteBack 0;
           VmPageLoaded 2; CacheMiss; PhysRead 0; CacheBlockLoaded; TlbFull] ∧
    VirtualMemory.page_table (FullyAssocTLB.virtual_mem tlbA2)
    = {[1 := VirtualMemory.mkPage 0 false]} ∧
    VirtualMemory.page_table (FullyAssocTLB.virtual_mem st')
    = {[2 := VirtualMemory.mkPage 0 false]} ∧
    VirtualMemory.lru_queue (FullyAssocTLB.virtual_mem tlbA2) = [1] ∧
    VirtualMemory.lru_queue (FullyAssocTLB.virtual_mem st') = [2] ∧
    st' ≠ tlbA2.
Proof.
  split_and!; [vm_compute; reflexivity|done|done|].
  eexists _, _. split_and!; [vm_compute; reflexivity..|].
  intros H.
  apply (f_equal (λ s, VirtualMemory.lru_queue (FullyAssocTLB.virtual_mem s))) in H.
  vm_compute in H. discriminate H.
Qed.

(** C1 fails on the code.  On [cfgA] (one frame, two TLB lines) page 0 is
    read, then page 1: the second read completes, its page fault evicts
    page 0, and the TLB line of page 0 stays valid although page 0 is no
    longer in the page table.  The invalidation that
    [FullyAssocTLB._swap_in] has for this case is not reached, because
    [VirtualMemory.read] has already brought the page in. *)
Theorem C1_tlb_line_outlives_page :
  (tlb_run cfgA [FullyAssocTLB.read cfgA pop_first 0]).1.1 = Ok tt ∧
  ∃ evs,
    FullyAssocTLB.read cfgA pop_first 16 tlbA1 = (Ok tt, tlbA2, evs) ∧
    VmFull ∈ evs ∧ (TlbVmSwapped ∉ evs) ∧
    FullyAssocTLB.table tlbA2 !! 0%nat = Some (FullyAssocTLB.mkLine 0 0 true false false) ∧
    VirtualMemory.page_table (FullyAssocTLB.virtual_mem tlbA2) !! 0 = None ∧
    ¬ tlb_consistent tlbA2.
Proof.
  split; [vm_compute; reflexivity|].
  eexists. split_and!.
  - vm_compute. reflexivity.
  - by repeat constructor.
  - intros H. repeat (apply elem_of_cons in H as [H|H]; [discriminate H|]).
    by apply elem_of_nil in H.
  - vm_compute. reflexivity.
  - vm_compute. reflexivity.
  - intros H. destruct (H 0%nat (FullyAssocTLB.mkLine 0 0 true false false))
      as (e & He & _); [vm_compute; reflexivity|done|].
    vm_compute in He. discriminate He.
Qed.

(** C2 fails on the code: [FullyAssocTLB._swap_in] never appends the slot
    it fills to the TLB LRU queue.  On [cfgA] the read of page 0 fills
    slot 0 and the read of page 1 fills slot 1, and the queue is empty
    after each; with both lines valid, the miss on page 2 raises
    [IndexError] at [self.lru_queue[0]] instead of evicting a line. *)
Theorem C2_tlb_lru_queue_never_filled :
  ∃ evs1 evs2 st3 evs3,
    FullyAssocTLB.read cfgA pop_first 0 (FullyAssocTLB.init cfgA) = (Ok tt, tlbA1, evs1) ∧
    FullyAssocTLB.table tlbA1 !! 0%nat = Some (FullyAssocTLB.mkLine 0 0 true false false) ∧
    FullyAssocTLB.lru_queue tlbA1 = [] ∧
    FullyAssocTLB.read cfgA pop_first 16 tlbA1 = (Ok tt, tlbA2, evs2) ∧
    FullyAssocTLB.table tlbA2
    = [FullyAssocTLB.mkLine 0 0 true false false; FullyAssocTLB.mkLine 1 0 true false false] ∧
    FullyAssocTLB.lru_queue tlbA2 = [] ∧
    FullyAssocTLB.read cfgA pop_first 32 tlbA2 = (Raise IndexError, st3, evs3) ∧
    last evs3 = Some TlbFull.
Proof.
  eexists _, _, _, _. split_and!; vm_compute; reflexivity.
Qed.

(** * Further properties of the code *)

(** ** SetAssocCache: addresses *)

Lemma get_addr_of_info (cfg : Config) (addr : Z) :
  wf_config cfg →
  SetAssocCache._get_addr cfg (SetAssocCache._get_addr_info cfg addr).1.1
    (SetAssocCache._get_addr_info cfg addr).1.2 (SetAssocCache._get_addr_info cfg addr).2
  = addr ∧
  0 <= (SetAssocCache._get_addr_info cfg addr).1.2 < nsets cfg ∧
  0 <= (SetAssocCache._get_addr_info cfg addr).2 < block_size cfg.
Proof.
  intros Hwf.
  pose proof (nsets_pos cfg Hwf) as Hn. pose proof (wf_block cfg Hwf) as Hb.
  unfold SetAssocCache._get_addr_info, SetAssocCache._get_addr. simpl.
  rewrite (transp_size_eq cfg Hwf).
  set (B := block_size cfg) in *. set (T := nsets cfg * B).
  assert (HT : 0 < T) by (unfold T; nia).
  pose proof (Z.div_mod addr T). pose proof (Z.mod_pos_bound addr T HT).
  pose proof (Z.div_mod (addr mod T) B). pose proof (Z.mod_pos_bound (addr mod T) B Hb).
  split_and!; [nia|apply Z.div_pos; lia| |lia|lia].
  apply Z.div_lt_upper_bound; [lia|]. unfold T in *. nia.
Qed.

Lemma info_of_get_addr (cfg : Config) (tg idx off : Z) :
  wf_config cfg →
  0 <= idx < nsets cfg → 0 <= off < block_size cfg →
  SetAssocCache._get_addr_info cfg (SetAssocCache._get_addr cfg tg idx off)
  = (tg, idx, off).
Proof.
  intros Hwf Hi Ho.
  pose proof (nsets_pos cfg Hwf) as Hn. pose proof (wf_block cfg Hwf) as Hb.
  unfold SetAssocCache._get_addr_info, SetAssocCache._get_addr.
  rewrite (transp_size_eq cfg Hwf).
  set (B := block_size cfg) in *. set (T := nsets cfg * B).
  assert (HT : 0 < T) by (unfold T; nia).
  assert (Hr : 0 <= idx * B + off < T) by (unfold T; nia).
  replace (tg * T + idx * B + off) with ((idx * B + off) + tg * T) by ring.
  rewrite Z.div_add, Z.mod_add by lia.
  rewrite (Z.div_small (idx * B + off) T), (Z.mod_small (idx * B + off) T) by lia.
  replace (idx * B + off) with (off + idx * B) by ring.
  rewrite Z.div_add, Z.mod_add by lia.
  rewrite (Z.div_small off B), (Z.mod_small off B) by lia.
  done.
Qed.

(** [_get_addr] and [_get_addr_info] are inverse of each other: an
    address is rebuilt from its tag, set and offset, the set and the
    offset of an address are in range, and a tag, a set and an offset in
    range are those of the address they build. *)
Theorem get_addr_round_trip (cfg : Config) (addr tg idx off : Z) :
  wf_config cfg →
  0 <= idx < nsets cfg → 0 <= off < block_size cfg →
  (let '(tg', idx', off') := SetAssocCache._get_addr_info cfg addr in
   SetAssocCache._get_addr cfg tg' idx' off' = addr ∧
   0 <= idx' < nsets cfg ∧ 0 <= off' < block_size cfg) ∧
  SetAssocCache._get_addr_info cfg (SetAssocCache._get_addr cfg tg idx off)
  = (tg, idx, off).
Proof.
  intros Hwf Hi Ho. split; [by apply get_addr_of_info|by apply info_of_get_addr].
Qed.

Lemma get_addr_round_trip_witness :
  (let '(tg', idx', off') := SetAssocCache._get_addr_info cfgB 27 in
   SetAssocCache._get_addr cfgB tg' idx' off' = 27 ∧
   0 <= idx' < nsets cfgB ∧ 0 <= off' < block_size cfgB) ∧
  SetAssocCache._get_addr_info cfgB (SetAssocCache._get_addr cfgB 3 1 2) = (3, 1, 2).
Proof.
  apply (get_addr_round_trip cfgB 27 3 1 2).
  - apply wf_cfgB.
  - vm_compute. by split.
  - vm_compute. by split.
Defined.

Lemma direct_mapped_tag_ok (cfg : Config) (addr : Z) :
  wf_config cfg → associativity cfg = 1 →
  phys_size cfg < 2 ^ 53 → cache_size cfg < 2 ^ 53 →
  0 <= addr < phys_size cfg → tag_ok cfg addr.
Proof.
  intros Hwf Ha Hp53 Hc53 Haddr.
  unfold tag_ok, tag_below_bound, SetAssocCache.tag_bound, SetAssocCache._get_addr_info.
  simpl. rewrite Ha, Z.div_1_r. pose proof (wf_cache cfg Hwf) as Hc.
  destruct (true_div_above (phys_size cfg) (cache_size cfg) (addr / cache_size cfg))
    as (x & -> & Hx); [lia|lia|apply Z.div_pos; lia| |].
  { pose proof (Z.mul_div_le addr (cache_size cfg) Hc). lia. }
  eexists. split; [done|]. by apply math_ceil_gt.
Qed.

(** With a direct-mapped cache (associativity 1) and sizes below [2^53],
    every read and every write of a valid address completes, on any
    well-formed directory, and leaves a well-formed directory.  (From
    [2^53] on, the quotient that bounds the tags is not exact: with a
    memory of [2^53 + 1] bytes and a cache and blocks of one byte, the
    read of the last byte fails the tag assertion.) *)
Theorem direct_mapped_access_total (cfg : Config) (addr : Z)
    (data : list (list SetAssocCache.Line)) :
  wf_config cfg → associativity cfg = 1 →
  phys_size cfg < 2 ^ 53 → cache_size cfg < 2 ^ 53 →
  cache_inv cfg data → 0 <= addr < phys_size cfg →
  (∃ data' evs, SetAssocCache.read cfg addr data = (Ok tt, data', evs) ∧
                cache_inv cfg data') ∧
  (∃ data' evs, SetAssocCache.write cfg addr data = (Ok tt, data', evs) ∧
                cache_inv cfg data').
Proof.
  intros Hwf Ha Hp53 Hc53 Hinv Haddr.
  pose proof (direct_mapped_tag_ok cfg addr Hwf Ha Hp53 Hc53 Haddr) as Hok.
  split.
  - destruct (lru_updated_access cfg false addr data Hwf Hinv Haddr Hok)
      as (data' & evs & Hacc & _).
    exists data', evs. split; [done|]. by eapply cache_inv_access.
  - destruct (lru_updated_access cfg true addr data Hwf Hinv Haddr Hok)
      as (data' & evs & Hacc & _).
    exists data', evs. split; [done|]. by eapply cache_inv_access.
Qed.

Lemma direct_mapped_access_total_witness :
  (∃ data' evs, SetAssocCache.read cfgA 9 (SetAssocCache.init cfgA) = (Ok tt, data', evs) ∧
                cache_inv cfgA data') ∧
  (∃ data' evs, SetAssocCache.write cfgA 9 (SetAssocCache.init cfgA) = (Ok tt, data', evs) ∧
                cache_inv cfgA data').
Proof.
  apply (direct_mapped_access_total cfgA 9 (SetAssocCache.init cfgA)).
  - apply wf_cfgA.
  - reflexivity.
  - reflexivity.
  - reflexivity.
  - apply cache_inv_init.
  - simpl. lia.
Defined.

(** ** SetAssocCache: the directories that can be reached *)

Section CacheTouched.
Import SetAssocCache.
Variable data : list (list Line).
Variable idx : Z.
Variable set : list Line.
Hypothesis Hidx : 0 <= idx < Z.of_nat (length data).
Hypothesis Hset : data !! Z.to_nat idx = Some set.

Lemma touched_lookup (is_write : bool) (w : nat) (g : Line → Line)
    (i : nat) (set' : list Line) :
  touch is_write idx w (upd_line idx w g data) !! i = Some set' →
  ∃ set0, data !! i = Some set0 ∧
    ∀ w', set' !! w' = touched is_write idx w g i w' <$> set0 !! w'.
Proof.
  intros Hs'.
  assert (Hi1 : 0 <= idx < Z.of_nat (length (upd_line idx w g data)))
    by by rewrite upd_line_length.
  unfold touched. destruct (decide (i = Z.to_nat idx)) as [->|Hne].
  - rewrite (touch_lookup _ _ _ Hi1 (upd_line_lookup _ _ _ Hidx Hset w g)) in Hs'.
    injection Hs' as <-. rewrite list_alter_alter_eq.
    exists set. split; [done|]. intros w'. rewrite list_lookup_fmap.
    destruct (decide (w' = w)) as [->|Hw].
    + rewrite list_lookup_alter_eq. destruct (set !! w); [|done]. simpl.
      by destruct is_write.
    + by rewrite list_lookup_alter_ne.
  - rewrite (touch_lookup_ne _ _ Hi1) in Hs' by done.
    rewrite (upd_line_lookup_ne _ _ Hidx) in Hs' by done.
    exists set'. split; [done|]. intros w'. by destruct (set' !! w').
Qed.

End CacheTouched.

Section CacheReachInv.
Import SetAssocCache.
Variable cfg : Config.
Hypothesis Hwf : wf_config cfg.

Lemma reach_inv_touch (data : list (list Line)) (is_write : bool) (idx tg : Z)
    (set : list Line) (w : nat) (l : Line) (g : Line → Line) :
  0 <= idx < Z.of_nat (length data) →
  data !! Z.to_nat idx = Some set →
  set !! w = Some l →
  tags_bounded cfg data → counters_distinct data →
  (valid (g l) = true → tag_below_bound cfg (tag (g l))) →
  (∀ x, timer (g x) = timer x) →
  tags_bounded cfg (touch is_write idx w (upd_line idx w g data)) ∧
  counters_distinct (touch is_write idx w (upd_line idx w g data)).
Proof.
  intros Hi Hs Hl Hb Hd Hgt Hgtimer.
  assert (Hshape : ∀ i set' w' l',
    touch is_write idx w (upd_line idx w g data) !! i = Some set' →
    set' !! w' = Some l' →
    ∃ set0 l0, data !! i = Some set0 ∧ set0 !! w' = Some l0 ∧
               l' = touched is_write idx w g i w' l0).
  { intros i set' w' l' Hs' Hl'.
    destruct (touched_lookup data idx set Hi Hs is_write w g i set' Hs') as (set0 & Hs0 & Hlk).
    rewrite Hlk in Hl'. destruct (set0 !! w') as [l0|] eqn:Hl0; [|done].
    injection Hl' as <-. by exists set0, l0. }
  split.
  - intros i set' w' l' Hs' Hl' Hv.
    destruct (Hshape _ _ _ _ Hs' Hl') as (set0 & l0 & Hs0 & Hl0 & ->).
    unfold touched in *.
    destruct (decide (i = Z.to_nat idx)) as [->|?]; [|by eapply Hb].
    destruct (decide (w' = w)) as [->|?]; [|simpl in *; by eapply Hb].
    rewrite Hs in Hs0. injection Hs0 as <-. rewrite Hl in Hl0. injection Hl0 as <-.
    destruct is_write; simpl in *; by apply Hgt.
  - intros i set' w1 w2 l1 l2 Hs' H1 H2 Hv1 Hv2.
    destruct (Hshape _ _ _ _ Hs' H1) as (set0 & a1 & Hs0 & Ha1 & ->).
    destruct (Hshape _ _ _ _ Hs' H2) as (set0' & a2 & Hs0' & Ha2 & ->).
    rewrite Hs0 in Hs0'. injection Hs0' as <-.
    unfold touched in *.
    destruct (decide (i = Z.to_nat idx)) as [->|?]; [|by eapply Hd].
    destruct (decide (w1 = w)) as [->|N1]; destruct (decide (w2 = w)) as [->|N2].
    + split; [|done]. by destruct is_write.
    + simpl in Hv2. destruct (Hd _ _ _ _ _ _ Hs0 Ha2 Ha2 Hv2 Hv2) as [Hp _].
      split; [by destruct is_write|]. destruct is_write; simpl; lia.
    + simpl in Hv1. destruct (Hd _ _ _ _ _ _ Hs0 Ha1 Ha1 Hv1 Hv1) as [Hp _].
      split; [simpl; lia|]. destruct is_write; simpl; lia.
    + simpl in Hv1, Hv2.
      destruct (Hd _ _ _ _ _ _ Hs0 Ha1 Ha2 Hv1 Hv2) as [Hp Heq].
      split; [simpl; lia|]. simpl. intros ?. apply Heq. lia.
Qed.

Lemma reach_inv_access (is_write : bool) (addr : Z) (data data' : list (list Line)) r evs :
  cache_inv cfg data → tags_bounded cfg data → counters_distinct data →
  access cfg is_write addr data = (r, data', evs) →
  tags_bounded cfg data' ∧ counters_distinct data'.
Proof.
  intros Hinv Hb Hd Hacc.
  destruct (decide (0 <= addr < phys_size cfg)) as [Haddr|Hout].
  2:{ unfold access in Hacc.
      rewrite bind_assert_false in Hacc by by apply in_range_false.
      by injection Hacc as _ <- _. }
  pose proof (access_idx cfg Hwf data Hinv addr) as Hi.
  destruct (access_cases cfg Hwf data Hinv addr Haddr is_write)
    as (set & Hs & [(w & l & Hf & Hacc')|[(_ & _ & Hacc')|(Hf & Hok & w & l & evs' & Hl & _ & _ & Hacc')]]);
    rewrite Hacc' in Hacc; injection Hacc as _ <- _; [|done|].
  - apply list_find_Some in Hf as (Hl & Hp & _).
    apply andb_prop_elim in Hp as [Hv Ht]. apply Is_true_true in Hv.
    rewrite <- (upd_line_id data _ Hi w).
    eapply reach_inv_touch; try done.
    intros _. by eapply Hb.
  - eapply reach_inv_touch; try done.
Qed.

Lemma reach_inv_invalidate_lines (addrs : list Z) (data : list (list Line)) :
  tags_bounded cfg data → counters_distinct data →
  tags_bounded cfg (invalidate_lines cfg addrs data) ∧
  counters_distinct (invalidate_lines cfg addrs data).
Proof.
  intros Hb Hd.
  assert (Hshape : ∀ i set' w' l',
    invalidate_lines cfg addrs data !! i = Some set' → set' !! w' = Some l' →
    ∃ set0 l0, data !! i = Some set0 ∧ set0 !! w' = Some l0 ∧
               l' = inval_line cfg addrs i l0).
  { intros i set' w' l' Hs' Hl'. rewrite invalidate_lines_lookup in Hs'.
    destruct (data !! i) as [set0|] eqn:Hs0; [|done]. injection Hs' as <-.
    rewrite list_lookup_fmap in Hl'.
    destruct (set0 !! w') as [l0|] eqn:Hl0; [|done]. injection Hl' as <-.
    by exists set0, l0. }
  assert (Htimer : ∀ i l, timer (inval_line cfg addrs i l) = timer l).
  { intros i l. unfold inval_line. by case_bool_decide. }
  split.
  - intros i set' w' l' Hs' Hl' Hv.
    destruct (Hshape _ _ _ _ Hs' Hl') as (set0 & l0 & Hs0 & Hl0 & ->).
    apply inval_line_valid in Hv as [Hv _]. rewrite inval_line_tag. by eapply Hb.
  - intros i set' w1 w2 l1 l2 Hs' H1 H2 Hv1 Hv2.
    destruct (Hshape _ _ _ _ Hs' H1) as (set0 & a1 & Hs0 & Ha1 & ->).
    destruct (Hshape _ _ _ _ Hs' H2) as (set0' & a2 & Hs0' & Ha2 & ->).
    rewrite Hs0 in Hs0'. injection Hs0' as <-.
    apply inval_line_valid in Hv1 as [Hv1 _]. apply inval_line_valid in Hv2 as [Hv2 _].
    rewrite !Htimer. by eapply Hd.
Qed.

Lemma cache_reachable_more (data : list (list Line)) :
  cache_reachable cfg data → tags_bounded cfg data ∧ counters_distinct data.
Proof.
  intros Hreach.
  induction Hreach as [|data addr r data' evs Hr IH Hop|data addr r data' evs Hr IH Hop
                       |data b e r data' evs Hr IH Hop].
  - unfold init. split.
    + intros i set w l Hs H1 Hv.
      apply lookup_replicate in Hs as [-> _]. by apply lookup_replicate in H1 as [-> _].
    + intros i set w1 w2 l1 l2 Hs H1 _ Hv _.
      apply lookup_replicate in Hs as [-> _]. by apply lookup_replicate in H1 as [-> _].
  - destruct IH. eapply reach_inv_access; [by apply cache_reachable_inv|done..].
  - destruct IH. eapply reach_inv_access; [by apply cache_reachable_inv|done..].
  - destruct IH.
    destruct (invalidate_run cfg Hwf b e data (cache_reachable_inv cfg data Hwf Hr))
      as (evs' & Hrun & _ & _).
    rewrite Hrun in Hop. injection Hop as _ <- _.
    by apply reach_inv_invalidate_lines.
Qed.

End CacheReachInv.

Lemma reachable_dataB : cache_reachable cfgB dataB.
Proof.
  eapply (reach_read cfgB _ 8).
  - eapply (reach_write cfgB _ 0); [apply reach_init|]. vm_compute. reflexivity.
  - vm_compute. reflexivity.
Qed.

(** In a directory that the methods have built, the valid lines of a set
    have pairwise different LRU counters; so, when a full set is searched
    for a victim, the way with the greatest counter is the only one, and
    the tie-break of [max] on the lowest way never decides. *)
Theorem lru_victim_unique (cfg : Config) (data : list (list SetAssocCache.Line))
    (i : nat) (set : list SetAssocCache.Line) :
  wf_config cfg → cache_reachable cfg data →
  data !! i = Some set →
  (∀ w1 w2 l1 l2,
     set !! w1 = Some l1 → set !! w2 = Some l2 →
     SetAssocCache.valid l1 = true → SetAssocCache.valid l2 = true →
     w1 ≠ w2 → SetAssocCache.timer l1 ≠ SetAssocCache.timer l2) ∧
  (∀ w w' l l',
     (∀ x, x ∈ set → SetAssocCache.valid x = true) →
     first_max set w →
     set !! w = Some l → set !! w' = Some l' → w' ≠ w →
     SetAssocCache.timer l' < SetAssocCache.timer l).
Proof.
  intros Hwf Hreach Hs.
  destruct (cache_reachable_more cfg Hwf data Hreach) as [_ Hd].
  assert (Hdiff : ∀ w1 w2 l1 l2,
            set !! w1 = Some l1 → set !! w2 = Some l2 →
            SetAssocCache.valid l1 = true → SetAssocCache.valid l2 = true →
            w1 ≠ w2 → SetAssocCache.timer l1 ≠ SetAssocCache.timer l2).
  { intros w1 w2 l1 l2 H1 H2 Hv1 Hv2 Hne Heq.
    destruct (Hd i set w1 w2 l1 l2 Hs H1 H2 Hv1 Hv2) as [_ Hsame]. by apply Hne, Hsame. }
  split; [exact Hdiff|].
  intros w w' l l' Hfull (l0 & Hl0 & Hmax & _) Hl Hl' Hne.
  rewrite Hl in Hl0. injection Hl0 as <-.
  specialize (Hmax w' l' Hl').
  assert (SetAssocCache.timer l' ≠ SetAssocCache.timer l); [|lia].
  apply (Hdiff w' w); [done..| | |done]; apply Hfull; by eapply list_elem_of_lookup_2.
Qed.

Lemma lru_victim_unique_witness :
  (∀ w1 w2 l1 l2,
     [SetAssocCache.mkLine 0 true true 2; SetAssocCache.mkLine 1 true false 1] !! w1
     = Some l1 →
     [SetAssocCache.mkLine 0 true true 2; SetAssocCache.mkLine 1 true false 1] !! w2
     = Some l2 →
     SetAssocCache.valid l1 = true → SetAssocCache.valid l2 = true →
     w1 ≠ w2 → SetAssocCache.timer l1 ≠ SetAssocCache.timer l2) ∧
  (∀ w w' l l',
     (∀ x, x ∈ [SetAssocCache.mkLine 0 true true 2; SetAssocCache.mkLine 1 true false 1] →
           SetAssocCache.valid x = true) →
     first_max [SetAssocCache.mkLine 0 true true 2; SetAssocCache.mkLine 1 true false 1] w →
     [SetAssocCache.mkLine 0 true true 2; SetAssocCache.mkLine 1 true false 1] !! w
     = Some l →
     [SetAssocCache.mkLine 0 true true 2; SetAssocCache.mkLine 1 true false 1] !! w'
     = Some l' →
     w' ≠ w → SetAssocCache.timer l' < SetAssocCache.timer l).
Proof.
  apply (lru_victim_unique cfgB dataB 0
           [SetAssocCache.mkLine 0 true true 2; SetAssocCache.mkLine 1 true false 1]).
  - apply wf_cfgB.
  - apply reachable_dataB.
  - reflexivity.
Defined.

Lemma refused_tag_exists (cfg : Config) :
  wf_config cfg → 2 <= associativity cfg → cache_size cfg <= phys_size cfg →
  ¬ tag_ok cfg (phys_size cfg - 1).
Proof.
  intros Hwf Ha Hsz. unfold tag_ok, tag_below_bound, SetAssocCache.tag_bound.
  unfold SetAssocCache._get_addr_info. simpl.
  rewrite (transp_size_eq cfg Hwf).
  pose proof (nsets_pos cfg Hwf) as Hn. pose proof (wf_block cfg Hwf) as Hb.
  pose proof (wf_cache cfg Hwf) as Hc. pose proof (cache_size_nsets cfg Hwf) as Hcs.
  set (T := nsets cfg * block_size cfg) in *.
  assert (HT : 0 < T) by (unfold T; nia).
  assert (Hcs' : cache_size cfg = associativity cfg * T) by (unfold T; lia).
  set (t := (phys_size cfg - 1) / T).
  assert (Ht : phys_size cfg <= (t + 1) * T).
  { pose proof (Z.div_mod (phys_size cfg - 1) T).
    pose proof (Z.mod_pos_bound (phys_size cfg - 1) T HT). unfold t. lia. }
  intros (bound & Hbound & Hlt).
  destruct (py_true_div (phys_size cfg) (cache_size cfg)) as [x|] eqn:Hx; [|done].
  injection Hbound as <-.
  assert (math_ceil x <= t); [|lia].
  apply math_ceil_le.
  apply (true_div_below (phys_size cfg) (cache_size cfg)); [lia| |done].
  assert (0 <= t) by (apply Z.div_pos; lia). nia.
Qed.

(** The exception of a refused tag is that of the assertion when the
    memory is smaller than [2^1024]. *)
Lemma tag_error_cases (cfg : Config) :
  wf_config cfg → 2 <= associativity cfg →
  (tag_error cfg = AssertionError ∨ tag_error cfg = OverflowError) ∧
  (phys_size cfg < 2 ^ 1024 → tag_error cfg = AssertionError).
Proof.
  intros Hwf Ha. unfold tag_error, SetAssocCache.tag_bound.
  pose proof (wf_cache cfg Hwf) as Hc. pose proof (wf_phys cfg Hwf) as Hp.
  split.
  - destruct (py_true_div (phys_size cfg) (cache_size cfg)) as [x|e] eqn:Hx; [by left|].
    right. simpl. apply (py_true_div_error _ _ _ Hc Hx).
  - intros Hsmall.
    destruct (true_div_finite (phys_size cfg) (cache_size cfg)) as (x & ->); [lia| |done].
    pose proof (nsets_pos cfg Hwf) as Hn. pose proof (wf_block cfg Hwf) as Hb.
    pose proof (cache_size_nsets cfg Hwf) as Hcs. nia.
Qed.

(** With two ways or more and a memory at least as large as the cache,
    the last address of the memory can never be accessed: whatever the
    directory that the methods have built, its read and its write are a
    miss that raises at the first assertion of [_swap_in], and the
    directory stays as it was.  The exception is that of the assertion;
    only for a memory of [2^1024] bytes or more can it be the
    [OverflowError] of the quotient that the assertion computes. *)
Theorem high_address_refused (cfg : Config) (data : list (list SetAssocCache.Line)) :
  wf_config cfg → 2 <= associativity cfg → cache_size cfg <= phys_size cfg →
  cache_reachable cfg data →
  ∃ e,
    (e = AssertionError ∨ e = OverflowError) ∧
    (phys_size cfg < 2 ^ 1024 → e = AssertionError) ∧
    SetAssocCache.read cfg (phys_size cfg - 1) data = (Raise e, data, [CacheMiss]) ∧
    SetAssocCache.write cfg (phys_size cfg - 1) data = (Raise e, data, [CacheMiss]).
Proof.
  intros Hwf Ha Hsz Hreach.
  pose proof (refused_tag_exists cfg Hwf Ha Hsz) as Hno.
  pose proof (cache_reachable_inv cfg data Hwf Hreach) as Hinv.
  destruct (cache_reachable_more cfg Hwf data Hreach) as [Hb _].
  assert (Haddr : 0 <= phys_size cfg - 1 < phys_size cfg)
    by (pose proof (wf_phys cfg Hwf); lia).
  assert (H : ∀ is_write, SetAssocCache.access cfg is_write (phys_size cfg - 1) data
                          = (Raise (tag_error cfg), data, [CacheMiss])).
  { intros is_write.
    destruct (access_cases cfg Hwf data Hinv _ Haddr is_write)
      as (set & Hs & [(w & l & Hf & _)|[(_ & _ & Hacc)|(_ & Hok & _)]]); [|done..].
    exfalso. apply list_find_Some in Hf as (Hl & Hp & _).
    apply andb_prop_elim in Hp as [Hv Ht]. apply Is_true_true in Hv.
    apply bool_decide_unpack in Ht.
    apply Hno. unfold tag_ok. rewrite <- Ht. by eapply Hb. }
  destruct (tag_error_cases cfg Hwf Ha) as [Hcases Hsmall].
  exists (tag_error cfg). split_and!; [done|done|apply H..].
Qed.

Lemma high_address_refused_witness :
  ∃ e,
    (e = AssertionError ∨ e = OverflowError) ∧
    (phys_size cfgB < 2 ^ 1024 → e = AssertionError) ∧
    SetAssocCache.read cfgB (phys_size cfgB - 1) dataB = (Raise e, dataB, [CacheMiss]) ∧
    SetAssocCache.write cfgB (phys_size cfgB - 1) dataB = (Raise e, dataB, [CacheMiss]).
Proof.
  apply (high_address_refused cfgB dataB).
  - apply wf_cfgB.
  - simpl. lia.
  - simpl. lia.
  - apply reachable_dataB.
Defined.

(** ** Calls that raise *)

(** A [read] or a [write] of the cache that raises leaves the directory
    as it was: on a well-formed directory, it raises either at its own
    assertion on the address, before printing anything, or at the first
    assertion of [_swap_in], after the miss message only. *)
Theorem cache_failure_atomic (cfg : Config) (is_write : bool) (addr : Z)
    (data data' : list (list SetAssocCache.Line)) (e : error) (evs : list event) :
  wf_config cfg → cache_inv cfg data →
  SetAssocCache.access cfg is_write addr data = (Raise e, data', evs) →
  data' = data ∧
  (e = AssertionError ∨ e = OverflowError) ∧
  ((¬ (0 <= addr < phys_size cfg) ∧ e = AssertionError ∧ evs = []) ∨
   (0 <= addr < phys_size cfg ∧ ¬ tag_ok cfg addr ∧ evs = [CacheMiss])).
Proof.
  intros Hwf Hinv H.
  destruct (decide (0 <= addr < phys_size cfg)) as [Haddr|Hout].
  - destruct (access_cases cfg Hwf data Hinv addr Haddr is_write)
      as (set & Hs & [(w & l & _ & Hacc)|[(_ & Hno & Hacc)|(_ & _ & w & l & evs' & _ & _ & _ & Hacc)]]);
      rewrite Hacc in H; [done| |done].
    injection H as <- <- <-. split; [done|]. split; [|by right].
    unfold tag_error, SetAssocCache.tag_bound.
    destruct (py_true_div (phys_size cfg) (cache_size cfg)) as [x|e] eqn:Hx; [by left|].
    right. apply (py_true_div_error _ _ _ (wf_cache cfg Hwf) Hx).
  - unfold SetAssocCache.access in H.
    rewrite bind_assert_false in H by by apply in_range_false.
    injection H as <- <- <-. split; [done|]. split; [by left|by left].
Qed.

Lemma cache_failure_atomic_witness :
  SetAssocCache.init cfgB = SetAssocCache.init cfgB ∧
  (AssertionError = AssertionError ∨ AssertionError = OverflowError) ∧
  ((¬ (0 <= 63 < phys_size cfgB) ∧ AssertionError = AssertionError ∧ [CacheMiss] = []) ∨
   (0 <= 63 < phys_size cfgB ∧ ¬ tag_ok cfgB 63 ∧ [CacheMiss] = [CacheMiss])).
Proof.
  apply (cache_failure_atomic cfgB false 63 (SetAssocCache.init cfgB)).
  - apply wf_cfgB.
  - apply cache_inv_init.
  - vm_compute. reflexivity.
Defined.

(** A [read] or [write] of any component on an address outside the range
    of that component, and [randomize_page_table] on a ratio outside
    [0, 1], raise at their first assertion: the state is the one before
    the call and nothing is printed. *)
Theorem range_failure_atomic (cfg : Config) (pop_choice : gset Z → Z)
    (sample : list Z → nat → list Z) (paddr vaddr : Z) (mem_usage : Q)
    (cache : list (list SetAssocCache.Line)) (vm : VirtualMemory.t)
    (tlb : FullyAssocTLB.t) :
  ¬ (0 <= paddr < phys_size cfg) →
  ¬ (0 <= vaddr < vm_size cfg) →
  VirtualMemory.is_ratio (py_float mem_usage) = false →
  fails_before_mutation cfg pop_choice sample paddr vaddr mem_usage cache vm tlb.
Proof.
  intros Hp Hv Hm.
  apply in_range_false in Hp, Hv.
  unfold fails_before_mutation. split_and!.
  - unfold PhysicalMemory.read. by rewrite bind_assert_false.
  - unfold PhysicalMemory.write. by rewrite bind_assert_false.
  - unfold SetAssocCache.read, SetAssocCache.access. by rewrite bind_assert_false.
  - unfold SetAssocCache.write, SetAssocCache.access. by rewrite bind_assert_false.
  - unfold VirtualMemory.read, VirtualMemory.access. by rewrite bind_assert_false.
  - unfold VirtualMemory.write, VirtualMemory.access. by rewrite bind_assert_false.
  - unfold FullyAssocTLB.read. by rewrite bind_assert_false.
  - unfold FullyAssocTLB.write. by rewrite bind_assert_false.
  - unfold VirtualMemory.randomize_page_table. by rewrite bind_assert_false.
Qed.

Lemma range_failure_atomic_witness :
  fails_before_mutation cfgA pop_first sample_first 16 (-1) 2
    dataB vmA0 tlbA2.
Proof.
  apply (range_failure_atomic cfgA pop_first sample_first 16 (-1) 2).
  - simpl. lia.
  - simpl. lia.
  - vm_compute. reflexivity.
Defined.

(** ** SetAssocCache: how the accesses compose *)

Lemma access_ok_range (cfg : Config) (is_write : bool) (addr : Z)
    (data data' : list (list SetAssocCache.Line)) evs :
  SetAssocCache.access cfg is_write addr data = (Ok tt, data', evs) →
  0 <= addr < phys_size cfg.
Proof.
  intros H. destruct (decide (0 <= addr < phys_size cfg)) as [|Hout]; [done|].
  unfold SetAssocCache.access in H.
  by rewrite bind_assert_false in H by by apply in_range_false.
Qed.

Lemma access_ok_line (cfg : Config) (is_write : bool) (addr : Z)
    (data data' : list (list SetAssocCache.Line)) evs :
  wf_config cfg → cache_inv cfg data →
  SetAssocCache.access cfg is_write addr data = (Ok tt, data', evs) →
  ∃ set' w l',
    data' !! Z.to_nat (SetAssocCache._get_addr_info cfg addr).1.2 = Some set' ∧
    set' !! w = Some l' ∧
    SetAssocCache.valid l' = true ∧
    SetAssocCache.tag l' = (SetAssocCache._get_addr_info cfg addr).1.1 ∧
    (is_write = true → SetAssocCache.dirty l' = true).
Proof.
  intros Hwf Hinv Hacc.
  pose proof (access_ok_range _ _ _ _ _ _ Hacc) as Haddr.
  pose proof (access_idx cfg Hwf data Hinv addr) as Hi.
  destruct (access_cases cfg Hwf data Hinv addr Haddr is_write)
    as (set & Hs & [(w & l & Hf & Hacc')|[(_ & _ & Hacc')|(Hf & _ & w & l & evs' & Hl & _ & _ & Hacc')]]);
    rewrite Hacc' in Hacc; [|done|]; injection Hacc as <- _.
  - apply list_find_Some in Hf as (Hl & Hp & _).
    apply andb_prop_elim in Hp as [Hv Ht]. apply Is_true_true in Hv.
    apply bool_decide_unpack in Ht.
    eexists _, w, _. split; [by apply touch_lookup|].
    rewrite list_lookup_fmap, list_lookup_alter_eq, Hl. simpl.
    split; [done|]. by destruct is_write.
  - set (idx := (SetAssocCache._get_addr_info cfg addr).1.2) in *.
    set (tg := (SetAssocCache._get_addr_info cfg addr).1.1) in *.
    assert (Hi1 : 0 <= idx < Z.of_nat (length (SetAssocCache.upd_line idx w (fill tg) data)))
      by by rewrite upd_line_length.
    eexists _, w, _.
    split; [apply (touch_lookup _ _ _ Hi1 (upd_line_lookup _ _ _ Hi Hs w (fill tg)))|].
    rewrite list_lookup_fmap, !list_lookup_alter_eq, Hl. simpl.
    split; [done|]. by destruct is_write.
Qed.

(** After a read or a write that completed, a read of any address of the
    same block is a hit: it completes, prints the hit message only and
    causes no traffic to the physical memory. *)
Theorem access_then_hit (cfg : Config) (is_write : bool) (addr addr2 : Z)
    (data data' : list (list SetAssocCache.Line)) (evs : list event) :
  wf_config cfg → cache_inv cfg data →
  SetAssocCache.access cfg is_write addr data = (Ok tt, data', evs) →
  0 <= addr2 < phys_size cfg →
  (SetAssocCache._get_addr_info cfg addr2).1 = (SetAssocCache._get_addr_info cfg addr).1 →
  ∃ data'', SetAssocCache.read cfg addr2 data' = (Ok tt, data'', [CacheHit]).
Proof.
  intros Hwf Hinv Hacc Haddr2 Hsame.
  destruct (access_ok_line cfg is_write addr data data' evs Hwf Hinv Hacc)
    as (set' & w & l' & Hs' & Hl' & Hv & Ht & _).
  pose proof (cache_inv_access cfg is_write addr data data' _ _ Hwf Hinv Hacc) as Hinv'.
  assert (E1 : (SetAssocCache._get_addr_info cfg addr2).1.1
               = (SetAssocCache._get_addr_info cfg addr).1.1) by by rewrite Hsame.
  assert (E2 : (SetAssocCache._get_addr_info cfg addr2).1.2
               = (SetAssocCache._get_addr_info cfg addr).1.2) by by rewrite Hsame.
  destruct (access_cases cfg Hwf data' Hinv' addr2 Haddr2 false)
    as (set2 & Hs2 & [(w2 & l2 & _ & Hacc2)|[(Hf & _)|(Hf & _)]]).
  - by eexists.
  - exfalso. rewrite E2, Hs' in Hs2. injection Hs2 as <-.
    rewrite list_find_None, Forall_forall in Hf.
    apply (Hf l' (list_elem_of_lookup_2 _ _ _ Hl')).
    rewrite Hv, E1. simpl. by apply bool_decide_pack.
  - exfalso. rewrite E2, Hs' in Hs2. injection Hs2 as <-.
    rewrite list_find_None, Forall_forall in Hf.
    apply (Hf l' (list_elem_of_lookup_2 _ _ _ Hl')).
    rewrite Hv, E1. simpl. by apply bool_decide_pack.
Qed.

Lemma access_then_hit_witness :
  ∃ data'', SetAssocCache.read cfgB 19
              (SetAssocCache.access cfgB true 16 dataB).1.2
            = (Ok tt, data'', [CacheHit]).
Proof.
  apply (access_then_hit cfgB true 16 19 dataB _
           (SetAssocCache.access cfgB true 16 dataB).2).
  - apply wf_cfgB.
  - apply cache_inv_dataB.
  - vm_compute. reflexivity.
  - simpl. lia.
  - vm_compute. reflexivity.
Defined.

Section InvalidateMore.
Import SetAssocCache.
Variable cfg : Config.
Hypothesis Hwf : wf_config cfg.

Lemma in_blocks_range (begin end_ addr : Z) (i : nat) (l : Line) :
  begin <= addr < end_ →
  (_get_addr_info cfg addr).1 = (tag l, Z.of_nat i) →
  in_blocks cfg (invalidate_addrs cfg begin end_) i l.
Proof.
  intros Ha Heq. unfold in_blocks. apply Exists_exists.
  exists (addr - addr mod block_size cfg). split.
  - pose proof (wf_block cfg Hwf) as Hb.
    unfold invalidate_addrs. apply elem_of_py_range; [done|].
    exists (addr / block_size cfg - begin / block_size cfg).
    pose proof (Z.div_mod addr (block_size cfg)).
    pose proof (Z.div_mod begin (block_size cfg)).
    pose proof (Z.mod_pos_bound addr (block_size cfg) Hb).
    pose proof (Z.div_le_mono begin addr (block_size cfg) Hb).
    split_and!; [lia|nia|lia].
  - by rewrite (addr_info_block cfg Hwf).
Qed.


End InvalidateMore.

Section InvalidateSpec.
Import SetAssocCache.
Variable cfg : Config.
Hypothesis Hwf : wf_config cfg.

Lemma block_number (addr : Z) :
  _get_addr cfg (_get_addr_info cfg addr).1.1 (_get_addr_info cfg addr).1.2 0
    / block_size cfg
  = addr / block_size cfg.
Proof.
  pose proof (get_addr_of_info cfg addr Hwf) as (Ha & _ & Ho).
  pose proof (wf_block cfg Hwf) as Hb.
  set (tg := (_get_addr_info cfg addr).1.1) in *.
  set (idx := (_get_addr_info cfg addr).1.2) in *.
  set (off := (_get_addr_info cfg addr).2) in *.
  unfold _get_addr in *. rewrite (transp_size_eq cfg Hwf) in *.
  replace (tg * (nsets cfg * block_size cfg) + idx * block_size cfg + 0)
    with ((tg * nsets cfg + idx) * block_size cfg) by ring.
  rewrite Z.div_mul by lia.
  replace addr with (off + (tg * nsets cfg + idx) * block_size cfg) by lia.
  rewrite Z.div_add by lia. rewrite Z.div_small by lia. lia.
Qed.



Lemma invalidate_lines_idem (addrs : list Z) (data : list (list Line)) :
  invalidate_lines cfg addrs (invalidate_lines cfg addrs data)
  = invalidate_lines cfg addrs data.
Proof.
  apply list_eq. intros i. rewrite !invalidate_lines_lookup.
  destruct (data !! i) as [set|]; [|done]. simpl. f_equal.
  apply list_eq. intros w. rewrite !list_lookup_fmap.
  destruct (set !! w) as [l|]; [|done]. simpl. f_equal.
  unfold inval_line at 1.
  rewrite bool_decide_false; [done|].
  intros [Hv Hb]. apply inval_line_valid in Hv as [_ Hnb].
  apply Hnb. unfold in_blocks in *. by rewrite inval_line_tag in Hb.
Qed.

End InvalidateSpec.



(** A second [invalidate] of the same range changes nothing and writes
    nothing back. *)
Theorem invalidate_idempotent (cfg : Config) (begin end_ : Z)
    (data : list (list SetAssocCache.Line)) :
  wf_config cfg → cache_inv cfg data →
  ∃ data' evs evs2,
    SetAssocCache.invalidate cfg begin end_ data = (Ok tt, data', evs) ∧
    SetAssocCache.invalidate cfg begin end_ data' = (Ok tt, data', evs2) ∧
    ∀ b, PhysWrite b ∉ evs2.
Proof.
  intros Hwf Hinv.
  destruct (invalidate_run cfg Hwf begin end_ data Hinv) as (evs & Hrun & _ & _).
  pose proof (cache_inv_invalidate_lines cfg (invalidate_addrs cfg begin end_) data Hinv)
    as Hinv'.
  destruct (invalidate_run cfg Hwf begin end_ _ Hinv') as (evs2 & Hrun2 & Hev2 & _).
  rewrite invalidate_lines_idem in Hrun2.
  eexists _, evs, evs2. split_and!; [exact Hrun|exact Hrun2|].
  intros b Hb. apply Hev2 in Hb as (i & set & w & l & Hs & Hl & Hv & _ & Hb & _).
  rewrite invalidate_lines_lookup in Hs.
  destruct (data !! i) as [set0|]; [|done]. injection Hs as <-.
  rewrite list_lookup_fmap in Hl. destruct (set0 !! w) as [l0|]; [|done].
  injection Hl as <-. apply inval_line_valid in Hv as [_ Hnb].
  apply Hnb. unfold in_blocks in *. by rewrite inval_line_tag in Hb.
Qed.

Lemma invalidate_idempotent_witness :
  ∃ data' evs evs2,
    SetAssocCache.invalidate cfgB 0 16 dataB = (Ok tt, data', evs) ∧
    SetAssocCache.invalidate cfgB 0 16 data' = (Ok tt, data', evs2) ∧
    ∀ b, PhysWrite b ∉ evs2.
Proof.
  apply (invalidate_idempotent cfgB 0 16 dataB); [apply wf_cfgB|apply cache_inv_dataB].
Defined.

(** A block that was written is written back when its range is
    invalidated: after a write that completed, [invalidate] over a range
    that holds the address prints the write of the block of the address
    to the physical memory, and no valid line caches the address
    afterwards. *)
Theorem write_then_invalidate (cfg : Config) (addr begin end_ : Z)
    (data data' : list (list SetAssocCache.Line)) (evs : list event) :
  wf_config cfg → cache_inv cfg data →
  SetAssocCache.write cfg addr data = (Ok tt, data', evs) →
  begin <= addr < end_ →
  ∃ data'' evs',
    SetAssocCache.invalidate cfg begin end_ data' = (Ok tt, data'', evs') ∧
    PhysWrite (addr / block_size cfg) ∈ evs' ∧
    ∀ i set w l,
      data'' !! i = Some set → set !! w = Some l → SetAssocCache.valid l = true →
      (SetAssocCache._get_addr_info cfg addr).1 ≠ (SetAssocCache.tag l, Z.of_nat i).
Proof.
  intros Hwf Hinv Hw Hr.
  destruct (access_ok_line cfg true addr data data' evs Hwf Hinv Hw)
    as (set' & w & l' & Hs' & Hl' & Hv & Ht & Hd).
  pose proof (cache_inv_access cfg true addr data data' _ _ Hwf Hinv Hw) as Hinv'.
  destruct (invalidate_run cfg Hwf begin end_ data' Hinv') as (evs' & Hrun & Hev & _).
  pose proof (addr_info_idx_range cfg Hwf addr) as Hir.
  eexists _, evs'. split_and!; [exact Hrun| |].
  - apply Hev. exists (Z.to_nat (SetAssocCache._get_addr_info cfg addr).1.2), set', w, l'.
    split_and!; [done|done|done|by apply Hd| |].
    + apply (in_blocks_range cfg Hwf begin end_ addr); [done|].
      rewrite Ht, Z2Nat.id by lia.
      by destruct (SetAssocCache._get_addr_info cfg addr) as [[??]?].
    + rewrite Ht, Z2Nat.id by lia. by rewrite block_number.
  - intros i set w0 l Hs Hl Hvl. by eapply (invalidate_lines_clears cfg Hwf).
Qed.

Lemma write_then_invalidate_witness :
  ∃ data'' evs',
    SetAssocCache.invalidate cfgB 0 32 (SetAssocCache.write cfgB 18 dataB).1.2
    = (Ok tt, data'', evs') ∧
    PhysWrite (18 / block_size cfgB) ∈ evs' ∧
    ∀ i set w l,
      data'' !! i = Some set → set !! w = Some l → SetAssocCache.valid l = true →
      (SetAssocCache._get_addr_info cfgB 18).1 ≠ (SetAssocCache.tag l, Z.of_nat i).
Proof.
  apply (write_then_invalidate cfgB 18 0 32 dataB _ (SetAssocCache.write cfgB 18 dataB).2).
  - apply wf_cfgB.
  - apply cache_inv_dataB.
  - vm_compute. reflexivity.
  - lia.
Defined.

(** ** VirtualMemory: the LRU queue and the accesses *)

Section VmAccess.
Import VirtualMemory.
Variable cfg : Config.
Variable pop_choice : gset Z → Z.

(** What an access that returned has done: the page was resident and
    moved to the tail of the queue, or [_swap_in] brought it in; then
    the cache was accessed at the translated address. *)
Lemma vm_access_inv (is_write : bool) (addr : Z) (st st' : t) (evs : list event) :
  access cfg pop_choice is_write addr st = (Ok tt, st', evs) →
  0 <= addr < vm_size cfg ∧
  ∃ st1 e c' evs1 evs_c,
    ((is_Some (page_table st !! (addr / page_size cfg)) ∧
      ∃ q, deque_remove (addr / page_size cfg) (lru_queue st) = Some q ∧
           st1 = set_lru_queue (q ++ [addr / page_size cfg]) st)
     ∨ (page_table st !! (addr / page_size cfg) = None ∧
        ∃ r evs_s, _swap_in cfg pop_choice (addr / page_size cfg) st = (Ok r, st1, evs_s))) ∧
    page_table st1 !! (addr / page_size cfg) = Some e ∧
    SetAssocCache.access cfg is_write
      (physical e * page_size cfg + addr mod page_size cfg) (main_mem st1)
    = (Ok tt, c', evs_c) ∧
    st' = {| main_mem := c';
             page_table := if is_write
                           then alter (set_dirty true) (addr / page_size cfg) (page_table st1)
                           else page_table st1;
             frame_set := frame_set st1;
             lru_queue := lru_queue st1 |} ∧
    evs = evs1 ++ evs_c.
Proof.
  intros H. unfold access in H. minv H.
  - split; [apply andb_true_iff in Hassert as [?%Z.leb_le ?%Z.ltb_lt]; lia|].
    apply bool_decide_eq_true in Hif.
    destruct is_write; minv H; unfold modify, ret in H; injection H as <- <-;
      rewrite ?app_nil_r; destruct a; eexists _, _, _, [VmResident], _;
      (split_and!; [left; split; [by eexists|]; by eexists|done..]).
  - split; [apply andb_true_iff in Hassert as [?%Z.leb_le ?%Z.ltb_lt]; lia|].
    apply bool_decide_eq_false in Hif. rewrite <- eq_None_not_Some in Hif.
    destruct is_write; minv H; unfold modify, ret in H; injection H as <- <-;
      rewrite ?app_nil_r; destruct a0; eexists s, _, _, (VmFault :: evs), _;
      (split_and!; [right; split; [done|]; by eexists _, _|done..]).
Qed.

Lemma lru_consistent_move (page : Z) (st : t) (q : list Z) :
  lru_consistent st →
  deque_remove page (lru_queue st) = Some q →
  lru_consistent (set_lru_queue (q ++ [page]) st).
Proof.
  intros [Hnd Hmem] Hq.
  apply deque_remove_spec in Hq as (l1 & l2 & Hl & -> & Hn1).
  rewrite Hl in Hnd. unfold lru_consistent. simpl. split.
  - apply NoDup_app in Hnd as (N1 & N12 & N2). apply NoDup_cons in N2 as [Hn2 N2].
    rewrite <- (assoc_L (++)). apply NoDup_app. split_and!; [done| |].
    + intros x Hx Hin. apply elem_of_app in Hin as [Hin|Hin].
      * apply (N12 x Hx). by right.
      * apply list_elem_of_singleton in Hin as ->. apply (N12 page Hx). by left.
    + apply NoDup_app. split_and!; [done| |apply NoDup_singleton].
      intros x Hx Hin. apply list_elem_of_singleton in Hin as ->. done.
  - intros p. rewrite <- Hmem, Hl. rewrite !elem_of_app, !elem_of_cons, elem_of_nil.
    tauto.
Qed.

Lemma lru_consistent_dirty (page : Z) (st : t) :
  lru_consistent st →
  lru_consistent (set_page_table (alter (set_dirty true) page (page_table st)) st).
Proof.
  intros [Hnd Hmem]. split; [done|]. simpl. intros p. rewrite Hmem.
  rewrite lookup_alter. case_decide as Hp; [|done]. subst p.
  by rewrite fmap_is_Some.
Qed.

Lemma lru_consistent_swap_in (page : Z) (st st' : t) (r : option Z) (evs : list event) :
  lru_consistent st →
  _swap_in cfg pop_choice page st = (Ok r, st', evs) →
  lru_consistent st'.
Proof.
  intros [Hnd Hmem] H.
  apply vm_swap_in_inv in H
    as (Hfresh & [(Hne & -> & ->)|(Hfull & victim & st1 & evs1 & -> & Hhd & Hout & Hne1 & ->)]).
  - assert (Hnot : page ∉ lru_queue st).
    { rewrite Hmem, Hfresh. by intros [? ?]. }
    split; simpl.
    + apply NoDup_app. split_and!; [done| |apply NoDup_singleton].
      intros x Hx Hin. apply list_elem_of_singleton in Hin as ->. done.
    + intros p. rewrite elem_of_app, list_elem_of_singleton, Hmem.
      destruct (decide (p = page)) as [->|Hp].
      * rewrite lookup_insert_eq. split; [by eexists|by right].
      * rewrite lookup_insert_ne by done. split; [by intros [?|?]|by left].
  - apply vm_swap_out_inv in Hout as (line & q & c' & evs_c & Hl & Hq & _ & -> & _).
    simpl in *.
    assert (Hvin : victim ∈ lru_queue st).
    { destruct (lru_queue st); [done|]. injection Hhd as ->. by left. }
    assert (Hvp : victim ≠ page).
    { intros ->. apply Hmem in Hvin. rewrite Hfresh in Hvin. by destruct Hvin. }
    assert (Hnot : page ∉ lru_queue st).
    { rewrite Hmem, Hfresh. by intros [? ?]. }
    apply deque_remove_spec in Hq as (l1 & l2 & Hlq & -> & Hn1).
    rewrite Hlq in Hnd, Hnot.
    apply NoDup_app in Hnd as (N1 & N12 & N2). apply NoDup_cons in N2 as [Hn2 N2].
    split; simpl.
    + rewrite <- (assoc_L (++)). apply NoDup_app. split_and!; [done| |].
      * intros x Hx Hin. apply elem_of_app in Hin as [Hin|Hin].
        -- apply (N12 x Hx). by right.
        -- apply list_elem_of_singleton in Hin as ->. apply Hnot.
           apply elem_of_app. by left.
      * apply NoDup_app. split_and!; [done| |apply NoDup_singleton].
        intros x Hx Hin. apply list_elem_of_singleton in Hin as ->.
        apply Hnot. apply elem_of_app. right. by right.
    + intros p. rewrite lookup_alter. rewrite delete_insert_ne by done.
      destruct (decide (p = page)) as [->|Hp].
      * rewrite decide_True by done. rewrite lookup_insert_eq. simpl.
        rewrite !elem_of_app, list_elem_of_singleton. split; [by eexists|by right].
      * rewrite decide_False by done. rewrite lookup_insert_ne by done.
        rewrite !elem_of_app, list_elem_of_singleton.
        destruct (decide (p = victim)) as [->|Hpv].
        -- rewrite lookup_delete_eq. split; [|by intros [? ?]].
           intros [[?|?]|?]; done.
        -- rewrite lookup_delete_ne by done. rewrite <- Hmem, Hlq.
           rewrite elem_of_app, elem_of_cons. split.
           ++ intros [[?|?]|?]; [by left|by right; right|done].
           ++ intros [?|[?|?]]; [by left; left|done|by left; right].
Qed.

Lemma lru_consistent_access (is_write : bool) (addr : Z) (st st' : t) (evs : list event) :
  lru_consistent st →
  access cfg pop_choice is_write addr st = (Ok tt, st', evs) →
  lru_consistent st'.
Proof.
  intros Hc H.
  apply vm_access_inv in H
    as (_ & st1 & e & c' & evs1 & evs_c & Hstage & He & _ & -> & _).
  assert (Hc1 : lru_consistent st1).
  { destruct Hstage as [(_ & q & Hq & ->)|(_ & r & evs_s & Hin)].
    - by apply lru_consistent_move.
    - by eapply lru_consistent_swap_in. }
  destruct is_write; [|exact Hc1].
  by apply (lru_consistent_dirty (addr / page_size cfg)) in Hc1.
Qed.

End VmAccess.

Section VmReachLru.
Import VirtualMemory.
Variable cfg : Config.
Variable pop_choice : gset Z → Z.
Variable sample : list Z → nat → list Z.

Lemma lru_consistent_init : lru_consistent (init cfg).
Proof.
  split; simpl; [apply NoDup_nil_2|].
  intros p. rewrite elem_of_nil, lookup_empty. split; [done|by intros [? ?]].
Qed.

Lemma lru_consistent_randomize_steps (l : list (Z * Z)) (st st' : t) (evs : list event) :
  lru_consistent st →
  NoDup l.*1 →
  (∀ p, p ∈ l.*1 → page_table st !! p = None) →
  for_each l randomize_step st = (Ok tt, st', evs) →
  lru_consistent st'.
Proof.
  revert st evs. induction l as [|[page frame] l IH]; intros st evs Hc Hnd Hfresh H.
  - unfold for_each, ret in H. by injection H as <- _.
  - simpl in H. apply bind_ok_inv in H as ([] & st1 & t1 & t2 & Hstep & H & ->).
    simpl in Hnd. apply NoDup_cons in Hnd as [Hnotin Hnd].
    unfold randomize_step in Hstep. minv Hstep.
    unfold modify in Hstep. injection Hstep as <- _.
    assert (Hp : page_table st !! page = None) by (apply Hfresh; simpl; set_solver).
    destruct Hc as [Hnd0 Hmem].
    assert (Hnot : page ∉ lru_queue st).
    { rewrite Hmem, Hp. by intros [? ?]. }
    apply (IH _ _) in H; [done| |done|].
    + split; simpl.
      * apply NoDup_app. split_and!; [done| |apply NoDup_singleton].
        intros x Hx Hin. apply list_elem_of_singleton in Hin as ->. done.
      * intros p. unfold setdefault. rewrite Hp, alter_insert_eq.
        rewrite elem_of_app, list_elem_of_singleton, Hmem.
        destruct (decide (p = page)) as [->|Hpp].
        -- rewrite lookup_insert_eq. split; [by eexists|by right].
        -- rewrite lookup_insert_ne by done. split; [by intros [?|?]|by left].
    + intros p Hin. simpl. unfold setdefault. rewrite Hp.
      rewrite alter_insert_eq. rewrite lookup_insert_ne by (by intros ->).
      apply Hfresh. simpl. set_solver.
Qed.

Lemma lru_consistent_randomize (mem_usage : Q) (st' : t) (evs : list event) :
  randomize_page_table sample mem_usage (init cfg) = (Ok tt, st', evs) →
  lru_consistent st'.
Proof.
  intros H. apply randomize_inv in H as (mu & k & _ & _ & _ & _ & H).
  eapply lru_consistent_randomize_steps; [apply lru_consistent_init| | |exact H].
  - apply NoDup_alt. intros i j x Hi Hj.
    rewrite list_lookup_fmap, list_lookup_imap in Hi, Hj.
    destruct (_ !! i); [|done]. destruct (_ !! j); [|done].
    simpl in *. simplify_eq. lia.
  - intros p _. apply lookup_empty.
Qed.

End VmReachLru.

(** What a completed [read] or [write] of [addr] leaves: the page of
    [addr] is resident and at the tail of the LRU queue, and dirty after
    a write; every other page that was resident keeps its entry, except
    the head of the queue, which leaves the table only when the page of
    [addr] was absent and no frame was free. *)
Theorem vm_access_effect (cfg : Config) (pop_choice : gset Z → Z)
    (is_write : bool) (addr : Z) (st st' : VirtualMemory.t) (evs : list event) :
  VirtualMemory.access cfg pop_choice is_write addr st = (Ok tt, st', evs) →
  let page := addr / page_size cfg in
  (∃ e, VirtualMemory.page_table st' !! page = Some e ∧
        (is_write = true → VirtualMemory.dirty e = true) ∧
        (∀ e0, VirtualMemory.page_table st !! page = Some e0 →
               VirtualMemory.physical e = VirtualMemory.physical e0)) ∧
  last (VirtualMemory.lru_queue st') = Some page ∧
  ∀ p e0, p ≠ page → VirtualMemory.page_table st !! p = Some e0 →
    VirtualMemory.page_table st' !! p = Some e0 ∨
    (VirtualMemory.page_table st' !! p = None ∧
     head (VirtualMemory.lru_queue st) = Some p ∧
     VirtualMemory.page_table st !! page = None ∧
     VirtualMemory.frame_set st = ∅).
Proof.
  intros H. cbv zeta.
  apply vm_access_inv in H
    as (_ & st1 & e & c' & evs1 & evs_c & Hstage & He & _ & -> & _).
  simpl. set (page := addr / page_size cfg) in *.
  assert (Hother : ∀ p, p ≠ page →
            (if is_write
             then alter (VirtualMemory.set_dirty true) page (VirtualMemory.page_table st1)
             else VirtualMemory.page_table st1) !! p
            = VirtualMemory.page_table st1 !! p).
  { intros p Hp. destruct is_write; [|done]. by rewrite lookup_alter_ne. }
  split_and!.
  - destruct is_write.
    + exists (VirtualMemory.set_dirty true e). rewrite lookup_alter_eq, He.
      split_and!; [done|done|].
      intros e0 He0. destruct Hstage as [(_ & q & _ & ->)|(Hn & _)]; [|congruence].
      simpl in *. congruence.
    + exists e. split_and!; [done|done|].
      intros e0 He0. destruct Hstage as [(_ & q & _ & ->)|(Hn & _)]; [|congruence].
      simpl in *. congruence.
  - destruct Hstage as [(_ & q & _ & ->)|(_ & r & evs_s & Hin)].
    + simpl. apply last_snoc.
    + apply vm_swap_in_inv in Hin
        as (_ & [(_ & _ & ->)|(_ & victim & st2 & evs2 & _ & _ & _ & _ & ->)]);
        simpl; apply last_snoc.
  - intros p e0 Hp He0. rewrite (Hother p Hp).
    destruct Hstage as [(_ & q & _ & ->)|(Hn & r & evs_s & Hin)]; [by left|].
    apply vm_swap_in_inv in Hin
      as (_ & [(_ & _ & ->)|(Hfull & victim & st2 & evs2 & _ & Hhd & Hout & _ & ->)]);
      simpl.
    + left. by rewrite lookup_insert_ne.
    + apply vm_swap_out_inv in Hout as (line & q & c2 & evs_c2 & _ & _ & _ & -> & _).
      simpl. rewrite lookup_alter_ne by done.
      destruct (decide (p = victim)) as [->|Hpv].
      * right. by rewrite lookup_delete_eq.
      * left. rewrite lookup_delete_ne by done. by rewrite lookup_insert_ne.
Qed.

Lemma vm_access_effect_witness :
  let page := 16 / page_size cfgA in
  (∃ e, VirtualMemory.page_table vmA !! page = Some e ∧
        (true = true → VirtualMemory.dirty e = true) ∧
        (∀ e0, VirtualMemory.page_table
                 (VirtualMemory.read cfgA pop_first 0 (VirtualMemory.init cfgA)).1.2 !! page
               = Some e0 →
               VirtualMemory.physical e = VirtualMemory.physical e0)) ∧
  last (VirtualMemory.lru_queue vmA) = Some page ∧
  ∀ p e0, p ≠ page →
    VirtualMemory.page_table
      (VirtualMemory.read cfgA pop_first 0 (VirtualMemory.init cfgA)).1.2 !! p = Some e0 →
    VirtualMemory.page_table vmA !! p = Some e0 ∨
    (VirtualMemory.page_table vmA !! p = None ∧
     head (VirtualMemory.lru_queue
             (VirtualMemory.read cfgA pop_first 0 (VirtualMemory.init cfgA)).1.2) = Some p ∧
     VirtualMemory.page_table
       (VirtualMemory.read cfgA pop_first 0 (VirtualMemory.init cfgA)).1.2 !! page = None ∧
     VirtualMemory.frame_set
       (VirtualMemory.read cfgA pop_first 0 (VirtualMemory.init cfgA)).1.2 = ∅).
Proof.
  apply (vm_access_effect cfgA pop_first true 16
           (VirtualMemory.read cfgA pop_first 0 (VirtualMemory.init cfgA)).1.2 vmA
           (VirtualMemory.write cfgA pop_first 16
              (VirtualMemory.read cfgA pop_first 0 (VirtualMemory.init cfgA)).1.2).2).
  vm_compute. reflexivity.
Defined.

(** ** VirtualMemory: what the methods compute *)

Section VmTotal.
Import VirtualMemory.
Variable cfg : Config.
Variable pop_choice : gset Z → Z.
Hypothesis Hwf : wf_config cfg.
Hypothesis Hpop : pop_spec pop_choice.

Lemma vm_swap_in_free_run (page : Z) (st : t) :
  0 <= page < vm_size cfg / page_size cfg →
  page_table st !! page = None →
  frame_set st ≠ ∅ →
  _swap_in cfg pop_choice page st
  = (Ok None,
     {| main_mem := main_mem st;
        page_table := <[page := mkPage (pop_choice (frame_set st)) false]> (page_table st);
        frame_set := frame_set st ∖ {[pop_choice (frame_set st)]};
        lru_queue := lru_queue st ++ [page] |},
     [VmPageLoaded page]).
Proof.
  intros Hpage Hfresh Hne. unfold _swap_in.
  rewrite bind_assert_true by by apply in_range_true. mrun.
  rewrite bind_assert_true
    by (rewrite Hfresh; apply negb_true_iff; by apply bool_decide_eq_false; intros [? ?]).
  mrun. unfold setdefault. rewrite Hfresh, alter_insert_eq. simpl.
  rewrite bool_decide_false by (rewrite size_empty_iff; by intros ?%leibniz_equiv).
  mrun. rewrite bool_decide_false by done. mrun.
  unfold set_lru_queue, set_page_table, set_frame_set. simpl.
  by rewrite alter_insert_eq.
Qed.

Lemma vm_swap_in_full_run (page victim : Z) (rest : list Z) (line : Page) (st : t) :
  cache_inv cfg (main_mem st) →
  0 <= page < vm_size cfg / page_size cfg →
  page_table st !! page = None →
  frame_set st = ∅ →
  lru_queue st = victim :: rest →
  0 <= victim < vm_size cfg / page_size cfg →
  page_table st !! victim = Some line →
  ∃ evs,
    _swap_in cfg pop_choice page st
    = (Ok (Some victim),
       {| main_mem :=
            invalidate_lines cfg
              (invalidate_addrs cfg (physical line * page_size cfg)
                 ((physical line + 1) * page_size cfg)) (main_mem st);
          page_table := <[page := mkPage (physical line) false]> (delete victim (page_table st));
          frame_set := ∅;
          lru_queue := rest ++ [page] |},
       evs).
Proof.
  intros Hinv Hpage Hfresh Hfull Hlru Hvictim Hline.
  assert (Hne : victim ≠ page) by (intros ->; congruence).
  set (st0 := set_page_table (<[page := mkPage 0 false]> (page_table st)) st).
  destruct (vm_swap_out_run cfg Hwf victim st0 line rest)
    as (evs_c & _ & _ & _ & Hout).
  { done. }
  { simpl. by rewrite lookup_insert_ne. }
  { simpl. rewrite Hlru. simpl. by rewrite decide_True. }
  { done. }
  simpl in Hout.
  eexists. unfold _swap_in.
  rewrite bind_assert_true by by apply in_range_true. mrun.
  rewrite bind_assert_true
    by (rewrite Hfresh; apply negb_true_iff; by apply bool_decide_eq_false; intros [? ?]).
  mrun. unfold setdefault. rewrite Hfresh, alter_insert_eq. simpl.
  fold st0. rewrite Hfull.
  rewrite bool_decide_true by apply size_empty. mrun.
  rewrite (bind_orelse_Some _ victim) by by rewrite Hlru.
  mrun. rewrite (bind_run _ _ _ _ _ _ Hout). mrun.
  rewrite Hfull.
  assert (Hf : pop_choice ({[physical line]} ∪ ∅) = physical line).
  { assert (({[physical line]} ∪ ∅ : gset Z) ≠ ∅) as Hn by set_solver.
    specialize (Hpop _ Hn). set_solver. }
  rewrite bool_decide_false by set_solver. mrun. rewrite Hf.
  unfold set_lru_queue, set_page_table, set_frame_set. simpl.
  rewrite delete_insert_ne by done. rewrite alter_insert_eq. simpl.
  replace (({[physical line]} ∪ ∅) ∖ {[physical line]} : gset Z)
    with (∅ : gset Z) by set_solver.
  reflexivity.
Qed.

Lemma frame_phys_range (f off : Z) :
  0 <= f < n_frames cfg → 0 <= off < page_size cfg →
  0 <= f * page_size cfg + off < phys_size cfg.
Proof.
  intros Hf Ho. unfold n_frames in Hf.
  pose proof (wf_page cfg Hwf) as Hp.
  pose proof (Z.mul_div_le (phys_size cfg) (page_size cfg) Hp). nia.
Qed.

Lemma pages_in_range_access (is_write : bool) (addr : Z) (st st' : t) (evs : list event) :
  pages_in_range cfg st →
  access cfg pop_choice is_write addr st = (Ok tt, st', evs) →
  pages_in_range cfg st'.
Proof.
  intros Hr H.
  apply vm_access_inv in H
    as (Haddr & st1 & e & c' & evs1 & evs_c & Hstage & He & _ & -> & _).
  assert (Hpage : 0 <= addr / page_size cfg < vm_size cfg / page_size cfg).
  { pose proof (wf_page cfg Hwf) as Hp. pose proof (wf_vm_div cfg Hwf) as Hd.
    split; [apply Z.div_pos; lia|].
    apply Z.div_lt_upper_bound; [done|].
    pose proof (Z.div_mod (vm_size cfg) (page_size cfg)). lia. }
  assert (Hr1 : pages_in_range cfg st1).
  { destruct Hstage as [(_ & q & _ & ->)|(_ & r & evs_s & Hin)]; [done|].
    apply vm_swap_in_inv in Hin
      as (_ & [(_ & _ & ->)|(_ & victim & st2 & evs2 & _ & _ & Hout & _ & ->)]).
    - intros p. simpl. destruct (decide (p = addr / page_size cfg)) as [->|Hp]; [done|].
      rewrite lookup_insert_ne by done. apply Hr.
    - apply vm_swap_out_inv in Hout as (line & q & c2 & evs_c2 & _ & _ & _ & -> & _).
      intros p. simpl.
      destruct (decide (p = addr / page_size cfg)) as [->|Hp]; [done|].
      rewrite lookup_alter_ne by done. intros [x Hx].
      apply lookup_delete_Some in Hx as [_ Hx].
      rewrite lookup_insert_ne in Hx by done. apply Hr. by eexists. }
  intros p. simpl. destruct is_write; [|apply Hr1].
  rewrite lookup_alter. case_decide as Hp; [|apply Hr1].
  rewrite fmap_is_Some. subst p. apply Hr1.
Qed.

Lemma cache_inv_vm_access (is_write : bool) (addr : Z) (st st' : t) (evs : list event) :
  cache_inv cfg (main_mem st) →
  access cfg pop_choice is_write addr st = (Ok tt, st', evs) →
  cache_inv cfg (main_mem st').
Proof.
  intros Hinv H.
  apply vm_access_inv in H
    as (_ & st1 & e & c' & evs1 & evs_c & Hstage & He & Hacc & -> & _).
  simpl. eapply cache_inv_access; [done| |exact Hacc].
  destruct Hstage as [(_ & q & _ & ->)|(_ & r & evs_s & Hin)]; [done|].
  apply vm_swap_in_inv in Hin
    as (_ & [(_ & _ & ->)|(_ & victim & st2 & evs2 & _ & _ & Hout & _ & ->)]); [done|].
  apply vm_swap_out_inv in Hout as (line & q & c2 & evs_c2 & _ & _ & Hi & -> & _).
  simpl in *.
  destruct (invalidate_run cfg Hwf (physical line * page_size cfg)
              ((physical line + 1) * page_size cfg) (main_mem st) Hinv)
    as (evs' & Hrun & _).
  rewrite Hrun in Hi. injection Hi as <- _.
  by apply cache_inv_invalidate_lines.
Qed.

Lemma vm_inv_access (is_write : bool) (addr : Z) (st st' : t) (evs : list event) :
  vm_inv cfg st →
  access cfg pop_choice is_write addr st = (Ok tt, st', evs) →
  vm_inv cfg st'.
Proof.
  intros (Hc & Hp & Hl & Hr) H. split_and!.
  - by eapply cache_inv_vm_access.
  - by eapply (partition_access cfg pop_choice Hpop).
  - by eapply lru_consistent_access.
  - by eapply pages_in_range_access.
Qed.

Lemma vm_inv_init : vm_inv cfg (init cfg).
Proof.
  split_and!.
  - by apply cache_inv_init.
  - apply partition_init.
  - apply lru_consistent_init.
  - intros p [x Hx]. simpl in Hx. by rewrite lookup_empty in Hx.
Qed.

End VmTotal.

(** ** VirtualMemory: the states that calls leave, returned or raised *)

Section VmStage.
Import VirtualMemory.
Variable cfg : Config.
Variable pop_choice : gset Z → Z.
Hypothesis Hwf : wf_config cfg.
Hypothesis Hpop : pop_spec pop_choice.

Lemma mapped_frame_range (st : t) (p : Z) (e : Page) :
  frame_partition cfg st → page_table st !! p = Some e →
  0 <= physical e < n_frames cfg.
Proof.
  intros (_ & _ & Hall) He. apply Hall. right. by exists p, e.
Qed.

Lemma vm_page_range (addr : Z) :
  0 <= addr < vm_size cfg →
  0 <= addr / page_size cfg < vm_size cfg / page_size cfg.
Proof.
  intros Haddr. pose proof (wf_page cfg Hwf) as Hp. pose proof (wf_vm_div cfg Hwf) as Hd.
  split; [apply Z.div_pos; lia|].
  apply Z.div_lt_upper_bound; [done|].
  pose proof (Z.div_mod (vm_size cfg) (page_size cfg)). lia.
Qed.

(** The first half of an access, up to the access to the cache: when
    there is a frame, it completes on every sound state, leaves a sound
    state, and the page is then mapped to a frame. *)
Lemma vm_access_stage (addr : Z) (st : t) :
  vm_sound cfg st → 1 <= n_frames cfg → 0 <= addr < vm_size cfg →
  ∃ st1 e evs1,
    vm_sound cfg st1 ∧
    (pages_in_range cfg st → pages_in_range cfg st1) ∧
    page_table st1 !! (addr / page_size cfg) = Some e ∧
    0 <= physical e < n_frames cfg ∧
    ∀ is_write,
      access cfg pop_choice is_write addr st
      = log evs1
          (bind (zoom main_mem set_main_mem
                   (SetAssocCache.access cfg is_write
                      (physical e * page_size cfg + addr mod page_size cfg)))
             (λ _, if is_write
                   then modify (λ st, set_page_table
                                        (alter (set_dirty true) (addr / page_size cfg)
                                           (page_table st)) st)
                   else ret tt) st1).
Proof.
  intros (Hc & Hp & Hl & Hr) Hframes Haddr.
  pose proof (vm_page_range addr Haddr) as Hpage.
  set (page := addr / page_size cfg) in *.
  destruct (page_table st !! page) as [e|] eqn:He.
  - destruct (deque_remove_elem_of page (lru_queue st)) as [q Hq].
    { apply Hl. by eexists. }
    exists (set_lru_queue (q ++ [page]) st), e, [VmResident].
    split; [|split; [|split; [|split]]].
    + split_and!; [done|done|by apply lru_consistent_move|done].
    + done.
    + done.
    + by eapply mapped_frame_range.
    + intros is_write. unfold access.
      rewrite bind_assert_true by by apply in_range_true. mrun. fold page.
      rewrite He. rewrite bool_decide_true by by eexists. mrun.
      rewrite (bind_orelse_Some _ q) by done. mrun.
      rewrite (bind_orelse_Some _ e) by done. by mrun.
  - assert (Hr' : pages_in_range cfg st).
    { destruct Hr as [|Hall]; [done|]. specialize (Hall page Hpage).
      rewrite He in Hall. by destruct Hall. }
    assert (∃ r st1 evs1 f,
              _swap_in cfg pop_choice page st = (Ok r, st1, evs1) ∧
              page_table st1 !! page = Some (mkPage f false) ∧
              cache_inv cfg (main_mem st1) ∧
              ∀ p, is_Some (page_table st1 !! p) → p = page ∨ is_Some (page_table st !! p))
      as (r & st1 & evs1 & f & Hin & He1 & Hc1 & Hdom).
    { destruct (decide (frame_set st = ∅)) as [Hfull|Hfree].
      - assert (∃ p0 e0, page_table st !! p0 = Some e0 ∧ physical e0 = 0)
          as (p0 & e0 & He0 & _).
        { destruct Hp as (_ & _ & Hall).
          destruct (proj2 (Hall 0)) as [Hin|Hm]; [lia| |done].
          rewrite Hfull in Hin. set_solver. }
        destruct Hl as [Hnd Hmem].
        assert (Hp0 : p0 ∈ lru_queue st) by (apply Hmem; by eexists).
        destruct (lru_queue st) as [|victim rest] eqn:Hlru; [by apply elem_of_nil in Hp0|].
        assert (is_Some (page_table st !! victim)) as [line Hline].
        { apply Hmem. by left. }
        destruct (vm_swap_in_full_run cfg pop_choice Hwf Hpop page victim rest line st)
          as (evs1 & Hin); try done.
        { apply Hr'. by eexists. }
        eexists _, _, _, (physical line). split; [exact Hin|]. split_and!.
        + simpl. by rewrite lookup_insert_eq.
        + simpl. by apply cache_inv_invalidate_lines.
        + intros p. simpl. destruct (decide (p = page)) as [|Hne]; [by left|].
          rewrite lookup_insert_ne by done. intros [x Hx].
          apply lookup_delete_Some in Hx as [_ Hx]. right. by eexists.
      - eexists _, _, _, (pop_choice (frame_set st)).
        split; [by apply (vm_swap_in_free_run cfg pop_choice)|]. split_and!.
        + simpl. by rewrite lookup_insert_eq.
        + done.
        + intros p. simpl. destruct (decide (p = page)) as [|Hne]; [by left|].
          rewrite lookup_insert_ne by done. by right. }
    assert (Hr1 : pages_in_range cfg st1).
    { intros p Hp1. destruct (Hdom p Hp1) as [->|Hp0]; [done|by apply Hr']. }
    exists st1, (mkPage f false), (VmFault :: evs1).
    split; [|split; [|split; [|split]]].
    + split_and!; [done| | |by left].
      * by eapply (partition_swap_in cfg pop_choice Hpop).
      * by eapply lru_consistent_swap_in.
    + done.
    + done.
    + eapply mapped_frame_range; [|exact He1].
      by eapply (partition_swap_in cfg pop_choice Hpop).
    + intros is_write. unfold access.
      rewrite bind_assert_true by by apply in_range_true. mrun. fold page.
      rewrite He. rewrite bool_decide_false by (by intros [? ?]). mrun.
      rewrite (bind_run _ _ _ _ _ _ Hin). mrun.
      rewrite (bind_orelse_Some _ (mkPage f false)) by done. by mrun.
Qed.

Lemma vm_sound_dirty (page : Z) (st : t) :
  vm_sound cfg st →
  vm_sound cfg (set_page_table (alter (set_dirty true) page (page_table st)) st).
Proof.
  intros (Hc & Hp & Hl & Hr).
  assert (Hsome : ∀ p, is_Some (alter (set_dirty true) page (page_table st) !! p)
                       ↔ is_Some (page_table st !! p)).
  { intros p. rewrite lookup_alter. case_decide as E; [|done].
    rewrite fmap_is_Some. by rewrite E. }
  split_and!; [done| |by apply lru_consistent_dirty|].
  - unfold frame_partition in *. simpl.
    eapply partition_same_frames; [|exact Hp].
    intros q. rewrite lookup_alter. case_decide as Hq; [|done].
    rewrite Hq. by destruct (page_table st !! q).
  - destruct Hr as [Hr|Hr]; [left|right]; intros p; simpl; rewrite Hsome; apply Hr.
Qed.

(** Every access leaves a sound state sound, whether it returns or
    raises. *)
Lemma vm_access_sound (is_write : bool) (addr : Z) (st st' : t) r (evs : list event) :
  vm_sound cfg st → 1 <= n_frames cfg →
  access cfg pop_choice is_write addr st = (r, st', evs) →
  vm_sound cfg st'.
Proof.
  intros Hs Hframes H.
  destruct (decide (0 <= addr < vm_size cfg)) as [Haddr|Hout].
  2:{ unfold access in H. rewrite bind_assert_false in H by by apply in_range_false.
      by injection H as _ <- _. }
  destruct (vm_access_stage addr st Hs Hframes Haddr)
    as (st1 & e & evs1 & Hs1 & _ & He & Hf & Hacc).
  rewrite Hacc in H. apply log_inv in H as (evs2 & H & _).
  destruct (SetAssocCache.access cfg is_write
              (physical e * page_size cfg + addr mod page_size cfg) (main_mem st1))
    as [[rc c'] evs_c] eqn:Hc.
  assert (Hs1' : vm_sound cfg (set_main_mem c' st1)).
  { destruct Hs1 as (Hc1 & ? & ? & ?). split_and!; [|done..]. simpl.
    by eapply cache_inv_access. }
  pose proof (zoom_run main_mem set_main_mem _ st1 _ _ _ Hc) as Hz.
  destruct rc as [[]|err].
  - rewrite (bind_run _ _ _ _ _ _ Hz) in H.
    destruct is_write; unfold modify, ret in H; simpl in H; injection H as _ <- _;
      [|done].
    by apply (vm_sound_dirty (addr / page_size cfg)) in Hs1'.
  - rewrite (bind_raise _ _ _ _ _ _ Hz) in H. by injection H as _ <- _.
Qed.

(** Without a frame no access returns, and none frees a frame. *)
Lemma vm_stuck_access (is_write : bool) (addr : Z) (st st' : t) r (evs : list event) :
  vm_stuck st →
  access cfg pop_choice is_write addr st = (r, st', evs) →
  vm_stuck st' ∧ r ≠ Ok tt.
Proof.
  intros [Hfs Hq] H. unfold access in H.
  destruct ((0 <=? addr) && (addr <? vm_size cfg)) eqn:Hrange.
  2:{ rewrite bind_assert_false in H by done. by injection H as <- <- _. }
  rewrite bind_assert_true in H by done.
  autorewrite with mrun in H; simpl in H.
  destruct (page_table st !! (addr / page_size cfg)) as [e|] eqn:He.
  - rewrite bool_decide_true in H by by eexists.
    autorewrite with mrun in H; simpl in H.
    rewrite Hq in H. rewrite bind_orelse_None in H by done.
    simpl in H. by injection H as <- <- _.
  - rewrite bool_decide_false in H by (by intros [? ?]).
    autorewrite with mrun in H; simpl in H.
    unfold _swap_in in H. autorewrite with mrun in H; simpl in H.
    destruct ((0 <=? addr / page_size cfg)
              && (addr / page_size cfg <? vm_size cfg / page_size cfg)) eqn:Hpage.
    2:{ rewrite bind_assert_false in H by done. simpl in H. by injection H as <- <- _. }
    rewrite bind_assert_true in H by done.
    autorewrite with mrun in H; simpl in H.
    rewrite He in H.
    rewrite bind_assert_true in H
      by (apply negb_true_iff; by apply bool_decide_eq_false; intros [? ?]).
    autorewrite with mrun in H; simpl in H.
    rewrite Hfs in H. rewrite bool_decide_true in H by apply size_empty.
    autorewrite with mrun in H; simpl in H.
    rewrite Hq in H. rewrite bind_orelse_None in H by done.
    simpl in H. by injection H as <- <- _.
Qed.

End VmStage.

Section VmReach.
Import VirtualMemory.
Variable cfg : Config.
Variable pop_choice : gset Z → Z.
Variable sample : list Z → nat → list Z.
Hypothesis Hwf : wf_config cfg.
Hypothesis Hpop : pop_spec pop_choice.

(** The loop of [randomize_page_table] seats the pages that it numbers
    and leaves the cache alone; without a free frame it seats none. *)
Lemma randomize_steps_pages (l : list (Z * Z)) (st st' : t) (evs : list event) :
  for_each l randomize_step st = (Ok tt, st', evs) →
  main_mem st' = main_mem st ∧
  (frame_set st = ∅ → st' = st) ∧
  ∀ p, is_Some (page_table st' !! p) ↔ is_Some (page_table st !! p) ∨ p ∈ l.*1.
Proof.
  revert st evs. induction l as [|[page frame] l IH]; intros st evs H.
  - unfold for_each, ret in H. injection H as <- _.
    split_and!; [done..|]. intros p. rewrite elem_of_nil. tauto.
  - simpl in H. apply bind_ok_inv in H as ([] & st1 & t1 & t2 & Hstep & H & ->).
    unfold randomize_step in Hstep. minv Hstep.
    unfold modify in Hstep. injection Hstep as <- _.
    destruct (IH _ _ H) as (Hmem & _ & Hdom). simpl in *.
    split_and!; [done| |].
    + intros Hfs. exfalso. clear Hif. set_solver.
    + assert (Hs : ∀ p, is_Some (alter (set_physical frame) page
                                   (setdefault page (page_table st)) !! p)
                        ↔ is_Some (page_table st !! p) ∨ p = page).
      { intros p. rewrite lookup_alter. unfold setdefault.
        destruct (decide (page = p)) as [<-|Hne].
        - rewrite fmap_is_Some.
          destruct (page_table st !! page) eqn:E;
            [rewrite E|rewrite lookup_insert_eq]; split; intros _; eauto.
        - destruct (page_table st !! page) eqn:E; [|rewrite lookup_insert_ne by done];
            (split; [intros ?; by left|intros [?|?]; [done|congruence]]). }
      intros p. rewrite Hdom, Hs, elem_of_cons. simpl. tauto.
Qed.

Lemma randomize_sound (mem_usage : Q) (st' : t) (evs : list event) :
  randomize_page_table sample mem_usage (init cfg) = (Ok tt, st', evs) →
  vm_sound cfg st'.
Proof.
  intros H.
  assert (Hp : frame_partition cfg st') by (by eapply partition_randomize).
  assert (Hl : lru_consistent st') by (by eapply lru_consistent_randomize).
  apply randomize_inv in H as (mu & k & _ & _ & _ & _ & H).
  set (fl := sample (elements (frame_set (init cfg))) (Z.to_nat k)) in *.
  destruct (randomize_steps_pages _ _ _ _ H) as (Hmem & _ & Hdom).
  assert (Hin : ∀ p, is_Some (page_table st' !! p) ↔ 0 <= p < Z.of_nat (length fl)).
  { intros p. rewrite Hdom. simpl. rewrite lookup_empty.
    rewrite list_elem_of_lookup. split.
    - intros [[? ?]|[i Hi]]; [done|].
      rewrite list_lookup_fmap, list_lookup_imap in Hi.
      destruct (fl !! i) as [f|] eqn:Hf; [|done]. simpl in Hi. injection Hi as <-.
      apply lookup_lt_Some in Hf. lia.
    - intros Hp'. right. exists (Z.to_nat p).
      rewrite list_lookup_fmap, list_lookup_imap.
      destruct (lookup_lt_is_Some_2 fl (Z.to_nat p)) as [f ->]; [lia|].
      simpl. f_equal. lia. }
  split_and!; [rewrite Hmem; by apply cache_inv_init|done|done|].
  destruct (Z.le_gt_cases (Z.of_nat (length fl)) (vm_size cfg / page_size cfg)).
  - left. intros p Hp'. apply Hin in Hp'. lia.
  - right. intros p Hp'. apply Hin. lia.
Qed.

Lemma randomize_stuck (mem_usage : Q) (st' : t) (evs : list event) :
  n_frames cfg <= 0 →
  randomize_page_table sample mem_usage (init cfg) = (Ok tt, st', evs) →
  vm_stuck st'.
Proof.
  intros Hn H. apply randomize_inv in H as (mu & k & _ & _ & _ & _ & H).
  assert (Hfs : frame_set (init cfg) = ∅).
  { simpl. unfold n_frames in Hn. rewrite seqZ_nil by lia. done. }
  destruct (randomize_steps_pages _ _ _ _ H) as (_ & Hsame & _).
  rewrite (Hsame Hfs). by split.
Qed.

Lemma vm_reachable_sound (st : t) :
  1 <= n_frames cfg → vm_reachable cfg pop_choice sample st → vm_sound cfg st.
Proof.
  intros Hn.
  induction 1 as [|mu st' evs H|st addr r st' evs _ IH H|st addr r st' evs _ IH H].
  - destruct (vm_inv_init cfg) as (? & ? & ? & ?). split_and!; [done..|by left].
  - by eapply randomize_sound.
  - by eapply (vm_access_sound cfg pop_choice Hwf Hpop false).
  - by eapply (vm_access_sound cfg pop_choice Hwf Hpop true).
Qed.

Lemma vm_reachable_stuck (st : t) :
  n_frames cfg <= 0 → vm_reachable cfg pop_choice sample st → vm_stuck st.
Proof.
  intros Hn.
  induction 1 as [|mu st' evs H|st addr r st' evs _ IH H|st addr r st' evs _ IH H].
  - split; [|done]. simpl. unfold n_frames in Hn. rewrite seqZ_nil by lia. done.
  - by eapply randomize_stuck.
  - by eapply (vm_stuck_access cfg pop_choice false).
  - by eapply (vm_stuck_access cfg pop_choice true).
Qed.

(** After an operation that completed the state is sound, also when
    calls that raised came before. *)
Lemma vm_completed_sound (st : t) :
  vm_completed cfg pop_choice sample st → vm_sound cfg st.
Proof.
  assert (Hacc : ∀ is_write st0 addr st' evs,
            vm_reachable cfg pop_choice sample st0 →
            access cfg pop_choice is_write addr st0 = (Ok tt, st', evs) →
            vm_sound cfg st').
  { intros is_write st0 addr st' evs Hreach H.
    destruct (Z.le_gt_cases 1 (n_frames cfg)) as [Hn|Hn].
    - eapply (vm_access_sound cfg pop_choice Hwf Hpop); [|done|exact H].
      by apply vm_reachable_sound.
    - destruct (vm_stuck_access cfg pop_choice is_write addr st0 st' (Ok tt) evs)
        as [_ Hne]; [apply vm_reachable_stuck; [lia|done]|done|done]. }
  intros [|mu st' evs H|st0 addr st' evs Hreach H|st0 addr st' evs Hreach H].
  - destruct (vm_inv_init cfg) as (? & ? & ? & ?). split_and!; [done..|by left].
  - by eapply randomize_sound.
  - by eapply (Hacc false).
  - by eapply (Hacc true).
Qed.

End VmReach.

Lemma completed_vmA : vm_completed cfgA pop_first sample_first vmA.
Proof.
  eapply (vm_done_write cfgA pop_first sample_first _ 16).
  - eapply (vm_reach_read cfgA pop_first sample_first _ 0); [apply vm_reach_init|].
    vm_compute. reflexivity.
  - vm_compute. reflexivity.
Qed.

(** C5: in the state that [__init__] builds, in the one that
    [randomize_page_table] makes of it, and after every [read] or [write]
    that completed, whatever calls came before it and whether they
    returned or raised, each frame of the page table is mapped by one
    page only, no mapped frame is free, and the mapped and the free
    frames together are the frames 0 .. physical_size / page_size - 1. *)
Theorem C5_frame_partition (cfg : Config) (pop_choice : gset Z → Z)
    (sample : list Z → nat → list Z) (st : VirtualMemory.t) :
  wf_config cfg → pop_spec pop_choice →
  vm_completed cfg pop_choice sample st →
  frame_partition cfg st.
Proof.
  intros Hwf Hpop Hdone.
  by destruct (vm_completed_sound cfg pop_choice sample Hwf Hpop st Hdone) as (_ & ? & _).
Qed.

Lemma C5_frame_partition_witness : frame_partition cfgA vmA.
Proof.
  apply (C5_frame_partition cfgA pop_first sample_first vmA).
  - apply wf_cfgA.
  - apply pop_first_spec.
  - eapply (vm_done_write cfgA pop_first sample_first _ 16).
    + eapply (vm_reach_read cfgA pop_first sample_first _ 0); [apply vm_reach_init|].
      vm_compute. reflexivity.
    + vm_compute. reflexivity.
Defined.

(** In the state that [__init__] builds, in the one that
    [randomize_page_table] makes of it, and after every [read] or [write]
    that completed, whatever calls came before it and whether they
    returned or raised, the LRU queue of the pages lists every resident
    page once and no page that is not resident. *)
Theorem vm_lru_queue_consistent (cfg : Config) (pop_choice : gset Z → Z)
    (sample : list Z → nat → list Z) (st : VirtualMemory.t) :
  wf_config cfg → pop_spec pop_choice →
  vm_completed cfg pop_choice sample st →
  NoDup (VirtualMemory.lru_queue st) ∧
  ∀ p, p ∈ VirtualMemory.lru_queue st ↔ is_Some (VirtualMemory.page_table st !! p).
Proof.
  intros Hwf Hpop Hdone.
  by destruct (vm_completed_sound cfg pop_choice sample Hwf Hpop st Hdone) as (_ & _ & ? & _).
Qed.

Lemma vm_lru_queue_consistent_witness :
  NoDup (VirtualMemory.lru_queue vmA) ∧
  ∀ p, p ∈ VirtualMemory.lru_queue vmA ↔ is_Some (VirtualMemory.page_table vmA !! p).
Proof.
  apply (vm_lru_queue_consistent cfgA pop_first sample_first vmA).
  - apply wf_cfgA.
  - apply pop_first_spec.
  - apply completed_vmA.
Defined.

(** ** VirtualMemory: accesses that cannot go wrong *)

Section VmTotalAccess.
Import VirtualMemory.
Variable cfg : Config.
Variable pop_choice : gset Z → Z.
Hypothesis Hwf : wf_config cfg.
Hypothesis Hpop : pop_spec pop_choice.
Hypothesis Hdirect : associativity cfg = 1.
Hypothesis Hframe : page_size cfg <= phys_size cfg.
Hypothesis Hphys : phys_size cfg < 2 ^ 53.
Hypothesis Hcache : cache_size cfg < 2 ^ 53.

Lemma n_frames_pos : 1 <= n_frames cfg.
Proof.
  unfold n_frames. pose proof (wf_page cfg Hwf).
  apply Z.div_le_lower_bound; lia.
Qed.

Lemma vm_cache_access_total (is_write : bool) (f off : Z)
    (data : list (list SetAssocCache.Line)) :
  cache_inv cfg data → 0 <= f < n_frames cfg → 0 <= off < page_size cfg →
  ∃ data' evs,
    SetAssocCache.access cfg is_write (f * page_size cfg + off) data = (Ok tt, data', evs).
Proof.
  intros Hinv Hf Ho.
  pose proof (frame_phys_range cfg Hwf f off Hf Ho) as Hr.
  destruct (lru_updated_access cfg is_write _ data Hwf Hinv Hr
              (direct_mapped_tag_ok cfg _ Hwf Hdirect Hphys Hcache Hr))
    as (data' & evs & Hacc & _).
  by exists data', evs.
Qed.

Lemma vm_access_step_total (is_write : bool) (addr : Z) (st : t) :
  vm_inv cfg st → 0 <= addr < vm_size cfg →
  ∃ st' evs, access cfg pop_choice is_write addr st = (Ok tt, st', evs).
Proof.
  intros (Hc & Hp & Hl & Hr) Haddr.
  destruct (vm_access_stage cfg pop_choice Hwf Hpop addr st)
    as (st1 & e & evs1 & (Hc1 & _) & _ & He & Hf & Hacc);
    [by split_and!; [..|left]|apply n_frames_pos|done|].
  rewrite Hacc.
  destruct (vm_cache_access_total is_write (physical e) (addr mod page_size cfg)
              (main_mem st1) Hc1 Hf)
    as (data' & evs & Hcache'); [apply Z.mod_pos_bound, (wf_page cfg Hwf)|].
  rewrite (bind_run _ _ _ _ _ _ (zoom_run main_mem set_main_mem _ st1 _ _ _ Hcache')).
  destruct is_write; mrun; by eexists _, _.
Qed.

Lemma vm_run_total_from (ops : list (bool * Z)) (st : t) :
  vm_inv cfg st →
  Forall (λ op, 0 <= op.2 < vm_size cfg) ops →
  ∃ st' evs, vm_run cfg pop_choice ops st = (Ok tt, st', evs) ∧ vm_inv cfg st'.
Proof.
  revert st. induction ops as [|[w a] ops IH]; intros st Hinv Hops.
  - exists st, []. by split.
  - apply Forall_cons in Hops as [Ha Hops]. simpl in Ha.
    destruct (vm_access_step_total w a st Hinv Ha) as (st1 & evs1 & Hacc).
    pose proof (vm_inv_access cfg pop_choice Hwf Hpop w a st st1 evs1 Hinv Hacc) as Hinv1.
    destruct (IH st1 Hinv1 Hops) as (st' & evs & Hrun & Hinv').
    exists st', (evs1 ++ evs). split; [|done].
    unfold vm_run in *. simpl. rewrite (bind_run _ _ _ _ _ _ Hacc).
    rewrite Hrun. done.
Qed.

End VmTotalAccess.

(** With a direct-mapped cache, at least one page frame and a physical
    memory and a cache of less than [2^53] bytes, every sequence of
    reads and writes of addresses of the virtual space, run on a fresh
    [VirtualMemory], completes: no assertion fails and no lookup raises,
    whatever [set.pop()] chooses; and the state it leaves satisfies the
    invariant again. *)
Theorem vm_run_total (cfg : Config) (pop_choice : gset Z → Z) (ops : list (bool * Z)) :
  wf_config cfg → pop_spec pop_choice →
  associativity cfg = 1 → page_size cfg <= phys_size cfg →
  phys_size cfg < 2 ^ 53 → cache_size cfg < 2 ^ 53 →
  Forall (λ op, 0 <= op.2 < vm_size cfg) ops →
  ∃ st' evs,
    vm_run cfg pop_choice ops (VirtualMemory.init cfg) = (Ok tt, st', evs) ∧
    vm_inv cfg st'.
Proof.
  intros Hwf Hpop Hd Hf Hp53 Hc53 Hops.
  apply vm_run_total_from; try done. by apply vm_inv_init.
Qed.

Lemma vm_run_total_witness :
  ∃ st' evs,
    vm_run cfgA pop_first [(false, 0); (true, 16); (false, 35); (true, 1)]
      (VirtualMemory.init cfgA) = (Ok tt, st', evs) ∧
    vm_inv cfgA st'.
Proof.
  apply (vm_run_total cfgA pop_first [(false, 0); (true, 16); (false, 35); (true, 1)]).
  - apply wf_cfgA.
  - apply pop_first_spec.
  - reflexivity.
  - vm_compute. discriminate.
  - reflexivity.
  - reflexivity.
  - repeat constructor; simpl; lia.
Defined.

(** ** VirtualMemory: [randomize_page_table] *)

Section VmRandomize.
Import VirtualMemory.
Variable cfg : Config.

Lemma randomize_steps_run (l : list Z) (n : nat) (st : t) :
  NoDup l →
  (∀ f, f ∈ l → f ∈ frame_set st) →
  (∀ i, (n <= i)%nat → page_table st !! Z.of_nat i = None) →
  ∃ st',
    for_each (imap (λ i f, (Z.of_nat (n + i), f)) l) randomize_step st = (Ok tt, st', []) ∧
    main_mem st' = main_mem st ∧
    frame_set st' = frame_set st ∖ list_to_set l ∧
    lru_queue st' = lru_queue st ++ (Z.of_nat <$> seq n (length l)) ∧
    (∀ i f, l !! i = Some f → page_table st' !! Z.of_nat (n + i) = Some (mkPage f false)) ∧
    (∀ p, (∀ i, (i < length l)%nat → p ≠ Z.of_nat (n + i)) →
          page_table st' !! p = page_table st !! p).
Proof.
  revert n st. induction l as [|f l IH]; intros n st Hnd Hin Hfresh.
  - exists st. simpl. split_and!; try done; [set_solver|by rewrite app_nil_r].
  - apply NoDup_cons in Hnd as [Hf Hnd].
    set (st1 := {| main_mem := main_mem st;
                   page_table := <[Z.of_nat n := mkPage f false]> (page_table st);
                   frame_set := frame_set st ∖ {[f]};
                   lru_queue := lru_queue st ++ [Z.of_nat n] |}).
    assert (Hstep : randomize_step (Z.of_nat (n + 0), f) st = (Ok tt, st1, [])).
    { unfold randomize_step. rewrite Nat.add_0_r. mrun.
      rewrite decide_True by (apply Hin; by left). mrun.
      unfold setdefault. rewrite (Hfresh n) by lia. by rewrite alter_insert_eq. }
    destruct (IH (S n) st1 Hnd) as (st' & Hrun & Hmm & Hfs & Hq & Hseat & Hrest).
    { intros f' Hf'. simpl. apply elem_of_difference. split; [apply Hin; by right|].
      rewrite elem_of_singleton. by intros ->. }
    { intros i Hi. simpl. rewrite lookup_insert_ne by lia. apply Hfresh. lia. }
    exists st'. split_and!.
    + rewrite imap_cons. simpl. rewrite (bind_run _ _ _ _ _ _ Hstep). simpl.
      rewrite <- Hrun. rewrite log_nil. f_equal. apply imap_ext.
      intros i x _. simpl. f_equal. lia.
    + by rewrite Hmm.
    + rewrite Hfs. simpl. set_solver.
    + rewrite Hq. simpl. by rewrite <- (assoc_L (++)).
    + intros [|i] f' Hl; simpl in Hl.
      * injection Hl as <-. rewrite Hrest.
        -- simpl. rewrite Nat.add_0_r. by rewrite lookup_insert_eq.
        -- intros i _. lia.
      * replace (n + S i)%nat with (S n + i)%nat by lia. by apply Hseat.
    + intros p Hp. rewrite Hrest.
      * simpl. rewrite lookup_insert_ne; [done|].
        specialize (Hp 0%nat). simpl in Hp. rewrite Nat.add_0_r in Hp.
        intros <-. apply Hp; [lia|done].
      * intros i Hi. replace (S n + i)%nat with (n + S i)%nat by lia.
        apply Hp. simpl. lia.
Qed.

Lemma init_frames_size :
  0 <= n_frames cfg → Z.of_nat (size (frame_set (init cfg))) = n_frames cfg.
Proof.
  intros Hn. simpl. rewrite size_list_to_set by apply NoDup_seqZ.
  rewrite length_seqZ. unfold n_frames in *. lia.
Qed.

End VmRandomize.

(** The number of frames drawn for a ratio in [0, 1] and less than
    [2^53] frames: it is at most the number of frames. *)
Lemma sample_size_bound (x : float) (n : Z) :
  0 <= n < 2 ^ 53 → VirtualMemory.is_ratio (Some x) = true →
  ∃ k, VirtualMemory.sample_size x n = Ok k ∧ 0 <= k <= n.
Proof.
  intros Hn Hx. simpl in Hx. apply andb_true_iff in Hx as [H0 H1].
  unfold float_leb in H0, H1. apply Z.leb_le in H0, H1.
  change (float_num (0, 0)) with 0 in H0. change (float_den (0, 0)) with 1 in H0.
  change (float_num (1, 0)) with 1 in H1. change (float_den (1, 0)) with 1 in H1.
  unfold VirtualMemory.sample_size.
  destruct (float_of_int_exact n Hn) as (y & -> & Hy).
  pose proof (float_den_pos x) as Hdx. pose proof (float_den_pos y) as Hdy.
  unfold float_mul.
  destruct (round_ratio_int_le (float_num x * float_num y) (float_den x * float_den y) n)
    as (z & -> & Hz); [nia|nia|nia|lia|].
  by exists (py_int z).
Qed.

(** A [randomize_page_table] that raises on a fresh instance has changed
    nothing and printed nothing, [random.sample] returning distinct
    elements of the population. *)
Lemma randomize_raise_fresh (cfg : Config) (sample : list Z → nat → list Z)
    (mem_usage : Q) (e : error) (st' : VirtualMemory.t) (evs : list event) :
  sample_spec sample →
  VirtualMemory.randomize_page_table sample mem_usage (VirtualMemory.init cfg)
  = (Raise e, st', evs) →
  st' = VirtualMemory.init cfg ∧ evs = [].
Proof.
  intros Hsample H. unfold VirtualMemory.randomize_page_table in H.
  destruct (VirtualMemory.is_ratio (py_float mem_usage)) eqn:Hratio.
  2:{ rewrite bind_assert_false in H by done. by injection H as _ <- <-. }
  rewrite bind_assert_true in H by done. rewrite bind_get in H. cbv beta zeta in H.
  destruct (py_float mem_usage) as [x|]; [|done].
  set (fs := VirtualMemory.frame_set (VirtualMemory.init cfg)) in *.
  destruct (VirtualMemory.sample_size x (Z.of_nat (size fs))) as [k|e'].
  2:{ simpl in H. rewrite bind_raise_l in H. by injection H as _ <- <-. }
  unfold of_outcome in H. rewrite bind_ret in H.
  destruct ((0 <=? k) && (k <=? Z.of_nat (length (elements fs)))) eqn:Hk.
  2:{ rewrite bind_raise_l in H. by injection H as _ <- <-. }
  rewrite bind_ret in H.
  apply andb_true_iff in Hk as [Hk0%Z.leb_le Hk1%Z.leb_le].
  destruct (Hsample (elements fs) (Z.to_nat k)) as (Hlen & Hnd & Hsub);
    [apply NoDup_elements|lia|].
  destruct (randomize_steps_run (sample (elements fs) (Z.to_nat k)) 0
              (VirtualMemory.init cfg) Hnd) as (st1 & Hrun & _).
  { intros f Hf. apply elem_of_elements. by apply Hsub. }
  { intros i _. apply lookup_empty. }
  simpl in Hrun. fold fs in Hrun. by rewrite Hrun in H.
Qed.

(** The product is rounded before its fractional part is dropped: for
    the ratio 0.29 and 100 frames 28 frames are drawn, not 29, and for
    the ratio 0.7 and 10 frames, 7. *)
Example sample_size_rounds :
  (x ← py_float (29 # 100); Some (VirtualMemory.sample_size x 100)) = Some (Ok 28) ∧
  (x ← py_float (7 # 10); Some (VirtualMemory.sample_size x 10)) = Some (Ok 7).
Proof. split; vm_compute; reflexivity. Qed.

(** [randomize_page_table(mem_usage)], called on a fresh
    [VirtualMemory] of less than [2^53] frames with a float [mem_usage]
    in [0, 1], completes silently.  It draws k = int(mem_usage * frames)
    distinct frames, the product being the float product, and k is at
    most the number of frames; it gives the i-th of them to page i,
    clean, for i = 0 .. k-1; the other pages stay absent, the frames
    drawn leave the free set, the LRU queue is 0, 1, .., k-1 and the
    cache is untouched. *)
Theorem randomize_fresh (cfg : Config) (sample : list Z → nat → list Z) (mem_usage : Q) :
  wf_config cfg → sample_spec sample →
  n_frames cfg < 2 ^ 53 →
  VirtualMemory.is_ratio (py_float mem_usage) = true →
  ∃ x k,
    py_float mem_usage = Some x ∧
    VirtualMemory.sample_size x (n_frames cfg) = Ok (Z.of_nat k) ∧
    Z.of_nat k <= n_frames cfg ∧
    let frames := sample (elements (VirtualMemory.frame_set (VirtualMemory.init cfg))) k in
    ∃ st',
      VirtualMemory.randomize_page_table sample mem_usage (VirtualMemory.init cfg)
      = (Ok tt, st', []) ∧
      length frames = k ∧ NoDup frames ∧
      (∀ f, f ∈ frames → 0 <= f < n_frames cfg) ∧
      (∀ i : nat, VirtualMemory.page_table st' !! Z.of_nat i
                  = (λ f, VirtualMemory.mkPage f false) <$> frames !! i) ∧
      (∀ p, p < 0 → VirtualMemory.page_table st' !! p = None) ∧
      VirtualMemory.frame_set st'
      = VirtualMemory.frame_set (VirtualMemory.init cfg) ∖ list_to_set frames ∧
      VirtualMemory.lru_queue st' = Z.of_nat <$> seq 0 k ∧
      VirtualMemory.main_mem st' = SetAssocCache.init cfg.
Proof.
  intros Hwf Hsample Hsmall Hratio.
  assert (Hn : 0 <= n_frames cfg).
  { unfold n_frames. pose proof (wf_phys cfg Hwf). pose proof (wf_page cfg Hwf).
    apply Z.div_pos; lia. }
  pose proof (init_frames_size cfg Hn) as Hsize.
  destruct (py_float mem_usage) as [x|] eqn:Hx; [|done].
  destruct (sample_size_bound x (n_frames cfg)) as (kz & Hss & Hk); [lia|done|].
  exists x, (Z.to_nat kz). rewrite Z2Nat.id by lia.
  split; [done|]. split; [done|]. split; [lia|]. cbv zeta.
  set (k := Z.to_nat kz).
  set (fs := VirtualMemory.frame_set (VirtualMemory.init cfg)) in *.
  destruct (Hsample (elements fs) k) as (Hlen & Hnd & Hsub).
  { apply NoDup_elements. }
  { assert (length (elements fs) = size fs) by done. unfold k. lia. }
  set (frames := sample (elements fs) k) in *.
  destruct (randomize_steps_run frames 0 (VirtualMemory.init cfg) Hnd)
    as (st' & Hrun & Hmm & Hfs & Hq & Hseat & Hrest).
  { intros f Hf. apply elem_of_elements. by apply Hsub. }
  { intros i _. apply lookup_empty. }
  exists st'. split_and!; try done.
  - unfold VirtualMemory.randomize_page_table. rewrite Hx.
    rewrite bind_assert_true by done.
    rewrite bind_get. cbv beta zeta. fold fs. rewrite Hsize, Hss.
    unfold of_outcome. rewrite bind_ret.
    assert (Hlen' : Z.of_nat (length (elements fs)) = n_frames cfg)
      by (rewrite <- Hsize; done).
    rewrite Hlen'.
    rewrite (proj2 (andb_true_iff _ _)) by (split; apply Z.leb_le; lia).
    rewrite bind_ret. fold k. fold frames.
    exact Hrun.
  - intros f Hf. apply Hsub, elem_of_elements in Hf.
    unfold fs in Hf. simpl in Hf. apply elem_of_list_to_set, elem_of_seqZ in Hf.
    unfold n_frames. lia.
  - intros i. destruct (frames !! i) as [f|] eqn:Hi; simpl.
    + by apply (Hseat i f).
    + rewrite Hrest; [apply lookup_empty|].
      apply lookup_ge_None in Hi. intros j Hj. simpl. lia.
  - intros p Hp. rewrite Hrest; [apply lookup_empty|]. intros j _. simpl. lia.
  - by rewrite Hq, Hlen.
Qed.

Lemma sample_first_spec : sample_spec sample_first.
Proof.
  intros l k Hnd Hk. unfold sample_first. split_and!.
  - rewrite length_take. lia.
  - eapply sublist_NoDup; [exact Hnd|apply sublist_take].
  - apply subseteq_take.
Qed.

Lemma randomize_fresh_witness :
  ∃ x k,
    py_float (1 # 2) = Some x ∧
    VirtualMemory.sample_size x (n_frames cfgB) = Ok (Z.of_nat k) ∧
    Z.of_nat k <= n_frames cfgB ∧
    let frames :=
      sample_first (elements (VirtualMemory.frame_set (VirtualMemory.init cfgB))) k in
    ∃ st',
      VirtualMemory.randomize_page_table sample_first (1 # 2) (VirtualMemory.init cfgB)
      = (Ok tt, st', []) ∧
      length frames = k ∧ NoDup frames ∧
      (∀ f, f ∈ frames → 0 <= f < n_frames cfgB) ∧
      (∀ i : nat, VirtualMemory.page_table st' !! Z.of_nat i
                  = (λ f, VirtualMemory.mkPage f false) <$> frames !! i) ∧
      (∀ p, p < 0 → VirtualMemory.page_table st' !! p = None) ∧
      VirtualMemory.frame_set st'
      = VirtualMemory.frame_set (VirtualMemory.init cfgB) ∖ list_to_set frames ∧
      VirtualMemory.lru_queue st' = Z.of_nat <$> seq 0 k ∧
      VirtualMemory.main_mem st' = SetAssocCache.init cfgB.
Proof.
  apply (randomize_fresh cfgB sample_first (1 # 2)).
  - apply wf_cfgB.
  - apply sample_first_spec.
  - reflexivity.
  - vm_compute. reflexivity.
Defined.

(** When the physical memory is smaller than a page there is no page
    frame: the first access to a fresh [VirtualMemory], read or write,
    raises [IndexError] on the empty LRU queue after the fault and the
    memory-full messages, and it leaves in the page table the entry
    that [_swap_in] had created for the page. *)
Theorem vm_no_frame_fails (cfg : Config) (pop_choice : gset Z → Z)
    (is_write : bool) (addr : Z) :
  wf_config cfg → phys_size cfg < page_size cfg →
  0 <= addr < vm_size cfg →
  VirtualMemory.access cfg pop_choice is_write addr (VirtualMemory.init cfg)
  = (Raise IndexError,
     VirtualMemory.set_page_table
       {[addr / page_size cfg := VirtualMemory.mkPage 0 false]}
       (VirtualMemory.init cfg),
     [VmFault; VmFull]).
Proof.
  intros Hwf Hsmall Haddr.
  pose proof (wf_page cfg Hwf) as Hps. pose proof (wf_phys cfg Hwf) as Hph.
  assert (Hpage : 0 <= addr / page_size cfg < vm_size cfg / page_size cfg).
  { pose proof (wf_vm_div cfg Hwf) as Hd.
    split; [apply Z.div_pos; lia|].
    apply Z.div_lt_upper_bound; [done|].
    pose proof (Z.div_mod (vm_size cfg) (page_size cfg)). lia. }
  assert (Hinit : VirtualMemory.init cfg
                  = {| VirtualMemory.main_mem := SetAssocCache.init cfg;
                       VirtualMemory.page_table := ∅;
                       VirtualMemory.frame_set := ∅;
                       VirtualMemory.lru_queue := [] |}).
  { unfold VirtualMemory.init. by rewrite Z.div_small by lia. }
  rewrite Hinit. unfold VirtualMemory.access.
  rewrite bind_assert_true by by apply in_range_true. mrun.
  rewrite lookup_empty.
  rewrite bool_decide_false by (by intros [? ?]). mrun.
  unfold VirtualMemory._swap_in. mrun.
  rewrite bind_assert_true by by apply in_range_true. mrun.
  rewrite lookup_empty.
  rewrite bind_assert_true by done. mrun.
  unfold VirtualMemory.setdefault. rewrite lookup_empty, alter_insert_eq. simpl.
  rewrite bool_decide_true by reflexivity. mrun.
  unfold VirtualMemory.set_page_table. simpl.
  by rewrite insert_empty.
Qed.

Lemma vm_no_frame_fails_witness :
  VirtualMemory.access (mkConfig 8 4 8 1 64 16 2) pop_first true 20
    (VirtualMemory.init (mkConfig 8 4 8 1 64 16 2))
  = (Raise IndexError,
     VirtualMemory.set_page_table
       {[20 / page_size (mkConfig 8 4 8 1 64 16 2) := VirtualMemory.mkPage 0 false]}
       (VirtualMemory.init (mkConfig 8 4 8 1 64 16 2)),
     [VmFault; VmFull]).
Proof.
  apply (vm_no_frame_fails (mkConfig 8 4 8 1 64 16 2) pop_first true 20).
  - by split.
  - reflexivity.
  - by split.
Defined.

(** ** FullyAssocTLB: the LRU queue of the lines *)

Section Final.
Context {S : Type} (P : S → Prop).

Lemma final_log {A} t (x : outcome A * S * list event) : (log t x).1.2 = x.1.2.
Proof. by destruct x as [[? ?] ?]. Qed.

Lemma final_bind {A B} (m : M S A) (k : A → M S B) s :
  P (m s).1.2 →
  (∀ a s1 t1, m s = (Ok a, s1, t1) → P s1 → P (k a s1).1.2) →
  P (bind m k s).1.2.
Proof.
  unfold bind. destruct (m s) as [[[a|e] s1] t1]; simpl; [|done].
  intros Hs H. rewrite final_log. by eapply H.
Qed.

Lemma final_assert {B} b (k : unit → M S B) s :
  P s → (b = true → P (k tt s).1.2) → P (bind (assert b) k s).1.2.
Proof.
  intros Hs Hk. destruct b.
  - rewrite bind_assert_true by done. by apply Hk.
  - by rewrite bind_assert_false.
Qed.

Lemma final_orelse {A B} (o : option A) e (k : A → M S B) s :
  P s → (∀ a, o = Some a → P (k a s).1.2) → P (bind (orelse o e) k s).1.2.
Proof.
  intros Hs Hk. destruct o as [a|].
  - rewrite (bind_orelse_Some _ a) by done. by apply Hk.
  - by rewrite bind_orelse_None.
Qed.

End Final.

Section TlbQueue.
Import FullyAssocTLB.
Variable cfg : Config.
Variable pop_choice : gset Z → Z.

Lemma zoom_vm_queue {A} (m : M VirtualMemory.t A) (st : t) :
  lru_queue (zoom virtual_mem set_virtual_mem m st).1.2 = lru_queue st ∧
  table (zoom virtual_mem set_virtual_mem m st).1.2 = table st.
Proof. unfold zoom. by destruct (m (virtual_mem st)) as [[? ?] ?]. Qed.

Lemma tlb_swap_out_queue (idx : nat) (st : t) :
  lru_queue st = [] → lru_queue (_swap_out idx st).1.2 = [].
Proof.
  intros Hq. unfold _swap_out. rewrite bind_get.
  apply (final_assert (λ s, lru_queue s = [])); [done|intros _].
  apply (final_orelse (λ s, lru_queue s = [])); [done|intros line _].
  destruct (dirty_dirty line).
  - rewrite ?bind_assoc, bind_print, final_log.
    rewrite bind_assoc.
    apply (final_orelse (λ s, lru_queue s = [])); [done|intros e _].
    rewrite ?bind_assoc, !bind_modify, bind_get. simpl. rewrite Hq. done.
  - rewrite ?bind_assoc, bind_ret, !bind_modify, bind_get. simpl. rewrite Hq. done.
Qed.

Lemma tlb_swap_in_queue (page : Z) (st : t) :
  lru_queue st = [] → lru_queue (_swap_in cfg pop_choice page st).1.2 = [].
Proof.
  intros Hq. unfold _swap_in.
  apply (final_assert (λ s, lru_queue s = [])); [done|intros _].
  rewrite bind_get.
  apply (final_bind (λ s, lru_queue s = [])).
  { destruct (list_find _ (table st)) as [[i l]|]; [done|].
    rewrite bind_print, final_log. rewrite Hq. done. }
  intros idx s1 t1 _ Hq1. rewrite bind_get.
  apply (final_bind (λ s, lru_queue s = [])).
  { case_bool_decide; [done|].
    apply (final_bind (λ s, lru_queue s = [])).
    { by rewrite (proj1 (zoom_vm_queue _ s1)). }
    intros [victim|] s2 t2 _ Hq2; [|done].
    rewrite bind_print, final_log, bind_get.
    destruct (list_find _ (table s2)) as [[i l]|]; [|done].
    by apply tlb_swap_out_queue. }
  intros [] s2 t2 _ Hq2. rewrite bind_get.
  apply (final_orelse (λ s, lru_queue s = [])); [done|intros e _].
  apply (final_orelse (λ s, lru_queue s = [])); [done|intros l0 _].
  rewrite bind_modify, bind_print, final_log. done.
Qed.

Lemma tlb_access_queue (is_write : bool) (addr : Z) (st : t) :
  lru_queue st = [] → lru_queue (tlb_access cfg pop_choice is_write addr st).1.2 = [].
Proof.
  intros Hq. destruct is_write; simpl.
  - unfold write.
    apply (final_assert (λ s, lru_queue s = [])); [done|intros _].
    rewrite bind_get.
    destruct (list_find _ (table st)) as [[i l]|].
    + rewrite bind_print, final_log.
      apply (final_bind (λ s, lru_queue s = [])).
      { unfold zoom_cache. by rewrite (proj1 (zoom_vm_queue _ st)). }
      intros [] s1 t1 _ Hq1. by destruct (negb _).
    + rewrite bind_print, final_log.
      apply (final_bind (λ s, lru_queue s = [])).
      { by rewrite (proj1 (zoom_vm_queue _ st)). }
      intros [] s1 t1 _ Hq1.
      apply (final_bind (λ s, lru_queue s = [])); [by apply tlb_swap_in_queue|done].
  - unfold read.
    apply (final_assert (λ s, lru_queue s = [])); [done|intros _].
    rewrite bind_get.
    destruct (list_find _ (table st)) as [[i l]|].
    + rewrite bind_print, final_log.
      unfold zoom_cache. by rewrite (proj1 (zoom_vm_queue _ st)).
    + rewrite bind_print, final_log.
      apply (final_bind (λ s, lru_queue s = [])).
      { by rewrite (proj1 (zoom_vm_queue _ st)). }
      intros [] s1 t1 _ Hq1.
      apply (final_bind (λ s, lru_queue s = [])); [by apply tlb_swap_in_queue|done].
Qed.

End TlbQueue.

(** The LRU queue of a [FullyAssocTLB] is empty for ever: nothing ever
    appends to it, so it is empty in the initial state and after every
    [read] and [write], completed or not. *)
Theorem tlb_lru_queue_empty (cfg : Config) (pop_choice : gset Z → Z)
    (sample : list Z → nat → list Z) (st : FullyAssocTLB.t) :
  tlb_reachable cfg pop_choice sample st →
  FullyAssocTLB.lru_queue st = [].
Proof.
  induction 1 as [|st addr _ IH|st addr _ IH|st mu _ IH].
  - done.
  - by apply (tlb_access_queue cfg pop_choice false).
  - by apply (tlb_access_queue cfg pop_choice true).
  - by rewrite (proj1 (zoom_vm_queue _ st)).
Qed.

Lemma tlb_lru_queue_empty_witness :
  FullyAssocTLB.lru_queue
    (FullyAssocTLB.read cfgA pop_first 16
       (FullyAssocTLB.read cfgA pop_first 0 (FullyAssocTLB.init cfgA)).1.2).1.2 = [].
Proof.
  apply (tlb_lru_queue_empty cfgA pop_first sample_first).
  apply (tlb_reach_read cfgA pop_first sample_first _ 16).
  apply (tlb_reach_read cfgA pop_first sample_first _ 0).
  apply tlb_reach_init.
Defined.

(** ** FullyAssocTLB: misses *)

Section TlbMiss.
Import FullyAssocTLB.
Variable cfg : Config.
Variable pop_choice : gset Z → Z.
Hypothesis Hwf : wf_config cfg.

Lemma page_of_addr_range (addr : Z) :
  0 <= addr < vm_size cfg →
  0 <= addr / page_size cfg < vm_size cfg / page_size cfg.
Proof.
  intros Haddr. pose proof (wf_page cfg Hwf) as Hp. pose proof (wf_vm_div cfg Hwf) as Hd.
  split; [apply Z.div_pos; lia|].
  apply Z.div_lt_upper_bound; [done|].
  pose proof (Z.div_mod (vm_size cfg) (page_size cfg)). lia.
Qed.

(** A miss first runs the access of the [VirtualMemory], then
    [_swap_in]. *)
Lemma tlb_miss_run (is_write : bool) (addr : Z) (st : t)
    (vm' : VirtualMemory.t) (evs_v : list event) :
  0 <= addr < vm_size cfg →
  tlb_lookup cfg addr st = None →
  VirtualMemory.access cfg pop_choice is_write addr (virtual_mem st) = (Ok tt, vm', evs_v) →
  tlb_access cfg pop_choice is_write addr st
  = log (TlbMiss :: evs_v)
      (bind (_swap_in cfg pop_choice (addr / page_size cfg)) (λ _, ret tt)
         (set_virtual_mem vm' st)).
Proof.
  intros Haddr Hmiss Hvm. unfold tlb_lookup in Hmiss.
  destruct is_write; simpl.
  - unfold write. rewrite bind_assert_true by by apply in_range_true.
    rewrite bind_get, Hmiss, bind_print.
    rewrite (bind_run _ _ _ _ _ _ (zoom_run virtual_mem set_virtual_mem _ st _ _ _ Hvm)).
    by rewrite log_log.
  - unfold read. rewrite bind_assert_true by by apply in_range_true.
    rewrite bind_get, Hmiss, bind_print.
    rewrite (bind_run _ _ _ _ _ _ (zoom_run virtual_mem set_virtual_mem _ st _ _ _ Hvm)).
    by rewrite log_log.
Qed.

Lemma tlb_swap_in_full (page : Z) (st : t) :
  0 <= page < vm_size cfg / page_size cfg →
  lru_queue st = [] →
  Forall (λ l, valid l = true) (table st) →
  _swap_in cfg pop_choice page st = (Raise IndexError, st, [TlbFull]).
Proof.
  intros Hpage Hq Hfull. unfold _swap_in.
  rewrite bind_assert_true by by apply in_range_true.
  rewrite bind_get.
  assert (Hnone : list_find (λ l, negb (valid l)) (table st) = None).
  { apply list_find_None. eapply Forall_impl; [exact Hfull|].
    intros l Hl. simpl in *. rewrite Hl. by intros []. }
  rewrite Hnone. rewrite ?bind_assoc, bind_print, Hq. done.
Qed.

Lemma tlb_swap_in_free (page : Z) (st : t) (idx : nat) (l0 : Line)
    (e : VirtualMemory.Page) :
  0 <= page < vm_size cfg / page_size cfg →
  list_find (λ l, negb (valid l)) (table st) = Some (idx, l0) →
  VirtualMemory.page_table (virtual_mem st) !! page = Some e →
  _swap_in cfg pop_choice page st
  = (Ok idx,
     set_table
       (alter (λ _, mkLine page (VirtualMemory.physical e) true (VirtualMemory.dirty e) false)
          idx (table st)) st,
     [TlbLoaded page]).
Proof.
  intros Hpage Hfree He. unfold _swap_in.
  rewrite bind_assert_true by by apply in_range_true.
  rewrite bind_get, Hfree, bind_ret, bind_get.
  rewrite bool_decide_true by by eexists.
  rewrite bind_ret, bind_get.
  rewrite (bind_orelse_Some _ e) by done.
  apply list_find_Some in Hfree as (Hl0 & _).
  rewrite (bind_orelse_Some _ l0) by done.
  by rewrite bind_modify, bind_print.
Qed.

Lemma vm_access_resident (is_write : bool) (addr : Z) (vm vm' : VirtualMemory.t)
    (evs : list event) :
  VirtualMemory.access cfg pop_choice is_write addr vm = (Ok tt, vm', evs) →
  is_Some (VirtualMemory.page_table vm' !! (addr / page_size cfg)).
Proof.
  intros H.
  apply vm_access_inv in H as (_ & st1 & e & c' & evs1 & evs_c & _ & He & _ & -> & _).
  simpl. destruct is_write; [|by eexists].
  rewrite lookup_alter_eq, He. by eexists.
Qed.

End TlbMiss.

(** Once every line of the TLB is valid, no miss can be served.  A read
    or a write that misses then never completes; when its access to the
    [VirtualMemory] completes, it raises [IndexError] on the empty LRU
    queue, after the page table and the cache have been updated, and
    the TLB lines are as they were. *)
Theorem tlb_full_miss_fails (cfg : Config) (pop_choice : gset Z → Z)
    (is_write : bool) (addr : Z) (st : FullyAssocTLB.t) :
  wf_config cfg →
  FullyAssocTLB.lru_queue st = [] →
  Forall (λ l, FullyAssocTLB.valid l = true) (FullyAssocTLB.table st) →
  tlb_lookup cfg addr st = None →
  (∀ st' evs, tlb_access cfg pop_choice is_write addr st ≠ (Ok tt, st', evs)) ∧
  (∀ vm' evs_v,
     0 <= addr < vm_size cfg →
     VirtualMemory.access cfg pop_choice is_write addr (FullyAssocTLB.virtual_mem st)
     = (Ok tt, vm', evs_v) →
     tlb_access cfg pop_choice is_write addr st
     = (Raise IndexError, FullyAssocTLB.set_virtual_mem vm' st,
        TlbMiss :: evs_v ++ [TlbFull])).
Proof.
  intros Hwf Hq Hfull Hmiss.
  assert (Hrun : ∀ vm' evs_v,
     0 <= addr < vm_size cfg →
     VirtualMemory.access cfg pop_choice is_write addr (FullyAssocTLB.virtual_mem st)
     = (Ok tt, vm', evs_v) →
     tlb_access cfg pop_choice is_write addr st
     = (Raise IndexError, FullyAssocTLB.set_virtual_mem vm' st,
        TlbMiss :: evs_v ++ [TlbFull])).
  { intros vm' evs_v Haddr Hvm.
    rewrite (tlb_miss_run cfg pop_choice is_write addr st vm' evs_v Haddr Hmiss Hvm).
    rewrite (bind_raise _ _ _ _ _ _
               (tlb_swap_in_full cfg pop_choice (addr / page_size cfg)
                  (FullyAssocTLB.set_virtual_mem vm' st)
                  (page_of_addr_range cfg Hwf addr Haddr) Hq Hfull)).
    done. }
  split; [|exact Hrun].
  intros st' evs H.
  destruct (decide (0 <= addr < vm_size cfg)) as [Haddr|Hout].
  - destruct (VirtualMemory.access cfg pop_choice is_write addr (FullyAssocTLB.virtual_mem st))
      as [[[[]|err] vm'] evs_v] eqn:Hvm.
    + by rewrite (Hrun vm' evs_v Haddr eq_refl) in H.
    + unfold tlb_lookup in Hmiss.
      destruct is_write; simpl in H.
      * unfold FullyAssocTLB.write in H.
        rewrite bind_assert_true in H by by apply in_range_true.
        rewrite bind_get, Hmiss, bind_print in H.
        by rewrite (bind_raise _ _ _ _ _ _
                      (zoom_run FullyAssocTLB.virtual_mem FullyAssocTLB.set_virtual_mem
                         _ st _ _ _ Hvm)) in H.
      * unfold FullyAssocTLB.read in H.
        rewrite bind_assert_true in H by by apply in_range_true.
        rewrite bind_get, Hmiss, bind_print in H.
        by rewrite (bind_raise _ _ _ _ _ _
                      (zoom_run FullyAssocTLB.virtual_mem FullyAssocTLB.set_virtual_mem
                         _ st _ _ _ Hvm)) in H.
  - destruct is_write; simpl in H.
    + unfold FullyAssocTLB.write in H.
      by rewrite bind_assert_false in H by by apply in_range_false.
    + unfold FullyAssocTLB.read in H.
      by rewrite bind_assert_false in H by by apply in_range_false.
Qed.

Lemma tlb_full_miss_fails_witness :
  (∀ st' evs, tlb_access cfgA pop_first false 32 tlbA2 ≠ (Ok tt, st', evs)) ∧
  (∀ vm' evs_v,
     0 <= 32 < vm_size cfgA →
     VirtualMemory.access cfgA pop_first false 32 (FullyAssocTLB.virtual_mem tlbA2)
     = (Ok tt, vm', evs_v) →
     tlb_access cfgA pop_first false 32 tlbA2
     = (Raise IndexError, FullyAssocTLB.set_virtual_mem vm' tlbA2,
        TlbMiss :: evs_v ++ [TlbFull])).
Proof.
  apply (tlb_full_miss_fails cfgA pop_first false 32 tlbA2).
  - apply wf_cfgA.
  - vm_compute. reflexivity.
  - vm_compute. by repeat constructor.
  - vm_compute. reflexivity.
Defined.

(** A miss with a free line is served when the access to the
    [VirtualMemory] completes: the first invalid line is loaded with the
    page, the frame and the dirty bit of its page-table entry, valid and
    with [dirty_dirty] clear; the other lines and the LRU queue are as
    they were; and the TLB then translates the address through that
    line. *)
Theorem tlb_miss_fill (cfg : Config) (pop_choice : gset Z → Z)
    (is_write : bool) (addr : Z) (st : FullyAssocTLB.t) (idx : nat)
    (l0 : FullyAssocTLB.Line) (vm' : VirtualMemory.t) (evs_v : list event) :
  wf_config cfg →
  0 <= addr < vm_size cfg →
  tlb_lookup cfg addr st = None →
  list_find (λ l, negb (FullyAssocTLB.valid l)) (FullyAssocTLB.table st) = Some (idx, l0) →
  VirtualMemory.access cfg pop_choice is_write addr (FullyAssocTLB.virtual_mem st)
  = (Ok tt, vm', evs_v) →
  ∃ e st',
    VirtualMemory.page_table vm' !! (addr / page_size cfg) = Some e ∧
    (is_write = true → VirtualMemory.dirty e = true) ∧
    tlb_access cfg pop_choice is_write addr st
    = (Ok tt, st', TlbMiss :: evs_v ++ [TlbLoaded (addr / page_size cfg)]) ∧
    FullyAssocTLB.virtual_mem st' = vm' ∧
    FullyAssocTLB.lru_queue st' = FullyAssocTLB.lru_queue st ∧
    (∀ j, FullyAssocTLB.table st' !! j
          = if decide (j = idx)
            then Some (FullyAssocTLB.mkLine (addr / page_size cfg)
                         (VirtualMemory.physical e) true (VirtualMemory.dirty e) false)
            else FullyAssocTLB.table st !! j) ∧
    tlb_lookup cfg addr st'
    = Some (idx, FullyAssocTLB.mkLine (addr / page_size cfg)
                   (VirtualMemory.physical e) true (VirtualMemory.dirty e) false).
Proof.
  intros Hwf Haddr Hmiss Hfree Hvm.
  set (page := addr / page_size cfg).
  destruct (vm_access_resident cfg pop_choice is_write addr _ _ _ Hvm) as [e He].
  fold page in He.
  set (line := FullyAssocTLB.mkLine page (VirtualMemory.physical e) true
                 (VirtualMemory.dirty e) false).
  assert (Hd : is_write = true → VirtualMemory.dirty e = true).
  { intros ->.
    apply vm_access_inv in Hvm as (_ & st1 & e1 & c' & evs1 & evs_c & _ & He1 & _ & -> & _).
    unfold page in He. simpl in He. rewrite lookup_alter_eq, He1 in He.
    by injection He as <-. }
  pose proof Hfree as Hfree'.
  apply list_find_Some in Hfree' as (Hl0 & Hinv0 & _).
  assert (Htab : ∀ j, alter (λ _, line) idx (FullyAssocTLB.table st) !! j
                      = if decide (j = idx) then Some line
                        else FullyAssocTLB.table st !! j).
  { intros j. case_decide as Hj.
    - subst j. by rewrite list_lookup_alter_eq, Hl0.
    - by rewrite list_lookup_alter_ne. }
  exists e, (FullyAssocTLB.set_table
               (alter (λ _, line) idx (FullyAssocTLB.table st))
               (FullyAssocTLB.set_virtual_mem vm' st)).
  split_and!; [done|done| |reflexivity|reflexivity|exact Htab|].
  - rewrite (tlb_miss_run cfg pop_choice is_write addr st vm' evs_v Haddr Hmiss Hvm).
    rewrite (bind_run _ _ _ _ _ _
               (tlb_swap_in_free cfg pop_choice page
                  (FullyAssocTLB.set_virtual_mem vm' st) idx l0 e
                  (page_of_addr_range cfg Hwf addr Haddr) Hfree He)).
    unfold ret. simpl. fold page. fold line. by rewrite ?app_nil_r.
  - unfold tlb_lookup. simpl. fold page. fold line.
    apply list_find_Some. split_and!.
    + by rewrite Htab, decide_True.
    + done.
    + by apply bool_decide_pack.
    + intros j y Hy Hlt. rewrite Htab in Hy. rewrite decide_False in Hy by lia.
      unfold tlb_lookup in Hmiss. rewrite list_find_None, Forall_forall in Hmiss.
      apply Hmiss. by eapply list_elem_of_lookup_2.
Qed.

Lemma tlb_miss_fill_witness :
  ∃ e st',
    VirtualMemory.page_table
      (VirtualMemory.access cfgC pop_first true 16
         (FullyAssocTLB.virtual_mem (FullyAssocTLB.init cfgC))).1.2 !! (16 / page_size cfgC)
    = Some e ∧
    (true = true → VirtualMemory.dirty e = true) ∧
    tlb_access cfgC pop_first true 16 (FullyAssocTLB.init cfgC)
    = (Ok tt, st',
       TlbMiss ::
         (VirtualMemory.access cfgC pop_first true 16
            (FullyAssocTLB.virtual_mem (FullyAssocTLB.init cfgC))).2
         ++ [TlbLoaded (16 / page_size cfgC)]) ∧
    FullyAssocTLB.virtual_mem st'
    = (VirtualMemory.access cfgC pop_first true 16
         (FullyAssocTLB.virtual_mem (FullyAssocTLB.init cfgC))).1.2 ∧
    FullyAssocTLB.lru_queue st' = FullyAssocTLB.lru_queue (FullyAssocTLB.init cfgC) ∧
    (∀ j, FullyAssocTLB.table st' !! j
          = if decide (j = 0%nat)
            then Some (FullyAssocTLB.mkLine (16 / page_size cfgC)
                         (VirtualMemory.physical e) true (VirtualMemory.dirty e) false)
            else FullyAssocTLB.table (FullyAssocTLB.init cfgC) !! j) ∧
    tlb_lookup cfgC 16 st'
    = Some (0%nat, FullyAssocTLB.mkLine (16 / page_size cfgC)
                     (VirtualMemory.physical e) true (VirtualMemory.dirty e) false).
Proof.
  apply (tlb_miss_fill cfgC pop_first true 16 (FullyAssocTLB.init cfgC) 0
           (FullyAssocTLB.mkLine 0 0 false false false)).
  - by split.
  - by split.
  - vm_compute. reflexivity.
  - vm_compute. reflexivity.
  - vm_compute. reflexivity.
Defined.

(** ** SetAssocCache: a miss in a set that is not full *)

(** A miss on an address whose tag is below the bound that [_swap_in]
    asserts, in a set that has an invalid line, evicts nothing: the
    block goes into the first invalid line of the set, the only traffic
    is the read of the block of the address from the physical memory,
    and the line is left valid with the tag of the address and counter
    1, dirty after a write and clean after a read.  (A tag that is not
    below the bound is refused, see [tag_assertion_refuses].) *)
Theorem miss_into_free_way (cfg : Config) (is_write : bool) (addr : Z)
    (data : list (list SetAssocCache.Line)) (set : list SetAssocCache.Line)
    (w : nat) (l : SetAssocCache.Line) :
  wf_config cfg → cache_inv cfg data →
  0 <= addr < phys_size cfg → tag_ok cfg addr →
  let tg := (SetAssocCache._get_addr_info cfg addr).1.1 in
  let idx := (SetAssocCache._get_addr_info cfg addr).1.2 in
  data !! Z.to_nat idx = Some set →
  list_find (λ l, SetAssocCache.valid l && bool_decide (SetAssocCache.tag l = tg)) set
  = None →
  list_find (λ l, negb (SetAssocCache.valid l)) set = Some (w, l) →
  ∃ data',
    SetAssocCache.access cfg is_write addr data
    = (Ok tt, data', [CacheMiss; PhysRead (addr / block_size cfg); CacheBlockLoaded]) ∧
    SetAssocCache.line_at data' idx w = Some (SetAssocCache.mkLine tg true is_write 1) ∧
    (∀ j lj, (j < w)%nat → set !! j = Some lj → SetAssocCache.valid lj = true).
Proof.
  intros Hwf Hinv Haddr Hok tg idx Hs Hmiss Hfree.
  pose proof (access_idx cfg Hwf data Hinv addr) as Hi. fold idx in Hi.
  destruct (access_set cfg Hwf data Hinv addr) as (set' & Hs' & Hlen). fold idx in Hs'.
  rewrite Hs in Hs'. injection Hs' as <-.
  pose proof (addr_info_tag_nonneg cfg Hwf addr (proj1 Haddr)) as Htg0. fold tg in Htg0.
  pose proof (get_addr_le cfg Hwf addr (proj1 Haddr)) as Hga. fold tg idx in Hga.
  assert (Hga' : 0 <= SetAssocCache._get_addr cfg tg idx 0 < phys_size cfg) by lia.
  pose proof (swap_in_free cfg data tg idx set Hi Hs Hlen Htg0 Hok Hga' w l Hfree) as Hin.
  pose proof (block_number cfg Hwf addr) as Hblk. fold tg idx in Hblk.
  rewrite Hblk in Hin.
  assert (Hlen1 : length (SetAssocCache.upd_line idx w (fill tg) data) = length data)
    by by apply upd_line_length.
  pose proof Hfree as Hfree'. apply list_find_Some in Hfree' as (Hl & Hinval & Hfirst).
  eexists. split_and!.
  - apply (access_miss cfg Hwf data Hinv addr Haddr is_write set w _ _ Hs Hmiss Hin Hlen1).
  - set (data1 := SetAssocCache.upd_line idx w (fill tg) data) in *.
    assert (Hi1 : 0 <= idx < Z.of_nat (length data1)) by by rewrite Hlen1.
    assert (Hs1 : data1 !! Z.to_nat idx = Some (alter (fill tg) w set))
      by by apply upd_line_lookup.
    assert (Hi' := Hi1). rewrite <- (touch_length data1 idx is_write w) in Hi'.
    rewrite (line_at_set _ _ _ Hi' (touch_lookup _ _ _ Hi1 Hs1 is_write w)).
    rewrite list_lookup_fmap, !list_lookup_alter_eq, Hl. simpl.
    by destruct is_write.
  - intros j lj Hj Hlj. specialize (Hfirst j lj Hlj Hj).
    destruct (SetAssocCache.valid lj); [done|]. by exfalso; apply Hfirst.
Qed.

Lemma miss_into_free_way_witness :
  let tg := (SetAssocCache._get_addr_info cfgB 4).1.1 in
  let idx := (SetAssocCache._get_addr_info cfgB 4).1.2 in
  ∃ data',
    SetAssocCache.access cfgB true 4 dataB
    = (Ok tt, data', [CacheMiss; PhysRead (4 / block_size cfgB); CacheBlockLoaded]) ∧
    SetAssocCache.line_at data' idx 0 = Some (SetAssocCache.mkLine tg true true 1) ∧
    (∀ j lj, (j < 0)%nat →
       [SetAssocCache.mkLine 0 false false 0; SetAssocCache.mkLine 0 false false 0] !! j
       = Some lj →
       SetAssocCache.valid lj = true).
Proof.
  apply (miss_into_free_way cfgB true 4 dataB
           [SetAssocCache.mkLine 0 false false 0; SetAssocCache.mkLine 0 false false 0]
           0 (SetAssocCache.mkLine 0 false false 0)).
  - apply wf_cfgB.
  - apply cache_inv_dataB.
  - by split.
  - exists 4. split; vm_compute; reflexivity.
  - vm_compute. reflexivity.
  - vm_compute. reflexivity.
  - vm_compute. reflexivity.
Defined.

(** ** FullyAssocTLB: how many pages it can serve *)

Lemma size_list_to_set_le (l : list Z) : (size (list_to_set l : gset Z) <= length l)%nat.
Proof.
  induction l as [|x l IH]; [by rewrite list_to_set_nil, size_empty|].
  rewrite list_to_set_cons, size_union_alt, size_singleton. simpl.
  assert (Hsub : (list_to_set l ∖ {[x]} : gset Z) ⊆ list_to_set l) by set_solver.
  apply subseteq_size in Hsub. lia.
Qed.

Section TlbCapacity.
Import FullyAssocTLB.
Variable cfg : Config.
Variable pop_choice : gset Z → Z.
Hypothesis Hwf : wf_config cfg.

Lemma tlb_access_out_of_range (is_write : bool) (addr : Z) (st : t) :
  ¬ (0 <= addr < vm_size cfg) →
  tlb_access cfg pop_choice is_write addr st = (Raise AssertionError, st, []).
Proof.
  intros Hout. destruct is_write; simpl.
  - unfold write. by rewrite bind_assert_false by by apply in_range_false.
  - unfold read. by rewrite bind_assert_false by by apply in_range_false.
Qed.

Lemma tlb_miss_vm_raise (is_write : bool) (addr : Z) (st : t) err vm' evs_v :
  0 <= addr < vm_size cfg →
  tlb_lookup cfg addr st = None →
  VirtualMemory.access cfg pop_choice is_write addr (virtual_mem st)
  = (Raise err, vm', evs_v) →
  tlb_access cfg pop_choice is_write addr st
  = (Raise err, set_virtual_mem vm' st, TlbMiss :: evs_v).
Proof.
  intros Haddr Hmiss Hvm. unfold tlb_lookup in Hmiss. destruct is_write; simpl.
  - unfold write. rewrite bind_assert_true by by apply in_range_true.
    rewrite bind_get, Hmiss, bind_print.
    by rewrite (bind_raise _ _ _ _ _ _ (zoom_run virtual_mem set_virtual_mem _ st _ _ _ Hvm)).
  - unfold read. rewrite bind_assert_true by by apply in_range_true.
    rewrite bind_get, Hmiss, bind_print.
    by rewrite (bind_raise _ _ _ _ _ _ (zoom_run virtual_mem set_virtual_mem _ st _ _ _ Hvm)).
Qed.

Lemma tlb_holds_alter (st : t) (idx : nat) (f : Line → Line) (tbl_st : t) (p : Z) :
  table tbl_st = alter f idx (table st) →
  (∀ l, table st !! idx = Some l → valid l = true →
        valid (f l) = true ∧ virtual (f l) = virtual l) →
  tlb_holds st p → tlb_holds tbl_st p.
Proof.
  intros Ht Hf (i & l & Hl & Hv & Hp). unfold tlb_holds. rewrite Ht.
  destruct (decide (i = idx)) as [->|Hi].
  - exists idx, (f l). rewrite list_lookup_alter_eq, Hl. simpl.
    destruct (Hf l Hl Hv) as [? ?]. split_and!; [done|done|congruence].
  - exists i, l. by rewrite list_lookup_alter_ne.
Qed.

(** What a completed access leaves in the TLB: a valid line for the
    page, and every page that had a valid line still has one. *)
Lemma tlb_access_ok_inv (is_write : bool) (addr : Z) (st st' : t) (evs : list event) :
  lru_queue st = [] →
  tlb_access cfg pop_choice is_write addr st = (Ok tt, st', evs) →
  lru_queue st' = [] ∧
  length (table st') = length (table st) ∧
  tlb_holds st' (addr / page_size cfg) ∧
  (∀ p, tlb_holds st p → tlb_holds st' p).
Proof.
  intros Hq H.
  destruct (decide (0 <= addr < vm_size cfg)) as [Haddr|Hout];
    [|by rewrite tlb_access_out_of_range in H].
  destruct (tlb_lookup cfg addr st) as [[idx line]|] eqn:Hhit.
  - pose proof Hhit as Hhit'. unfold tlb_lookup in Hhit'.
    apply list_find_Some in Hhit' as (Hl & Hp & _).
    apply andb_prop_elim in Hp as [Hv Hpg]. apply Is_true_true in Hv.
    apply bool_decide_unpack in Hpg.
    assert (Hold : tlb_holds st (addr / page_size cfg)) by by exists idx, line.
    destruct is_write; simpl in H.
    + destruct (SetAssocCache.write cfg (tlb_translate cfg addr line)
                  (VirtualMemory.main_mem (virtual_mem st))) as [[r c'] evs_c] eqn:Hc.
      rewrite (tlb_write_hit cfg pop_choice addr st idx line Haddr Hhit r c' evs_c Hc) in H.
      destruct r as [[]|err]; [|done]. injection H as <- _.
      destruct (dirty line || dirty_dirty line).
      * split_and!; try done.
      * split_and!; simpl; [done|by rewrite length_alter| |].
        -- eapply (tlb_holds_alter st idx (set_flags true true)); [done| |exact Hold].
           intros l _ Hvl. by split.
        -- intros p. apply (tlb_holds_alter st idx (set_flags true true)); [done|].
           intros l _ Hvl. by split.
    + destruct (SetAssocCache.read cfg (tlb_translate cfg addr line)
                  (VirtualMemory.main_mem (virtual_mem st))) as [[r c'] evs_c] eqn:Hc.
      rewrite (tlb_read_hit cfg pop_choice addr st idx line Haddr Hhit r c' evs_c Hc) in H.
      injection H as _ <- _. split_and!; try done.
  - destruct (VirtualMemory.access cfg pop_choice is_write addr (virtual_mem st))
      as [[[[]|err] vm'] evs_v] eqn:Hvm;
      [|by rewrite (tlb_miss_vm_raise _ _ _ _ _ _ Haddr Hhit Hvm) in H].
    rewrite (tlb_miss_run cfg pop_choice is_write addr st vm' evs_v Haddr Hhit Hvm) in H.
    destruct (vm_access_resident cfg pop_choice is_write addr _ _ _ Hvm) as [e He].
    destruct (list_find (λ l, negb (valid l)) (table st)) as [[idx l0]|] eqn:Hfree.
    + rewrite (bind_run _ _ _ _ _ _
                 (tlb_swap_in_free cfg pop_choice (addr / page_size cfg)
                    (set_virtual_mem vm' st) idx l0 e
                    (page_of_addr_range cfg Hwf addr Haddr) Hfree He)) in H.
      unfold ret in H. simpl in H. injection H as <- _.
      apply list_find_Some in Hfree as (Hl0 & Hinv0 & _).
      split_and!; simpl; [done|by rewrite length_alter| |].
      * exists idx, (mkLine (addr / page_size cfg) (VirtualMemory.physical e) true
                       (VirtualMemory.dirty e) false).
        simpl. by rewrite list_lookup_alter_eq, Hl0.
      * intros p (i & l & Hl & Hv & Hp).
        assert (i ≠ idx).
        { intros ->. rewrite Hl0 in Hl. injection Hl as ->. by rewrite Hv in Hinv0. }
        exists i, l. simpl. by rewrite list_lookup_alter_ne.
    + assert (Hfull : Forall (λ l, valid l = true) (table st)).
      { rewrite list_find_None in Hfree. eapply Forall_impl; [exact Hfree|].
        intros l Hl. simpl in Hl. by destruct (valid l); [|exfalso; apply Hl]. }
      by rewrite (bind_raise _ _ _ _ _ _
                    (tlb_swap_in_full cfg pop_choice (addr / page_size cfg)
                       (set_virtual_mem vm' st)
                       (page_of_addr_range cfg Hwf addr Haddr) Hq Hfull)) in H.
Qed.

Lemma tlb_ops_holds (ops : list (bool * Z)) (st st' : t) (evs : list event) :
  lru_queue st = [] →
  tlb_ops cfg pop_choice ops st = (Ok tt, st', evs) →
  length (table st') = length (table st) ∧
  (∀ p, tlb_holds st p → tlb_holds st' p) ∧
  (∀ op, op ∈ ops → tlb_holds st' (op.2 / page_size cfg)).
Proof.
  revert st evs. induction ops as [|[w a] ops IH]; intros st evs Hq H.
  - unfold tlb_ops, for_each, ret in H. injection H as <- _.
    split_and!; [done|done|]. intros op Hop. by apply elem_of_nil in Hop.
  - unfold tlb_ops in H. simpl in H.
    apply bind_ok_inv in H as ([] & st1 & t1 & t2 & Hacc & H & ->).
    apply (tlb_access_ok_inv w a st st1 t1 Hq) in Hacc as (Hq1 & Hlen1 & Hnew & Hkeep).
    destruct (IH st1 t2 Hq1 H) as (Hlen & Hkeep' & Hall).
    split_and!.
    + by rewrite Hlen.
    + intros p Hp. by apply Hkeep', Hkeep.
    + intros op Hop. apply elem_of_cons in Hop as [->|Hop]; [|by apply Hall].
      simpl. by apply Hkeep'.
Qed.

End TlbCapacity.

Lemma tlb_ops_pages_bound (cfg : Config) (pop_choice : gset Z → Z) (ops : list (bool * Z))
    (st : FullyAssocTLB.t) (evs : list event) :
  wf_config cfg →
  tlb_ops cfg pop_choice ops (FullyAssocTLB.init cfg) = (Ok tt, st, evs) →
  Z.of_nat (size (pages_of cfg ops)) <= tlb_size cfg.
Proof.
  intros Hwf H.
  destruct (tlb_ops_holds cfg pop_choice Hwf ops (FullyAssocTLB.init cfg) st evs eq_refl H)
    as (Hlen & _ & Hall).
  simpl in Hlen. rewrite length_replicate in Hlen.
  assert (Hsub : pages_of cfg ops
                 ⊆ list_to_set (FullyAssocTLB.virtual <$> FullyAssocTLB.table st)).
  { intros p Hp. unfold pages_of in Hp.
    apply elem_of_list_to_set, list_elem_of_fmap in Hp as (op & -> & Hop).
    destruct (Hall op Hop) as (i & l & Hl & _ & Hv).
    apply elem_of_list_to_set, list_elem_of_fmap. exists l. split; [done|].
    by eapply list_elem_of_lookup_2. }
  apply subseteq_size in Hsub.
  pose proof (size_list_to_set_le (FullyAssocTLB.virtual <$> FullyAssocTLB.table st)) as Hle.
  rewrite length_fmap in Hle. pose proof (wf_tlb cfg Hwf). lia.
Qed.

(** A [FullyAssocTLB] of n lines serves n pages and no more: since no
    line is ever evicted, a sequence of reads and writes that touches
    more than [tlb_size] different pages does not complete, whatever the
    addresses and the sizes of the memories. *)
Theorem tlb_capacity (cfg : Config) (pop_choice : gset Z → Z) (ops : list (bool * Z))
    (st : FullyAssocTLB.t) (evs : list event) :
  wf_config cfg →
  tlb_ops cfg pop_choice ops (FullyAssocTLB.init cfg) = (Ok tt, st, evs) →
  Z.of_nat (size (pages_of cfg ops)) <= tlb_size cfg.
Proof. apply tlb_ops_pages_bound. Qed.

Lemma tlb_capacity_witness :
  Z.of_nat (size (pages_of cfgA [(false, 0); (true, 16); (false, 3)])) <= tlb_size cfgA.
Proof.
  apply (tlb_capacity cfgA pop_first [(false, 0); (true, 16); (false, 3)]
           (tlb_ops cfgA pop_first [(false, 0); (true, 16); (false, 3)]
              (FullyAssocTLB.init cfgA)).1.2
           (tlb_ops cfgA pop_first [(false, 0); (true, 16); (false, 3)]
              (FullyAssocTLB.init cfgA)).2).
  - apply wf_cfgA.
  - vm_compute. reflexivity.
Defined.

(** ** The constructors and [initialize_sim] *)

Section Constructors.
Import Objects Gui.

Lemma assert_multiple_ok (a b : Z) (msg : assertion) :
  b ≠ 0 → a mod b = 0 → assert_multiple a b msg = inr tt.
Proof.
  intros Hb Hm. unfold assert_multiple.
  destruct (Z.eqb_spec b 0); [done|]. by rewrite Hm.
Qed.

Lemma assert_multiple_inv (a b : Z) (msg : assertion) (r : ctor_error + unit) :
  assert_multiple a b msg = r →
  (b = 0 ∧ r = inl CtorZeroDivisionError) ∨
  (b ≠ 0 ∧ a mod b = 0 ∧ r = inr tt) ∨
  (b ≠ 0 ∧ a mod b ≠ 0 ∧ r = inl (CtorAssertionError msg)).
Proof.
  intros <-. unfold assert_multiple.
  destruct (Z.eqb_spec b 0); [by left|].
  destruct (Z.eqb_spec (a mod b) 0); [right; by left|right; by right].
Qed.

Lemma shift_one_pow (n : Z) : 0 <= n → shift_one n = inr (2 ^ n).
Proof.
  intros Hn. unfold shift_one. destruct (Z.ltb_spec n 0); [lia|].
  by rewrite Z.shiftl_mul_pow2, Z.mul_1_l.
Qed.

Lemma state_of_init (physical_mem : PhysicalMemoryObj) (cache : SetAssocCacheObj)
    (virtual_mem : VirtualMemoryObj) (params : Parameters) :
  physical_mem = mkPhysicalMemory (p_physical_block_count params * p_block_size params)
                   (p_block_size params) →
  SetAssocCache__init__ physical_mem
    (p_cache_set_count params * p_associativity params * p_block_size params)
    (p_associativity params) = inr cache →
  VirtualMemory__init__ cache (2 ^ p_virtual_mem_addr_width params) (p_page_size params)
  = inr virtual_mem →
  state_of (FullyAssocTLB__init__ virtual_mem (p_tlb_line_count params))
  = FullyAssocTLB.init (config_of_params params) ∧
  (0 <= p_tlb_line_count params →
   config_of (FullyAssocTLB__init__ virtual_mem (p_tlb_line_count params))
   = config_of_params params).
Proof.
  intros -> Hc Hv.
  unfold SetAssocCache__init__ in Hc. destruct (assert_multiple _ _ _); [done|].
  injection Hc as <-.
  unfold VirtualMemory__init__ in Hv. destruct (assert_multiple _ _ _); [done|].
  injection Hv as <-.
  split; [done|].
  intros Hn. unfold config_of, config_of_params. simpl.
  rewrite length_replicate. f_equal. lia.
Qed.

End Constructors.

(** [initialize_sim] builds the simulator exactly when the block size,
    the associativity and the page size are not zero, the address width
    is not negative and the page size divides the virtual space.  The
    assertions of [PhysicalMemory] and of [SetAssocCache] can never fail
    there, since it passes them products of the sizes they test; and
    the objects built are in the initial state of their sizes. *)
Theorem initialize_sim_outcome (params : Gui.Parameters) :
  ((∃ tlb, Gui.initialize_sim params = inr tlb) ↔
   Gui.p_block_size params ≠ 0 ∧ Gui.p_associativity params ≠ 0 ∧
   0 <= Gui.p_virtual_mem_addr_width params ∧ Gui.p_page_size params ≠ 0 ∧
   2 ^ Gui.p_virtual_mem_addr_width params mod Gui.p_page_size params = 0) ∧
  Gui.initialize_sim params
  ≠ inl (Objects.CtorAssertionError Objects.PhysicalSizeNotBlocks) ∧
  Gui.initialize_sim params
  ≠ inl (Objects.CtorAssertionError Objects.CacheSizeNotSets) ∧
  ∀ tlb, Gui.initialize_sim params = inr tlb →
         Objects.state_of tlb = FullyAssocTLB.init (Gui.config_of_params params).
Proof.
  unfold Gui.initialize_sim, Objects.PhysicalMemory__init__.
  destruct (assert_multiple_inv (Gui.p_physical_block_count params * Gui.p_block_size params)
              (Gui.p_block_size params) Objects.PhysicalSizeNotBlocks _ eq_refl)
    as [(Hb & ->)|[(Hb & _ & ->)|(Hb & Hm & _)]].
  { split_and!; try done.
    split; [by intros [? [=]]|]. by intros (? & _). }
  2:{ by rewrite Z.mod_mul in Hm. }
  unfold Objects.SetAssocCache__init__ at 1 2 3 4. simpl.
  destruct (assert_multiple_inv (Gui.p_cache_set_count params * Gui.p_associativity params
                                 * Gui.p_block_size params)
              (Gui.p_associativity params * Gui.p_block_size params)
              Objects.CacheSizeNotSets _ eq_refl)
    as [(Ha & Hr)|[(Ha & _ & Hr)|(Ha & Hm & _)]].
  { rewrite Hr. split_and!; try done.
    split; [by intros [? [=]]|]. intros (_ & ? & _). lia. }
  2:{ by rewrite <- Z.mul_assoc, Z.mod_mul in Hm. }
  rewrite Hr.
  assert (Ha' : Gui.p_associativity params ≠ 0) by lia.
  destruct (Z.ltb_spec (Gui.p_virtual_mem_addr_width params) 0) as [Hneg|Hw].
  { unfold Gui.shift_one. destruct (Z.ltb_spec (Gui.p_virtual_mem_addr_width params) 0); [|lia].
    split_and!; try done.
    split; [by intros [? [=]]|]. intros (_ & _ & ? & _). lia. }
  rewrite (shift_one_pow _ Hw).
  unfold Objects.VirtualMemory__init__ at 1 2 3 4.
  destruct (assert_multiple_inv (2 ^ Gui.p_virtual_mem_addr_width params)
              (Gui.p_page_size params) Objects.VirtualSizeNotPages _ eq_refl)
    as [(Hp & Hr')|[(Hp & Hm & Hr')|(Hp & Hm & Hr')]]; rewrite Hr'.
  - split_and!; try done.
    split; [by intros [? [=]]|]. by intros (_ & _ & _ & ? & _).
  - split_and!; try done.
    + split; [done|]. intros _. by eexists.
    + intros tlb [= <-].
      eapply (state_of_init _ _ _ params eq_refl).
      * unfold Objects.SetAssocCache__init__. simpl. by rewrite Hr.
      * unfold Objects.VirtualMemory__init__. simpl. by rewrite Hr'.
  - split_and!; try done.
    split; [by intros [? [=]]|]. by intros (_ & _ & _ & _ & ?).
Qed.

Lemma form_params_sizes (params : Gui.Parameters) :
  Gui.form_params params →
  0 < Gui.p_block_size params ∧ 0 < Gui.p_associativity params ∧
  0 < Gui.p_page_size params ∧ 8192 mod Gui.p_page_size params = 0.
Proof.
  intros (Hb & _ & _ & Ha & _ & Hp & _). split_and!.
  - repeat (apply elem_of_cons in Hb as [->|Hb]; [done|]). by apply elem_of_nil in Hb.
  - repeat (apply elem_of_cons in Ha as [->|Ha]; [done|]). by apply elem_of_nil in Ha.
  - repeat (apply elem_of_cons in Hp as [->|Hp]; [done|]). by apply elem_of_nil in Hp.
  - repeat (apply elem_of_cons in Hp as [->|Hp]; [done|]). by apply elem_of_nil in Hp.
Qed.

Lemma form_params_wf (params : Gui.Parameters) :
  Gui.form_params params → wf_config (Gui.config_of_params params).
Proof.
  intros Hform. destruct (form_params_sizes params Hform) as (Hb & Ha & Hp & Hd).
  destruct Hform as (_ & Hn & Hs & _ & Hw & _ & Ht).
  assert (H2 : 0 < 2 ^ Gui.p_virtual_mem_addr_width params)
    by (apply Z.pow_pos_nonneg; lia).
  split; simpl.
  - lia.
  - nia.
  - by rewrite Z.mod_mul by lia.
  - lia.
  - repeat apply Z.mul_pos_pos; lia.
  - by rewrite <- Z.mul_assoc, Z.mod_mul by nia.
  - lia.
  - lia.
  - replace (Gui.p_virtual_mem_addr_width params)
      with ((Gui.p_virtual_mem_addr_width params - 13) + 13) by lia.
    rewrite Z.pow_add_r by lia. change (2 ^ 13) with 8192.
    apply Z.mod_divide; [lia|]. apply Z.divide_mul_r. apply Z.mod_divide; [lia|done].
  - lia.
Qed.

Lemma form_params_build (params : Gui.Parameters) :
  Gui.form_params params →
  ∃ tlb,
    Gui.initialize_sim params = inr tlb ∧
    Objects.config_of tlb = Gui.config_of_params params ∧
    Objects.state_of tlb = FullyAssocTLB.init (Gui.config_of_params params) ∧
    wf_config (Gui.config_of_params params).
Proof.
  intros Hform. pose proof (form_params_wf params Hform) as Hwf.
  destruct (form_params_sizes params Hform) as (Hb & Ha & Hp & Hd).
  pose proof Hform as (_ & _ & _ & _ & Hw & _ & Ht).
  unfold Gui.initialize_sim, Objects.PhysicalMemory__init__.
  rewrite assert_multiple_ok by (lia || by rewrite Z.mod_mul by lia).
  unfold Objects.SetAssocCache__init__ at 1. simpl.
  rewrite assert_multiple_ok
    by (nia || by rewrite <- Z.mul_assoc, Z.mod_mul by nia).
  rewrite shift_one_pow by lia.
  unfold Objects.VirtualMemory__init__ at 1.
  rewrite assert_multiple_ok by (lia || exact (wf_vm_div _ Hwf)).
  eexists. split; [reflexivity|]. split_and!; [|done|exact Hwf].
  unfold Objects.config_of, Gui.config_of_params. simpl.
  rewrite length_replicate. f_equal. lia.
Qed.

(** Every choice of parameters that the form offers builds a simulator,
    with the sizes computed from the parameters, and these sizes are
    well formed: the hypothesis under which the accesses are specified
    holds for every simulator that the interface can start. *)
Theorem initialize_sim_form (params : Gui.Parameters) :
  Gui.form_params params →
  ∃ tlb,
    Gui.initialize_sim params = inr tlb ∧
    Objects.config_of tlb = Gui.config_of_params params ∧
    Objects.state_of tlb = FullyAssocTLB.init (Gui.config_of_params params) ∧
    wf_config (Gui.config_of_params params).
Proof. apply form_params_build. Qed.

Lemma initialize_sim_form_witness :
  ∃ tlb,
    Gui.initialize_sim Gui.reset_parameters = inr tlb ∧
    Objects.config_of tlb = Gui.config_of_params Gui.reset_parameters ∧
    Objects.state_of tlb = FullyAssocTLB.init (Gui.config_of_params Gui.reset_parameters) ∧
    wf_config (Gui.config_of_params Gui.reset_parameters).
Proof.
  apply (initialize_sim_form Gui.reset_parameters).
  unfold Gui.form_params, Gui.reset_parameters. simpl.
  split_and!; try lia; by repeat constructor.
Defined.

(** ** [show_data_size] *)

Section ShowDataSize.
Import Gui.

Lemma show_data_size_loop_zero (fuel : nat) (base : Z) :
  show_data_size_loop fuel 0 base = None.
Proof.
  revert base. induction fuel as [|fuel IH]; intros base; [done|].
  simpl. apply IH.
Qed.

Lemma show_data_size_loop_spec (fuel : nat) (size base : Z) :
  size ≠ 0 → Z.abs size < 1024 ^ Z.of_nat fuel →
  ∃ m b,
    show_data_size_loop fuel size base = Some (m, b) ∧
    base <= b ∧ m * 1024 ^ (b - base) = size ∧ m mod 1024 ≠ 0.
Proof.
  revert size base. induction fuel as [|fuel IH]; intros size base Hnz Hlt.
  { simpl in Hlt. lia. }
  cbn [show_data_size_loop].
  destruct (Z.eqb_spec (size mod 1024) 0) as [Hm|Hm].
  - pose proof (Z.div_mod size 1024 ltac:(lia)) as Hdm. rewrite Hm, Z.add_0_r in Hdm.
    rewrite Nat2Z.inj_succ, Z.pow_succ_r in Hlt by lia.
    destruct (IH (size / 1024) (base + 1)) as (m & b & Hrun & Hb & Heq & Hmod); [lia|lia|].
    exists m, b. split_and!; [done|lia| |done].
    replace (b - base) with (Z.succ (b - (base + 1))) by lia.
    rewrite Z.pow_succ_r by lia. lia.
  - exists size, base. rewrite Z.sub_diag. split_and!; [done|lia|lia|done].
Qed.

End ShowDataSize.

Lemma show_data_size_returns (fuel : nat) (size : Z) :
  size ≠ 0 → Z.abs size < 1024 ^ Z.of_nat fuel →
  ∃ m b unit,
    Gui.show_data_size fuel size = Some (Ok (pretty m +:+ " " +:+ unit)%string) ∧
    Gui.unit_table !! Z.to_nat b = Some unit ∧
    0 <= b <= 8 ∧ m * 1024 ^ b = size ∧ (b < 8 → m mod 1024 ≠ 0).
Proof.
  intros Hnz Hlt.
  destruct (show_data_size_loop_spec fuel size 0 Hnz Hlt) as (m & b & Hrun & Hb & Heq & Hmod).
  rewrite Z.sub_0_r in Heq.
  unfold Gui.show_data_size, Gui.show_data_size_parts. rewrite Hrun.
  destruct (Z.ltb_spec 8 b) as [Hbig|Hsmall].
  - exists (Z.shiftl m ((b - 8) * 10)), 8. eexists.
    split_and!; [reflexivity|reflexivity|lia|lia| |lia].
    rewrite Z.shiftl_mul_pow2 by lia.
    rewrite (Z.mul_comm (b - 8) 10), Z.pow_mul_r by lia. change (2 ^ 10) with 1024.
    rewrite <- Z.mul_assoc, <- Z.pow_add_r by lia.
    by replace (b - 8 + 8) with b by lia.
  - assert (is_Some (Gui.unit_table !! Z.to_nat b)) as [unit Hu].
    { apply lookup_lt_is_Some. simpl. lia. }
    exists m, b, unit.
    destruct (Z.leb_spec 0 b); [|lia]. rewrite Hu.
    split_and!; [done|done|lia|lia|done|done].
Qed.

(** [show_data_size(size)] of a size that is not zero returns: with
    enough fuel for the loop, it prints a number m and the unit of index
    b <= 8 of [unit_table] with m * 1024^b = size, and m is not a
    multiple of 1024 unless the largest unit is reached; the lookup in
    [unit_table] never fails. *)
Theorem show_data_size_exact (fuel : nat) (size : Z) :
  size ≠ 0 → Z.abs size < 1024 ^ Z.of_nat fuel →
  ∃ m b unit,
    Gui.show_data_size fuel size = Some (Ok (pretty m +:+ " " +:+ unit)%string) ∧
    Gui.unit_table !! Z.to_nat b = Some unit ∧
    0 <= b <= 8 ∧ m * 1024 ^ b = size ∧ (b < 8 → m mod 1024 ≠ 0).
Proof. apply show_data_size_returns. Qed.

Lemma show_data_size_exact_witness :
  ∃ m b unit,
    Gui.show_data_size 2 65536 = Some (Ok (pretty m +:+ " " +:+ unit)%string) ∧
    Gui.unit_table !! Z.to_nat b = Some unit ∧
    0 <= b <= 8 ∧ m * 1024 ^ b = 65536 ∧ (b < 8 → m mod 1024 ≠ 0).
Proof.
  apply (show_data_size_exact 2 65536); [discriminate|reflexivity].
Defined.

(** [show_data_size(0)] never returns: zero is a multiple of 1024 for
    ever, so the loop runs out of any amount of fuel. *)
Theorem show_data_size_zero_diverges (fuel : nat) :
  Gui.show_data_size fuel 0 = None.
Proof.
  unfold Gui.show_data_size, Gui.show_data_size_parts.
  by rewrite show_data_size_loop_zero.
Qed.

(** The three sizes that the form displays with [show_data_size] are
    never zero for the parameters it offers, so the display always
    returns. *)
Theorem form_sizes_shown (params : Gui.Parameters) (size : Z) :
  Gui.form_params params →
  size ∈ [Gui.p_physical_block_count params * Gui.p_block_size params;
          Gui.p_cache_set_count params * Gui.p_associativity params
            * Gui.p_block_size params;
          Z.shiftl 1 (Gui.p_virtual_mem_addr_width params)] →
  ∃ fuel text, ∀ fuel', (fuel <= fuel')%nat →
    Gui.show_data_size fuel' size = Some (Ok text).
Proof.
  intros Hform Hsize.
  destruct (form_params_sizes params Hform) as (Hb & Ha & Hp & Hd).
  destruct Hform as (_ & Hn & Hs & _ & Hw & _ & Ht).
  assert (Hpos : 0 < size).
  { repeat (apply elem_of_cons in Hsize as [->|Hsize]).
    - nia.
    - repeat apply Z.mul_pos_pos; lia.
    - rewrite Z.shiftl_mul_pow2, Z.mul_1_l by lia. apply Z.pow_pos_nonneg; lia.
    - by apply elem_of_nil in Hsize. }
  assert (Hfuel : ∀ fuel', (Z.to_nat size <= fuel')%nat → Z.abs size < 1024 ^ Z.of_nat fuel').
  { intros fuel' Hle.
    pose proof (Z.pow_gt_lin_r 1024 (Z.of_nat fuel') ltac:(lia) ltac:(lia)). lia. }
  destruct (show_data_size_returns (Z.to_nat size) size ltac:(lia) (Hfuel _ (le_n _)))
    as (m & b & unit & Hrun & Hu & Hb8 & Heq & Hmod).
  exists (Z.to_nat size), (pretty m +:+ " " +:+ unit)%string.
  intros fuel' Hle.
  destruct (show_data_size_returns fuel' size ltac:(lia) (Hfuel _ Hle))
    as (m' & b' & unit' & Hrun' & Hu' & Hb8' & Heq' & Hmod').
  rewrite Hrun'. do 2 f_equal.
  assert (b' = b ∧ m' = m) as [-> ->]; [|congruence].
  clear Hrun Hrun' Hu Hu' Hfuel Hle.
  destruct (Z.lt_trichotomy b b') as [Hlt|[Hbb|Hlt]]; [|subst b'|].
  - exfalso. apply Hmod; [lia|].
    rewrite <- Heq' in Heq.
    replace b' with ((b' - b - 1) + 1 + b) in Heq by lia.
    rewrite !Z.pow_add_r in Heq by lia.
    assert (0 < 1024 ^ b) by (apply Z.pow_pos_nonneg; lia).
    assert (m = m' * 1024 ^ (b' - b - 1) * 1024) by nia.
    subst m. by rewrite Z.mod_mul.
  - split; [done|]. assert (0 < 1024 ^ b) by (apply Z.pow_pos_nonneg; lia). nia.
  - exfalso. apply Hmod'; [lia|].
    rewrite <- Heq in Heq'.
    replace b with ((b - b' - 1) + 1 + b') in Heq' by lia.
    rewrite !Z.pow_add_r in Heq' by lia.
    assert (0 < 1024 ^ b') by (apply Z.pow_pos_nonneg; lia).
    assert (m' = m * 1024 ^ (b - b' - 1) * 1024) by nia.
    subst m'. by rewrite Z.mod_mul.
Qed.

Lemma form_sizes_shown_witness :
  ∃ fuel text, ∀ fuel', (fuel <= fuel')%nat →
    Gui.show_data_size fuel' 65536 = Some (Ok text).
Proof.
  apply (form_sizes_shown Gui.reset_parameters 65536).
  - unfold Gui.form_params, Gui.reset_parameters. simpl.
    split_and!; try lia; by repeat constructor.
  - by repeat constructor.
Defined.

(** ** Stepping through the access list *)

Section GuiRunSteps.
Import GuiRun.
Variable cfg : Config.
Variable pop_choice : gset Z → Z.

Lemma access_steps (n : nat) (i : Z) (ops : list (bool * Z)) (st : FullyAssocTLB.t) :
  -1 <= i → Z.of_nat n = Z.of_nat (length ops) - i - 1 →
  ∃ r st' evs i',
    for_each (replicate n tt) (λ _, access cfg pop_choice >> ret tt) (mkSession i ops st)
    = (r, mkSession i' ops st', evs) ∧
    tlb_ops cfg pop_choice (drop (Z.to_nat (i + 1)) ops) st = (r, st', evs) ∧
    (r = Ok tt → i' = i + Z.of_nat n).
Proof.
  revert i st. induction n as [|n IH]; intros i st Hi Hn.
  - exists (Ok tt), st, [], i. simpl. split_and!; [done| |lia].
    rewrite drop_ge by lia. done.
  - assert (is_Some (ops !! Z.to_nat (i + 1))) as [op Hop].
    { apply lookup_lt_is_Some. lia. }
    rewrite (drop_S _ _ _ Hop).
    replace (S (Z.to_nat (i + 1))) with (Z.to_nat ((i + 1) + 1)) by lia.
    cbn [replicate for_each]. unfold tlb_ops. cbn [for_each].
    unfold access at 1. mrun.
    destruct (Z.leb_spec (Z.of_nat (length ops)) (i + 1)) as [|_]; [lia|]. mrun.
    rewrite (bind_orelse_Some _ op) by (rewrite py_get_in_range by lia; done).
    rewrite ?bind_assoc. unfold set_access_index. cbn [access_index access_list tlb].
    destruct (tlb_access cfg pop_choice op.1 op.2 st) as [[[[]|err] st1] evs1] eqn:Hacc.
    + rewrite (bind_run _ _ _ _ _ _
                 (zoom_run tlb set_tlb _ (mkSession (i + 1) ops st) _ _ _ Hacc)).
      rewrite (bind_run _ _ _ _ _ _ Hacc). mrun.
      destruct (IH (i + 1) st1) as (r & st' & evs & i' & Hrun & Hops & Hidx); [lia|lia|].
      unfold set_tlb. simpl.
      rewrite Hrun. unfold tlb_ops in Hops. rewrite Hops.
      exists r, st', (evs1 ++ evs), i'. split_and!; [done|done|].
      intros Hr. specialize (Hidx Hr). lia.
    + rewrite (bind_raise _ _ _ _ _ _
                 (zoom_run tlb set_tlb _ (mkSession (i + 1) ops st) _ _ _ Hacc)).
      rewrite (bind_raise _ _ _ _ _ _ Hacc).
      exists (Raise err), st1, evs1, (i + 1). split_and!; [done|done|done].
Qed.

End GuiRunSteps.

Lemma run_all_steps (cfg : Config) (pop_choice : gset Z → Z)
    (i : Z) (ops : list (bool * Z)) (st : FullyAssocTLB.t) :
  -1 <= i < Z.of_nat (length ops) →
  ∃ r st' evs i',
    GuiRun.run_all cfg pop_choice (GuiRun.mkSession i ops st)
    = (r, GuiRun.mkSession i' ops st', evs) ∧
    tlb_ops cfg pop_choice (drop (Z.to_nat (i + 1)) ops) st = (r, st', evs) ∧
    (r = Ok tt → i' = Z.of_nat (length ops) - 1).
Proof.
  intros Hi. unfold GuiRun.run_all. rewrite bind_get. simpl.
  destruct (access_steps cfg pop_choice
              (Z.to_nat (Z.of_nat (length ops) - i - 1)) i ops st)
    as (r & st' & evs & i' & Hrun & Hops & Hidx); [lia|lia|].
  exists r, st', evs, i'. split_and!; [done|done|].
  intros Hr. specialize (Hidx Hr). lia.
Qed.

(** Running the rest of the access list from the interface is running
    its operations in order through the TLB: same outcome, same trace,
    same final simulator; the list is unchanged, and when every
    operation completes the position is the end of the list.  An
    exception stops the run at the operation that raised. *)
Theorem run_all_is_tlb_ops (cfg : Config) (pop_choice : gset Z → Z)
    (i : Z) (ops : list (bool * Z)) (st : FullyAssocTLB.t) :
  -1 <= i < Z.of_nat (length ops) →
  ∃ r st' evs i',
    GuiRun.run_all cfg pop_choice (GuiRun.mkSession i ops st)
    = (r, GuiRun.mkSession i' ops st', evs) ∧
    tlb_ops cfg pop_choice (drop (Z.to_nat (i + 1)) ops) st = (r, st', evs) ∧
    (r = Ok tt → i' = Z.of_nat (length ops) - 1).
Proof. apply run_all_steps. Qed.

Lemma run_all_is_tlb_ops_witness :
  ∃ r st' evs i',
    GuiRun.run_all cfgA pop_first
      (GuiRun.mkSession (-1) [(false, 0); (true, 16)] (FullyAssocTLB.init cfgA))
    = (r, GuiRun.mkSession i' [(false, 0); (true, 16)] st', evs) ∧
    tlb_ops cfgA pop_first (drop (Z.to_nat (-1 + 1)) [(false, 0); (true, 16)])
      (FullyAssocTLB.init cfgA) = (r, st', evs) ∧
    (r = Ok tt → i' = Z.of_nat (length [(false, 0); (true, 16)]) - 1).
Proof.
  apply (run_all_is_tlb_ops cfgA pop_first (-1) [(false, 0); (true, 16)]
           (FullyAssocTLB.init cfgA)).
  simpl. lia.
Defined.

(** The interface cannot run an access list of more than
    [tlb_line_count] pages to its end: for the parameters that the form
    offers and a simulator just built, if the run of the whole list
    completes then the list touches at most [tlb_line_count] different
    pages. *)
Theorem gui_run_capacity (params : Gui.Parameters) (pop_choice : gset Z → Z)
    (ops : list (bool * Z)) (tlb : Objects.FullyAssocTLBObj)
    (s' : GuiRun.Session) (evs : list event) :
  Gui.form_params params →
  Gui.initialize_sim params = inr tlb →
  GuiRun.run_all (Objects.config_of tlb) pop_choice
    (GuiRun.mkSession (-1) ops (Objects.state_of tlb)) = (Ok tt, s', evs) →
  Z.of_nat (size (pages_of (Objects.config_of tlb) ops)) <= Gui.p_tlb_line_count params.
Proof.
  intros Hform Hinit Hrun.
  destruct (form_params_build params Hform) as (tlb0 & Hinit0 & Hcfg & Hst & Hwf).
  rewrite Hinit in Hinit0. injection Hinit0 as <-.
  rewrite Hcfg, Hst in *.
  destruct ops as [|op ops].
  { unfold pages_of. rewrite fmap_nil, list_to_set_nil, size_empty.
    destruct Hform as (_ & _ & _ & _ & _ & _ & ?). lia. }
  destruct (run_all_steps (Gui.config_of_params params) pop_choice (-1) (op :: ops)
              (FullyAssocTLB.init (Gui.config_of_params params)))
    as (r & st' & evs' & i' & Hrun' & Hops & _); [simpl; lia|].
  rewrite Hrun in Hrun'. injection Hrun' as <- _ <-.
  change (drop (Z.to_nat (-1 + 1)) (op :: ops)) with (op :: ops) in Hops.
  apply (tlb_ops_pages_bound (Gui.config_of_params params) pop_choice (op :: ops) st' evs Hwf Hops).
Qed.

Lemma gui_run_capacity_witness :
  Z.of_nat
    (size (pages_of
             (Objects.config_of
                (Objects.FullyAssocTLB__init__
                   (Objects.mkVirtualMemory
                      (Objects.mkSetAssocCache (Objects.mkPhysicalMemory 65536 32)
                         2048 1 32 (SetAssocCache.init (Gui.config_of_params Gui.reset_parameters)))
                      (2 ^ 32) 2048 ∅ (list_to_set (seqZ 0 32)) [])
                   32))
             [(false, 0); (true, 4096)]))
  <= Gui.p_tlb_line_count Gui.reset_parameters.
Proof.
  eapply (gui_run_capacity Gui.reset_parameters pop_first [(false, 0); (true, 4096)]).
  - unfold Gui.form_params, Gui.reset_parameters. simpl.
    split_and!; try lia; by repeat constructor.
  - reflexivity.
  - vm_compute. reflexivity.
Defined.

(** ** FullyAssocTLB: the lines agree with the page table until memory is full *)

Section TlbConsistent.
Import FullyAssocTLB.
Variable cfg : Config.
Variable pop_choice : gset Z → Z.
Hypothesis Hwf : wf_config cfg.

(** [_swap_in] says so when it has to evict a page. *)
Lemma vm_swap_in_full_event (page : Z) (vm vm' : VirtualMemory.t) (r : option Z)
    (evs : list event) :
  VirtualMemory.frame_set vm = ∅ →
  VirtualMemory._swap_in cfg pop_choice page vm = (Ok r, vm', evs) →
  VmFull ∈ evs.
Proof.
  intros Hfull H. unfold VirtualMemory._swap_in in H. minv H.
  - apply elem_of_app. left. by apply list_elem_of_singleton.
  - apply bool_decide_eq_false in Hif. simpl in Hif. rewrite Hfull in Hif.
    by rewrite size_empty in Hif.
Qed.

(** An access that does not print the memory-full message evicts no
    page: the pages that were resident keep their frames. *)
Lemma vm_access_no_full (is_write : bool) (addr : Z) (vm vm' : VirtualMemory.t)
    (evs : list event) :
  VirtualMemory.access cfg pop_choice is_write addr vm = (Ok tt, vm', evs) →
  VmFull ∉ evs →
  ∀ p e, VirtualMemory.page_table vm !! p = Some e →
         ∃ e', VirtualMemory.page_table vm' !! p = Some e' ∧
               VirtualMemory.physical e' = VirtualMemory.physical e.
Proof.
  intros H Hno p e He.
  assert (Hdirty : ∀ (pt : gmap Z VirtualMemory.Page) q e0,
            pt !! p = Some e0 →
            ∃ e', (if is_write then alter (VirtualMemory.set_dirty true) q pt else pt) !! p
                  = Some e' ∧
                  VirtualMemory.physical e' = VirtualMemory.physical e0).
  { intros pt q e0 H0. destruct is_write; [|by exists e0].
    destruct (decide (q = p)) as [->|Hqp].
    - rewrite lookup_alter_eq, H0. by eexists.
    - rewrite lookup_alter_ne by done. by exists e0. }
  unfold VirtualMemory.access in H. minv H.
  - assert (VirtualMemory.page_table vm' !! p
            = (if is_write
               then alter (VirtualMemory.set_dirty true) (addr / page_size cfg)
                      (VirtualMemory.page_table vm)
               else VirtualMemory.page_table vm) !! p) as ->.
    { destruct is_write; minv H; unfold modify, ret in H; by injection H as <- _. }
    by apply Hdirty.
  - assert (VirtualMemory.page_table vm' !! p
            = (if is_write
               then alter (VirtualMemory.set_dirty true) (addr / page_size cfg)
                      (VirtualMemory.page_table s)
               else VirtualMemory.page_table s) !! p) as ->.
    { destruct is_write; minv H; unfold modify, ret in H; by injection H as <- _. }
    apply Hdirty.
    destruct (decide (VirtualMemory.frame_set vm = ∅)) as [Hfull|Hfree].
    + exfalso. apply Hno.
      pose proof (vm_swap_in_full_event _ _ _ _ _ Hfull Hsub) as Hin.
      rewrite !elem_of_app. right. left. done.
    + apply vm_swap_in_inv in Hsub as (Hfresh & [(_ & _ & ->)|(Hfull & _)]); [|done].
      simpl. rewrite lookup_insert_ne; [done|]. intros <-. congruence.
Qed.

(** A completed access is a hit, which changes flags of the line only,
    or a miss that loads the first invalid line from the page-table
    entry. *)
Lemma tlb_access_ok_cases (is_write : bool) (addr : Z) (st st' : t) (evs : list event) :
  lru_queue st = [] →
  tlb_access cfg pop_choice is_write addr st = (Ok tt, st', evs) →
  (∃ idx line c' evs_c,
     tlb_lookup cfg addr st = Some (idx, line) ∧
     evs = TlbHit :: evs_c ∧
     virtual_mem st' = VirtualMemory.set_main_mem c' (virtual_mem st) ∧
     (table st' = table st ∨ table st' = alter (set_flags true true) idx (table st))) ∨
  (∃ idx l0 vm' evs_v e,
     tlb_lookup cfg addr st = None ∧
     list_find (λ l, negb (valid l)) (table st) = Some (idx, l0) ∧
     VirtualMemory.access cfg pop_choice is_write addr (virtual_mem st) = (Ok tt, vm', evs_v) ∧
     VirtualMemory.page_table vm' !! (addr / page_size cfg) = Some e ∧
     evs = TlbMiss :: evs_v ++ [TlbLoaded (addr / page_size cfg)] ∧
     virtual_mem st' = vm' ∧
     table st' = alter (λ _, mkLine (addr / page_size cfg) (VirtualMemory.physical e) true
                               (VirtualMemory.dirty e) false) idx (table st)).
Proof.
  intros Hq H.
  destruct (decide (0 <= addr < vm_size cfg)) as [Haddr|Hout];
    [|by rewrite tlb_access_out_of_range in H].
  destruct (tlb_lookup cfg addr st) as [[idx line]|] eqn:Hhit.
  - left. destruct is_write; simpl in H.
    + destruct (SetAssocCache.write cfg (tlb_translate cfg addr line)
                  (VirtualMemory.main_mem (virtual_mem st))) as [[r c'] evs_c] eqn:Hc.
      rewrite (tlb_write_hit cfg pop_choice addr st idx line Haddr Hhit r c' evs_c Hc) in H.
      destruct r as [[]|err]; [|done]. injection H as <- <-.
      exists idx, line, c', evs_c.
      destruct (dirty line || dirty_dirty line); split_and!; try done; [by left|by right].
    + destruct (SetAssocCache.read cfg (tlb_translate cfg addr line)
                  (VirtualMemory.main_mem (virtual_mem st))) as [[r c'] evs_c] eqn:Hc.
      rewrite (tlb_read_hit cfg pop_choice addr st idx line Haddr Hhit r c' evs_c Hc) in H.
      injection H as _ <- <-. exists idx, line, c', evs_c. split_and!; try done. by left.
  - right.
    destruct (VirtualMemory.access cfg pop_choice is_write addr (virtual_mem st))
      as [[[[]|err] vm'] evs_v] eqn:Hvm;
      [|by rewrite (tlb_miss_vm_raise _ _ _ _ _ _ _ _ Haddr Hhit Hvm) in H].
    rewrite (tlb_miss_run cfg pop_choice is_write addr st vm' evs_v Haddr Hhit Hvm) in H.
    destruct (vm_access_resident cfg pop_choice is_write addr _ _ _ Hvm) as [e He].
    destruct (list_find (λ l, negb (valid l)) (table st)) as [[idx l0]|] eqn:Hfree.
    + rewrite (bind_run _ _ _ _ _ _
                 (tlb_swap_in_free cfg pop_choice (addr / page_size cfg)
                    (set_virtual_mem vm' st) idx l0 e
                    (page_of_addr_range cfg Hwf addr Haddr) Hfree He)) in H.
      unfold ret in H. simpl in H. injection H as <- <-.
      exists idx, l0, vm', evs_v, e. rewrite ?app_nil_r. by split_and!.
    + assert (Hfull : Forall (λ l, valid l = true) (table st)).
      { rewrite list_find_None in Hfree. eapply Forall_impl; [exact Hfree|].
        intros l Hl. simpl in Hl. by destruct (valid l); [|exfalso; apply Hl]. }
      by rewrite (bind_raise _ _ _ _ _ _
                    (tlb_swap_in_full cfg pop_choice (addr / page_size cfg)
                       (set_virtual_mem vm' st)
                       (page_of_addr_range cfg Hwf addr Haddr) Hq Hfull)) in H.
Qed.

Lemma tlb_consistent_step (is_write : bool) (addr : Z) (st st' : t) (evs : list event) :
  lru_queue st = [] → tlb_consistent st →
  tlb_access cfg pop_choice is_write addr st = (Ok tt, st', evs) →
  VmFull ∉ evs →
  tlb_consistent st'.
Proof.
  intros Hq Hc H Hno.
  apply tlb_access_ok_cases in H
    as [(idx & line & c' & evs_c & Hhit & -> & Hvm & Htab)
       |(idx & l0 & vm' & evs_v & e & Hmiss & Hfree & Hacc & He & -> & Hvm & Htab)];
    [| |done].
  - intros i l Hl Hv. rewrite Hvm. simpl.
    destruct Htab as [Htab|Htab]; rewrite Htab in Hl.
    + by apply (Hc i l).
    + destruct (decide (i = idx)) as [->|Hi].
      * rewrite list_lookup_alter_eq in Hl.
        destruct (table st !! idx) as [l1|] eqn:Hl1; [|done].
        injection Hl as <-. simpl in *. by apply (Hc idx l1).
      * rewrite list_lookup_alter_ne in Hl by done. by apply (Hc i l).
  - assert (Hno' : VmFull ∉ evs_v).
    { intros Hin. apply Hno. apply elem_of_cons. right. apply elem_of_app. by left. }
    intros i l Hl Hv. rewrite Hvm. rewrite Htab in Hl.
    destruct (decide (i = idx)) as [->|Hi].
    + rewrite list_lookup_alter_eq in Hl.
      destruct (table st !! idx) as [l1|] eqn:Hl1; [|done].
      injection Hl as <-. simpl. by exists e.
    + rewrite list_lookup_alter_ne in Hl by done.
      destruct (Hc i l Hl Hv) as (e0 & He0 & Hp0).
      destruct (vm_access_no_full _ _ _ _ _ Hacc Hno' _ _ He0) as (e' & He' & Hp').
      exists e'. split; [done|]. congruence.
Qed.

Lemma tlb_consistent_run (ops : list (bool * Z)) (st st' : t) (evs : list event) :
  lru_queue st = [] → tlb_consistent st →
  tlb_ops cfg pop_choice ops st = (Ok tt, st', evs) →
  VmFull ∉ evs →
  tlb_consistent st'.
Proof.
  revert st evs. induction ops as [|[w a] ops IH]; intros st evs Hq Hc H Hno.
  - unfold tlb_ops, for_each, ret in H. by injection H as <- _.
  - unfold tlb_ops in H. simpl in H.
    apply bind_ok_inv in H as ([] & st1 & t1 & t2 & Hacc & H & ->).
    assert (Hq1 : lru_queue st1 = []).
    { pose proof (tlb_access_queue cfg pop_choice w a st Hq) as Hq1.
      by rewrite Hacc in Hq1. }
    apply (IH st1 t2 Hq1); [|done|].
    + eapply tlb_consistent_step; [exact Hq|exact Hc|exact Hacc|].
      intros Hin. apply Hno. apply elem_of_app. by left.
    + intros Hin. apply Hno. apply elem_of_app. by right.
Qed.

Lemma tlb_consistent_init : tlb_consistent (init cfg).
Proof.
  intros i l Hl Hv. simpl in Hl. apply lookup_replicate in Hl as [-> _]. done.
Qed.

End TlbConsistent.

(** As long as the memory has not been full, the TLB is right: after a
    sequence of reads and writes on a fresh TLB that completes without
    the memory-full message, every valid line holds a page that is in
    the page table, with the frame that the page table gives it. *)
Theorem tlb_consistent_until_full (cfg : Config) (pop_choice : gset Z → Z)
    (ops : list (bool * Z)) (st : FullyAssocTLB.t) (evs : list event) :
  wf_config cfg →
  tlb_ops cfg pop_choice ops (FullyAssocTLB.init cfg) = (Ok tt, st, evs) →
  VmFull ∉ evs →
  tlb_consistent st.
Proof.
  intros Hwf H Hno.
  eapply (tlb_consistent_run cfg pop_choice Hwf ops (FullyAssocTLB.init cfg)); try done.
  apply tlb_consistent_init.
Qed.

Lemma tlb_consistent_until_full_witness :
  tlb_consistent
    (tlb_ops cfgC pop_first [(false, 0); (true, 16); (false, 3)]
       (FullyAssocTLB.init cfgC)).1.2.
Proof.
  apply (tlb_consistent_until_full cfgC pop_first [(false, 0); (true, 16); (false, 3)] _
           (tlb_ops cfgC pop_first [(false, 0); (true, 16); (false, 3)]
              (FullyAssocTLB.init cfgC)).2).
  - by split.
  - vm_compute. reflexivity.
  - vm_compute. intros H.
    repeat (apply elem_of_cons in H as [H|H]; [discriminate H|]).
    by apply elem_of_nil in H.
Defined.

(** No completed read or write invalidates a line of the TLB: a page
    that has a valid line keeps a valid line through every sequence of
    accesses that completes, whatever happens to the page in the page
    table; and every page accessed has a valid line at the end. *)
Theorem tlb_never_invalidates (cfg : Config) (pop_choice : gset Z → Z)
    (ops : list (bool * Z)) (st st' : FullyAssocTLB.t) (evs : list event) :
  wf_config cfg →
  FullyAssocTLB.lru_queue st = [] →
  tlb_ops cfg pop_choice ops st = (Ok tt, st', evs) →
  (∀ p, tlb_holds st p → tlb_holds st' p) ∧
  (∀ op, op ∈ ops → tlb_holds st' (op.2 / page_size cfg)).
Proof.
  intros Hwf Hq H.
  by destruct (tlb_ops_holds cfg pop_choice Hwf ops st st' evs Hq H) as (_ & ? & ?).
Qed.

Lemma tlb_never_invalidates_witness :
  (∀ p, tlb_holds tlbA1 p →
        tlb_holds (tlb_ops cfgA pop_first [(false, 16)] tlbA1).1.2 p) ∧
  (∀ op, op ∈ [(false, 16)] →
         tlb_holds (tlb_ops cfgA pop_first [(false, 16)] tlbA1).1.2 (op.2 / page_size cfgA)).
Proof.
  apply (tlb_never_invalidates cfgA pop_first [(false, 16)] tlbA1 _
           (tlb_ops cfgA pop_first [(false, 16)] tlbA1).2).
  - apply wf_cfgA.
  - vm_compute. reflexivity.
  - vm_compute. reflexivity.
Defined.

(** ** VirtualMemory: the replacement is least-recently-used *)

Section VmLru.
Import VirtualMemory.
Variable cfg : Config.
Variable pop_choice : gset Z → Z.
Hypothesis Hpop : pop_spec pop_choice.

Lemma filter_ne_id (p : Z) (l : list Z) :
  p ∉ l → filter (λ x, x ≠ p) l = l.
Proof.
  induction l as [|x l IH]; intros Hn; [done|].
  apply not_elem_of_cons in Hn as [Hx Hn].
  rewrite filter_cons_True by done. by rewrite IH.
Qed.

Lemma filter_ne_remove (p : Z) (l1 l2 : list Z) :
  NoDup (l1 ++ p :: l2) → filter (λ x, x ≠ p) (l1 ++ p :: l2) = l1 ++ l2.
Proof.
  intros Hnd. apply NoDup_app in Hnd as (_ & H12 & H2).
  apply NoDup_cons in H2 as [Hp2 _].
  rewrite filter_app, filter_cons_False by (by intros ?).
  rewrite !filter_ne_id; [done|done|].
  intros Hin. apply (H12 p Hin). by left.
Qed.

Lemma NoDup_touch_page (q : list Z) (p : Z) : NoDup q → NoDup (touch_page q p).
Proof.
  intros Hnd. unfold touch_page. apply NoDup_app. split_and!.
  - by apply NoDup_filter.
  - intros x Hx Hin. apply list_elem_of_singleton in Hin as ->.
    by apply list_elem_of_filter in Hx as [? _].
  - apply NoDup_singleton.
Qed.

(** The pages in memory and the free frames add up to the frames. *)
Lemma partition_sizes (pt : gmap Z Page) (fs : gset Z) :
  frames_partition cfg pt fs →
  (size pt + size fs = Z.to_nat (n_frames cfg))%nat.
Proof.
  intros (Hinj & Hdisj & Hall).
  set (img := list_to_set ((λ pe, physical pe.2) <$> map_to_list pt) : gset Z).
  assert (Himg : ∀ f, f ∈ img ↔ ∃ p e, pt !! p = Some e ∧ physical e = f).
  { intros f. unfold img. rewrite elem_of_list_to_set, list_elem_of_fmap. split.
    - intros ([p e] & -> & Hin). apply elem_of_map_to_list in Hin. by exists p, e.
    - intros (p & e & He & <-). exists (p, e). split; [done|]. by apply elem_of_map_to_list. }
  assert (Hsize : size img = size pt).
  { unfold img. rewrite size_list_to_set.
    - by rewrite length_fmap, length_map_to_list.
    - apply NoDup_fmap_2_strong; [|apply NoDup_map_to_list].
      intros [p1 e1] [p2 e2] H1 H2 Hf. simpl in Hf.
      apply elem_of_map_to_list in H1, H2.
      assert (p1 = p2) as -> by by eapply Hinj. congruence. }
  assert (Hdj : img ## fs).
  { intros f Hf Hfs. apply Himg in Hf as (p & e & He & <-). by apply (Hdisj p e). }
  assert (Hun : img ∪ fs = list_to_set (seqZ 0 (n_frames cfg))).
  { apply set_eq. intros f. rewrite elem_of_union, Himg, elem_of_list_to_set, elem_of_seqZ.
    rewrite <- (Hall f). split; [intros [?|?]; [by right|by left]|intros [?|?]; [by right|by left]]. }
  rewrite <- Hsize, <- size_union by done. rewrite Hun.
  rewrite size_list_to_set by apply NoDup_seqZ. by rewrite length_seqZ.
Qed.

Lemma queue_length (st : t) :
  lru_consistent st → length (lru_queue st) = size (page_table st).
Proof.
  intros [Hnd Hmem].
  rewrite <- (size_list_to_set (C := gset Z)) by done.
  rewrite <- size_dom. f_equal. apply set_eq. intros p.
  by rewrite elem_of_list_to_set, Hmem, elem_of_dom.
Qed.

Lemma lru_exact_access (is_write : bool) (addr : Z) (order : list Z) (st st' : t)
    (evs : list event) :
  frame_partition cfg st → lru_consistent st → lru_exact cfg order st →
  access cfg pop_choice is_write addr st = (Ok tt, st', evs) →
  lru_exact cfg (touch_page order (addr / page_size cfg)) st'.
Proof.
  intros Hpart Hcons (Hnd & older & Hord & Hfull) H.
  split; [by apply NoDup_touch_page|].
  pose proof (queue_length st Hcons) as Hlen.
  pose proof (partition_sizes _ _ Hpart) as Hsz.
  destruct Hcons as [Hndq Hmem].
  apply vm_access_inv in H
    as (_ & st1 & e & c' & evs1 & evs_c & Hstage & _ & _ & -> & _).
  simpl. set (page := addr / page_size cfg) in *.
  destruct Hstage as [(Hres & q & Hq & ->)|(Hfresh & r & evs_s & Hin)].
  - (* the page is resident *)
    simpl. apply deque_remove_spec in Hq as (l1 & l2 & Hl & -> & Hn1).
    exists older. unfold touch_page. rewrite Hord, Hl in *. split.
    + rewrite (assoc_L (++) older l1 (page :: l2)).
      rewrite filter_ne_remove by by rewrite <- (assoc_L (++)).
      by rewrite <- !(assoc_L (++)).
    + destruct Hfull as [?|Hf]; [by left|right].
      rewrite <- Hf. rewrite !length_app. simpl. lia.
  - (* the page is brought in *)
    assert (Hnot : page ∉ lru_queue st).
    { rewrite Hmem, Hfresh. by intros [? ?]. }
    apply vm_swap_in_inv in Hin
      as (_ & [(Hne & _ & ->)|(Hempty & victim & st2 & evs2 & _ & Hhd & Hout & _ & ->)]).
    + (* a frame is free: nothing has been evicted yet *)
      simpl.
      assert (older = []) as ->.
      { destruct Hfull as [?|Hf]; [done|]. exfalso.
        assert (size (frame_set st) ≠ 0%nat).
        { rewrite size_empty_iff. by intros ?%leibniz_equiv. }
        unfold frame_partition in Hpart. lia. }
      exists []. split; [|by left].
      unfold touch_page. simpl in Hord. rewrite Hord. by rewrite filter_ne_id.
    + (* no frame is free: the head of the queue leaves *)
      apply vm_swap_out_inv in Hout as (line & q & c2 & evs_c2 & _ & Hq & _ & -> & _).
      simpl in *.
      destruct (lru_queue st) as [|v rest] eqn:Hqueue; [done|].
      injection Hhd as ->. simpl in Hq. rewrite decide_True in Hq by done.
      injection Hq as <-.
      assert (Hlenq : length (victim :: rest) = Z.to_nat (n_frames cfg)).
      { rewrite Hempty, size_empty in Hsz. lia. }
      exists (filter (λ x, x ≠ page) older ++ [victim]). split.
      * unfold touch_page. rewrite Hord, filter_app.
        rewrite (filter_ne_id page (victim :: rest)) by done.
        by rewrite <- !(assoc_L (++)).
      * right. rewrite length_app. simpl in *. lia.
Qed.

Lemma lru_exact_run (ops : list (bool * Z)) (order : list Z) (st st' : t) (evs : list event) :
  frame_partition cfg st → lru_consistent st → lru_exact cfg order st →
  vm_run cfg pop_choice ops st = (Ok tt, st', evs) →
  lru_consistent st' ∧
  lru_exact cfg (foldl touch_page order ((λ op, op.2 / page_size cfg) <$> ops)) st'.
Proof.
  revert order st evs. induction ops as [|[w a] ops IH]; intros order st evs Hp Hc He H.
  - unfold vm_run, for_each, ret in H. by injection H as <- _.
  - unfold vm_run in H. simpl in H.
    apply bind_ok_inv in H as ([] & st1 & t1 & t2 & Hacc & H & ->).
    simpl. eapply (IH _ st1 t2); [| | |exact H].
    + by eapply (partition_access cfg pop_choice Hpop).
    + by eapply lru_consistent_access.
    + by eapply lru_exact_access.
Qed.

Lemma lru_exact_most_recent (order : list Z) (st : t) :
  frame_partition cfg st → lru_consistent st → lru_exact cfg order st →
  lru_queue st = most_recent (Z.to_nat (n_frames cfg)) order.
Proof.
  intros Hpart Hcons (_ & older & -> & Hfull).
  pose proof (queue_length st Hcons) as Hlen.
  pose proof (partition_sizes _ _ Hpart) as Hsz. unfold frame_partition in Hpart.
  unfold most_recent. destruct Hfull as [->|Hf].
  - simpl. replace (length (lru_queue st) - Z.to_nat (n_frames cfg))%nat with 0%nat by lia.
    done.
  - rewrite length_app, Hf.
    replace (length older + Z.to_nat (n_frames cfg) - Z.to_nat (n_frames cfg))%nat
      with (length older) by lia.
    by rewrite drop_app_length.
Qed.

End VmLru.

(** [VirtualMemory] replaces pages least-recently-used first: after a
    sequence of reads and writes on a fresh [VirtualMemory] that
    completes, the pages in memory are the most recently accessed ones,
    as many as there are frames (or all of them, if fewer were
    accessed), and the LRU queue lists them from the least to the most
    recently accessed. *)
Theorem vm_lru_exact (cfg : Config) (pop_choice : gset Z → Z) (ops : list (bool * Z))
    (st : VirtualMemory.t) (evs : list event) :
  pop_spec pop_choice →
  vm_run cfg pop_choice ops (VirtualMemory.init cfg) = (Ok tt, st, evs) →
  VirtualMemory.lru_queue st
  = most_recent (Z.to_nat (n_frames cfg)) (recency cfg ops) ∧
  ∀ p, is_Some (VirtualMemory.page_table st !! p)
       ↔ p ∈ most_recent (Z.to_nat (n_frames cfg)) (recency cfg ops).
Proof.
  intros Hpop H.
  assert (Hreach : frame_partition cfg st).
  { clear -Hpop H. revert H. generalize (partition_init cfg).
    generalize (VirtualMemory.init cfg). revert evs.
    induction ops as [|[w a] ops IH]; intros evs st0 Hp H.
    - unfold vm_run, for_each, ret in H. by injection H as <- _.
    - unfold vm_run in H. simpl in H.
      apply bind_ok_inv in H as ([] & st1 & t1 & t2 & Hacc & H & ->).
      apply (IH t2 st1); [|exact H].
      by eapply (partition_access cfg pop_choice Hpop). }
  destruct (lru_exact_run cfg pop_choice Hpop ops [] (VirtualMemory.init cfg) st evs)
    as (Hcons & Hex); [apply partition_init|apply lru_consistent_init| |done|].
  { split; [apply NoDup_nil_2|]. exists []. split; [done|by left]. }
  pose proof (lru_exact_most_recent cfg _ st Hreach Hcons Hex) as Hq.
  split; [exact Hq|].
  intros p. destruct Hcons as [_ Hmem]. rewrite <- Hmem. by rewrite Hq.
Qed.

Lemma vm_lru_exact_witness :
  VirtualMemory.lru_queue
    (vm_run cfgC pop_first [(false, 0); (true, 16); (false, 3); (true, 40)]
       (VirtualMemory.init cfgC)).1.2
  = most_recent (Z.to_nat (n_frames cfgC))
      (recency cfgC [(false, 0); (true, 16); (false, 3); (true, 40)]) ∧
  ∀ p, is_Some (VirtualMemory.page_table
                  (vm_run cfgC pop_first [(false, 0); (true, 16); (false, 3); (true, 40)]
                     (VirtualMemory.init cfgC)).1.2 !! p)
       ↔ p ∈ most_recent (Z.to_nat (n_frames cfgC))
               (recency cfgC [(false, 0); (true, 16); (false, 3); (true, 40)]).
Proof.
  apply (vm_lru_exact cfgC pop_first [(false, 0); (true, 16); (false, 3); (true, 40)] _
           (vm_run cfgC pop_first [(false, 0); (true, 16); (false, 3); (true, 40)]
              (VirtualMemory.init cfgC)).2).
  - apply pop_first_spec.
  - vm_compute. reflexivity.
Defined.
